(** * nextjs-script-parser: a shallow embedding of [src/parser.ts]

    The development follows the source file from its leaves upwards:
    JavaScript strings and the string methods the parser calls, the
    JSON values with [JSON.parse] and [JSON.stringify], the two regular
    expressions of [detectDataType], and then the methods of the class
    [NextJSScriptParser] one by one, under their own names.

    Modelling conventions.
    - A JavaScript string is a list of code units; code units are
      restricted to 8 bits ([ascii]).
    - A method that returns an index or [-1] returns [option nat].
    - A [throw] is the [Throw] constructor of [result]; [try]/[catch] is a
      [match] on it.  Calls of [console.log] / [console.error] have no
      effect on any returned value and are left out.
    - A loop or a recursion whose termination is not structural takes a
      fuel argument; for each of them a lemma shows that the fuel the
      caller supplies is enough ([extractPushCallsLoop_total],
      [parse_fuel_enough], [fuel_stable]).
    - [JSON.parse] and [JSON.stringify] are not code of the repository;
      they are written out here after ECMA-262, on the values and strings
      of this model.
    - A number is a binary64 value, given by its sign, its odd
      significand and its exponent.  [JSON.parse] rounds the decimal of a
      literal to the nearest of them, [Number::toString] writes the
      shortest decimal that reads back as the number.
    - ECMA-262 sets no bound to the length of an argument list; an
      engine does.  Each method that spreads an array into the arguments
      of a call is given twice: under its own name for an engine without
      such a bound, and with the suffix [Bounded] for an engine that
      accepts a given number of arguments and throws a [RangeError]
      beyond it. *)

From Stdlib Require Import Ascii String NArith ZArith Lia Bool Arith.
From Stdlib Require Import List.
Import ListNotations.

Local Open Scope list_scope.

(* ================================================================= *)
(** ** JavaScript strings *)

Module JsString.

Definition jsstring := list ascii.

Definition str (s : string) : jsstring := list_ascii_of_string s.

Definition ch_eqb (a b : ascii) : bool := Ascii.eqb a b.

(** The double quote. *)
Definition dquote : ascii := "034"%char.

(** [qstr s] is [s] with a double quote in the place of every
    apostrophe: JSON text written with apostrophes reads better here. *)
Definition qstr (s : string) : jsstring :=
  map (fun c => if ch_eqb c "'"%char then dquote else c) (str s).

(** [/\s/] on one code unit: TAB, LF, VT, FF, CR, SPACE and NBSP are the
    white space and line terminator code units below 256. *)
Definition isWhitespace (c : ascii) : bool :=
  match nat_of_ascii c with
  | 9 | 10 | 11 | 12 | 13 | 32 | 160 => true
  | _ => false
  end.

Fixpoint startsWith (pat s : jsstring) : bool :=
  match pat, s with
  | [], _ => true
  | p :: pat', c :: s' => ch_eqb p c && startsWith pat' s'
  | _ :: _, [] => false
  end.

(** Offset of the first occurrence of [pat] in [s]. *)
Fixpoint search (pat s : jsstring) : option nat :=
  match s with
  | [] => if startsWith pat [] then Some 0 else None
  | _ :: s' => if startsWith pat s then Some 0 else option_map S (search pat s')
  end.

(** Offset of the last occurrence of [pat] in [s]. *)
Fixpoint searchLast (pat s : jsstring) : option nat :=
  match s with
  | [] => if startsWith pat [] then Some 0 else None
  | _ :: s' =>
      match searchLast pat s' with
      | Some k => Some (S k)
      | None => if startsWith pat s then Some 0 else None
      end
  end.

(** [s.indexOf(pat, from)] *)
Definition indexOf (s pat : jsstring) (from : nat) : option nat :=
  option_map (Nat.add (Nat.min from (length s))) (search pat (skipn from s)).

(** [s.lastIndexOf(pat)] *)
Definition lastIndexOf (s pat : jsstring) : option nat := searchLast pat s.

(** [s.includes(pat)] *)
Definition includes (s pat : jsstring) : bool :=
  match search pat s with Some _ => true | None => false end.

(** [s[i]], [None] standing for [undefined]. *)
Definition charAt (s : jsstring) (i : nat) : option ascii := nth_error s i.

Definition charIs (s : jsstring) (i : nat) (c : ascii) : bool :=
  match charAt s i with Some d => ch_eqb d c | None => false end.

(** [s.slice(a, b)] for non-negative [a], [b]. *)
Definition slice (s : jsstring) (a b : nat) : jsstring :=
  firstn (b - a) (skipn a s).

(** [s.substring(a, b)]: both ends are clamped to the length and swapped
    when they come in the wrong order. *)
Definition substring (s : jsstring) (a b : nat) : jsstring :=
  let a' := Nat.min a (length s) in
  let b' := Nat.min b (length s) in
  slice s (Nat.min a' b') (Nat.max a' b').

(** [s.substring(a)] *)
Definition substringFrom (s : jsstring) (a : nat) : jsstring := skipn a s.

Fixpoint trimStart (s : jsstring) : jsstring :=
  match s with
  | c :: s' => if isWhitespace c then trimStart s' else s
  | [] => []
  end.

Definition trimEnd (s : jsstring) : jsstring := rev (trimStart (rev s)).

(** [s.trim()] *)
Definition trim (s : jsstring) : jsstring := trimEnd (trimStart s).

(** [s.replace(/\s+/g, ' ')]; [inRun] tells that the previous code unit
    was white space already replaced. *)
Fixpoint collapseWhitespace (inRun : bool) (s : jsstring) : jsstring :=
  match s with
  | [] => []
  | c :: s' =>
      if isWhitespace c
      then (if inRun then collapseWhitespace true s'
            else " "%char :: collapseWhitespace true s')
      else c :: collapseWhitespace false s'
  end.

(** The number of leading white space code units. *)
Fixpoint leadingWhitespace (s : jsstring) : nat :=
  match s with
  | c :: s' => if isWhitespace c then S (leadingWhitespace s') else 0
  | [] => 0
  end.

(** [while (cursor < s.length && /\s/.test(s[cursor])) cursor++] *)
Definition skipWhitespace (s : jsstring) (cursor : nat) : nat :=
  cursor + leadingWhitespace (skipn cursor s).

Definition endsWith (s suffix : jsstring) : bool :=
  startsWith (rev suffix) (rev s).

Definition digitChar (d : N) : ascii := ascii_of_N (48 + d).

(** Decimal digits of a natural number, most significant first. *)
Fixpoint digitsFuel (fuel : nat) (n : N) (acc : jsstring) : jsstring :=
  match fuel with
  | 0 => acc
  | S fuel' =>
      let acc' := digitChar (n mod 10) :: acc in
      if (n <? 10)%N then acc' else digitsFuel fuel' (n / 10)%N acc'
  end.

Definition NToString (n : N) : jsstring :=
  digitsFuel (S (N.to_nat (N.log2 n))) n [].

(** [String(n)] for an array length or index [n]. *)
Definition natToString (n : nat) : jsstring := NToString (N.of_nat n).

End JsString.
Export JsString.

(* ================================================================= *)
(** ** The Bracket Matcher and the Call Extractor *)

Definition isQuote (c : ascii) : bool :=
  ch_eqb c dquote || ch_eqb c "'"%char || ch_eqb c "`"%char.

(** The body of the [for] loop of [findMatchingBracket], run over the
    code units from index [i] on.  [stringChar] is [Some q] exactly when
    the source has [inString = true] and [stringChar = q]; the two
    variables always change together.  The backslash case is the
    source's [i++; continue], which passes over the next code unit
    whatever it is. *)
Fixpoint scanBracket (rest : jsstring) (i : nat) (depth : Z)
         (stringChar : option ascii) : option nat :=
  match rest with
  | [] => None
  | char :: rest' =>
      match stringChar with
      | Some q =>
          if ch_eqb char "\"%char then
            match rest' with
            | [] => None
            | _ :: rest'' => scanBracket rest'' (i + 2) depth (Some q)
            end
          else if ch_eqb char q then scanBracket rest' (i + 1) depth None
          else scanBracket rest' (i + 1) depth (Some q)
      | None =>
          if isQuote char then scanBracket rest' (i + 1) depth (Some char)
          else if ch_eqb char "["%char then
            scanBracket rest' (i + 1) (depth + 1) None
          else if ch_eqb char "]"%char then
            if (depth - 1 =? 0)%Z then Some i
            else scanBracket rest' (i + 1) (depth - 1) None
          else scanBracket rest' (i + 1) depth None
      end
  end.

Definition findMatchingBracket (content : jsstring) (startIndex : nat)
  : option nat :=
  scanBracket (skipn startIndex content) startIndex 0 None.

Definition pushToken : jsstring := str "self.__next_f.push(".

(** What one pass through the body of the [while] loop of
    [extractPushCalls] does with the hit at [start]: either the hit is
    dropped and the search resumes at [next], or the call is accepted and
    ends just before [stop]. *)
Inductive attempt : Type :=
| Rejected (next : nat)
| Accepted (stop : nat).

Definition tryPushCall (content : jsstring) (start : nat) : attempt :=
  let cursor := skipWhitespace content (start + length pushToken) in
  if (length content <=? cursor) || negb (charIs content cursor "["%char)
  then Rejected (cursor + 1)
  else
    let arrayStart := cursor in
    match findMatchingBracket content arrayStart with
    | None => Rejected (arrayStart + 1)
    | Some arrayEnd =>
        let afterArray := skipWhitespace content (arrayEnd + 1) in
        if (length content <=? afterArray)
           || negb (charIs content afterArray ")"%char)
        then Rejected afterArray
        else
          let afterArray := afterArray + 1 in
          if (afterArray <? length content)
             && charIs content afterArray ";"%char
          then Accepted (afterArray + 1)
          else Accepted afterArray
    end.

Fixpoint extractPushCallsLoop (fuel : nat) (content : jsstring)
         (searchIndex : nat) (calls : list jsstring)
  : option (list jsstring) :=
  match fuel with
  | 0 => None
  | S fuel' =>
      if searchIndex <? length content then
        match indexOf content pushToken searchIndex with
        | None => Some calls
        | Some start =>
            match tryPushCall content start with
            | Rejected next => extractPushCallsLoop fuel' content next calls
            | Accepted stop =>
                let snippet := trim (slice content start stop) in
                extractPushCallsLoop fuel' content stop (calls ++ [snippet])
            end
        end
      else Some calls
  end.

Definition extractPushCalls (content : jsstring) : option (list jsstring) :=
  extractPushCallsLoop (S (length content)) content 0 [].

(* ================================================================= *)
(** ** JSON values *)

(** A JavaScript number is an IEEE 754 binary64 value.  The parser never
    computes with numbers: it reads them with [JSON.parse], tests them
    for truthiness and prints them with [JSON.stringify] and [String].
    - [Int z]: a safe integer, [|z| <= 2^53 - 1], positive zero
      included; JavaScript prints all the digits of [z];
    - [NegZero]: negative zero;
    - [Infinity neg]: [JSON.parse] yields it for a literal beyond the
      range of doubles, such as [1e999];
    - [Dbl neg m e]: any other finite number, of absolute value
      [m * 2^e] with [m] odd. *)
Inductive number : Type :=
| Int (z : Z)
| NegZero
| Infinity (negative : bool)
| Dbl (negative : bool) (m : positive) (e : Z).

Definition isOdd (m : positive) : bool :=
  match m with
  | xO _ => false
  | _ => true
  end.

Definition number_eqb (a b : number) : bool :=
  match a, b with
  | Int x, Int y => (x =? y)%Z
  | NegZero, NegZero => true
  | Infinity x, Infinity y => Bool.eqb x y
  | Dbl x m e, Dbl y m' e' => Bool.eqb x y && (m =? m')%positive && (e =? e')%Z
  | _, _ => false
  end.

Definition maxSafeInteger : Z := 2 ^ 53 - 1.

(** *** The number value of a decimal

    [JSON.parse] gives a literal the number value of its mathematical
    value: the double next to it, the one with an even significand when
    two are equally near. *)

(** Decimals from [2^1024 - 2^970] on round to an infinity, decimals up
    to [2^-1075] round to zero. *)
Definition overflows (m e : Z) : bool :=
  if (0 <=? e)%Z then (2 ^ 1024 - 2 ^ 970 <=? m * 10 ^ e)%Z
  else ((2 ^ 1024 - 2 ^ 970) * 10 ^ (- e) <=? m)%Z.

Definition underflows (m e : Z) : bool :=
  (e <? 0)%Z && (m * 2 ^ 1075 <=? 10 ^ (- e))%Z.

Definition integerValue (m e : Z) : option Z :=
  if (0 <=? e)%Z then Some (m * 10 ^ e)%Z
  else if (m mod 10 ^ (- e) =? 0)%Z then Some (m / 10 ^ (- e))%Z
  else None.

(** [2^l <= p / q], for [p] and [q] above zero. *)
Definition atLeastPow2 (p q l : Z) : bool :=
  if (0 <=? l)%Z then (q * 2 ^ l <=? p)%Z else (q <=? p * 2 ^ (- l))%Z.

(** The [l] with [2^l <= p / q < 2^(l + 1)]. *)
Definition floorLog2 (p q : Z) : Z :=
  let l := (Z.log2 p - Z.log2 q)%Z in
  if atLeastPow2 p q l then l else (l - 1)%Z.

(** The integer next to [num / den], the even one of two equally near. *)
Definition roundHalfEven (num den : Z) : Z :=
  let a := (num / den)%Z in
  match (2 * (num mod den) ?= den)%Z with
  | Lt => a
  | Gt => (a + 1)%Z
  | Eq => if Z.even a then a else (a + 1)%Z
  end.

(** The significand and the exponent of the double next to [p / q]: 53
    bits, the exponent not below -1074. *)
Definition binary64 (p q : Z) : Z * Z :=
  let e := Z.max (floorLog2 p q - 52) (- 1074) in
  let m := if (0 <=? e)%Z then roundHalfEven p (q * 2 ^ e)
           else roundHalfEven (p * 2 ^ (- e)) q in
  (m, e).

(** The odd part of [m], and how often 2 divides [m]. *)
Fixpoint oddPart (m : positive) : positive * Z :=
  match m with
  | xO m' => let (o, t) := oddPart m' in (o, (t + 1)%Z)
  | _ => (m, 0%Z)
  end.

(** The number [m * 2^e], signed. *)
Definition numberOfBinary (neg : bool) (m e : Z) : number :=
  match m with
  | Zpos m =>
      let (o, t) := oddPart m in
      let e := (e + t)%Z in
      let v := (Zpos o * 2 ^ e)%Z in
      if (0 <=? e)%Z && (v <=? maxSafeInteger)%Z
      then Int (if neg then - v else v)
      else Dbl neg o e
  | _ => if neg then NegZero else Int 0
  end.

(** The number value of the decimal [m * 10^e], signed. *)
Definition numberOfLiteral (neg : bool) (m e : Z) : number :=
  if (m =? 0)%Z then (if neg then NegZero else Int 0)
  else if overflows m e then Infinity neg
  else if underflows m e then (if neg then NegZero else Int 0)
  else match integerValue m e with
       | Some v => if (v <=? maxSafeInteger)%Z
                   then Int (if neg then - v else v)
                   else let (m2, e2) := binary64 v 1 in numberOfBinary neg m2 e2
       | None => let (m2, e2) := binary64 m (10 ^ (- e)) in
                 numberOfBinary neg m2 e2
       end.

(** *** [Number::toString]

    The digits of a finite number are those of the decimal [s * 10^q]
    with the fewest digits [k] that has the number as its number value,
    the nearest one when several have. *)

(** The [n] with [10^(n - 1) <= p / q < 10^n]. *)
Definition decimalPoint (p q : Z) : Z :=
  if (q <=? p)%Z then Z.of_nat (length (NToString (Z.to_N (p / q))))
  else let d := Z.of_nat (length (NToString (Z.to_N (q / p)))) in
       if (p * 10 ^ (d - 1) =? q)%Z then (2 - d)%Z else (1 - d)%Z.

(** The two decimals of [k] digits around [p / q], the nearer first.  The
    upper one may be [10^k], which is written with one digit. *)
Definition candidates (p q n k : Z) : (Z * Z) * (Z * Z) :=
  let q10 := (n - k)%Z in
  let num := if (0 <=? q10)%Z then p else (p * 10 ^ (- q10))%Z in
  let den := if (0 <=? q10)%Z then (q * 10 ^ q10)%Z else q in
  let lo := (num / den)%Z in
  let near := roundHalfEven num den in
  let far := if (near =? lo)%Z then (lo + 1)%Z else lo in
  let decimal := fun s => if (s =? 10 ^ k)%Z then (1%Z, n) else (s, q10) in
  (decimal near, decimal far).

Definition roundsTo (neg : bool) (d : Z * Z) (x : number) : bool :=
  number_eqb (numberOfLiteral neg (fst d) (snd d)) x.

Fixpoint shortestDecimal (fuel : nat) (k : Z) (neg : bool) (p q n : Z)
         (x : number) : option (Z * Z) :=
  match fuel with
  | 0 => None
  | S fuel' =>
      let (near, far) := candidates p q n k in
      if roundsTo neg near x then Some near
      else if roundsTo neg far x then Some far
      else shortestDecimal fuel' (k + 1)%Z neg p q n x
  end.

(** [m * 2^e] written out in full. *)
Definition exactDecimal (m : positive) (e : Z) : Z * Z :=
  if (0 <=? e)%Z then (Zpos m * 2 ^ e, 0)%Z else (Zpos m * 5 ^ (- e), e)%Z.

(** Seventeen digits always tell a double from its neighbours, so the
    search ends before the exact decimal is asked for. *)
Definition decimalOf (neg : bool) (m : positive) (e : Z) : Z * Z :=
  let p := if (0 <=? e)%Z then (Zpos m * 2 ^ e)%Z else Zpos m in
  let q := if (0 <=? e)%Z then 1%Z else (2 ^ (- e))%Z in
  match shortestDecimal 17 1 neg p q (decimalPoint p q) (Dbl neg m e) with
  | Some d => d
  | None => exactDecimal m e
  end.

(** A number literal: the digits before the point, the digits after
    it, if any, and the exponent, if any, with its sign. *)
Definition decimalText (int frac : jsstring) (expo : option (bool * jsstring))
  : jsstring :=
  int ++ match frac with
         | [] => []
         | _ => "."%char :: frac
         end
      ++ match expo with
         | None => []
         | Some (neg, ds) => "e"%char :: (if neg then "-"%char else "+"%char) :: ds
         end.

(** Steps 6 to 10 of [Number::toString], for the decimal [s * 10^q]:
    with [k] digits and the decimal point after [n] of them. *)
Definition formatDecimal (d : Z * Z) : jsstring :=
  let digits := NToString (Z.to_N (fst d)) in
  let k := Z.of_nat (length digits) in
  let n := (snd d + k)%Z in
  if (k <=? n)%Z && (n <=? 21)%Z
  then decimalText (digits ++ repeat "0"%char (Z.to_nat (n - k))) [] None
  else if (0 <? n)%Z && (n <=? 21)%Z
  then decimalText (firstn (Z.to_nat n) digits) (skipn (Z.to_nat n) digits) None
  else if (-6 <? n)%Z && (n <=? 0)%Z
  then decimalText ["0"%char] (repeat "0"%char (Z.to_nat (- n)) ++ digits) None
  else decimalText (firstn 1 digits) (skipn 1 digits)
                   (Some ((n - 1 <? 0)%Z, NToString (Z.to_N (Z.abs (n - 1))))).

(** [Number::toString], radix 10. *)
Definition numberToString (n : number) : jsstring :=
  match n with
  | Int z => if (z <? 0)%Z then "-"%char :: NToString (Z.to_N (- z))
             else NToString (Z.to_N z)
  | NegZero => ["0"%char]
  | Infinity false => str "Infinity"
  | Infinity true => str "-Infinity"
  | Dbl neg m e =>
      (if neg then ["-"%char] else []) ++ formatDecimal (decimalOf neg m e)
  end.

Unset Elimination Schemes.
Inductive json : Type :=
| JNull
| JBool (b : bool)
| JNum (n : number)
| JStr (s : jsstring)
| JArr (items : list json)
| JObj (props : list (jsstring * json)).
Set Elimination Schemes.

(** The properties of an object, in the order JavaScript enumerates
    them. *)
Definition object := list (jsstring * json).

Section JsonInduction.
Variable P : json -> Prop.
Hypothesis Hnull : P JNull.
Hypothesis Hbool : forall b, P (JBool b).
Hypothesis Hnum : forall n, P (JNum n).
Hypothesis Hstr : forall s, P (JStr s).
Hypothesis Harr : forall items, Forall P items -> P (JArr items).
Hypothesis Hobj :
  forall props, Forall (fun kv => P (snd kv)) props -> P (JObj props).

Fixpoint json_ind (v : json) : P v :=
  match v with
  | JNull => Hnull
  | JBool b => Hbool b
  | JNum n => Hnum n
  | JStr s => Hstr s
  | JArr items =>
      Harr items
        ((fix all (l : list json) : Forall P l :=
            match l with
            | [] => Forall_nil P
            | x :: l' => Forall_cons x (json_ind x) (all l')
            end) items)
  | JObj props =>
      Hobj props
        ((fix all (l : object) : Forall (fun kv => P (snd kv)) l :=
            match l with
            | [] => Forall_nil _
            | kv :: l' =>
                @Forall_cons _ (fun kv => P (snd kv)) kv l'
                             (json_ind (snd kv)) (all l')
            end) props)
  end.
End JsonInduction.

Fixpoint str_eqb (a b : jsstring) : bool :=
  match a, b with
  | [], [] => true
  | x :: a', y :: b' => ch_eqb x y && str_eqb a' b'
  | _, _ => false
  end.

Definition isDigit (c : ascii) : bool :=
  (48 <=? nat_of_ascii c) && (nat_of_ascii c <=? 57).

Definition digitValue (c : ascii) : Z := Z.of_nat (nat_of_ascii c) - 48.

Definition digitsValue (ds : jsstring) : Z :=
  fold_left (fun a c => 10 * a + digitValue c)%Z ds 0%Z.

(** *** Property order of objects

    An own property key that is a canonical array index (the decimal
    form of an integer below [2^32 - 1]) is enumerated before every other
    key, in ascending numeric order; the other keys follow in the order
    they were created. *)
Definition arrayIndex (k : jsstring) : option Z :=
  match k with
  | [] => None
  | c :: k' =>
      if forallb isDigit k
         && negb (ch_eqb c "0"%char && negb (length k' =? 0))
         && (digitsValue k <=? 4294967294)%Z
      then Some (digitsValue k) else None
  end.

Fixpoint obj_get (k : jsstring) (o : object) : option json :=
  match o with
  | [] => None
  | (k', v) :: o' => if str_eqb k k' then Some v else obj_get k o'
  end.

Definition obj_has (k : jsstring) (o : object) : bool :=
  match obj_get k o with Some _ => true | None => false end.

Fixpoint obj_replace (k : jsstring) (v : json) (o : object) : object :=
  match o with
  | [] => []
  | (k', v') :: o' =>
      if str_eqb k k' then (k', v) :: o' else (k', v') :: obj_replace k v o'
  end.

Fixpoint obj_insert_index (i : Z) (k : jsstring) (v : json) (o : object)
  : object :=
  match o with
  | [] => [(k, v)]
  | (k', v') :: o' =>
      match arrayIndex k' with
      | Some j =>
          if (j <? i)%Z then (k', v') :: obj_insert_index i k v o'
          else (k, v) :: o
      | None => (k, v) :: o
      end
  end.

(** [o[k] = v] on a plain object (CreateDataProperty). *)
Definition obj_set (k : jsstring) (v : json) (o : object) : object :=
  if obj_has k o then obj_replace k v o
  else match arrayIndex k with
       | Some i => obj_insert_index i k v o
       | None => o ++ [(k, v)]
       end.

(** [delete o[k]] *)
Definition obj_delete (k : jsstring) (o : object) : object :=
  filter (fun kv => negb (str_eqb k (fst kv))) o.

(** A key list is in enumeration order. *)
Fixpoint keysOrdered (ks : list jsstring) : bool :=
  match ks with
  | [] => true
  | k :: ks' =>
      match arrayIndex k with
      | Some i =>
          forallb (fun k' => match arrayIndex k' with
                             | Some j => (i <? j)%Z
                             | None => true
                             end) ks'
      | None =>
          forallb (fun k' => match arrayIndex k' with
                             | Some _ => false
                             | None => true
                             end) ks'
      end && keysOrdered ks'
  end.

Fixpoint distinctKeys (ks : list jsstring) : bool :=
  match ks with
  | [] => true
  | k :: ks' => negb (existsb (str_eqb k) ks') && distinctKeys ks'
  end.

(** The lists that are the property list of some object: no key twice,
    keys in enumeration order. *)
Definition objectOk (o : object) : bool :=
  distinctKeys (map fst o) && keysOrdered (map fst o).

(** *** Truthiness ([ToBoolean]) *)
Definition truthy (v : json) : bool :=
  match v with
  | JNull => false
  | JBool b => b
  | JNum (Int z) => negb (z =? 0)%Z
  | JNum NegZero => false
  | JNum _ => true
  | JStr s => negb (length s =? 0)
  | JArr _ | JObj _ => true
  end.

(* ================================================================= *)
(** ** [JSON.stringify] *)

Definition hexDigit (d : nat) : ascii :=
  nth d (str "0123456789abcdef") "0"%char.

(** One code unit of QuoteJSONString. *)
Definition quoteChar (c : ascii) : jsstring :=
  if ch_eqb c dquote then ["\"%char; dquote]
  else if ch_eqb c "\"%char then str "\\"
  else match nat_of_ascii c with
       | 8 => str "\b"
       | 9 => str "\t"
       | 10 => str "\n"
       | 12 => str "\f"
       | 13 => str "\r"
       | n => if n <? 32
              then str "\u00" ++ [hexDigit (n / 16); hexDigit (n mod 16)]
              else [c]
       end.

Definition quoteJSONString (s : jsstring) : jsstring :=
  dquote :: flat_map quoteChar s ++ [dquote].

(** A number that is not finite serializes as [null]. *)
Definition numberToJSON (n : number) : jsstring :=
  match n with
  | Infinity _ => str "null"
  | _ => numberToString n
  end.

Fixpoint join (sep : jsstring) (parts : list jsstring) : jsstring :=
  match parts with
  | [] => []
  | [p] => p
  | p :: parts' => p ++ sep ++ join sep parts'
  end.

Definition newline : jsstring := ["010"%char].

(** SerializeJSONProperty, SerializeJSONArray and SerializeJSONObject,
    with the state's [gap] and current [indent]. *)
Fixpoint serialize (gap indent : jsstring) (v : json) : jsstring :=
  match v with
  | JNull => str "null"
  | JBool true => str "true"
  | JBool false => str "false"
  | JNum n => numberToJSON n
  | JStr s => quoteJSONString s
  | JArr items =>
      let stepback := indent in
      let indent := indent ++ gap in
      match map (serialize gap indent) items with
      | [] => str "[]"
      | partial =>
          match gap with
          | [] => "["%char :: join (str ",") partial ++ str "]"
          | _ =>
              "["%char :: newline ++ indent
                ++ join (str "," ++ newline ++ indent) partial
                ++ newline ++ stepback ++ str "]"
          end
      end
  | JObj props =>
      let stepback := indent in
      let indent := indent ++ gap in
      let member (kv : jsstring * json) :=
        quoteJSONString (fst kv) ++ str ":"
          ++ match gap with [] => [] | _ => str " " end
          ++ serialize gap indent (snd kv) in
      match map member props with
      | [] => str "{}"
      | partial =>
          match gap with
          | [] => "{"%char :: join (str ",") partial ++ str "}"
          | _ =>
              "{"%char :: newline ++ indent
                ++ join (str "," ++ newline ++ indent) partial
                ++ newline ++ stepback ++ str "}"
          end
      end
  end.

(** [JSON.stringify(v, null, space)] for a number [space], and
    [JSON.stringify(v)] as [space = 0]. *)
Definition JSON_stringify (v : json) (space : nat) : jsstring :=
  serialize (repeat " "%char (Nat.min space 10)) [] v.

(* ================================================================= *)
(** ** [JSON.parse] *)

(** An exception-free rendering of [throw]: the value, or the message of
    the [Error] thrown. *)
Inductive result (A : Type) : Type :=
| Ok (a : A)
| Throw (message : jsstring).
Arguments Ok {A} a.
Arguments Throw {A} message.

(** The outcome of one parsing function on a prefix of the input. *)
Inductive presult (A : Type) : Type :=
| POk (a : A) (rest : jsstring)
| PErr (message : jsstring)
| PFuel.
Arguments POk {A} a rest.
Arguments PErr {A} message.
Arguments PFuel {A}.

(** The text of a [SyntaxError] is engine defined; these stand for it. *)
Definition unexpectedToken : jsstring := str "Unexpected token in JSON".
Definition unexpectedEnd : jsstring := str "Unexpected end of JSON input".
Definition badEscape : jsstring := str "Bad escaped character in JSON".
Definition badControl : jsstring := str "Bad control character in string literal in JSON".
Definition wideCodeUnit : jsstring := str "Code unit above 255".

Definition isJsonWs (c : ascii) : bool :=
  match nat_of_ascii c with
  | 9 | 10 | 13 | 32 => true
  | _ => false
  end.

Fixpoint skipWs (s : jsstring) : jsstring :=
  match s with
  | c :: s' => if isJsonWs c then skipWs s' else s
  | [] => []
  end.

Definition hexValue (c : ascii) : option nat :=
  let n := nat_of_ascii c in
  if (48 <=? n) && (n <=? 57) then Some (n - 48)
  else if (97 <=? n) && (n <=? 102) then Some (n - 87)
  else if (65 <=? n) && (n <=? 70) then Some (n - 55)
  else None.

(** The four hex digits of a [\u] escape.  A code unit above 255 lies
    outside the 8-bit strings of this model and is refused. *)
Definition unicodeEscape (h1 h2 h3 h4 : ascii) : result ascii :=
  match hexValue h1, hexValue h2, hexValue h3, hexValue h4 with
  | Some a, Some b, Some c, Some d =>
      if (a =? 0) && (b =? 0) then Ok (ascii_of_nat (16 * c + d))
      else Throw wideCodeUnit
  | _, _, _, _ => Throw badEscape
  end.

(** The characters of a string literal after its opening quote. *)
Fixpoint parseStringBody (s acc : jsstring) : presult jsstring :=
  match s with
  | [] => PErr unexpectedEnd
  | c :: s' =>
      if ch_eqb c dquote then POk acc s'
      else if ch_eqb c "\"%char then
        match s' with
        | [] => PErr unexpectedEnd
        | e :: s'' =>
            if ch_eqb e dquote then parseStringBody s'' (acc ++ [e])
            else if ch_eqb e "\"%char then parseStringBody s'' (acc ++ [e])
            else if ch_eqb e "/"%char then parseStringBody s'' (acc ++ [e])
            else if ch_eqb e "b"%char then parseStringBody s'' (acc ++ ["008"%char])
            else if ch_eqb e "f"%char then parseStringBody s'' (acc ++ ["012"%char])
            else if ch_eqb e "n"%char then parseStringBody s'' (acc ++ ["010"%char])
            else if ch_eqb e "r"%char then parseStringBody s'' (acc ++ ["013"%char])
            else if ch_eqb e "t"%char then parseStringBody s'' (acc ++ ["009"%char])
            else if ch_eqb e "u"%char then
              match s'' with
              | h1 :: h2 :: h3 :: h4 :: s3 =>
                  match unicodeEscape h1 h2 h3 h4 with
                  | Ok u => parseStringBody s3 (acc ++ [u])
                  | Throw m => PErr m
                  end
              | _ => PErr badEscape
              end
            else PErr badEscape
        end
      else if nat_of_ascii c <? 32 then PErr badControl
      else parseStringBody s' (acc ++ [c])
  end.

Fixpoint spanDigits (s : jsstring) : jsstring * jsstring :=
  match s with
  | c :: s' =>
      if isDigit c then let (ds, r) := spanDigits s' in (c :: ds, r)
      else ([], s)
  | [] => ([], [])
  end.

(** [int]: a single [0], or digits that start with a non-zero one. *)
Definition scanInt (s : jsstring) : option (jsstring * jsstring) :=
  match s with
  | c :: s' =>
      if ch_eqb c "0"%char then Some ([c], s')
      else if isDigit c then Some (spanDigits s)
      else None
  | [] => None
  end.

(** [frac]: nothing, or a dot and at least one digit. *)
Definition scanFrac (s : jsstring) : option (jsstring * jsstring) :=
  match s with
  | c :: s' =>
      if ch_eqb c "."%char then
        match spanDigits s' with
        | ([], _) => None
        | (ds, r) => Some (ds, r)
        end
      else Some ([], s)
  | [] => Some ([], [])
  end.

(** [exp]: nothing, or [e]/[E], an optional sign and at least one digit. *)
Definition scanExp (s : jsstring) : option (bool * jsstring * jsstring) :=
  match s with
  | c :: s' =>
      if ch_eqb c "e"%char || ch_eqb c "E"%char then
        let (neg, s'') :=
          match s' with
          | d :: t => if ch_eqb d "+"%char then (false, t)
                      else if ch_eqb d "-"%char then (true, t)
                      else (false, s')
          | [] => (false, s')
          end in
        match spanDigits s'' with
        | ([], _) => None
        | (ds, r) => Some (neg, ds, r)
        end
      else Some (false, [], s)
  | [] => Some (false, [], [])
  end.

Definition parseNumber (s : jsstring) : presult number :=
  let (neg, s1) :=
    match s with
    | c :: t => if ch_eqb c "-"%char then (true, t) else (false, s)
    | [] => (false, s)
    end in
  match scanInt s1 with
  | None => PErr unexpectedToken
  | Some (int, s2) =>
      match scanFrac s2 with
      | None => PErr unexpectedToken
      | Some (frac, s3) =>
          match scanExp s3 with
          | None => PErr unexpectedToken
          | Some (eneg, eds, s4) =>
              let m := digitsValue (int ++ frac) in
              let x := digitsValue eds in
              let e := ((if eneg then - x else x) - Z.of_nat (length frac))%Z in
              POk (numberOfLiteral neg m e) s4
          end
      end
  end.

Definition expect (word : jsstring) (v : json) (s : jsstring) : presult json :=
  if startsWith word s then POk v (skipn (length word) s)
  else PErr unexpectedToken.

Definition pmap {A B : Type} (f : A -> B) (r : presult A) : presult B :=
  match r with
  | POk a rest => POk (f a) rest
  | PErr m => PErr m
  | PFuel => PFuel
  end.

(** Recursive descent over the JSON grammar.  [parseElements] reads the
    elements of an array after its first one was found to exist, and
    [parseMembers] the members of an object. *)
Fixpoint parseValue (fuel : nat) (s : jsstring) : presult json :=
  match fuel with
  | 0 => PFuel
  | S fuel' =>
      match skipWs s with
      | [] => PErr unexpectedEnd
      | c :: s' =>
          if ch_eqb c "n"%char then expect (str "null") JNull (c :: s')
          else if ch_eqb c "t"%char then expect (str "true") (JBool true) (c :: s')
          else if ch_eqb c "f"%char then expect (str "false") (JBool false) (c :: s')
          else if ch_eqb c dquote then pmap JStr (parseStringBody s' [])
          else if ch_eqb c "["%char then
            match skipWs s' with
            | d :: r => if ch_eqb d "]"%char then POk (JArr []) r
                        else parseElements fuel' s' []
            | [] => PErr unexpectedEnd
            end
          else if ch_eqb c "{"%char then
            match skipWs s' with
            | d :: r => if ch_eqb d "}"%char then POk (JObj []) r
                        else parseMembers fuel' s' []
            | [] => PErr unexpectedEnd
            end
          else if ch_eqb c "-"%char || isDigit c then pmap JNum (parseNumber (c :: s'))
          else PErr unexpectedToken
      end
  end
with parseElements (fuel : nat) (s : jsstring) (acc : list json)
  : presult json :=
  match fuel with
  | 0 => PFuel
  | S fuel' =>
      match parseValue fuel' s with
      | POk v r =>
          match skipWs r with
          | d :: r' =>
              if ch_eqb d ","%char then parseElements fuel' r' (acc ++ [v])
              else if ch_eqb d "]"%char then POk (JArr (acc ++ [v])) r'
              else PErr unexpectedToken
          | [] => PErr unexpectedEnd
          end
      | PErr m => PErr m
      | PFuel => PFuel
      end
  end
with parseMembers (fuel : nat) (s : jsstring) (acc : object)
  : presult json :=
  match fuel with
  | 0 => PFuel
  | S fuel' =>
      match skipWs s with
      | q :: s1 =>
          if ch_eqb q dquote then
            match parseStringBody s1 [] with
            | POk k s2 =>
                match skipWs s2 with
                | c :: s3 =>
                    if ch_eqb c ":"%char then
                      match parseValue fuel' s3 with
                      | POk v r =>
                          match skipWs r with
                          | d :: r' =>
                              if ch_eqb d ","%char
                              then parseMembers fuel' r' (obj_set k v acc)
                              else if ch_eqb d "}"%char
                              then POk (JObj (obj_set k v acc)) r'
                              else PErr unexpectedToken
                          | [] => PErr unexpectedEnd
                          end
                      | PErr m => PErr m
                      | PFuel => PFuel
                      end
                    else PErr unexpectedToken
                | [] => PErr unexpectedEnd
                end
            | PErr m => PErr m
            | PFuel => PFuel
            end
          else PErr unexpectedToken
      | [] => PErr unexpectedEnd
      end
  end.

Definition outOfFuel : jsstring := str "out of fuel".

(** [JSON.parse(text)]: one value, then nothing but white space. *)
Definition JSON_parse (text : jsstring) : result json :=
  match parseValue (2 * length text + 2) text with
  | POk v rest =>
      match skipWs rest with
      | [] => Ok v
      | _ :: _ => Throw unexpectedToken
      end
  | PErr m => Throw m
  | PFuel => Throw outOfFuel
  end.

(* ================================================================= *)
(** ** Regular expressions *)

(** The fragment of regular expressions the source uses, matched by
    derivatives. *)
Inductive regex : Type :=
| RVoid
| REps
| RClass (p : ascii -> bool)
| RSeq (r1 r2 : regex)
| RAlt (r1 r2 : regex)
| RStar (r : regex).

(** [r+] *)
Definition RPlus (r : regex) : regex := RSeq r (RStar r).

(** A literal run of characters. *)
Fixpoint RLit (s : jsstring) : regex :=
  match s with
  | [] => REps
  | c :: s' => RSeq (RClass (ch_eqb c)) (RLit s')
  end.

Fixpoint nullable (r : regex) : bool :=
  match r with
  | RVoid => false
  | REps => true
  | RClass _ => false
  | RSeq r1 r2 => nullable r1 && nullable r2
  | RAlt r1 r2 => nullable r1 || nullable r2
  | RStar _ => true
  end.

Fixpoint deriv (c : ascii) (r : regex) : regex :=
  match r with
  | RVoid => RVoid
  | REps => RVoid
  | RClass p => if p c then REps else RVoid
  | RSeq r1 r2 =>
      if nullable r1 then RAlt (RSeq (deriv c r1) r2) (deriv c r2)
      else RSeq (deriv c r1) r2
  | RAlt r1 r2 => RAlt (deriv c r1) (deriv c r2)
  | RStar r1 => RSeq (deriv c r1) (RStar r1)
  end.

(** [/^r/.test(s)]: some prefix of [s] matches [r]. *)
Fixpoint testAnchored (r : regex) (s : jsstring) : bool :=
  nullable r
  || match s with
     | [] => false
     | c :: s' => testAnchored (deriv c r) s'
     end.

Definition inRange (lo hi c : ascii) : bool :=
  (nat_of_ascii lo <=? nat_of_ascii c) && (nat_of_ascii c <=? nat_of_ascii hi).

Definition toLowerAscii (c : ascii) : ascii :=
  if inRange "A" "Z" c then ascii_of_nat (nat_of_ascii c + 32) else c.

Definition toUpperAscii (c : ascii) : ascii :=
  if inRange "a" "z" c then ascii_of_nat (nat_of_ascii c - 32) else c.

(** A character class under the [i] flag: a code unit matches when its
    lower-case or its upper-case form is in the class.  Without the [u]
    flag only the ASCII letters have a second case that is ASCII. *)
Definition ignoreCase (p : ascii -> bool) (c : ascii) : bool :=
  p (toLowerAscii c) || p (toUpperAscii c).

(** [[0-9a-f]] *)
Definition hexLower (c : ascii) : bool := inRange "0" "9" c || inRange "a" "f" c.

(** [[0-9a-z]] *)
Definition alnumLower (c : ascii) : bool := inRange "0" "9" c || inRange "a" "z" c.

(** [/^[0-9a-f]+:I\[/] *)
Definition moduleLoadingPattern : regex :=
  RSeq (RPlus (RClass hexLower)) (RLit (str ":I[")).

(** [/^[0-9a-z]+:\[/i] *)
Definition componentDataPattern : regex :=
  RSeq (RPlus (RClass (ignoreCase alnumLower))) (RLit (str ":[")).

(* ================================================================= *)
(** ** The Payload Classifier *)

(** ['component-data' | 'module-loading' | 'unknown'] *)
Inductive DataType : Type := ComponentData | ModuleLoading | Unknown.

Definition DataType_eqb (a b : DataType) : bool :=
  match a, b with
  | ComponentData, ComponentData
  | ModuleLoading, ModuleLoading
  | Unknown, Unknown => true
  | _, _ => false
  end.

Definition detectDataType (data : jsstring) : DataType :=
  if testAnchored moduleLoadingPattern data || includes data (str "static/chunks/")
  then ModuleLoading
  else if testAnchored componentDataPattern data then ComponentData
  else Unknown.

(* ================================================================= *)
(** ** The Tree Builder *)

(** [interface ParsedComponent].  [component] is declared a string, but
    it is filled with [componentArray[1]], whatever that is; a child is
    a [ParsedComponent] or a string. *)
Unset Elimination Schemes.
Inductive ParsedComponent : Type :=
| mkParsedComponent
    (type : jsstring)
    (component : json)
    (props : object)
    (children : option (list (ParsedComponent + jsstring))).
Set Elimination Schemes.

Definition pc_type (c : ParsedComponent) : jsstring :=
  match c with mkParsedComponent t _ _ _ => t end.
Definition pc_component (c : ParsedComponent) : json :=
  match c with mkParsedComponent _ n _ _ => n end.
Definition pc_props (c : ParsedComponent) : object :=
  match c with mkParsedComponent _ _ p _ => p end.
Definition pc_children (c : ParsedComponent)
  : option (list (ParsedComponent + jsstring)) :=
  match c with mkParsedComponent _ _ _ ch => ch end.

(** [{ type: 'text', component: 'text', props: { content: data } }] *)
Definition textNode (data : jsstring) : ParsedComponent :=
  mkParsedComponent (str "text") (JStr (str "text"))
                    [(str "content", JStr data)] None.

(** [v === '$'] *)
Definition isDollar (v : json) : bool :=
  match v with
  | JStr s => str_eqb s (str "$")
  | _ => false
  end.

(** [data.length > 0 && data[0] === '$'] *)
Definition headIsDollar (data : list json) : bool :=
  match data with
  | v :: _ => isDollar v
  | [] => false
  end.

Fixpoint indexedFrom {A : Type} (f : A -> json) (i : nat) (l : list A) : object :=
  match l with
  | [] => []
  | x :: l' => (natToString i, f x) :: indexedFrom f (S i) l'
  end.

(** [{ ...props }]: the own enumerable properties of [props], in
    enumeration order.  An array and a string spread their elements
    under their indices; a number or a boolean has none. *)
Definition spread (props : json) : object :=
  match props with
  | JObj o => o
  | JArr items => indexedFrom (fun v => v) 0 items
  | JStr s => indexedFrom (fun c => JStr [c]) 0 s
  | _ => []
  end.

(** [props.children] for a [props] that is neither [null] nor
    [undefined]; [None] stands for [undefined].  Only a plain object can
    have such a property. *)
Definition getChildren (props : json) : option json :=
  match props with
  | JObj o => obj_get (str "children") o
  | _ => None
  end.

(** [componentArray[3] || {}] *)
Definition propsOf (componentArray : list json) : json :=
  match nth_error componentArray 3 with
  | Some v => if truthy v then v else JObj []
  | None => JObj []
  end.

(** [componentArray[1]] of an array of length 3 at least. *)
Definition componentTypeOf (componentArray : list json) : json :=
  nth 1 componentArray JNull.

Definition isString (v : json) : bool :=
  match v with JStr _ => true | _ => false end.

(** The three mutually recursive methods.  Every call spends one unit of
    [fuel]; [json_depth v + 2] units are enough for [v] (lemmas
    [parseComponentStructureFuel_stable] and its companions), and the
    methods proper are defined below with that much. *)
Fixpoint parseComponentStructureFuel (fuel : nat) (data : json)
  : list ParsedComponent :=
  match fuel with
  | 0 => []
  | S fuel' =>
      match data with
      | JStr s => [textNode s]
      | JArr items =>
          if headIsDollar items then
            match parseComponentFuel fuel' items with
            | Some parsed => [parsed]
            | None => []
            end
          else
            flat_map
              (fun item =>
                 match item with
                 | JStr s => [textNode s]
                 | JArr a =>
                     match parseComponentFuel fuel' a with
                     | Some parsed => [parsed]
                     | None => parseComponentStructureFuel fuel' item
                     end
                 | _ => []
                 end) items
      | _ => []
      end
  end
with parseComponentFuel (fuel : nat) (componentArray : list json)
  : option ParsedComponent :=
  match fuel with
  | 0 => None
  | S fuel' =>
      if (length componentArray <? 3) || negb (headIsDollar componentArray)
      then None
      else
        let componentType := componentTypeOf componentArray in
        let props := propsOf componentArray in
        match getChildren props with
        | Some children =>
            if truthy children then
              Some (mkParsedComponent
                      (str "component") componentType
                      (obj_delete (str "children") (spread props))
                      (Some (parseChildrenFuel fuel' children)))
            else
              Some (mkParsedComponent (str "component") componentType
                                      (spread props) None)
        | None =>
            Some (mkParsedComponent (str "component") componentType
                                    (spread props) None)
        end
  end
with parseChildrenFuel (fuel : nat) (children : json)
  : list (ParsedComponent + jsstring) :=
  match fuel with
  | 0 => []
  | S fuel' =>
      match children with
      | JStr s => [inr s]
      | JArr items =>
          if headIsDollar items then
            match parseComponentFuel fuel' items with
            | Some single => [inl single]
            | None => []
            end
          else
            flat_map
              (fun child =>
                 match child with
                 | JStr s => [inr s]
                 | JArr a =>
                     match parseComponentFuel fuel' a with
                     | Some parsed => [inl parsed]
                     | None => parseChildrenFuel fuel' child
                     end
                 | _ => map inl (parseComponentStructureFuel fuel' (JArr [child]))
                 end) items
      | _ => []
      end
  end.

Fixpoint json_depth (v : json) : nat :=
  match v with
  | JArr items => S (list_max (map json_depth items))
  | JObj props => S (list_max (map (fun kv => json_depth (snd kv)) props))
  | _ => 0
  end.

Definition parseComponentStructure (data : json) : list ParsedComponent :=
  parseComponentStructureFuel (json_depth data + 2) data.

Definition parseComponent (componentArray : list json) : option ParsedComponent :=
  parseComponentFuel (json_depth (JArr componentArray) + 2) componentArray.

Definition parseChildren (children : json) : list (ParsedComponent + jsstring) :=
  parseChildrenFuel (json_depth children + 2) children.

(* ================================================================= *)
(** ** The Payload Decoder *)

Definition dropLast (n : nat) (s : jsstring) : jsstring :=
  firstn (length s - n) s.

(** The first [content.replace], whose pattern is a backslash and an [n]
    with the lookahead: a double quote, a closing bracket, the end of the
    input.  The lookahead ends at the end of the input, so the only place
    the pattern can match is four code units before it. *)
Definition stripNewlineBeforeClose (content : jsstring) : jsstring :=
  if endsWith content (str "\n" ++ [dquote; "]"%char])
  then dropLast 4 content ++ [dquote; "]"%char]
  else content.

(** The second [content.replace]: a backslash and an [n] at the very
    end of the input are removed. *)
Definition stripNewlineAtEnd (content : jsstring) : jsstring :=
  if endsWith content (str "\n") then dropLast 2 content else content.

Definition extractDataFromScript (scriptContent : jsstring) : result jsstring :=
  let prefix := str "self.__next_f.push([" in
  let suffix := str "])" in
  match indexOf scriptContent prefix 0 with
  | None => Throw (str "Invalid Next.js script format")
  | Some startIndex =>
      let contentStart := startIndex + length prefix in
      match lastIndexOf scriptContent suffix with
      | None => Throw (str "Invalid Next.js script format - mismatched brackets")
      | Some contentEnd =>
          if contentEnd <=? contentStart
          then Throw (str "Invalid Next.js script format - mismatched brackets")
          else
            let content :=
              str "[" ++ substring scriptContent contentStart contentEnd ++ str "]" in
            let content := stripNewlineBeforeClose content in
            let content := stripNewlineAtEnd content in
            match JSON_parse content with
            | Ok result => Ok (JSON_stringify result 0)
            | Throw message =>
                Throw (str "Unable to parse script content as JSON: " ++ message)
            end
      end
  end.

(* ================================================================= *)
(** ** The per-call pipeline *)

(** [interface ParseResult]; an absent optional field is [None]. *)
Record ParseResult : Type := mkParseResult {
  success : bool;
  components : list ParsedComponent;
  error : option jsstring;
  dataType : option DataType;
  debugInfo : option jsstring
}.

(** Which arm of the [if] chain on a string payload is taken. *)
Inductive PayloadBranch : Type :=
| ModuleLoadingBranch   (* dataType === 'module-loading' *)
| AfterColonBranch      (* dataType === 'component-data' && includes(':') *)
| FallbackBranch        (* else if (dataType === 'component-data') *)
| NoBranch.

Definition payloadBranch (componentData : jsstring) : PayloadBranch :=
  let dataType := detectDataType componentData in
  if DataType_eqb dataType ModuleLoading then ModuleLoadingBranch
  else if DataType_eqb dataType ComponentData && includes componentData (str ":")
  then AfterColonBranch
  else if DataType_eqb dataType ComponentData then FallbackBranch
  else NoBranch.

(** The block under [typeof componentData === 'string']: it returns, or
    it leaves a new value in [componentData]. *)
Inductive PayloadStep : Type :=
| Return (r : ParseResult)
| Continue (componentData : json).

Definition stringPayload (componentData : jsstring) : PayloadStep :=
  match payloadBranch componentData with
  | ModuleLoadingBranch =>
      Return {| success := true;
                components := [];
                error := None;
                dataType := Some ModuleLoading;
                debugInfo := Some (str "Data starts with: "
                                     ++ substring componentData 0 50 ++ str "...") |}
  | AfterColonBranch =>
      let colonIndex :=
        match indexOf componentData (str ":") 0 with
        | Some i => i
        | None => 0
        end in
      let dataAfterColon := substringFrom componentData (colonIndex + 1) in
      match JSON_parse dataAfterColon with
      | Ok v => Continue v
      | Throw message =>
          Return {| success := false;
                    components := [];
                    error := Some (str "Failed to parse component data structure");
                    dataType := None;
                    debugInfo := Some (str "Parse error: " ++ message) |}
      end
  | FallbackBranch =>
      match JSON_parse componentData with
      | Ok v => Continue v
      | Throw _ => Continue (JStr componentData)
      end
  | NoBranch => Continue (JStr componentData)
  end.

(** The body of the [try] block of [parseScriptContentDetailed]. *)
Definition parseScriptContentTry (scriptContent : jsstring) : result ParseResult :=
  match extractDataFromScript scriptContent with
  | Throw m => Throw m
  | Ok cleanContent =>
      match JSON_parse cleanContent with
      | Throw m => Throw m
      | Ok parsedData =>
          match parsedData with
          | JArr (_ :: componentData :: _) =>
              let step :=
                match componentData with
                | JStr s => stringPayload s
                | _ => Continue componentData
                end in
              match step with
              | Return r => Ok r
              | Continue componentData =>
                  Ok {| success := true;
                        components := parseComponentStructure componentData;
                        error := None;
                        dataType := Some ComponentData;
                        debugInfo := None |}
              end
          | _ =>
              Ok {| success := false;
                    components := [];
                    error := Some (str "Invalid data structure: Expected array with at least 2 elements");
                    dataType := None;
                    debugInfo := Some (str "Got: "
                                         ++ substring (JSON_stringify parsedData 0) 0 100
                                         ++ str "...") |}
          end
      end
  end.

Definition parseScriptContentDetailed (scriptContent : jsstring) : ParseResult :=
  match parseScriptContentTry scriptContent with
  | Ok r => r
  | Throw errorMessage =>
      {| success := false;
         components := [];
         error := Some (str "Parse failed: " ++ errorMessage);
         dataType := None;
         debugInfo := Some (str "Input length: "
                              ++ natToString (length scriptContent)
                              ++ str ", Error at parsing stage") |}
  end.

(** [parseScriptContent]: the nodes of the detailed result. *)
Definition parseScriptContent (scriptContent : jsstring) : list ParsedComponent :=
  components (parseScriptContentDetailed scriptContent).

(* ================================================================= *)
(** ** The Aggregator *)

(** [interface IndexedParseResult extends ParseResult] *)
Record IndexedParseResult : Type := mkIndexedParseResult {
  base : ParseResult;
  index : nat;
  snippetPreview : jsstring
}.

Record AggregatedParseResult : Type := mkAggregatedParseResult {
  totalScripts : nat;
  successCount : nat;
  failureCount : nat;
  moduleLoadingCount : nat;
  results : list IndexedParseResult;
  combinedComponents : list ParsedComponent
}.

Definition dataTypeIs (r : IndexedParseResult) (t : DataType) : bool :=
  match dataType (base r) with
  | Some t' => DataType_eqb t' t
  | None => false
  end.

(** The two arrays the [forEach] callback pushes to. *)
Definition Accumulators : Type :=
  (list ParsedComponent * list IndexedParseResult)%type.

(** One call of the [forEach] callback, on an engine without a bound on
    argument lists ([visitSnippetBounded] is the callback with one). *)
Definition visitSnippet (acc : Accumulators) (entry : nat * jsstring)
  : Accumulators :=
  let '(combinedComponents, results) := acc in
  let '(index, snippet) := entry in
  let parseResult := parseScriptContentDetailed snippet in
  let snippetPreview := substring (collapseWhitespace false snippet) 0 120 in
  let combinedComponents :=
    if success parseResult
    then combinedComponents ++ components parseResult
    else combinedComponents in
  (combinedComponents,
   results ++ [{| base := parseResult;
                  index := index;
                  snippetPreview := snippetPreview |}]).

(** [pushCalls.forEach((snippet, index) => ...)] *)
Definition forEachSnippet (pushCalls : list jsstring) : Accumulators :=
  fold_left visitSnippet (combine (seq 0 (length pushCalls)) pushCalls) ([], []).

Definition parseDocumentContent (content : jsstring)
  : option AggregatedParseResult :=
  match extractPushCalls content with
  | None => None
  | Some pushCalls =>
      if length pushCalls =? 0 then
        Some {| totalScripts := 0;
                successCount := 0;
                failureCount := 0;
                moduleLoadingCount := 0;
                results := [];
                combinedComponents := [] |}
      else
        let '(combinedComponents, results) := forEachSnippet pushCalls in
        let successCount :=
          length (filter (fun result => success (base result)
                                        && dataTypeIs result ComponentData) results) in
        let moduleLoadingCount :=
          length (filter (fun result => dataTypeIs result ModuleLoading) results) in
        let failureCount :=
          length (filter (fun result => negb (success (base result))) results) in
        Some {| totalScripts := length results;
                successCount := successCount;
                failureCount := failureCount;
                moduleLoadingCount := moduleLoadingCount;
                results := results;
                combinedComponents := combinedComponents |}
  end.

(* ================================================================= *)
(** ** The JSON formatter *)

(** A [ParsedComponent] seen as the plain object it is; [children] is a
    property only when it was assigned. *)
Fixpoint jsonOfComponent (c : ParsedComponent) : json :=
  match c with
  | mkParsedComponent type component props children =>
      JObj ([(str "type", JStr type);
             (str "component", component);
             (str "props", JObj props)]
            ++ match children with
               | Some l =>
                   [(str "children",
                     JArr (map (fun ch => match ch with
                                          | inl c' => jsonOfComponent c'
                                          | inr s => JStr s
                                          end) l))]
               | None => []
               end)
  end.

Definition jsonOfComponents (components : list ParsedComponent) : json :=
  JArr (map jsonOfComponent components).

Definition formatAsReadableJson (components : list ParsedComponent) : jsstring :=
  JSON_stringify (jsonOfComponents components) 2.

(* ================================================================= *)
(** ** The React formatter *)

Definition bind {A B : Type} (r : result A) (k : A -> result B) : result B :=
  match r with
  | Ok a => k a
  | Throw message => Throw message
  end.

Notation "x <- r ;; k" := (bind r (fun x => k))
  (at level 61, r at next level, right associativity).

(** [items.map(f)] for an [f] that may throw: the first exception ends
    the loop. *)
Fixpoint mapResult {A B : Type} (f : A -> result B) (items : list A)
  : result (list B) :=
  match items with
  | [] => Ok []
  | x :: items' =>
      y <- f x ;;
      ys <- mapResult f items' ;;
      Ok (y :: ys)
  end.

(** The text of the [TypeError] of OrdinaryToPrimitive is engine defined;
    this stands for it. *)
Definition cannotConvert : jsstring := str "Cannot convert object to primitive value".

(** [`${v}`]: ToString of a value read by [JSON.parse].  An array joins
    its elements with commas, [null] elements as the empty string.  A
    plain object answers with [Object.prototype.toString], unless it has
    a property [toString] of its own: that one is not callable, the
    [valueOf] that is tried next gives back the object, and ToPrimitive
    throws. *)
Fixpoint toStringJS (v : json) : result jsstring :=
  match v with
  | JNull => Ok (str "null")
  | JBool true => Ok (str "true")
  | JBool false => Ok (str "false")
  | JNum n => Ok (numberToString n)
  | JStr s => Ok s
  | JArr items =>
      parts <- mapResult (fun x => match x with
                                   | JNull => Ok []
                                   | _ => toStringJS x
                                   end) items ;;
      Ok (join (str ",") parts)
  | JObj props =>
      if obj_has (str "toString") props then Throw cannotConvert
      else Ok (str "[object Object]")
  end.

(** ['  '.repeat(indent)] *)
Fixpoint spacesOf (indent : nat) : jsstring :=
  match indent with
  | 0 => []
  | S n => str "  " ++ spacesOf n
  end.

(** [`${JSON.stringify(v)}`] for a [v] that may be [undefined]. *)
Definition stringifyOrUndefined (v : option json) : jsstring :=
  match v with
  | Some v => JSON_stringify v 0
  | None => str "undefined"
  end.

Definition isNull (v : json) : bool :=
  match v with JNull => true | _ => false end.

(** The callback of [.map] over the entries of the properties. *)
Definition propString (entry : jsstring * json) : jsstring :=
  let (key, value) := entry in
  match value with
  | JStr s => key ++ str "=" ++ [dquote] ++ s ++ [dquote]
  | JNull | JArr _ | JObj _ => key ++ str "={" ++ JSON_stringify value 0 ++ str "}"
  | JNum n => key ++ str "={" ++ numberToString n ++ str "}"
  | JBool true => key ++ str "={true}"
  | JBool false => key ++ str "={false}"
  end.

Definition propsStringOf (props : object) : jsstring :=
  match map propString (filter (fun entry => negb (isNull (snd entry))) props) with
  | [] => []
  | propStrings => str " " ++ join (str " ") propStrings
  end.

Fixpoint componentToReactString (component : ParsedComponent) (indent : nat)
  : result jsstring :=
  match component with
  | mkParsedComponent type name props children =>
      let spaces := spacesOf indent in
      if str_eqb type (str "text") then
        Ok (spaces ++ stringifyOrUndefined (obj_get (str "content") props))
      else
        let propsString := propsStringOf props in
        match children with
        | None | Some [] =>
            tag <- toStringJS name ;;
            Ok (spaces ++ str "<" ++ tag ++ propsString ++ str " />")
        | Some children =>
            childStrings <-
              mapResult
                (fun child =>
                   match child with
                   | inr s => Ok (spacesOf (indent + 1) ++ JSON_stringify (JStr s) 0)
                   | inl node => componentToReactString node (indent + 1)
                   end) children ;;
            tag <- toStringJS name ;;
            Ok (spaces ++ str "<" ++ tag ++ propsString ++ str ">" ++ newline
                  ++ join newline childStrings ++ newline
                  ++ spaces ++ str "</" ++ tag ++ str ">")
        end
  end.

Definition formatAsReactComponents (components : list ParsedComponent)
  : result jsstring :=
  strings <- mapResult (fun comp => componentToReactString comp 0) components ;;
  Ok (join newline strings).

(* ================================================================= *)
(** ** [src/app.tsx]: the handlers of [App] *)

(** ['idle' | 'parsing' | 'success' | 'error'] *)
Inductive ParseStatus : Type := Idle | Parsing | Success | Error.

(** ['json' | 'react'] *)
Inductive OutputFormat : Type := JsonFormat | ReactFormat.

(** The five [useState] cells of [App]. *)
Record AppState : Type := mkAppState {
  input : jsstring;
  output : jsstring;
  outputFormat : OutputFormat;
  parseStatus : ParseStatus;
  parseInfo : jsstring
}.

Definition setInput (v : jsstring) (st : AppState) : AppState :=
  {| input := v; output := output st; outputFormat := outputFormat st;
     parseStatus := parseStatus st; parseInfo := parseInfo st |}.

Definition setOutput (v : jsstring) (st : AppState) : AppState :=
  {| input := input st; output := v; outputFormat := outputFormat st;
     parseStatus := parseStatus st; parseInfo := parseInfo st |}.

Definition setParseStatus (v : ParseStatus) (st : AppState) : AppState :=
  {| input := input st; output := output st; outputFormat := outputFormat st;
     parseStatus := v; parseInfo := parseInfo st |}.

Definition setParseInfo (v : jsstring) (st : AppState) : AppState :=
  {| input := input st; output := output st; outputFormat := outputFormat st;
     parseStatus := parseStatus st; parseInfo := v |}.

(** [a || b] on strings: the empty string is falsy. *)
Definition orElse (a b : jsstring) : jsstring :=
  match a with
  | [] => b
  | _ => a
  end.

(** The callback of [.map] in [failureDetails]. *)
Definition failureDetail (result : IndexedParseResult) : jsstring :=
  let reason :=
    orElse (match error (base result) with Some e => e | None => [] end)
           (str "Unknown error") in
  let typeHint :=
    if dataTypeIs result ModuleLoading then str " (module-loading payload)" else [] in
  str "#" ++ natToString (index result + 1) ++ str ": " ++ reason ++ typeHint
    ++ newline ++ str "   Snippet: " ++ snippetPreview result.

Definition failureDetailsOf (aggregate : AggregatedParseResult) : jsstring :=
  join (newline ++ newline)
       (map failureDetail
            (filter (fun result => negb (success (base result))) (results aggregate))).

Definition moduleSummaryOf (aggregate : AggregatedParseResult) : jsstring :=
  if 0 <? moduleLoadingCount aggregate
  then str " " ++ natToString (moduleLoadingCount aggregate)
         ++ str " call(s) contained module/chunk metadata and were skipped."
  else [].

Definition noCallsInfo : jsstring :=
  str "No self.__next_f.push(...) calls found in the provided input.".
Definition noCallsOutput : jsstring :=
  str "No Next.js script payloads detected. Paste the contents of <head> or relevant script tags.".
Definition modulesOnlyOutput : jsstring :=
  str "All detected payloads were module/chunk metadata (no components to render).".
Definition unableInfo : jsstring :=
  str "Unable to parse any self.__next_f.push call from the input.".
Definition nonComponentOutput : jsstring :=
  str "All detected script payloads were non-component data.".

(** The body of the [try] block of [handleParse], from the aggregate on. *)
Definition handleAggregate (aggregate : AggregatedParseResult) (st : AppState)
  : result AppState :=
  if totalScripts aggregate =? 0 then
    Ok (setOutput noCallsOutput (setParseInfo noCallsInfo (setParseStatus Error st)))
  else
    let failureDetails := failureDetailsOf aggregate in
    let moduleSummary := moduleSummaryOf aggregate in
    if 0 <? successCount aggregate then
      let st := setParseStatus Success st in
      let summary :=
        str "Parsed " ++ natToString (successCount aggregate) ++ str " / "
          ++ natToString (totalScripts aggregate)
          ++ str " self.__next_f.push call(s). Extracted "
          ++ natToString (length (combinedComponents aggregate))
          ++ str " component node(s)." in
      let warning :=
        if 0 <? failureCount aggregate
        then str " " ++ natToString (failureCount aggregate)
               ++ str " call(s) could not be parsed."
        else [] in
      let st := setParseInfo (summary ++ warning ++ moduleSummary) st in
      baseOutput <-
        match outputFormat st with
        | JsonFormat => Ok (formatAsReadableJson (combinedComponents aggregate))
        | ReactFormat => formatAsReactComponents (combinedComponents aggregate)
        end ;;
      if 0 <? failureCount aggregate
      then Ok (setOutput (baseOutput ++ newline ++ newline ++ str "Failures:"
                            ++ newline ++ failureDetails) st)
      else Ok (setOutput baseOutput st)
    else if (0 <? moduleLoadingCount aggregate) && (failureCount aggregate =? 0) then
      Ok (setOutput modulesOnlyOutput
            (setParseInfo
               (str "Detected " ++ natToString (moduleLoadingCount aggregate)
                  ++ str " module/chunk payload(s); no React component data found.")
               (setParseStatus Success st)))
    else
      let st := setParseInfo unableInfo (setParseStatus Error st) in
      let fallback :=
        join (newline ++ newline)
             (filter (fun s => negb (length s =? 0))
                     [failureDetails; trim moduleSummary]) in
      Ok (setOutput (orElse fallback nonComponentOutput) st).

(** [handleParse]: the state after the handler has run.  [None] stands
    for a call extractor that does not return. *)
Definition handleParse (st : AppState) : option AppState :=
  let st := setParseInfo (str "Parsing...") (setParseStatus Parsing st) in
  match parseDocumentContent (input st) with
  | None => None
  | Some aggregate =>
      match handleAggregate aggregate st with
      | Ok st' => Some st'
      | Throw errorMessage =>
          Some (setOutput (str "Unexpected Error: " ++ errorMessage)
                  (setParseInfo (str "Unexpected error: " ++ errorMessage)
                     (setParseStatus Error st)))
      end
  end.

Definition handleClear (st : AppState) : AppState :=
  setParseInfo [] (setParseStatus Idle (setOutput [] (setInput [] st))).

(* ================================================================= *)
(** ** An engine with a bound on argument lists

    [target.push(...items)] passes every element of [items] as an
    argument of one call.  ECMA-262 sets no bound to an argument list;
    an engine does, and throws a [RangeError] for a longer one.  The
    definitions above are the program on an engine without such a bound.
    The definitions of this part are the same methods on an engine that
    accepts [limit] arguments at most, where the four calls of that form
    ([parser.ts] lines 66, 257, 313 and 318) may throw: inside
    [parseScriptContentDetailed] its [catch] makes a failed result of
    the exception, in [parseDocumentContent] nothing catches it. *)

(** The text of the [RangeError] is engine defined; this stands for it. *)
Definition rangeError : jsstring := str "Maximum call stack size exceeded".

(** [target.push(...items)] *)
Definition pushSpread {A : Type} (limit : nat) (target items : list A)
  : result (list A) :=
  if length items <=? limit then Ok (target ++ items) else Throw rangeError.

(** [for (const item of items) { ... }] for a body that may throw: the
    first exception ends the loop. *)
Fixpoint forOf {A B : Type} (body : B -> A -> result B) (items : list A) (acc : B)
  : result B :=
  match items with
  | [] => Ok acc
  | item :: items' =>
      acc' <- body acc item ;;
      forOf body items' acc'
  end.

Fixpoint parseComponentStructureBounded (limit fuel : nat) (data : json)
  : result (list ParsedComponent) :=
  match fuel with
  | 0 => Ok []
  | S fuel' =>
      match data with
      | JStr s => Ok [textNode s]
      | JArr items =>
          if headIsDollar items then
            parsed <- parseComponentBounded limit fuel' items ;;
            Ok match parsed with
               | Some parsed => [parsed]
               | None => []
               end
          else
            forOf
              (fun results item =>
                 match item with
                 | JStr s => Ok (results ++ [textNode s])
                 | JArr a =>
                     parsed <- parseComponentBounded limit fuel' a ;;
                     match parsed with
                     | Some parsed => Ok (results ++ [parsed])
                     | None =>
                         nestedResults <-
                           parseComponentStructureBounded limit fuel' item ;;
                         pushSpread limit results nestedResults
                     end
                 | _ => Ok results
                 end) items []
      | _ => Ok []
      end
  end
with parseComponentBounded (limit fuel : nat) (componentArray : list json)
  : result (option ParsedComponent) :=
  match fuel with
  | 0 => Ok None
  | S fuel' =>
      if (length componentArray <? 3) || negb (headIsDollar componentArray)
      then Ok None
      else
        let componentType := componentTypeOf componentArray in
        let props := propsOf componentArray in
        match getChildren props with
        | Some children =>
            if truthy children then
              parsedChildren <- parseChildrenBounded limit fuel' children ;;
              Ok (Some (mkParsedComponent
                          (str "component") componentType
                          (obj_delete (str "children") (spread props))
                          (Some parsedChildren)))
            else
              Ok (Some (mkParsedComponent (str "component") componentType
                                          (spread props) None))
        | None =>
            Ok (Some (mkParsedComponent (str "component") componentType
                                        (spread props) None))
        end
  end
with parseChildrenBounded (limit fuel : nat) (children : json)
  : result (list (ParsedComponent + jsstring)) :=
  match fuel with
  | 0 => Ok []
  | S fuel' =>
      match children with
      | JStr s => Ok [inr s]
      | JArr items =>
          if headIsDollar items then
            single <- parseComponentBounded limit fuel' items ;;
            Ok match single with
               | Some single => [inl single]
               | None => []
               end
          else
            forOf
              (fun results child =>
                 match child with
                 | JStr s => Ok (results ++ [inr s])
                 | JArr a =>
                     parsed <- parseComponentBounded limit fuel' a ;;
                     match parsed with
                     | Some parsed => Ok (results ++ [inl parsed])
                     | None =>
                         nestedChildren <-
                           parseChildrenBounded limit fuel' child ;;
                         pushSpread limit results nestedChildren
                     end
                 | _ =>
                     childResults <-
                       parseComponentStructureBounded limit fuel' (JArr [child]) ;;
                     pushSpread limit results (map inl childResults)
                 end) items []
      | _ => Ok []
      end
  end.

(** The body of the [try] block of [parseScriptContentDetailed]. *)
Definition parseScriptContentTryBounded (limit : nat) (scriptContent : jsstring)
  : result ParseResult :=
  match extractDataFromScript scriptContent with
  | Throw m => Throw m
  | Ok cleanContent =>
      match JSON_parse cleanContent with
      | Throw m => Throw m
      | Ok parsedData =>
          match parsedData with
          | JArr (_ :: componentData :: _) =>
              let step :=
                match componentData with
                | JStr s => stringPayload s
                | _ => Continue componentData
                end in
              match step with
              | Return r => Ok r
              | Continue componentData =>
                  components <-
                    parseComponentStructureBounded
                      limit (json_depth componentData + 2) componentData ;;
                  Ok {| success := true;
                        components := components;
                        error := None;
                        dataType := Some ComponentData;
                        debugInfo := None |}
              end
          | _ =>
              Ok {| success := false;
                    components := [];
                    error := Some (str "Invalid data structure: Expected array with at least 2 elements");
                    dataType := None;
                    debugInfo := Some (str "Got: "
                                         ++ substring (JSON_stringify parsedData 0) 0 100
                                         ++ str "...") |}
          end
      end
  end.

Definition parseScriptContentDetailedBounded (limit : nat) (scriptContent : jsstring)
  : ParseResult :=
  match parseScriptContentTryBounded limit scriptContent with
  | Ok r => r
  | Throw errorMessage =>
      {| success := false;
         components := [];
         error := Some (str "Parse failed: " ++ errorMessage);
         dataType := None;
         debugInfo := Some (str "Input length: "
                              ++ natToString (length scriptContent)
                              ++ str ", Error at parsing stage") |}
  end.

(** One call of the [forEach] callback. *)
Definition visitSnippetBounded (limit : nat) (acc : Accumulators)
           (entry : nat * jsstring) : result Accumulators :=
  let '(combinedComponents, results) := acc in
  let '(index, snippet) := entry in
  let parseResult := parseScriptContentDetailedBounded limit snippet in
  let snippetPreview := substring (collapseWhitespace false snippet) 0 120 in
  combinedComponents <-
    (if success parseResult
     then pushSpread limit combinedComponents (components parseResult)
     else Ok combinedComponents) ;;
  Ok (combinedComponents,
      results ++ [{| base := parseResult;
                     index := index;
                     snippetPreview := snippetPreview |}]).

(** [parseDocumentContent]: the aggregate it returns or the exception it
    throws; [None] stands for a call extractor that does not return. *)
Definition parseDocumentContentBounded (limit : nat) (content : jsstring)
  : option (result AggregatedParseResult) :=
  match extractPushCalls content with
  | None => None
  | Some pushCalls =>
      if length pushCalls =? 0 then
        Some (Ok {| totalScripts := 0;
                    successCount := 0;
                    failureCount := 0;
                    moduleLoadingCount := 0;
                    results := [];
                    combinedComponents := [] |})
      else
        Some (acc <- forOf (visitSnippetBounded limit)
                           (combine (seq 0 (length pushCalls)) pushCalls) ([], []) ;;
              let '(combinedComponents, results) := acc in
              let successCount :=
                length (filter (fun result => success (base result)
                                              && dataTypeIs result ComponentData)
                               results) in
              let moduleLoadingCount :=
                length (filter (fun result => dataTypeIs result ModuleLoading) results) in
              let failureCount :=
                length (filter (fun result => negb (success (base result))) results) in
              Ok {| totalScripts := length results;
                    successCount := successCount;
                    failureCount := failureCount;
                    moduleLoadingCount := moduleLoadingCount;
                    results := results;
                    combinedComponents := combinedComponents |})
  end.

(** [handleParse]: the state after the handler has run. *)
Definition handleParseBounded (limit : nat) (st : AppState) : option AppState :=
  let st := setParseInfo (str "Parsing...") (setParseStatus Parsing st) in
  match parseDocumentContentBounded limit (input st) with
  | None => None
  | Some outcome =>
      match aggregate <- outcome ;; handleAggregate aggregate st with
      | Ok st' => Some st'
      | Throw errorMessage =>
          Some (setOutput (str "Unexpected Error: " ++ errorMessage)
                  (setParseInfo (str "Unexpected error: " ++ errorMessage)
                     (setParseStatus Error st)))
      end
  end.

(* ================================================================= *)
(** * The notions the statements are made of *)

(** The text [s] has an occurrence of [sub]. *)
Definition contains (s sub : jsstring) : Prop :=
  exists pre post, s = pre ++ sub ++ post.

Inductive Matches : regex -> jsstring -> Prop :=
| MEps : Matches REps []
| MClass p c : p c = true -> Matches (RClass p) [c]
| MSeq r1 r2 s1 s2 :
    Matches r1 s1 -> Matches r2 s2 -> Matches (RSeq r1 r2) (s1 ++ s2)
| MAltL r1 r2 s : Matches r1 s -> Matches (RAlt r1 r2) s
| MAltR r1 r2 s : Matches r2 s -> Matches (RAlt r1 r2) s
| MStarNil r : Matches (RStar r) []
| MStarCons r s1 s2 :
    Matches r s1 -> Matches (RStar r) s2 -> Matches (RStar r) (s1 ++ s2).

#[local] Hint Constructors Matches : core.

(** The string starts with a non-empty key of [p] characters that the
    marker follows. *)
Definition keyThenMarker (p : ascii -> bool) (marker s : jsstring) : Prop :=
  exists key rest, key <> [] /\ forallb p key = true /\ s = key ++ marker ++ rest.

(** A digit or a letter of either case: what [[0-9a-z]] matches under
    the [i] flag. *)
Definition alnumAnyCase (c : ascii) : bool :=
  inRange "0" "9" c || inRange "a" "z" c || inRange "A" "Z" c.

(** Rule (a) of the classifier. *)
Definition moduleLoadingRule (s : jsstring) : Prop :=
  keyThenMarker hexLower (str ":I[") s \/ contains s (str "static/chunks/").

(** Rule (b) of the classifier. *)
Definition componentDataRule (s : jsstring) : Prop :=
  keyThenMarker alnumAnyCase (str ":[") s.

Definition stableAt (n : nat) : Prop :=
  (forall v m, json_depth v + 2 <= n -> json_depth v + 2 <= m ->
               parseComponentStructureFuel n v = parseComponentStructureFuel m v)
  /\ (forall l m, json_depth (JArr l) + 1 <= n -> json_depth (JArr l) + 1 <= m ->
                  parseComponentFuel n l = parseComponentFuel m l)
  /\ (forall v m, json_depth v + 2 <= n -> json_depth v + 2 <= m ->
                  parseChildrenFuel n v = parseChildrenFuel m v).

(** The body of the [for] loop of [parseComponentStructure]. *)
Definition structureItem (item : json) : list ParsedComponent :=
  match item with
  | JStr s => [textNode s]
  | JArr a =>
      match parseComponent a with
      | Some parsed => [parsed]
      | None => parseComponentStructure item
      end
  | _ => []
  end.

(** The body of the [for] loop of [parseChildren]. *)
Definition childItem (child : json) : list (ParsedComponent + jsstring) :=
  match child with
  | JStr s => [inr s]
  | JArr a =>
      match parseComponent a with
      | Some parsed => [inl parsed]
      | None => parseChildren child
      end
  | _ => map inl (parseComponentStructure (JArr [child]))
  end.

(** The per-element rule of the Tree Builder as the specification words
    it: a string becomes a Text node; a sequence is tried as an Element
    descriptor and, failing that, expanded recursively; anything else is
    wrapped in a one-element sequence and expanded recursively. *)
Definition expandElement (element : json) : list ParsedComponent :=
  match element with
  | JStr s => [textNode s]
  | JArr a =>
      match parseComponent a with
      | Some node => [node]
      | None => parseComponentStructure (JArr a)
      end
  | other => parseComponentStructure (JArr [other])
  end.

(** What every result of [parseScriptContentDetailed] looks like: a
    failure carries a message and neither nodes nor a tag; a success is
    tagged component-data, or module-loading with no nodes. *)
Definition resultShape (r : ParseResult) : Prop :=
  match success r with
  | false =>
      components r = [] /\ dataType r = None /\ exists msg, error r = Some msg
  | true =>
      error r = None
      /\ (dataType r = Some ComponentData
          \/ (dataType r = Some ModuleLoading /\ components r = []))
  end.

(** The record the [forEach] callback pushes for one snippet. *)
Definition indexedResult (entry : nat * jsstring) : IndexedParseResult :=
  {| base := parseScriptContentDetailed (snd entry);
     index := fst entry;
     snippetPreview := substring (collapseWhitespace false (snd entry)) 0 120 |}.

(** The nodes the callback appends for one result. *)
Definition pushedNodes (r : IndexedParseResult) : list ParsedComponent :=
  if success (base r) then components (base r) else [].

(** The nodes of a result when it is a success tagged component-data,
    and none otherwise. *)
Definition componentDataNodes (r : IndexedParseResult) : list ParsedComponent :=
  if success (base r) && dataTypeIs r ComponentData
  then components (base r) else [].

(** The aggregate of a document in which no call was found. *)
Definition emptyAggregate : AggregatedParseResult :=
  {| totalScripts := 0; successCount := 0; failureCount := 0;
     moduleLoadingCount := 0; results := []; combinedComponents := [] |}.

(** Where the scanner is with respect to string literals. *)
Inductive literalState : Type :=
| OutsideLiteral
| InLiteral (q : ascii)
| AfterBackslash (q : ascii).

(** One code unit: a quote opens a literal, the same quote closes it, and
    a backslash inside a literal makes the next code unit pass unseen. *)
Definition literalStep (st : literalState) (c : ascii) : literalState :=
  match st with
  | OutsideLiteral => if isQuote c then InLiteral c else OutsideLiteral
  | InLiteral q =>
      if ch_eqb c "\"%char then AfterBackslash q
      else if ch_eqb c q then OutsideLiteral
      else InLiteral q
  | AfterBackslash q => InLiteral q
  end.

(** What a code unit means for the nesting depth. *)
Inductive unitKind : Type := Opening | Closing | Plain.

(** Brackets count outside literals only. *)
Definition kindOf (st : literalState) (c : ascii) : unitKind :=
  match st with
  | OutsideLiteral =>
      if ch_eqb c "["%char then Opening
      else if ch_eqb c "]"%char then Closing
      else Plain
  | _ => Plain
  end.

Fixpoint kinds (st : literalState) (s : jsstring) : list unitKind :=
  match s with
  | [] => []
  | c :: s' => kindOf st c :: kinds (literalStep st c) s'
  end.

Definition weight (k : unitKind) : Z :=
  match k with
  | Opening => 1
  | Closing => -1
  | Plain => 0
  end.

(** The change of depth over a run of code units. *)
Definition net (ks : list unitKind) : Z :=
  fold_right (fun k z => weight k + z)%Z 0%Z ks.

(** The index of the first closing bracket that brings the depth, [depth]
    before the code unit at index [i], to zero. *)
Fixpoint firstReturnToZero (ks : list unitKind) (i : nat) (depth : Z)
  : option nat :=
  match ks with
  | [] => None
  | Opening :: ks' => firstReturnToZero ks' (S i) (depth + 1)
  | Closing :: ks' =>
      if (depth - 1 =? 0)%Z then Some i
      else firstReturnToZero ks' (S i) (depth - 1)
  | Plain :: ks' => firstReturnToZero ks' (S i) depth
  end.

Definition stateOf (stringChar : option ascii) : literalState :=
  match stringChar with
  | Some q => InLiteral q
  | None => OutsideLiteral
  end.

(** The scanner, started inside a literal, is still inside it after
    every code unit of [body], and not behind a backslash at the end. *)
Fixpoint staysInLiteral (st : literalState) (body : jsstring) : bool :=
  match body with
  | [] => match st with InLiteral _ => true | _ => false end
  | c :: body' =>
      match literalStep st c with
      | OutsideLiteral => false
      | st' => staysInLiteral st' body'
      end
  end.

(** [body] can stand between two quotes [q] as the text of one string
    literal: it has no unescaped [q] and no backslash left open. *)
Definition literalBody (q : ascii) (body : jsstring) : bool :=
  staysInLiteral (InLiteral q) body.

(** The depth after the first [m] code units from [start] on. *)
Definition depthAfter (content : jsstring) (start m : nat) : Z :=
  net (firstn m (kinds OutsideLiteral (skipn start content))).

(** An index of the text with an empty literal, as an index of the text
    with [n] code units more inside the quotes at [p] and [p + 1]. *)
Definition shiftIndex (p n k : nat) : nat := if k <=? p then k else k + n.

Definition mapAttempt (f : nat -> nat) (a : attempt) : attempt :=
  match a with
  | Rejected next => Rejected (f next)
  | Accepted stop => Accepted (f stop)
  end.

(** What may follow a value in JSON text: nothing, white space, a comma
    or a closing bracket or brace. *)
Definition stops (rest : jsstring) : bool :=
  match rest with
  | [] => true
  | c :: _ =>
      isJsonWs c || ch_eqb c ","%char || ch_eqb c "]"%char || ch_eqb c "}"%char
  end.

(** The digits stop where something else begins. *)
Definition stopsDigits (rest : jsstring) : bool :=
  match rest with
  | [] => true
  | c :: _ => negb (isDigit c)
  end.

(** The digits before the point: a single [0], or digits that start with
    another one. *)
Definition intDigits (int : jsstring) : bool :=
  match int with
  | [] => false
  | c :: ds =>
      forallb isDigit int
      && (negb (ch_eqb c "0"%char) || match ds with [] => true | _ => false end)
  end.

Definition exponentOk (expo : option (bool * jsstring)) : bool :=
  match expo with
  | None => true
  | Some (_, ds) => forallb isDigit ds && negb (length ds =? 0)
  end.

Definition exponentValue (expo : option (bool * jsstring)) : Z :=
  match expo with
  | None => 0%Z
  | Some (neg, ds) => if neg then (- digitsValue ds)%Z else digitsValue ds
  end.

(** The numbers that [JSON.stringify] and [JSON.parse] carry through:
    the finite numbers other than negative zero.  A safe integer is an
    [Int]; any other is the [Dbl] of its odd significand, of at most 53
    bits, with an exponent in the range of doubles. *)
Definition numberOk (n : number) : bool :=
  match n with
  | Int z => (Z.abs z <=? maxSafeInteger)%Z
  | NegZero => false
  | Infinity _ => false
  | Dbl _ m e =>
      isOdd m
      && (Z.log2 (Zpos m) <=? 52)%Z
      && (- 1074 <=? e)%Z
      && (Z.log2 (Zpos m) + e <=? 1023)%Z
      && negb ((0 <=? e)%Z && (Zpos m * 2 ^ e <=? maxSafeInteger)%Z)
  end.

(** How a key stands to the keys after it in enumeration order. *)
Definition precedes (k' k : jsstring) : Prop :=
  match arrayIndex k', arrayIndex k with
  | Some j, Some i => (j < i)%Z
  | Some _, None => True
  | None, Some _ => False
  | None, None => True
  end.

Definition setMember (acc : object) (kv : jsstring * json) : object :=
  obj_set (fst kv) (snd kv) acc.

Definition wsOnly (s : jsstring) : bool := forallb isJsonWs s.

(** The values that [JSON.stringify] and [JSON.parse] carry through. *)
Fixpoint jsonOk (v : json) : bool :=
  match v with
  | JNum n => numberOk n
  | JArr items => forallb jsonOk items
  | JObj props => objectOk props && forallb (fun kv => jsonOk (snd kv)) props
  | _ => true
  end.

Fixpoint json_size (v : json) : nat :=
  match v with
  | JArr items => S (list_sum (map (fun x => S (json_size x)) items))
  | JObj props => S (list_sum (map (fun kv => S (json_size (snd kv))) props))
  | _ => 1
  end.

(** White space after an opening bracket and between members, and before
    the closing one, for the [gap] and the indentation at hand. *)
Definition opening (gap indent : jsstring) : jsstring :=
  match gap with [] => [] | _ => newline ++ indent end.

Definition colonSpace (gap : jsstring) : jsstring :=
  match gap with [] => [] | _ => str " " end.

Definition member (gap indent : jsstring) (kv : jsstring * json) : jsstring :=
  quoteJSONString (fst kv) ++ ":"%char :: colonSpace gap
    ++ serialize gap indent (snd kv).

(** What the induction shows of a value: its text, for the [gap] at hand
    and whatever the indentation, reads back as the value. *)
Definition readsBack (gap : jsstring) (v : json) : Prop :=
  jsonOk v = true ->
  forall indent rest fuel,
    wsOnly indent = true -> stops rest = true -> json_size v <= fuel ->
    parseValue fuel (serialize gap indent v ++ rest) = POk v rest.

Section ComponentInduction.
Variable P : ParsedComponent -> Prop.
Hypothesis Hleaf : forall type component props,
    P (mkParsedComponent type component props None).
Hypothesis Hnode : forall type component props children,
    Forall (fun ch => match ch with inl c => P c | inr _ => True end) children ->
    P (mkParsedComponent type component props (Some children)).

Fixpoint ParsedComponent_ind (c : ParsedComponent) : P c :=
  match c with
  | mkParsedComponent type component props None => Hleaf type component props
  | mkParsedComponent type component props (Some children) =>
      Hnode type component props children
        ((fix all (l : list (ParsedComponent + jsstring))
            : Forall (fun ch => match ch with inl c => P c | inr _ => True end) l :=
            match l with
            | [] => Forall_nil _
            | inl c' :: l' =>
                @Forall_cons _ (fun ch => match ch with inl c => P c | inr _ => True end)
                             (inl c') l' (ParsedComponent_ind c') (all l')
            | inr s :: l' =>
                @Forall_cons _ (fun ch => match ch with inl c => P c | inr _ => True end)
                             (inr s) l' I (all l')
            end) children)
  end.
End ComponentInduction.

(** A child of a node as the value it is. *)
Definition jsonOfChild (ch : ParsedComponent + jsstring) : json :=
  match ch with
  | inl c => jsonOfComponent c
  | inr s => JStr s
  end.

(** The nodes whose values [JSON.stringify] and [JSON.parse] carry
    through. *)
Fixpoint componentOk (c : ParsedComponent) : bool :=
  match c with
  | mkParsedComponent _ component props children =>
      jsonOk component && jsonOk (JObj props)
      && match children with
         | None => true
         | Some l => forallb (fun ch => match ch with
                                        | inl c' => componentOk c'
                                        | inr _ => true
                                        end) l
         end
  end.

(** The decoded structure read as a node again, field for field. *)
Fixpoint componentOfJson (v : json) : option ParsedComponent :=
  match v with
  | JObj ((k1, JStr type) :: (k2, component) :: (k3, JObj props) :: more) =>
      if str_eqb k1 (str "type") && str_eqb k2 (str "component")
         && str_eqb k3 (str "props")
      then
        match more with
        | [] => Some (mkParsedComponent type component props None)
        | [(k4, JArr items)] =>
            if str_eqb k4 (str "children") then
              option_map
                (fun l => mkParsedComponent type component props (Some l))
                ((fix childrenOf (items : list json)
                    : option (list (ParsedComponent + jsstring)) :=
                    match items with
                    | [] => Some []
                    | JStr s :: items' =>
                        option_map (cons (inr s)) (childrenOf items')
                    | x :: items' =>
                        match componentOfJson x, childrenOf items' with
                        | Some c, Some l => Some (inl c :: l)
                        | _, _ => None
                        end
                    end) items)
            else None
        | _ => None
        end
      else None
  | _ => None
  end.

Fixpoint componentsOfJsonList (items : list json) : option (list ParsedComponent) :=
  match items with
  | [] => Some []
  | x :: items' =>
      match componentOfJson x, componentsOfJsonList items' with
      | Some c, Some l => Some (c :: l)
      | _, _ => None
      end
  end.

Definition componentsOfJson (v : json) : option (list ParsedComponent) :=
  match v with
  | JArr items => componentsOfJsonList items
  | _ => None
  end.

(** The node that the payload [{"x":1e999}] of a [div] gives, and the
    node its JSON text reads back as. *)
Definition infiniteNode : ParsedComponent :=
  mkParsedComponent (str "component") (JStr (str "div"))
                    [(str "x", JNum (Infinity false))] None.

Definition nullNode : ParsedComponent :=
  mkParsedComponent (str "component") (JStr (str "div"))
                    [(str "x", JNull)] None.

(** The node that the payload [{"x":-0}] of a [div] gives, and the node
    its JSON text reads back as. *)
Definition negativeZeroNode : ParsedComponent :=
  mkParsedComponent (str "component") (JStr (str "div"))
                    [(str "x", JNum NegZero)] None.

Definition zeroNode : ParsedComponent :=
  mkParsedComponent (str "component") (JStr (str "div"))
                    [(str "x", JNum (Int 0))] None.

Definition consumesAt (fuel : nat) : Prop :=
  (forall s v r, parseValue fuel s = POk v r -> length r < length s)
  /\ (forall s acc v r, parseElements fuel s acc = POk v r -> length r < length s)
  /\ (forall s acc v r, parseMembers fuel s acc = POk v r -> length r < length s).

Definition fuelEnoughAt (fuel : nat) : Prop :=
  (forall s, 2 * length s + 1 <= fuel -> parseValue fuel s <> PFuel)
  /\ (forall s acc, 2 * length s + 2 <= fuel -> parseElements fuel s acc <> PFuel)
  /\ (forall s acc, 2 * length s + 2 <= fuel -> parseMembers fuel s acc <> PFuel).

(** *** Notions for the Tree Builder *)

(** A child of an element as the node the structure traversal makes of
    the same value: a string child is the text of a Text node. *)
Definition nodeOfChild (ch : ParsedComponent + jsstring) : ParsedComponent :=
  match ch with
  | inl c => c
  | inr s => textNode s
  end.

(** A string or an array: the values the two [for] loops look at. *)
Definition isStructural (v : json) : bool :=
  match v with
  | JStr _ | JArr _ => true
  | _ => false
  end.

(** The shape of the nodes the Tree Builder makes.  A Text node has the
    type and the component [text], one property [content] that is a
    string, and no children.  An Element has the type [component]; when
    it has children its properties have no [children] entry, and when it
    has none the entry is absent or falsy; its children are strings and
    nodes of the same shape. *)
Fixpoint nodeShape (c : ParsedComponent) : bool :=
  match c with
  | mkParsedComponent type component props children =>
      if str_eqb type (str "text") then
        match component, props, children with
        | JStr n, [(k, JStr _)], None =>
            str_eqb n (str "text") && str_eqb k (str "content")
        | _, _, _ => false
        end
      else
        str_eqb type (str "component")
        && match children with
           | Some l =>
               negb (obj_has (str "children") props)
               && forallb (fun ch => match ch with
                                     | inl c' => nodeShape c'
                                     | inr _ => true
                                     end) l
           | None =>
               match obj_get (str "children") props with
               | Some v => negb (truthy v)
               | None => true
               end
           end
  end.

Definition childShape (ch : ParsedComponent + jsstring) : bool :=
  match ch with
  | inl c => nodeShape c
  | inr _ => true
  end.

Definition shapedAt (fuel : nat) : Prop :=
  (forall data, forallb nodeShape (parseComponentStructureFuel fuel data) = true)
  /\ (forall componentArray c,
         parseComponentFuel fuel componentArray = Some c -> nodeShape c = true)
  /\ (forall children, forallb childShape (parseChildrenFuel fuel children) = true).

(** *** Notions for the Bracket Matcher on JSON text *)

(** A code unit that is neither a quote nor a bracket. *)
Definition plainUnit (c : ascii) : bool :=
  negb (isQuote c) && negb (ch_eqb c "["%char) && negb (ch_eqb c "]"%char).

(** The code units of a JSON number. *)
Definition numberChar (c : ascii) : bool :=
  isDigit c || ch_eqb c "-"%char || ch_eqb c "+"%char || ch_eqb c "."%char
  || ch_eqb c "e"%char || ch_eqb c "E"%char.

(** The scanner of [findMatchingBracket], outside a literal and at a
    depth of one or more before [s], is outside a literal and at the same
    depth after it, without having returned in between. *)
Definition passedOver (s : jsstring) : Prop :=
  forall rest i depth,
    (1 <= depth)%Z ->
    firstReturnToZero (kinds OutsideLiteral (s ++ rest)) i depth
    = firstReturnToZero (kinds OutsideLiteral rest) (i + length s) depth.

(** *** The text of a call *)

(** The text of a call: the token, the argument array between optional
    white space, and the closing parenthesis. *)
Definition callText (ws1 array ws2 : jsstring) : jsstring :=
  pushToken ++ ws1 ++ array ++ ws2 ++ [")"%char].

(** A call written by [JSON.stringify], without white space around the
    argument. *)
Definition callOf (items : list json) (space : nat) : jsstring :=
  callText [] (JSON_stringify (JArr items) space) [].

(** *** The decoded payload *)

(** The pattern of the first [content.replace] with what its lookahead
    sees: a backslash, an [n], a double quote and a closing bracket. *)
Definition escapedNewlineClose : jsstring := str "\n" ++ [dquote; "]"%char].

(** What [parseScriptContentDetailed] makes of the decoded array
    [[id, componentData, ...]]: Step 3 and Step 4. *)
Definition resultOfPayload (componentData : json) : ParseResult :=
  let step :=
    match componentData with
    | JStr s => stringPayload s
    | _ => Continue componentData
    end in
  match step with
  | Return r => r
  | Continue componentData =>
      {| success := true;
         components := parseComponentStructure componentData;
         error := None;
         dataType := Some ComponentData;
         debugInfo := None |}
  end.

(** The line feed. *)
Definition lineFeed : ascii := "010"%char.

(** The result of a call whose payload gave the structure [data]. *)
Definition componentDataResult (data : json) : ParseResult :=
  {| success := true;
     components := parseComponentStructure data;
     error := None;
     dataType := Some ComponentData;
     debugInfo := None |}.

(** The payload string of a flight row: the row key, a colon and the
    compact JSON text of the row. *)
Definition flightRow (key : jsstring) (tree : list json) : jsstring :=
  key ++ ":"%char :: JSON_stringify (JArr tree) 0.

(** The nodes a call adds to the combined sequence. *)
Definition nodesOfCall (snippet : jsstring) : list ParsedComponent :=
  if success (parseScriptContentDetailed snippet)
  then components (parseScriptContentDetailed snippet)
  else [].

(** *** The snippets in the text *)

(** The snippets lie in the text one after the other, without overlap. *)
Fixpoint occurInOrder (calls : list jsstring) (content : jsstring) : Prop :=
  match calls with
  | [] => True
  | snippet :: later =>
      exists before after,
        content = before ++ snippet ++ after /\ occurInOrder later after
  end.

(** A snippet: the token, the argument array between optional white
    space, the closing parenthesis, and the semicolon when one follows
    it at once. *)
Definition snippetShape (snippet : jsstring) : Prop :=
  exists ws1 inner ws2 semicolon,
    snippet = pushToken ++ ws1 ++ "["%char :: inner ++ "]"%char :: ws2
                ++ ")"%char :: semicolon
    /\ forallb isWhitespace ws1 = true
    /\ forallb isWhitespace ws2 = true
    /\ (semicolon = [] \/ semicolon = [";"%char]).

(** *** Snippet previews *)

Definition headNotWhitespace (s : jsstring) : bool :=
  match s with
  | c :: _ => negb (isWhitespace c)
  | [] => true
  end.

(** Every white space code unit of the text is a space, and a code unit
    that is not white space, or the end, follows it. *)
Fixpoint singleSpaced (s : jsstring) : bool :=
  match s with
  | [] => true
  | c :: t =>
      (negb (isWhitespace c) || (ch_eqb c " "%char && headNotWhitespace t))
      && singleSpaced t
  end.

(** *** Notions for the React formatter and the descriptors *)

(** Every element of the tree is named by a string. *)
Fixpoint namedByStrings (c : ParsedComponent) : bool :=
  match c with
  | mkParsedComponent _ name _ children =>
      isString name
      && match children with
         | None => true
         | Some l => forallb (fun ch => match ch with
                                        | inl c' => namedByStrings c'
                                        | inr _ => true
                                        end) l
         end
  end.

(** The Element descriptor of a node: the marker, the name, a key, and
    the properties with the children under [children]; a string child is
    itself, a node child is its descriptor. *)
Fixpoint descriptorOf (c : ParsedComponent) : list json :=
  match c with
  | mkParsedComponent _ name props children =>
      [JStr (str "$"); name; JNull;
       JObj (props
               ++ match children with
                  | Some l =>
                      [(str "children",
                        JArr (map (fun ch => match ch with
                                             | inl c' => JArr (descriptorOf c')
                                             | inr s => JStr s
                                             end) l))]
                  | None => []
                  end)]
  end.

Definition childValue (ch : ParsedComponent + jsstring) : json :=
  match ch with
  | inl c => JArr (descriptorOf c)
  | inr s => JStr s
  end.

(** The first child is not the marker string. *)
Definition firstNotMarker (l : list (ParsedComponent + jsstring)) : bool :=
  match l with
  | inr s :: _ => negb (str_eqb s (str "$"))
  | _ => true
  end.

(** The Elements a descriptor can stand for: the type is [component];
    without a child sequence the properties have no truthy [children];
    with one they have no [children] at all, the first child is not the
    marker string, and the node children are such Elements too. *)
Fixpoint describable (c : ParsedComponent) : bool :=
  match c with
  | mkParsedComponent type _ props children =>
      str_eqb type (str "component")
      && match children with
         | None =>
             match obj_get (str "children") props with
             | Some v => negb (truthy v)
             | None => true
             end
         | Some l =>
             negb (obj_has (str "children") props)
             && firstNotMarker l
             && forallb (fun ch => match ch with
                                   | inl c' => describable c'
                                   | inr _ => true
                                   end) l
         end
  end.

(* ================================================================= *)
(** *** Module-loading rows and documents of rows *)

(** The result of a call whose payload string [s] is module-loading. *)
Definition moduleLoadingResult (s : jsstring) : ParseResult :=
  {| success := true;
     components := [];
     error := None;
     dataType := Some ModuleLoading;
     debugInfo := Some (str "Data starts with: " ++ substring s 0 50 ++ str "...") |}.

(** *** Documents of calls *)

(** The semicolon the Call Extractor takes with a call, when one follows
    at once. *)
Definition semicolonOf (post : jsstring) : jsstring :=
  if startsWith [";"%char] post then [";"%char] else [].

(** A row of a document: the identifier and the payload of one call. *)
Definition Row : Type := (json * json)%type.

Definition rowCall (row : Row) : jsstring := callOf [fst row; snd row] 0.

(** [s.endsWith("\n")], for the line feed. *)
Definition endsInLineFeed (v : json) : bool :=
  match v with
  | JStr s => endsWith s [lineFeed]
  | _ => false
  end.

(** The payload as the Payload Decoder hands it on: a string loses one
    line feed at its end. *)
Definition decodedPayload (v : json) : json :=
  match v with
  | JStr s => if endsWith s [lineFeed] then JStr (removelast s) else v
  | _ => v
  end.

(** The rows whose call the Payload Decoder reads back: the text of the
    call ends in an escaped newline, a double quote and the bracket only
    if the payload is a string that ends in a line feed. *)
Definition rowOk (row : Row) : bool :=
  jsonOk (fst row) && jsonOk (snd row)
  && (endsInLineFeed (snd row)
      || negb (endsWith (JSON_stringify (JArr [fst row; snd row]) 0)
                        escapedNewlineClose)).

(** A document of calls: [separator] before each call, [semi] behind it,
    and [tail] behind the last one. *)
Definition documentOf (separator semi tail : jsstring) (rows : list Row) : jsstring :=
  flat_map (fun row => separator ++ rowCall row ++ semi) rows ++ tail.

(** *** Notions for an engine with a bound on argument lists *)

(** The failed result that the [catch] of [parseScriptContentDetailed]
    makes of a [RangeError]. *)
Definition rangeFailure (scriptContent : jsstring) : ParseResult :=
  {| success := false;
     components := [];
     error := Some (str "Parse failed: " ++ rangeError);
     dataType := None;
     debugInfo := Some (str "Input length: "
                          ++ natToString (length scriptContent)
                          ++ str ", Error at parsing stage") |}.

(** The record the [forEach] callback pushes for one snippet. *)
Definition indexedResultBounded (limit : nat) (entry : nat * jsstring)
  : IndexedParseResult :=
  {| base := parseScriptContentDetailedBounded limit (snd entry);
     index := fst entry;
     snippetPreview := substring (collapseWhitespace false (snd entry)) 0 120 |}.

(** The nodes of the result are few enough for one call of [push]. *)
Definition spreadFits (limit : nat) (r : IndexedParseResult) : Prop :=
  success (base r) = true -> length (components (base r)) <= limit.

Definition spreadFails (limit : nat) (r : IndexedParseResult) : Prop :=
  success (base r) = true /\ limit < length (components (base r)).

(** The aggregate that [parseDocumentContent] makes of its two arrays. *)
Definition aggregateOf (acc : Accumulators) : AggregatedParseResult :=
  let '(combinedComponents, results) := acc in
  {| totalScripts := length results;
     successCount :=
       length (filter (fun result => success (base result)
                                     && dataTypeIs result ComponentData) results);
     failureCount :=
       length (filter (fun result => negb (success (base result))) results);
     moduleLoadingCount :=
       length (filter (fun result => dataTypeIs result ModuleLoading) results);
     results := results;
     combinedComponents := combinedComponents |}.

(** A document of one call whose payload is an array of [n] strings. *)
Definition manyStrings (n : nat) : jsstring :=
  callOf [JNum (Int 1); JArr (repeat (JStr (str "a")) n)] 0.

(** * Properties *)

(** ** Strings *)

Lemma ch_eqb_eq (a b : ascii) : ch_eqb a b = true <-> a = b.
Proof. apply Ascii.eqb_eq. Qed.

Lemma ch_eqb_refl (a : ascii) : ch_eqb a a = true.
Proof. apply Ascii.eqb_refl. Qed.

Lemma ch_eqb_neq (a b : ascii) : ch_eqb a b = false <-> a <> b.
Proof. apply Ascii.eqb_neq. Qed.

Lemma str_eqb_eq (a b : jsstring) : str_eqb a b = true <-> a = b.
Proof.
  revert b; induction a as [|x a IH]; intros [|y b]; simpl;
    try (split; [discriminate | congruence]); try tauto.
  rewrite andb_true_iff, ch_eqb_eq, IH. split.
  - intros [-> ->]; reflexivity.
  - intros H; injection H; auto.
Qed.

Lemma str_eqb_refl (a : jsstring) : str_eqb a a = true.
Proof. apply str_eqb_eq; reflexivity. Qed.

Lemma startsWith_spec (pat s : jsstring) :
  startsWith pat s = true <-> exists rest, s = pat ++ rest.
Proof.
  revert s; induction pat as [|p pat IH]; intros s; simpl.
  - split; [intros _; exists s; reflexivity | reflexivity].
  - destruct s as [|c s].
    + split; [discriminate | intros [rest H]; discriminate].
    + rewrite andb_true_iff, ch_eqb_eq, IH. split.
      * intros [-> [rest ->]]; exists rest; reflexivity.
      * intros [rest H]; injection H as -> ->; split; [reflexivity | eauto].
Qed.

Lemma startsWith_app (pat rest : jsstring) : startsWith pat (pat ++ rest) = true.
Proof. apply startsWith_spec; eauto. Qed.

Lemma search_some (pat s : jsstring) (k : nat) :
  search pat s = Some k ->
  exists pre post, s = pre ++ pat ++ post /\ length pre = k.
Proof.
  revert k; induction s as [|c s IH]; intros k; simpl.
  - destruct (startsWith pat []) eqn:E; [|discriminate].
    intros [= <-]. apply startsWith_spec in E as [rest E].
    exists [], rest; auto.
  - destruct (startsWith pat (c :: s)) eqn:E.
    + intros [= <-]. apply startsWith_spec in E as [rest E].
      exists [], rest; auto.
    + destruct (search pat s) as [j|] eqn:Es; simpl; [|discriminate].
      intros [= <-]. destruct (IH j eq_refl) as (pre & post & -> & Hl).
      exists (c :: pre), post; simpl; auto.
Qed.

Lemma search_none (pat s : jsstring) :
  search pat s = None -> ~ contains s pat.
Proof.
  induction s as [|c s IH]; simpl.
  - destruct (startsWith pat []) eqn:E; [discriminate|].
    intros _ (pre & post & H). destruct pre; simpl in H.
    + assert (startsWith pat [] = true) by (apply startsWith_spec; eauto).
      congruence.
    + discriminate.
  - destruct (startsWith pat (c :: s)) eqn:E; [discriminate|].
    destruct (search pat s) eqn:Es; simpl; [discriminate|].
    intros _ (pre & post & H). destruct pre as [|d pre]; simpl in H.
    + assert (startsWith pat (c :: s) = true) by (apply startsWith_spec; eauto).
      congruence.
    + injection H as _ H. apply IH; [reflexivity|]. exists pre, post; exact H.
Qed.

Lemma includes_spec (s sub : jsstring) :
  includes s sub = true <-> contains s sub.
Proof.
  unfold includes. destruct (search sub s) as [k|] eqn:E.
  - split; [intros _|reflexivity].
    destruct (search_some _ _ _ E) as (pre & post & H & _). exists pre, post; exact H.
  - split; [discriminate|]. intros H. exfalso. exact (search_none _ _ E H).
Qed.

(** ** Regular expressions: the derivative matcher against the language *)

Lemma nullable_spec (r : regex) : nullable r = true <-> Matches r [].
Proof.
  induction r; simpl.
  - split; [discriminate | inversion 1].
  - split; auto.
  - split; [discriminate | inversion 1].
  - rewrite andb_true_iff, IHr1, IHr2. split.
    + intros [H1 H2]. change (@nil ascii) with (@nil ascii ++ []). auto.
    + intros H; inversion H as [| |? ? s1 s2 H1 H2| | | |]; subst.
      match goal with
      | E : _ ++ _ = [] |- _ => apply app_eq_nil in E as [-> ->]
      end. auto.
  - rewrite orb_true_iff, IHr1, IHr2. split.
    + intros [H|H]; auto.
    + inversion 1; auto.
  - split; auto.
Qed.

Lemma star_cons_inv (r : regex) (c : ascii) (s : jsstring) :
  Matches (RStar r) (c :: s) ->
  exists s1 s2, s = s1 ++ s2 /\ Matches r (c :: s1) /\ Matches (RStar r) s2.
Proof.
  intros H. remember (RStar r) as r0 eqn:Er. remember (c :: s) as s0 eqn:Es.
  revert s Es. induction H; intros s0 Es; try discriminate.
  injection Er as ->. destruct s1 as [|d s1]; simpl in Es.
  - apply IHMatches2; auto.
  - injection Es as -> <-. exists s1, s2. auto.
Qed.

Lemma deriv_spec (r : regex) (c : ascii) (s : jsstring) :
  Matches (deriv c r) s <-> Matches r (c :: s).
Proof.
  revert s; induction r; intros s; simpl.
  - split; inversion 1.
  - split; inversion 1.
  - destruct (p c) eqn:E; split; inversion 1; subst; auto; congruence.
  - assert (Hseq : Matches (RSeq (deriv c r1) r2) s -> Matches (RSeq r1 r2) (c :: s)).
    { inversion 1; subst. change (c :: s1 ++ s2) with ((c :: s1) ++ s2).
      constructor; [apply IHr1|]; auto. }
    assert (Hinv : Matches (RSeq r1 r2) (c :: s) ->
                   Matches (RSeq (deriv c r1) r2) s
                   \/ (Matches r1 [] /\ Matches (deriv c r2) s)).
    { intros H; inversion H as [| |? ? s1 s2 H1 H2| | | |]; subst.
      match goal with E : _ ++ _ = _ :: _ |- _ => rename E into E0 end.
      destruct s1 as [|d s1]; simpl in E0.
      - subst s2. right; split; [auto | apply IHr2; auto].
      - injection E0 as -> <-. left. constructor; [apply IHr1|]; auto. }
    destruct (nullable r1) eqn:N.
    + split.
      * inversion 1; subst; auto.
        change (c :: s) with ([] ++ c :: s). constructor.
        -- apply nullable_spec; auto.
        -- apply IHr2; auto.
      * intros H; destruct (Hinv H) as [|[_ ?]]; auto.
    + split; auto.
      intros H; destruct (Hinv H) as [|[H1 _]]; auto.
      apply nullable_spec in H1; congruence.
  - split; inversion 1; subst.
    + apply MAltL, IHr1; auto.
    + apply MAltR, IHr2; auto.
    + apply MAltL, IHr1; auto.
    + apply MAltR, IHr2; auto.
  - split.
    + inversion 1; subst. change (c :: s1 ++ s2) with ((c :: s1) ++ s2).
      constructor; [apply IHr|]; auto.
    + intros H. apply star_cons_inv in H as (s1 & s2 & -> & H1 & H2).
      constructor; [apply IHr|]; auto.
Qed.

Lemma testAnchored_spec (r : regex) (s : jsstring) :
  testAnchored r s = true <-> exists pre post, s = pre ++ post /\ Matches r pre.
Proof.
  revert r; induction s as [|c s IH]; intros r; simpl.
  - rewrite orb_false_r, nullable_spec. split.
    + intros H; exists [], []; auto.
    + intros (pre & post & E & H). symmetry in E.
      apply app_eq_nil in E as [-> _]; auto.
  - rewrite orb_true_iff, nullable_spec, IH. split.
    + intros [H|(pre & post & -> & H)].
      * exists [], (c :: s); auto.
      * exists (c :: pre), post; split; [reflexivity | apply deriv_spec; auto].
    + intros (pre & post & E & H). destruct pre as [|d pre]; simpl in E.
      * left; auto.
      * injection E as <- ->. right. exists pre, post; split; [reflexivity|].
        apply deriv_spec; auto.
Qed.

Lemma Matches_lit (l s : jsstring) : Matches (RLit l) s <-> s = l.
Proof.
  revert s; induction l as [|c l IH]; intros s; simpl.
  - split; [inversion 1; auto | intros ->; auto].
  - split.
    + inversion 1 as [| |? ? s1 s2 H1 H2| | | |]; subst.
      inversion H1; subst. apply IH in H2 as ->.
      match goal with H : ch_eqb _ _ = true |- _ => apply ch_eqb_eq in H as -> end.
      reflexivity.
    + intros ->. change (c :: l) with ([c] ++ l). constructor.
      * constructor. apply ch_eqb_refl.
      * apply IH; reflexivity.
Qed.

Lemma Matches_star_class (p : ascii -> bool) (s : jsstring) :
  Matches (RStar (RClass p)) s <-> forallb p s = true.
Proof.
  split.
  - intros H. remember (RStar (RClass p)) as r eqn:E.
    induction H; try discriminate; auto.
    injection E as ->. inversion H; subst. simpl.
    rewrite IHMatches2 by reflexivity. rewrite andb_true_r; auto.
  - induction s as [|c s IH]; simpl; auto.
    rewrite andb_true_iff. intros [Hc Hs].
    change (c :: s) with ([c] ++ s). auto.
Qed.

(** [key+ marker]: a non-empty run of class characters, then the
    marker. *)
Lemma Matches_key_marker (p : ascii -> bool) (marker s : jsstring) :
  Matches (RSeq (RPlus (RClass p)) (RLit marker)) s <->
  exists key, key <> [] /\ forallb p key = true /\ s = key ++ marker.
Proof.
  split.
  - inversion 1 as [| |? ? s1 s2 H1 H2| | | |]; subst.
    apply Matches_lit in H2 as ->.
    inversion H1 as [| |? ? k1 k2 K1 K2| | | |]; subst.
    inversion K1; subst. apply Matches_star_class in K2.
    exists ([c] ++ k2). simpl. split; [discriminate|]. split; [|reflexivity].
    rewrite K2, andb_true_r; auto.
  - intros (key & Hne & Hp & ->). destruct key as [|c key]; [congruence|].
    simpl in Hp. apply andb_true_iff in Hp as [Hc Hk].
    constructor; [|apply Matches_lit; reflexivity].
    change (c :: key) with ([c] ++ key). constructor; auto.
    apply Matches_star_class; auto.
Qed.

Lemma test_key_marker (p : ascii -> bool) (marker s : jsstring) :
  testAnchored (RSeq (RPlus (RClass p)) (RLit marker)) s = true <->
  keyThenMarker p marker s.
Proof.
  rewrite testAnchored_spec. split.
  - intros (pre & post & -> & H). apply Matches_key_marker in H as (key & ? & ? & ->).
    exists key, post. rewrite <- app_assoc. auto.
  - intros (key & rest & ? & ? & ->). exists (key ++ marker), rest.
    rewrite <- app_assoc. split; [reflexivity|].
    apply Matches_key_marker. exists key; auto.
Qed.

(** ** The Payload Classifier *)

Lemma ignoreCase_alnum (c : ascii) : ignoreCase alnumLower c = alnumAnyCase c.
Proof.
  destruct c as [[] [] [] [] [] [] [] []]; reflexivity.
Qed.

Lemma forallb_ext' {A} (f g : A -> bool) (l : list A) :
  (forall x, f x = g x) -> forallb f l = forallb g l.
Proof. intros H; induction l; simpl; [|rewrite H, IHl]; reflexivity. Qed.

Lemma keyThenMarker_ext (p p' : ascii -> bool) (marker s : jsstring) :
  (forall c, p c = p' c) -> keyThenMarker p marker s <-> keyThenMarker p' marker s.
Proof.
  intros H; split; intros (key & rest & ? & Hk & ?); exists key, rest;
    repeat split; auto; [rewrite <- Hk | rewrite <- Hk];
    [symmetry|]; apply forallb_ext'; auto.
Qed.

Lemma moduleLoadingRule_dec (s : jsstring) :
  (testAnchored moduleLoadingPattern s || includes s (str "static/chunks/")) = true
  <-> moduleLoadingRule s.
Proof.
  unfold moduleLoadingRule, moduleLoadingPattern.
  rewrite orb_true_iff, test_key_marker, includes_spec. reflexivity.
Qed.

Lemma componentDataRule_dec (s : jsstring) :
  testAnchored componentDataPattern s = true <-> componentDataRule s.
Proof.
  unfold componentDataRule, componentDataPattern.
  rewrite test_key_marker. apply keyThenMarker_ext, ignoreCase_alnum.
Qed.

(** C4.  The classifier answers module-loading exactly when the string
    starts with a lower-case hex key followed by [:I[] or has
    [static/chunks/] somewhere in it; failing that, component-data
    exactly when it starts with an alphanumeric key of either case
    followed by [:[]; and unknown exactly when neither rule applies. *)
Theorem detectDataType_rules (s : jsstring) :
  (detectDataType s = ModuleLoading <-> moduleLoadingRule s)
  /\ (detectDataType s = ComponentData <->
      ~ moduleLoadingRule s /\ componentDataRule s)
  /\ (detectDataType s = Unknown <->
      ~ moduleLoadingRule s /\ ~ componentDataRule s).
Proof.
  pose proof (moduleLoadingRule_dec s) as Ha.
  pose proof (componentDataRule_dec s) as Hb.
  unfold detectDataType.
  destruct (testAnchored moduleLoadingPattern s || includes s (str "static/chunks/")).
  - assert (moduleLoadingRule s) by (apply Ha; reflexivity).
    repeat split; try discriminate; tauto.
  - assert (~ moduleLoadingRule s) by (intros H; apply Ha in H; discriminate).
    destruct (testAnchored componentDataPattern s).
    + assert (componentDataRule s) by (apply Hb; reflexivity).
      repeat split; try discriminate; tauto.
    + assert (~ componentDataRule s) by (intros H'; apply Hb in H'; discriminate).
      repeat split; try discriminate; tauto.
Qed.

Lemma contains_colon_of_rule (s : jsstring) :
  componentDataRule s -> contains s (str ":").
Proof.
  intros (key & rest & _ & _ & ->). exists key, ("["%char :: rest). reflexivity.
Qed.

(** C10.  A string the classifier calls component-data has a colon in
    it, so the arm of [parseScriptContentDetailed] for a component-data
    string without a colon is never taken. *)
Theorem fallback_branch_unreachable (s : jsstring) :
  (detectDataType s = ComponentData ->
   contains s (str ":") /\ includes s (str ":") = true)
  /\ payloadBranch s <> FallbackBranch.
Proof.
  assert (H : detectDataType s = ComponentData ->
              contains s (str ":") /\ includes s (str ":") = true).
  { intros E. apply detectDataType_rules in E as [_ E].
    apply contains_colon_of_rule in E. split; [exact E|].
    apply includes_spec; exact E. }
  split; [exact H|].
  unfold payloadBranch. destruct (detectDataType s) eqn:E;
    cbn [DataType_eqb andb]; try discriminate.
  destruct (H eq_refl) as [_ ->]. discriminate.
Qed.

Lemma fallback_branch_unreachable_witness :
  detectDataType (str "4c:[1]") = ComponentData
  /\ includes (str "4c:[1]") (str ":") = true
  /\ payloadBranch (str "4c:[1]") = AfterColonBranch.
Proof.
  split; [reflexivity|].
  split.
  - apply (proj1 (fallback_branch_unreachable (str "4c:[1]"))). reflexivity.
  - reflexivity.
Defined.

(** ** The Tree Builder: enough fuel, and the equations of the source *)

Lemma list_max_ge (l : list nat) (n : nat) : In n l -> n <= list_max l.
Proof.
  induction l as [|x l IH]; simpl; [tauto|].
  intros [->|H]; [|apply IH in H]; lia.
Qed.

Lemma json_depth_item (items : list json) (x : json) :
  In x items -> json_depth x < json_depth (JArr items).
Proof.
  intros H. simpl. apply Nat.lt_succ_r, list_max_ge, in_map, H.
Qed.

Lemma obj_get_In (k : jsstring) (o : object) (v : json) :
  obj_get k o = Some v -> exists k', In (k', v) o.
Proof.
  induction o as [|[k' v'] o IH]; simpl; [discriminate|].
  destruct (str_eqb k k').
  - intros [= ->]. eauto.
  - intros H. destruct (IH H) as [k'' ?]. eauto.
Qed.

Lemma json_depth_prop (k : jsstring) (o : object) (v : json) :
  obj_get k o = Some v -> json_depth v < json_depth (JObj o).
Proof.
  intros H. apply obj_get_In in H as [k' H]. simpl.
  apply Nat.lt_succ_r, list_max_ge.
  change (json_depth v) with ((fun kv : jsstring * json => json_depth (snd kv)) (k', v)).
  apply in_map, H.
Qed.

Lemma json_depth_children (componentArray : list json) (children : json) :
  getChildren (propsOf componentArray) = Some children ->
  json_depth children + 2 <= json_depth (JArr componentArray).
Proof.
  unfold propsOf. destruct (nth_error componentArray 3) as [v|] eqn:E;
    [|discriminate].
  destruct (truthy v); [|discriminate].
  destruct v; try discriminate. simpl getChildren. intros H.
  apply json_depth_prop in H. apply nth_error_In, json_depth_item in E. lia.
Qed.

Lemma flat_map_ext_In {A B : Type} (f g : A -> list B) (l : list A) :
  (forall x, In x l -> f x = g x) -> flat_map f l = flat_map g l.
Proof.
  induction l as [|x l IH]; simpl; intros H; [reflexivity|].
  rewrite (H x) by auto. rewrite IH by auto. reflexivity.
Qed.

Lemma wrapped_other_empty (fuel : nat) (child : json) :
  match child with JStr _ | JArr _ => False | _ => True end ->
  parseComponentStructureFuel (S fuel) (JArr [child]) = [].
Proof. destruct child; simpl; tauto. Qed.

Lemma fuel_stable (n : nat) : stableAt n.
Proof.
  induction n as [|n (IHS & IHC & IHH)].
  - repeat split; intros ? m Hn; simpl in Hn; lia.
  - repeat split.
    + intros v m Hn Hm. destruct m as [|m]; [lia|].
      cbn [parseComponentStructureFuel]. destruct v; try reflexivity.
      destruct (headIsDollar items).
      * rewrite (IHC items m) by lia. reflexivity.
      * apply flat_map_ext_In. intros x Hx.
        pose proof (json_depth_item _ _ Hx) as Hd.
        destruct x; try reflexivity.
        rewrite (IHC items0 m) by lia.
        rewrite (IHS (JArr items0) m) by lia. reflexivity.
    + intros l m Hn Hm. destruct m as [|m]; [simpl in Hm; lia|].
      cbn [parseComponentFuel].
      destruct ((length l <? 3) || negb (headIsDollar l)); [reflexivity|].
      destruct (getChildren (propsOf l)) as [c|] eqn:E; [|reflexivity].
      apply json_depth_children in E.
      rewrite (IHH c m) by lia. reflexivity.
    + intros v m Hn Hm. destruct m as [|m]; [lia|].
      cbn [parseChildrenFuel]. destruct v; try reflexivity.
      destruct (headIsDollar items).
      * rewrite (IHC items m) by lia. reflexivity.
      * apply flat_map_ext_In. intros x Hx.
        pose proof (json_depth_item _ _ Hx) as Hd.
        assert (Hw : forall k, 1 <= k -> match x with JStr _ | JArr _ => False | _ => True end ->
                               parseComponentStructureFuel k (JArr [x]) = []).
        { intros [|k] Hk Hx'; [lia|]. apply wrapped_other_empty; exact Hx'. }
        destruct x; try reflexivity;
          try (rewrite (Hw n), (Hw m) by (simpl in *; (lia || exact I)); reflexivity).
        rewrite (IHC items0 m) by lia.
        rewrite (IHH (JArr items0) m) by lia. reflexivity.
Qed.

Lemma parseComponentStructureFuel_stable (fuel : nat) (data : json) :
  json_depth data + 2 <= fuel ->
  parseComponentStructureFuel fuel data = parseComponentStructure data.
Proof.
  intros H. apply (proj1 (fuel_stable fuel)); [exact H | lia].
Qed.

Lemma parseComponentFuel_stable (fuel : nat) (componentArray : list json) :
  json_depth (JArr componentArray) + 1 <= fuel ->
  parseComponentFuel fuel componentArray = parseComponent componentArray.
Proof.
  intros H. apply (proj1 (proj2 (fuel_stable fuel))); [exact H | lia].
Qed.

Lemma parseChildrenFuel_stable (fuel : nat) (children : json) :
  json_depth children + 2 <= fuel ->
  parseChildrenFuel fuel children = parseChildren children.
Proof.
  intros H. apply (proj2 (proj2 (fuel_stable fuel))); [exact H | lia].
Qed.

(** The three methods satisfy the defining equations of the source. *)
Lemma parseComponentStructure_eq (data : json) :
  parseComponentStructure data =
  match data with
  | JStr s => [textNode s]
  | JArr items =>
      if headIsDollar items then
        match parseComponent items with
        | Some parsed => [parsed]
        | None => []
        end
      else flat_map structureItem items
  | _ => []
  end.
Proof.
  unfold parseComponentStructure at 1.
  replace (json_depth data + 2) with (S (json_depth data + 1)) by lia.
  cbn [parseComponentStructureFuel]. destruct data; try reflexivity.
  destruct (headIsDollar items).
  - rewrite parseComponentFuel_stable by lia. reflexivity.
  - apply flat_map_ext_In. intros x Hx.
    pose proof (json_depth_item _ _ Hx) as Hd.
    destruct x; try reflexivity. unfold structureItem.
    rewrite parseComponentFuel_stable by lia.
    rewrite parseComponentStructureFuel_stable by lia. reflexivity.
Qed.

Lemma parseComponent_eq (componentArray : list json) :
  parseComponent componentArray =
  if (length componentArray <? 3) || negb (headIsDollar componentArray)
  then None
  else
    let componentType := componentTypeOf componentArray in
    let props := propsOf componentArray in
    match getChildren props with
    | Some children =>
        if truthy children then
          Some (mkParsedComponent
                  (str "component") componentType
                  (obj_delete (str "children") (spread props))
                  (Some (parseChildren children)))
        else
          Some (mkParsedComponent (str "component") componentType
                                  (spread props) None)
    | None =>
        Some (mkParsedComponent (str "component") componentType
                                (spread props) None)
    end.
Proof.
  unfold parseComponent.
  replace (json_depth (JArr componentArray) + 2)
    with (S (json_depth (JArr componentArray) + 1)) by lia.
  cbn [parseComponentFuel].
  destruct ((length componentArray <? 3) || negb (headIsDollar componentArray));
    [reflexivity|].
  cbv zeta.
  destruct (getChildren (propsOf componentArray)) as [c|] eqn:E; [|reflexivity].
  apply json_depth_children in E.
  rewrite parseChildrenFuel_stable by lia. reflexivity.
Qed.

Lemma parseChildren_eq (children : json) :
  parseChildren children =
  match children with
  | JStr s => [inr s]
  | JArr items =>
      if headIsDollar items then
        match parseComponent items with
        | Some single => [inl single]
        | None => []
        end
      else flat_map childItem items
  | _ => []
  end.
Proof.
  unfold parseChildren at 1.
  replace (json_depth children + 2) with (S (json_depth children + 1)) by lia.
  cbn [parseChildrenFuel]. destruct children; try reflexivity.
  destruct (headIsDollar items).
  - rewrite parseComponentFuel_stable by lia. reflexivity.
  - apply flat_map_ext_In. intros x Hx.
    pose proof (json_depth_item _ _ Hx) as Hd.
    unfold childItem.
    destruct x; try reflexivity;
      try (rewrite parseComponentStructureFuel_stable by (simpl in *; lia);
           reflexivity).
    rewrite parseComponentFuel_stable by lia.
    rewrite parseChildrenFuel_stable by lia. reflexivity.
Qed.

Lemma expandElement_structureItem (element : json) :
  expandElement element = structureItem element.
Proof.
  destruct element; try reflexivity;
    unfold expandElement; rewrite parseComponentStructure_eq; reflexivity.
Qed.

(** C2.  On a sequence that does not start with the tag marker, the
    Tree Builder yields the concatenation, in order, of what the
    per-element rule gives for each element. *)
Theorem parseComponentStructure_sequence (items : list json) :
  headIsDollar items = false ->
  parseComponentStructure (JArr items) = flat_map expandElement items.
Proof.
  intros H. rewrite parseComponentStructure_eq, H.
  apply flat_map_ext_In. intros x _. symmetry. apply expandElement_structureItem.
Qed.

Lemma parseComponentStructure_sequence_witness :
  parseComponentStructure
    (JArr [JStr (str "a"); JArr [JStr (str "b")]; JNum (Int 7);
           JArr [JStr (str "$"); JStr (str "p"); JNull]])
  = flat_map expandElement
      [JStr (str "a"); JArr [JStr (str "b")]; JNum (Int 7);
       JArr [JStr (str "$"); JStr (str "p"); JNull]].
Proof.
  apply (parseComponentStructure_sequence
           [JStr (str "a"); JArr [JStr (str "b")]; JNum (Int 7);
            JArr [JStr (str "$"); JStr (str "p"); JNull]]).
  reflexivity.
Defined.

Lemma obj_get_delete (k : jsstring) (o : object) :
  obj_get k (obj_delete k o) = None.
Proof.
  induction o as [|[k' v] o IH]; simpl; [reflexivity|].
  destruct (str_eqb k k') eqn:E; simpl; [exact IH|].
  rewrite E. exact IH.
Qed.

(** C3, as the code has it.  When the property mapping of an Element
    descriptor has a [children] entry whose value is truthy, the entry is
    consumed into the child sequence and the properties of the resulting
    Element have no [children] key. *)
Theorem parseComponent_consumes_children
        (componentArray : list json) (c : ParsedComponent)
        (o : object) (v : json) :
  parseComponent componentArray = Some c ->
  nth_error componentArray 3 = Some (JObj o) ->
  obj_get (str "children") o = Some v ->
  truthy v = true ->
  obj_get (str "children") (pc_props c) = None
  /\ pc_props c = obj_delete (str "children") o
  /\ pc_children c = Some (parseChildren v).
Proof.
  intros Hc H3 Hv Ht. rewrite parseComponent_eq in Hc.
  destruct ((length componentArray <? 3) || negb (headIsDollar componentArray));
    [discriminate|].
  cbv zeta in Hc. unfold propsOf in Hc. rewrite H3 in Hc.
  cbn [truthy getChildren spread] in Hc. rewrite Hv, Ht in Hc.
  injection Hc as <-. cbn [pc_props pc_children].
  split; [apply obj_get_delete | split; reflexivity].
Qed.

Lemma parseComponent_consumes_children_witness :
  obj_get (str "children")
          (pc_props (mkParsedComponent (str "component") (JStr (str "div"))
                                       [(str "className", JStr (str "a"))]
                                       (Some [inr (str "hi")]))) = None.
Proof.
  apply (parseComponent_consumes_children
           [JStr (str "$"); JStr (str "div"); JNull;
            JObj [(str "className", JStr (str "a"));
                  (str "children", JStr (str "hi"))]]
           (mkParsedComponent (str "component") (JStr (str "div"))
                              [(str "className", JStr (str "a"))]
                              (Some [inr (str "hi")]))
           [(str "className", JStr (str "a")); (str "children", JStr (str "hi"))]
           (JStr (str "hi")));
    reflexivity.
Defined.

(** C3 as stated fails: a [children] entry whose value is falsy (here
    the empty string) is left among the properties, and the Element gets
    no child sequence. *)
Lemma parseComponent_keeps_falsy_children :
  obj_get (str "children") [(str "children", JStr [])] = Some (JStr [])
  /\ parseComponent [JStr (str "$"); JStr (str "div"); JNull;
                     JObj [(str "children", JStr [])]]
     = Some (mkParsedComponent (str "component") (JStr (str "div"))
                               [(str "children", JStr [])] None).
Proof. split; reflexivity. Qed.

(** C9.  When the decoded call is a sequence whose second element is a
    string that the classifier calls unknown, the call succeeds as
    component-data with exactly one Text node holding that string. *)
Theorem unknown_string_payload
        (snippet cleanContent s : jsstring) (id : json) (more : list json) :
  extractDataFromScript snippet = Ok cleanContent ->
  JSON_parse cleanContent = Ok (JArr (id :: JStr s :: more)) ->
  detectDataType s = Unknown ->
  parseScriptContentDetailed snippet =
  {| success := true;
     components := [textNode s];
     error := None;
     dataType := Some ComponentData;
     debugInfo := None |}.
Proof.
  intros He Hp Hd. unfold parseScriptContentDetailed, parseScriptContentTry.
  rewrite He, Hp. unfold stringPayload, payloadBranch. rewrite Hd.
  cbn [DataType_eqb andb]. rewrite parseComponentStructure_eq. reflexivity.
Qed.

Lemma unknown_string_payload_witness :
  parseScriptContentDetailed (qstr "self.__next_f.push([1,'hello'])") =
  {| success := true;
     components := [textNode (str "hello")];
     error := None;
     dataType := Some ComponentData;
     debugInfo := None |}.
Proof.
  apply (unknown_string_payload
           (qstr "self.__next_f.push([1,'hello'])")
           (qstr "[1,'hello']") (str "hello") (JNum (Int 1)) []);
    vm_compute; reflexivity.
Defined.

(** ** The Call Extractor terminates *)

Lemma scanBracket_ge (n : nat) :
  forall rest, length rest <= n ->
  forall i depth sc k, scanBracket rest i depth sc = Some k -> i <= k.
Proof.
  induction n as [|n IH]; intros rest Hn i depth sc k.
  - destruct rest; [discriminate | simpl in Hn; lia].
  - destruct rest as [|c rest]; [discriminate|]. simpl in Hn.
    cbn [scanBracket]. destruct sc as [q|].
    + destruct (ch_eqb c "\"%char).
      * destruct rest as [|c' rest]; [discriminate|]. simpl in Hn.
        intros H. apply IH in H; [lia | lia].
      * destruct (ch_eqb c q); intros H; apply IH in H; lia.
    + destruct (isQuote c); [intros H; apply IH in H; lia|].
      destruct (ch_eqb c "["%char); [intros H; apply IH in H; lia|].
      destruct (ch_eqb c "]"%char); [|intros H; apply IH in H; lia].
      destruct (depth - 1 =? 0)%Z; [intros [= <-]; lia|].
      intros H; apply IH in H; lia.
Qed.

Lemma findMatchingBracket_ge (content : jsstring) (startIndex k : nat) :
  findMatchingBracket content startIndex = Some k -> startIndex <= k.
Proof. intros H. eapply scanBracket_ge; [reflexivity | exact H]. Qed.

Lemma skipWhitespace_ge (s : jsstring) (cursor : nat) :
  cursor <= skipWhitespace s cursor.
Proof. unfold skipWhitespace; lia. Qed.

Lemma pushToken_length : length pushToken = 19.
Proof. reflexivity. Qed.

Lemma tryPushCall_progress (content : jsstring) (start : nat) :
  match tryPushCall content start with
  | Rejected next => start < next
  | Accepted stop => start < stop
  end.
Proof.
  unfold tryPushCall. rewrite pushToken_length.
  pose proof (skipWhitespace_ge content (start + 19)) as Hc.
  destruct (_ || _); [lia|].
  destruct (findMatchingBracket _ _) as [arrayEnd|] eqn:E; [|lia].
  apply findMatchingBracket_ge in E.
  pose proof (skipWhitespace_ge content (arrayEnd + 1)) as Ha.
  destruct (_ || _); [lia|].
  destruct (_ && _); lia.
Qed.

Lemma indexOf_ge (s pat : jsstring) (from k : nat) :
  from <= length s -> indexOf s pat from = Some k -> from <= k.
Proof.
  unfold indexOf. intros Hf. destruct (search pat (skipn from s)); [|discriminate].
  simpl. intros [= <-]. lia.
Qed.

Lemma extractPushCallsLoop_total (fuel : nat) (content : jsstring) :
  forall searchIndex calls,
    length content - searchIndex < fuel ->
    exists r, extractPushCallsLoop fuel content searchIndex calls = Some r.
Proof.
  induction fuel as [|fuel IH]; intros si calls Hf; [lia|].
  cbn [extractPushCallsLoop].
  destruct (si <? length content) eqn:Hlt; [|eauto].
  apply Nat.ltb_lt in Hlt.
  destruct (indexOf content pushToken si) as [start|] eqn:Ei; [|eauto].
  apply indexOf_ge in Ei; [|lia].
  pose proof (tryPushCall_progress content start) as Hp.
  destruct (tryPushCall content start); apply IH; lia.
Qed.

Lemma extractPushCalls_total (content : jsstring) :
  exists pushCalls, extractPushCalls content = Some pushCalls.
Proof. apply extractPushCallsLoop_total. lia. Qed.

Lemma includes_false (s sub : jsstring) :
  ~ contains s sub -> search sub s = None.
Proof.
  intros H. destruct (search sub s) eqn:E; [|reflexivity].
  exfalso. apply H, includes_spec. unfold includes. rewrite E. reflexivity.
Qed.

Lemma extractPushCalls_no_token (content : jsstring) :
  ~ contains content pushToken -> extractPushCalls content = Some [].
Proof.
  intros H. unfold extractPushCalls. cbn [extractPushCallsLoop].
  destruct (0 <? length content); [|reflexivity].
  unfold indexOf. cbn [skipn]. rewrite (includes_false _ _ H). reflexivity.
Qed.

(** ** [JSON.parse] never runs out of fuel *)

Lemma skipWs_length (s : jsstring) : length (skipWs s) <= length s.
Proof.
  induction s as [|c s IH]; [reflexivity|]. cbn [skipWs].
  destruct (isJsonWs c); simpl; lia.
Qed.

Lemma skipWs_cons_length (s r : jsstring) (c : ascii) :
  skipWs s = c :: r -> length r < length s.
Proof. intros H. pose proof (skipWs_length s) as Hl. rewrite H in Hl. simpl in Hl. lia. Qed.

Lemma parseStringBody_consumes (n : nat) :
  forall s, length s <= n ->
  forall acc k r, parseStringBody s acc = POk k r -> length r < length s.
Proof.
  induction n as [|n IH]; intros s Hn acc k r.
  - destruct s; [discriminate | simpl in Hn; lia].
  - destruct s as [|c s]; [discriminate|]. simpl in Hn. cbn [parseStringBody].
    destruct (ch_eqb c dquote); [intros [= _ <-]; simpl; lia|].
    destruct (ch_eqb c "\"%char).
    + destruct s as [|e s]; [discriminate|]. simpl in Hn.
      assert (Hgo : forall acc', parseStringBody s acc' = POk k r ->
                                 length r < length (c :: e :: s)).
      { intros acc' H. apply IH in H; [simpl; lia | lia]. }
      repeat match goal with
             | |- (if ?b then _ else _) = _ -> _ => destruct b; [apply Hgo|]
             end.
      destruct (ch_eqb e "u"%char); [|discriminate].
      destruct s as [|h1 [|h2 [|h3 [|h4 s]]]]; try discriminate.
      destruct (unicodeEscape h1 h2 h3 h4); [|discriminate].
      intros H. apply IH in H; [simpl; lia | simpl in Hn; lia].
    + destruct (nat_of_ascii c <? 32); [discriminate|].
      intros H. apply IH in H; [simpl; lia | lia].
Qed.

Lemma spanDigits_length (s : jsstring) :
  length (snd (spanDigits s)) <= length s.
Proof.
  induction s as [|c s IH]; [reflexivity|]. cbn [spanDigits].
  destruct (isDigit c); [|reflexivity].
  destruct (spanDigits s); simpl in *; lia.
Qed.

Lemma scanInt_consumes (s int r : jsstring) :
  scanInt s = Some (int, r) -> length r < length s.
Proof.
  destruct s as [|c s]; [discriminate|]. cbn [scanInt].
  destruct (ch_eqb c "0"%char); [intros [= _ <-]; simpl; lia|].
  destruct (isDigit c) eqn:E; [|discriminate].
  cbn [spanDigits]. rewrite E. pose proof (spanDigits_length s) as Hl.
  destruct (spanDigits s). intros [= _ <-]. simpl in *. lia.
Qed.

Lemma scanFrac_length (s frac r : jsstring) :
  scanFrac s = Some (frac, r) -> length r <= length s.
Proof.
  destruct s as [|c s]; [intros [= _ <-]; reflexivity|]. cbn [scanFrac].
  destruct (ch_eqb c "."%char); [|intros [= _ <-]; reflexivity].
  pose proof (spanDigits_length s) as Hl.
  destruct (spanDigits s) as [[|d ds] r']; [discriminate|].
  intros [= _ <-]. simpl in *. lia.
Qed.

Lemma scanExp_length (s eds r : jsstring) (eneg : bool) :
  scanExp s = Some (eneg, eds, r) -> length r <= length s.
Proof.
  destruct s as [|c s]; [intros [= _ _ <-]; reflexivity|]. cbn [scanExp].
  destruct (ch_eqb c "e"%char || ch_eqb c "E"%char); [|intros [= _ _ <-]; reflexivity].
  assert (Hgo : forall t neg,
             length t <= length s ->
             match spanDigits t with
             | ([], _) => None
             | (ds, r0) => Some (neg, ds, r0)
             end = Some (eneg, eds, r) -> length r <= length (c :: s)).
  { intros t neg Ht. pose proof (spanDigits_length t) as Hl.
    destruct (spanDigits t) as [[|d ds] r']; [discriminate|].
    intros [= _ _ <-]. simpl in *. lia. }
  destruct s as [|d s]; [apply (Hgo [] false); reflexivity|].
  destruct (ch_eqb d "+"%char); [apply Hgo; simpl; lia|].
  destruct (ch_eqb d "-"%char); apply Hgo; simpl; lia.
Qed.

Lemma parseNumber_consumes (s r : jsstring) (n : number) :
  parseNumber s = POk n r -> length r < length s.
Proof.
  unfold parseNumber.
  assert (Hbody : forall neg s1,
             length s1 <= length s ->
             match scanInt s1 with
             | None => PErr unexpectedToken
             | Some (int, s2) =>
                 match scanFrac s2 with
                 | None => PErr unexpectedToken
                 | Some (frac, s3) =>
                     match scanExp s3 with
                     | None => PErr unexpectedToken
                     | Some (eneg, eds, s4) =>
                         let m := digitsValue (int ++ frac) in
                         let x := digitsValue eds in
                         let e := ((if eneg then - x else x) - Z.of_nat (length frac))%Z in
                         POk (numberOfLiteral neg m e) s4
                     end
                 end
             end = POk n r -> length r < length s).
  { intros neg s1 Hs1.
    destruct (scanInt s1) as [[int s2]|] eqn:E1; [|discriminate].
    apply scanInt_consumes in E1.
    destruct (scanFrac s2) as [[frac s3]|] eqn:E2; [|discriminate].
    apply scanFrac_length in E2.
    destruct (scanExp s3) as [[[eneg eds] s4]|] eqn:E3; [|discriminate].
    apply scanExp_length in E3. cbv zeta. intros HH.
    injection HH as _ Hr. subst r. lia. }
  destruct s as [|c s]; [apply Hbody; reflexivity|].
  destruct (ch_eqb c "-"%char); apply Hbody; simpl; lia.
Qed.

Lemma expect_consumes (word s r : jsstring) (v w : json) :
  1 <= length word -> expect word v s = POk w r -> length r < length s.
Proof.
  unfold expect. intros Hw. destruct (startsWith word s) eqn:E; [|discriminate].
  apply startsWith_spec in E as [rest ->]. intros [= _ <-].
  rewrite length_skipn, length_app. lia.
Qed.

Lemma parse_consumes (fuel : nat) : consumesAt fuel.
Proof.
  induction fuel as [|fuel (IHV & IHE & IHM)]; [repeat split; discriminate|].
  repeat split.
  - intros s v r. cbn [parseValue].
    pose proof (skipWs_length s) as Hs.
    destruct (skipWs s) as [|c s'] eqn:Es; [discriminate|]. simpl in Hs.
    assert (Hexp : forall word w, 1 <= length word ->
                     expect word w (c :: s') = POk v r -> length r < length s).
    { intros word w Hw H. apply expect_consumes in H; [simpl in H; lia | exact Hw]. }
    destruct (ch_eqb c "n"%char); [apply Hexp; simpl; lia|].
    destruct (ch_eqb c "t"%char); [apply Hexp; simpl; lia|].
    destruct (ch_eqb c "f"%char); [apply Hexp; simpl; lia|].
    destruct (ch_eqb c dquote).
    { destruct (parseStringBody s' []) as [k r'| |] eqn:E; try discriminate.
      apply (parseStringBody_consumes (length s') s' (le_n _)) in E.
      intros [= _ <-]. lia. }
    destruct (ch_eqb c "["%char).
    { pose proof (skipWs_length s') as Hs'.
      destruct (skipWs s') as [|d r'] eqn:E; [discriminate|]. simpl in Hs'.
      destruct (ch_eqb d "]"%char); [intros [= _ <-]; lia|].
      intros H. apply IHE in H. lia. }
    destruct (ch_eqb c "{"%char).
    { pose proof (skipWs_length s') as Hs'.
      destruct (skipWs s') as [|d r'] eqn:E; [discriminate|]. simpl in Hs'.
      destruct (ch_eqb d "}"%char); [intros [= _ <-]; lia|].
      intros H. apply IHM in H. lia. }
    destruct (ch_eqb c "-"%char || isDigit c); [|discriminate].
    destruct (parseNumber (c :: s')) as [n r'| |] eqn:E; try discriminate.
    apply parseNumber_consumes in E. intros [= _ <-]. simpl in E. lia.
  - intros s acc v r. cbn [parseElements].
    destruct (parseValue fuel s) as [x r1| |] eqn:E; try discriminate.
    apply IHV in E. pose proof (skipWs_length r1) as Hs.
    destruct (skipWs r1) as [|d r'] eqn:E'; [discriminate|]. simpl in Hs.
    destruct (ch_eqb d ","%char); [intros H; apply IHE in H; lia|].
    destruct (ch_eqb d "]"%char); [intros [= _ <-]; lia | discriminate].
  - intros s acc v r. cbn [parseMembers].
    pose proof (skipWs_length s) as Hs.
    destruct (skipWs s) as [|q s1] eqn:Es; [discriminate|]. simpl in Hs.
    destruct (ch_eqb q dquote); [|discriminate].
    destruct (parseStringBody s1 []) as [k s2| |] eqn:Ek; try discriminate.
    apply (parseStringBody_consumes (length s1) s1 (le_n _)) in Ek.
    pose proof (skipWs_length s2) as Hs2.
    destruct (skipWs s2) as [|c s3] eqn:Es2; [discriminate|]. simpl in Hs2.
    destruct (ch_eqb c ":"%char); [|discriminate].
    destruct (parseValue fuel s3) as [x r1| |] eqn:E; try discriminate.
    apply IHV in E. pose proof (skipWs_length r1) as Hs3.
    destruct (skipWs r1) as [|d r'] eqn:E'; [discriminate|]. simpl in Hs3.
    destruct (ch_eqb d ","%char); [intros H; apply IHM in H; lia|].
    destruct (ch_eqb d "}"%char); [intros [= _ <-]; lia | discriminate].
Qed.

Lemma parseStringBody_no_fuel (n : nat) :
  forall s, length s <= n -> forall acc, parseStringBody s acc <> PFuel.
Proof.
  induction n as [|n IH]; intros s Hn acc.
  - destruct s; [discriminate | simpl in Hn; lia].
  - destruct s as [|c s]; [discriminate|]. simpl in Hn. cbn [parseStringBody].
    destruct (ch_eqb c dquote); [discriminate|].
    destruct (ch_eqb c "\"%char).
    + destruct s as [|e s]; [discriminate|]. simpl in Hn.
      repeat match goal with
             | |- (if ?b then _ else _) <> _ => destruct b; [apply IH; lia|]
             end.
      destruct (ch_eqb e "u"%char); [|discriminate].
      destruct s as [|h1 [|h2 [|h3 [|h4 s]]]]; try discriminate.
      destruct (unicodeEscape h1 h2 h3 h4); [|discriminate].
      apply IH. simpl in Hn. lia.
    + destruct (nat_of_ascii c <? 32); [discriminate|]. apply IH. lia.
Qed.

Lemma parseNumber_no_fuel (s : jsstring) : parseNumber s <> PFuel.
Proof.
  unfold parseNumber.
  destruct (match s with
            | [] => (false, s)
            | c :: t => if ch_eqb c "-"%char then (true, t) else (false, s)
            end) as [neg s1].
  destruct (scanInt s1) as [[int s2]|]; [|discriminate].
  destruct (scanFrac s2) as [[frac s3]|]; [|discriminate].
  destruct (scanExp s3) as [[[eneg eds] s4]|]; discriminate.
Qed.

Lemma expect_no_fuel (word s : jsstring) (v : json) : expect word v s <> PFuel.
Proof. unfold expect. destruct (startsWith word s); discriminate. Qed.

Lemma parse_fuel_enough (fuel : nat) : fuelEnoughAt fuel.
Proof.
  induction fuel as [|fuel (IHV & IHE & IHM)]; [repeat split; intros; lia|].
  destruct (parse_consumes fuel) as (CV & CE & CM).
  repeat split.
  - intros s Hf. cbn [parseValue].
    pose proof (skipWs_length s) as Hs.
    destruct (skipWs s) as [|c s'] eqn:Es; [discriminate|]. simpl in Hs.
    destruct (ch_eqb c "n"%char); [apply expect_no_fuel|].
    destruct (ch_eqb c "t"%char); [apply expect_no_fuel|].
    destruct (ch_eqb c "f"%char); [apply expect_no_fuel|].
    destruct (ch_eqb c dquote).
    { pose proof (parseStringBody_no_fuel (length s') s' (le_n _) []) as H.
      destruct (parseStringBody s' []); [discriminate | discriminate | congruence]. }
    destruct (ch_eqb c "["%char).
    { destruct (skipWs s') as [|d r']; [discriminate|].
      destruct (ch_eqb d "]"%char); [discriminate|]. apply IHE. lia. }
    destruct (ch_eqb c "{"%char).
    { destruct (skipWs s') as [|d r']; [discriminate|].
      destruct (ch_eqb d "}"%char); [discriminate|]. apply IHM. lia. }
    destruct (ch_eqb c "-"%char || isDigit c); [|discriminate].
    pose proof (parseNumber_no_fuel (c :: s')) as H.
    destruct (parseNumber (c :: s')); [discriminate | discriminate | congruence].
  - intros s acc Hf. cbn [parseElements].
    pose proof (IHV s ltac:(lia)) as HV.
    destruct (parseValue fuel s) as [x r1| |] eqn:E; [|discriminate|congruence].
    apply CV in E. pose proof (skipWs_length r1) as Hs.
    destruct (skipWs r1) as [|d r']; [discriminate|]. simpl in Hs.
    destruct (ch_eqb d ","%char); [apply IHE; lia|].
    destruct (ch_eqb d "]"%char); discriminate.
  - intros s acc Hf. cbn [parseMembers].
    pose proof (skipWs_length s) as Hs.
    destruct (skipWs s) as [|q s1]; [discriminate|]. simpl in Hs.
    destruct (ch_eqb q dquote); [|discriminate].
    pose proof (parseStringBody_no_fuel (length s1) s1 (le_n _) []) as HK.
    destruct (parseStringBody s1 []) as [k s2| |] eqn:Ek; [|discriminate|congruence].
    apply (parseStringBody_consumes (length s1) s1 (le_n _)) in Ek.
    pose proof (skipWs_length s2) as Hs2.
    destruct (skipWs s2) as [|c s3]; [discriminate|]. simpl in Hs2.
    destruct (ch_eqb c ":"%char); [|discriminate].
    pose proof (IHV s3 ltac:(lia)) as HV.
    destruct (parseValue fuel s3) as [x r1| |] eqn:E; [|discriminate|congruence].
    apply CV in E. pose proof (skipWs_length r1) as Hs3.
    destruct (skipWs r1) as [|d r']; [discriminate|]. simpl in Hs3.
    destruct (ch_eqb d ","%char); [apply IHM; lia|].
    destruct (ch_eqb d "}"%char); discriminate.
Qed.

(** The fuel [JSON_parse] gives to [parseValue] never runs out: what it
    throws is a syntax error of the text. *)
Lemma JSON_parse_fuel (text : jsstring) :
  parseValue (2 * length text + 2) text <> PFuel.
Proof. apply (proj1 (parse_fuel_enough _)). lia. Qed.

(** ** The per-call pipeline: the shape of a result *)

Lemma stringPayload_shape (s : jsstring) :
  match stringPayload s with
  | Return r => resultShape r
  | Continue _ => True
  end.
Proof.
  unfold stringPayload. destruct (payloadBranch s).
  - unfold resultShape. cbn [success components dataType error]. auto.
  - destruct (JSON_parse _); [exact I|].
    unfold resultShape. cbn [success components dataType error]. eauto.
  - destruct (JSON_parse _); exact I.
  - exact I.
Qed.

Lemma parseScriptContentDetailed_shape (snippet : jsstring) :
  resultShape (parseScriptContentDetailed snippet).
Proof.
  unfold parseScriptContentDetailed, parseScriptContentTry.
  assert (Hthrow : forall m,
             resultShape
               {| success := false; components := [];
                  error := Some (str "Parse failed: " ++ m);
                  dataType := None;
                  debugInfo := Some (str "Input length: "
                                       ++ natToString (length snippet)
                                       ++ str ", Error at parsing stage") |}).
  { intros m. unfold resultShape. cbn [success components dataType error]. eauto. }
  destruct (extractDataFromScript snippet) as [clean|m]; [|apply Hthrow].
  destruct (JSON_parse clean) as [parsed|m]; [|apply Hthrow].
  assert (Hbad : forall v,
             resultShape
               {| success := false; components := [];
                  error := Some (str "Invalid data structure: Expected array with at least 2 elements");
                  dataType := None;
                  debugInfo := Some (str "Got: " ++ substring (JSON_stringify v 0) 0 100
                                       ++ str "...") |}).
  { intros v. unfold resultShape. cbn [success components dataType error]. eauto. }
  destruct parsed as [| | | |items|]; try apply Hbad.
  destruct items as [|x [|componentData items]]; try apply Hbad.
  assert (Hgo : forall v,
             resultShape
               {| success := true; components := parseComponentStructure v;
                  error := None; dataType := Some ComponentData;
                  debugInfo := None |}).
  { intros v. unfold resultShape. cbn [success components dataType error]. auto. }
  destruct componentData; try apply Hgo.
  pose proof (stringPayload_shape s) as Hs.
  destruct (stringPayload s); [exact Hs | apply Hgo].
Qed.

(** ** The Aggregator *)

Lemma fold_visitSnippet (entries : list (nat * jsstring)) :
  forall combined results,
    fold_left visitSnippet entries (combined, results) =
    (combined ++ flat_map pushedNodes (map indexedResult entries),
     results ++ map indexedResult entries).
Proof.
  induction entries as [|[i snippet] entries IH]; intros combined results.
  - simpl. rewrite !app_nil_r. reflexivity.
  - cbn [fold_left visitSnippet]. rewrite IH. cbn [map flat_map].
    unfold pushedNodes at 2. cbn [indexedResult base snd fst].
    destruct (success (parseScriptContentDetailed snippet));
      rewrite <- !app_assoc; reflexivity.
Qed.

Lemma forEachSnippet_eq (pushCalls : list jsstring) :
  let entries := combine (seq 0 (length pushCalls)) pushCalls in
  forEachSnippet pushCalls =
  (flat_map pushedNodes (map indexedResult entries), map indexedResult entries).
Proof. unfold forEachSnippet. rewrite fold_visitSnippet. reflexivity. Qed.

Lemma indexedResult_shape (entry : nat * jsstring) :
  resultShape (base (indexedResult entry)).
Proof. apply parseScriptContentDetailed_shape. Qed.

Lemma pushedNodes_componentData (r : IndexedParseResult) :
  resultShape (base r) -> pushedNodes r = componentDataNodes r.
Proof.
  unfold resultShape, pushedNodes, componentDataNodes, dataTypeIs.
  destruct (success (base r)); [|reflexivity].
  intros [_ [->|[-> ->]]]; reflexivity.
Qed.

(** [parseDocumentContent] in one equation: the results are the records
    of the calls found, in order. *)
Lemma parseDocumentContent_eq (content : jsstring) :
  exists pushCalls,
    extractPushCalls content = Some pushCalls
    /\ let rs := map indexedResult (combine (seq 0 (length pushCalls)) pushCalls) in
       parseDocumentContent content =
       Some {| totalScripts := length rs;
               successCount :=
                 length (filter (fun r => success (base r)
                                          && dataTypeIs r ComponentData) rs);
               failureCount :=
                 length (filter (fun r => negb (success (base r))) rs);
               moduleLoadingCount :=
                 length (filter (fun r => dataTypeIs r ModuleLoading) rs);
               results := rs;
               combinedComponents := flat_map pushedNodes rs |}.
Proof.
  destruct (extractPushCalls_total content) as [pushCalls E].
  exists pushCalls. split; [exact E|].
  unfold parseDocumentContent. rewrite E.
  destruct pushCalls as [|c pushCalls]; [reflexivity|].
  cbn [length Nat.eqb]. rewrite forEachSnippet_eq. reflexivity.
Qed.

Lemma map_snd_indexed {A : Type} (l : list A) :
  forall k, map snd (combine (seq k (length l)) l) = l.
Proof.
  induction l as [|x l IH]; intros k; [reflexivity|].
  simpl. rewrite IH. reflexivity.
Qed.

Lemma map_base_indexed (pushCalls : list jsstring) :
  map base (map indexedResult (combine (seq 0 (length pushCalls)) pushCalls))
  = map parseScriptContentDetailed pushCalls.
Proof.
  rewrite map_map.
  rewrite <- (map_snd_indexed pushCalls 0) at 3.
  rewrite map_map. reflexivity.
Qed.

Lemma results_shape (entries : list (nat * jsstring)) :
  Forall (fun r => resultShape (base r)) (map indexedResult entries).
Proof.
  apply Forall_forall. intros r H. apply in_map_iff in H as (e & <- & _).
  apply indexedResult_shape.
Qed.

Lemma flat_map_pushed (rs : list IndexedParseResult) :
  Forall (fun r => resultShape (base r)) rs ->
  flat_map pushedNodes rs = flat_map componentDataNodes rs.
Proof.
  induction 1 as [|r rs Hr _ IH]; [reflexivity|].
  simpl. rewrite IH, (pushedNodes_componentData r Hr). reflexivity.
Qed.

Lemma shape_no_nodes (r : IndexedParseResult) :
  resultShape (base r) ->
  (dataTypeIs r ModuleLoading = true -> components (base r) = [])
  /\ (success (base r) = false -> components (base r) = []).
Proof.
  unfold resultShape, dataTypeIs. destruct (success (base r)).
  - intros [_ [->|[-> ->]]]; split; auto; discriminate.
  - intros (-> & _ & _); auto.
Qed.

(** C1.  The combined nodes of a document are the nodes of its results
    that are successes tagged component-data, concatenated in the order
    of the calls; a module-loading result and a failure have no nodes. *)
Theorem combinedComponents_componentData (content : jsstring) :
  exists agg pushCalls,
    parseDocumentContent content = Some agg
    /\ extractPushCalls content = Some pushCalls
    /\ map base (results agg) = map parseScriptContentDetailed pushCalls
    /\ combinedComponents agg = flat_map componentDataNodes (results agg)
    /\ Forall (fun r =>
                 (dataTypeIs r ModuleLoading = true -> components (base r) = [])
                 /\ (success (base r) = false -> components (base r) = []))
              (results agg).
Proof.
  destruct (parseDocumentContent_eq content) as (pushCalls & E & H).
  cbv zeta in H. eexists; exists pushCalls.
  split; [exact H|]. split; [exact E|].
  cbn [results combinedComponents].
  pose proof (results_shape (combine (seq 0 (length pushCalls)) pushCalls)) as Hs.
  split; [apply map_base_indexed|].
  split; [apply flat_map_pushed, Hs|].
  eapply Forall_impl; [|exact Hs]. intros r Hr. apply shape_no_nodes, Hr.
Qed.

Lemma filter_ext_Forall {A : Type} (P : A -> Prop) (f g : A -> bool) (l : list A) :
  Forall P l -> (forall x, P x -> f x = g x) -> filter f l = filter g l.
Proof.
  intros H Hfg. induction H as [|x l Hx _ IH]; [reflexivity|].
  simpl. rewrite (Hfg x Hx), IH. reflexivity.
Qed.

Lemma three_way_count (rs : list IndexedParseResult) :
  Forall (fun r => resultShape (base r)) rs ->
  length rs =
  length (filter (fun r => success (base r) && dataTypeIs r ComponentData) rs)
  + length (filter (fun r => success (base r) && dataTypeIs r ModuleLoading) rs)
  + length (filter (fun r => negb (success (base r))) rs).
Proof.
  induction 1 as [|r rs Hr _ IH]; [reflexivity|].
  assert (Hone :
            let a := success (base r) && dataTypeIs r ComponentData in
            let b := success (base r) && dataTypeIs r ModuleLoading in
            let c := negb (success (base r)) in
            (a, b, c) = (true, false, false)
            \/ (a, b, c) = (false, true, false)
            \/ (a, b, c) = (false, false, true)).
  { unfold resultShape in Hr. unfold dataTypeIs.
    destruct (success (base r)); [|auto].
    destruct Hr as [_ [->|[-> _]]]; auto. }
  cbv zeta in Hone. cbn [filter].
  destruct Hone as [Hone|[Hone|Hone]]; injection Hone as -> -> ->;
    cbn [length]; lia.
Qed.

(** C6.  The counts of the aggregate are those one derives again from
    its results: the number of results, of successes tagged
    component-data, of successes tagged module-loading, of failures; and
    the first is the sum of the other three. *)
Theorem counts_rederived (content : jsstring) :
  exists agg,
    parseDocumentContent content = Some agg
    /\ totalScripts agg = length (results agg)
    /\ successCount agg =
       length (filter (fun r => success (base r) && dataTypeIs r ComponentData)
                      (results agg))
    /\ moduleLoadingCount agg =
       length (filter (fun r => success (base r) && dataTypeIs r ModuleLoading)
                      (results agg))
    /\ failureCount agg =
       length (filter (fun r => negb (success (base r))) (results agg))
    /\ totalScripts agg =
       successCount agg + moduleLoadingCount agg + failureCount agg.
Proof.
  destruct (parseDocumentContent_eq content) as (pushCalls & E & H).
  cbv zeta in H. eexists. split; [exact H|].
  cbn [totalScripts successCount moduleLoadingCount failureCount results].
  pose proof (results_shape (combine (seq 0 (length pushCalls)) pushCalls)) as Hs.
  set (rs := map indexedResult (combine (seq 0 (length pushCalls)) pushCalls)) in *.
  assert (Hm : filter (fun r => dataTypeIs r ModuleLoading) rs
               = filter (fun r => success (base r) && dataTypeIs r ModuleLoading) rs).
  { apply (filter_ext_Forall _ _ _ _ Hs). intros r Hr.
    unfold resultShape in Hr. unfold dataTypeIs.
    destruct (success (base r)); [reflexivity|].
    destruct Hr as (_ & -> & _). reflexivity. }
  rewrite Hm. repeat split; try reflexivity.
  apply three_way_count, Hs.
Qed.

(** The failure conditions of one call, each turned into a result. *)
Lemma failure_as_data (snippet : jsstring) :
  (forall m,
      extractDataFromScript snippet = Throw m ->
      success (parseScriptContentDetailed snippet) = false
      /\ error (parseScriptContentDetailed snippet) = Some (str "Parse failed: " ++ m))
  /\ (forall cleanContent v,
         extractDataFromScript snippet = Ok cleanContent ->
         JSON_parse cleanContent = Ok v ->
         (forall a b t, v <> JArr (a :: b :: t)) ->
         success (parseScriptContentDetailed snippet) = false
         /\ error (parseScriptContentDetailed snippet)
            = Some (str "Invalid data structure: Expected array with at least 2 elements")).
Proof.
  unfold parseScriptContentDetailed, parseScriptContentTry. split.
  - intros m ->. split; reflexivity.
  - intros clean v -> -> Hv.
    destruct v as [| | | |items|]; try (split; reflexivity).
    destruct items as [|a [|b t]]; try (split; reflexivity).
    exfalso. exact (Hv a b t eq_refl).
Qed.

(** Where [extractDataFromScript] throws. *)
Lemma extractDataFromScript_throws (snippet : jsstring) :
  let prefix := str "self.__next_f.push([" in
  (indexOf snippet prefix 0 = None ->
   extractDataFromScript snippet = Throw (str "Invalid Next.js script format"))
  /\ (forall startIndex,
         indexOf snippet prefix 0 = Some startIndex ->
         match lastIndexOf snippet (str "])") with
         | None => True
         | Some contentEnd => contentEnd <= startIndex + length prefix
         end ->
         extractDataFromScript snippet
         = Throw (str "Invalid Next.js script format - mismatched brackets")).
Proof.
  cbv zeta. unfold extractDataFromScript. split.
  - intros ->. reflexivity.
  - intros startIndex -> H.
    destruct (lastIndexOf snippet (str "])")) as [contentEnd|]; [|reflexivity].
    apply Nat.leb_le in H. rewrite H. reflexivity.
Qed.

(** ** The Bracket Matcher against the specification's scanner *)

Lemma isQuote_not_bracket (c : ascii) :
  isQuote c = true -> ch_eqb c "["%char = false /\ ch_eqb c "]"%char = false.
Proof.
  unfold isQuote. rewrite !orb_true_iff, !ch_eqb_eq.
  intros [[->| ->]| ->]; split; reflexivity.
Qed.

Lemma isQuote_not_special (c : ascii) :
  isQuote c = true ->
  ch_eqb c "\"%char = false /\ isWhitespace c = false
  /\ ch_eqb c ")"%char = false /\ ch_eqb c ";"%char = false.
Proof.
  unfold isQuote. rewrite !orb_true_iff, !ch_eqb_eq.
  intros [[->| ->]| ->]; repeat split; reflexivity.
Qed.

(** The loop of the source and the scanner of the specification find the
    same index. *)
Lemma scanBracket_kinds (n : nat) :
  forall rest, length rest <= n ->
  forall i depth sc,
    scanBracket rest i depth sc
    = firstReturnToZero (kinds (stateOf sc) rest) i depth.
Proof.
  induction n as [|n IH]; intros rest Hn i depth sc.
  - destruct rest; [reflexivity | simpl in Hn; lia].
  - destruct rest as [|c rest]; [reflexivity|]. simpl in Hn.
    cbn [scanBracket kinds]. destruct sc as [q|]; cbn [stateOf kindOf literalStep].
    + cbn [firstReturnToZero].
      destruct (ch_eqb c "\"%char).
      * destruct rest as [|c' rest]; [reflexivity|]. simpl in Hn.
        cbn [kinds kindOf literalStep firstReturnToZero].
        rewrite IH by lia. replace (i + 2) with (S (S i)) by lia. reflexivity.
      * destruct (ch_eqb c q); rewrite IH by lia;
          replace (i + 1) with (S i) by lia; reflexivity.
    + destruct (isQuote c) eqn:Q.
      * destruct (isQuote_not_bracket c Q) as [-> ->].
        cbn [firstReturnToZero]. rewrite IH by lia.
        replace (i + 1) with (S i) by lia. reflexivity.
      * destruct (ch_eqb c "["%char); [|destruct (ch_eqb c "]"%char)];
          cbn [firstReturnToZero]; try destruct (depth - 1 =? 0)%Z;
          try reflexivity; rewrite IH by lia;
          replace (i + 1) with (S i) by lia; reflexivity.
Qed.

Lemma findMatchingBracket_kinds (content : jsstring) (startIndex : nat) :
  findMatchingBracket content startIndex
  = firstReturnToZero (kinds OutsideLiteral (skipn startIndex content))
                      startIndex 0.
Proof. unfold findMatchingBracket. eapply scanBracket_kinds. reflexivity. Qed.

Lemma kinds_app (s t : jsstring) :
  forall st, kinds st (s ++ t) = kinds st s ++ kinds (fold_left literalStep s st) t.
Proof.
  induction s as [|c s IH]; intros st; [reflexivity|].
  simpl. rewrite IH. reflexivity.
Qed.

Lemma kinds_length (s : jsstring) : forall st, length (kinds st s) = length s.
Proof. induction s as [|c s IH]; intros st; simpl; [|rewrite IH]; reflexivity. Qed.

Lemma kinds_in_literal (body rest : jsstring) (q : ascii) :
  forall st,
    st = InLiteral q \/ st = AfterBackslash q ->
    staysInLiteral st body = true ->
    kinds st (body ++ rest)
    = repeat Plain (length body) ++ kinds (InLiteral q) rest
    /\ fold_left literalStep body st = InLiteral q.
Proof.
  induction body as [|c body IH]; intros st Hst Hs.
  - destruct Hst as [-> | ->]; [auto | discriminate].
  - cbn [staysInLiteral] in Hs. cbn [app kinds length repeat fold_left].
    assert (Hk : kindOf st c = Plain) by (destruct Hst as [-> | ->]; reflexivity).
    assert (Hn : literalStep st c = OutsideLiteral
                 \/ literalStep st c = InLiteral q
                 \/ literalStep st c = AfterBackslash q).
    { destruct Hst as [-> | ->]; cbn [literalStep]; auto.
      destruct (ch_eqb c "\"%char); auto. destruct (ch_eqb c q); auto. }
    rewrite Hk. destruct Hn as [Hn|Hn].
    + rewrite Hn in Hs. discriminate.
    + assert (Hs' : staysInLiteral (literalStep st c) body = true)
        by (destruct Hn as [Hn|Hn]; rewrite Hn in Hs |- *; exact Hs).
      destruct (IH _ Hn Hs') as [-> ->]. auto.
Qed.

(** A string literal is a run of plain code units for the scanner, and
    leaves it outside. *)
Lemma kinds_literal (q : ascii) (body rest : jsstring) :
  isQuote q = true -> literalBody q body = true ->
  kinds OutsideLiteral (q :: body ++ q :: rest)
  = repeat Plain (length body + 2) ++ kinds OutsideLiteral rest.
Proof.
  intros Q Hb. destruct (isQuote_not_bracket q Q) as [H1 H2].
  destruct (isQuote_not_special q Q) as (H3 & _).
  cbn [kinds kindOf literalStep]. rewrite Q, H1, H2.
  destruct (kinds_in_literal body (q :: rest) q (InLiteral q)) as [-> _]; auto.
  cbn [kinds kindOf literalStep]. rewrite H3, ch_eqb_refl.
  replace (length body + 2) with (S (length body + 1)) by lia.
  cbn [repeat app]. f_equal.
  rewrite repeat_app. rewrite <- app_assoc. reflexivity.
Qed.

Lemma net_app (ks1 ks2 : list unitKind) : net (ks1 ++ ks2) = (net ks1 + net ks2)%Z.
Proof. induction ks1 as [|k ks1 IH]; simpl; [|rewrite IH]; lia. Qed.

Lemma firstReturnToZero_bounds (ks : list unitKind) :
  forall i depth k,
    firstReturnToZero ks i depth = Some k -> i <= k < i + length ks.
Proof.
  induction ks as [|[| |] ks IH]; intros i depth k; cbn [firstReturnToZero length];
    try discriminate; try (intros H; apply IH in H; lia).
  destruct (depth - 1 =? 0)%Z; [intros [= <-]; lia|].
  intros H; apply IH in H; lia.
Qed.

Lemma firstReturnToZero_shift (ks : list unitKind) (n : nat) :
  forall i depth,
    firstReturnToZero ks (i + n) depth
    = option_map (fun k => k + n) (firstReturnToZero ks i depth).
Proof.
  induction ks as [|[| |] ks IH]; intros i depth; cbn [firstReturnToZero];
    try reflexivity; try (apply (IH (S i))).
  destruct (depth - 1 =? 0)%Z; [reflexivity | apply (IH (S i))].
Qed.

Lemma firstReturnToZero_app (ks1 ks2 : list unitKind) :
  forall i depth,
    firstReturnToZero (ks1 ++ ks2) i depth
    = match firstReturnToZero ks1 i depth with
      | Some k => Some k
      | None => firstReturnToZero ks2 (i + length ks1) (depth + net ks1)
      end.
Proof.
  induction ks1 as [|[| |] ks1 IH]; intros i depth;
    cbn [app firstReturnToZero length net fold_right weight].
  - f_equal; lia.
  - rewrite IH. destruct (firstReturnToZero ks1 _ _); [reflexivity|].
    f_equal; fold (net ks1); lia.
  - destruct (depth - 1 =? 0)%Z; [reflexivity|].
    rewrite IH. destruct (firstReturnToZero ks1 _ _); [reflexivity|].
    f_equal; fold (net ks1); lia.
  - rewrite IH. destruct (firstReturnToZero ks1 _ _); [reflexivity|].
    f_equal; fold (net ks1); lia.
Qed.

Lemma firstReturnToZero_plain (n : nat) (ks : list unitKind) :
  forall i depth,
    firstReturnToZero (repeat Plain n ++ ks) i depth
    = firstReturnToZero ks (i + n) depth.
Proof.
  induction n as [|n IH]; intros i depth; cbn [repeat app firstReturnToZero].
  - f_equal; lia.
  - rewrite IH. f_equal; lia.
Qed.

Lemma net_firstn_S (m : nat) (k : unitKind) (ks : list unitKind) :
  net (firstn (S m) (k :: ks)) = (weight k + net (firstn m ks))%Z.
Proof. reflexivity. Qed.

Lemma firstReturnToZero_spec (ks : list unitKind) :
  forall i depth,
    (1 <= depth)%Z ->
    match firstReturnToZero ks i depth with
    | Some k =>
        exists m, k = i + m
                  /\ nth_error ks m = Some Closing
                  /\ (depth + net (firstn (S m) ks) = 0)%Z
                  /\ forall m', m' <= m -> (1 <= depth + net (firstn m' ks))%Z
    | None => forall m', (1 <= depth + net (firstn m' ks))%Z
    end.
Proof.
  induction ks as [|kd ks IH]; intros i depth Hd.
  - cbn [firstReturnToZero]. intros m'. rewrite firstn_nil. simpl. lia.
  - assert (Hstep : forall d',
               d' = (depth + weight kd)%Z -> (1 <= d')%Z ->
               match firstReturnToZero ks (S i) d' with
               | Some k =>
                   exists m, k = i + m
                             /\ nth_error (kd :: ks) m = Some Closing
                             /\ (depth + net (firstn (S m) (kd :: ks)) = 0)%Z
                             /\ forall m', m' <= m ->
                                           (1 <= depth + net (firstn m' (kd :: ks)))%Z
               | None => forall m', (1 <= depth + net (firstn m' (kd :: ks)))%Z
               end).
    { intros d' -> Hd'. specialize (IH (S i) _ Hd').
      destruct (firstReturnToZero ks (S i) _) as [k|].
      - destruct IH as (m & -> & Hn & Hz & Hall). exists (S m).
        split; [lia|]. split; [exact Hn|].
        split; [cbn [firstn net fold_right] in *; fold (net (firstn (S m) ks)) in *; lia|].
        intros [|m'] Hm'; [simpl; lia|].
        specialize (Hall m' ltac:(lia)).
        cbn [firstn net fold_right]. fold (net (firstn m' ks)). lia.
      - intros [|m']; [simpl; lia|]. specialize (IH m').
        cbn [firstn net fold_right]. fold (net (firstn m' ks)). lia. }
    destruct kd; cbn [firstReturnToZero].
    + apply Hstep; simpl; lia.
    + destruct (depth - 1 =? 0)%Z eqn:Ez.
      * apply Z.eqb_eq in Ez. exists 0. split; [lia|].
        split; [reflexivity|]. split; [simpl; lia|].
        intros m' Hm'. replace m' with 0 by lia. simpl. lia.
      * apply Z.eqb_neq in Ez. apply Hstep; simpl; lia.
    + replace depth with (depth + weight Plain)%Z at 1 by (simpl; lia).
      apply Hstep; simpl; lia.
Qed.

Lemma kinds_closing (s : jsstring) :
  forall st m, nth_error (kinds st s) m = Some Closing -> charIs s m "]"%char = true.
Proof.
  induction s as [|c s IH]; intros st [|m]; cbn [kinds nth_error]; try discriminate.
  - unfold charIs, charAt. cbn [nth_error]. unfold kindOf.
    destruct st; try discriminate.
    destruct (ch_eqb c "["%char); [discriminate|].
    destruct (ch_eqb c "]"%char); [reflexivity | discriminate].
  - intros H. apply IH in H. exact H.
Qed.

Lemma charIs_skipn (s : jsstring) (start m : nat) (c : ascii) :
  charIs (skipn start s) m c = charIs s (start + m) c.
Proof.
  unfold charIs, charAt. revert s; induction start as [|start IH]; intros s.
  - reflexivity.
  - destruct s as [|d s]; [destruct m; reflexivity|]. simpl. apply IH.
Qed.

(** From an opening bracket, the matcher returns the first index at
    which the depth is back to zero, a closing bracket; and it returns
    nothing exactly when the depth never is zero again. *)
Lemma findMatchingBracket_depth (content : jsstring) (start : nat) :
  charIs content start "["%char = true ->
  match findMatchingBracket content start with
  | Some k =>
      exists m, k = start + m
                /\ charIs content k "]"%char = true
                /\ depthAfter content start (S m) = 0%Z
                /\ forall m', 1 <= m' <= m -> (1 <= depthAfter content start m')%Z
  | None => forall m', 1 <= m' -> (1 <= depthAfter content start m')%Z
  end.
Proof.
  intros Hc. rewrite findMatchingBracket_kinds. unfold depthAfter.
  assert (Hc' : charIs (skipn start content) 0 "["%char = true)
    by (rewrite charIs_skipn, Nat.add_0_r; exact Hc).
  clear Hc; rename Hc' into Hc.
  pose proof (charIs_skipn content start) as Hsk.
  destruct (skipn start content) as [|c rest]; [discriminate|].
  unfold charIs, charAt in Hc. cbn [nth_error] in Hc. apply ch_eqb_eq in Hc as ->.
  change (kinds OutsideLiteral ("["%char :: rest))
    with (Opening :: kinds OutsideLiteral rest).
  cbn [firstReturnToZero].
  pose proof (firstReturnToZero_spec (kinds OutsideLiteral rest) (S start) 1 ltac:(lia)) as H.
  change (0 + 1)%Z with 1%Z.
  destruct (firstReturnToZero _ _ _) as [k|].
  - destruct H as (m & -> & Hn & Hz & Hall). exists (S m).
    split; [lia|]. split.
    + replace (S start + m) with (start + S m) by lia.
      rewrite <- Hsk. apply (kinds_closing _ OutsideLiteral (S m)). exact Hn.
    + split.
      * rewrite net_firstn_S. simpl weight. lia.
      * intros [|m'] Hm'; [lia|]. specialize (Hall m' ltac:(lia)).
        rewrite net_firstn_S. simpl weight. lia.
  - intros [|m'] Hm'; [lia|]. specialize (H m').
    rewrite net_firstn_S. simpl weight. lia.
Qed.

Lemma skipn_app_le {A : Type} (n : nat) (a b : list A) :
  n <= length a -> skipn n (a ++ b) = skipn n a ++ b.
Proof.
  intros H. rewrite skipn_app. replace (n - length a) with 0 by lia. reflexivity.
Qed.

Lemma skipn_app_ge {A : Type} (j : nat) (a b : list A) :
  skipn (length a + j) (a ++ b) = skipn j b.
Proof.
  rewrite skipn_app. rewrite skipn_all2 by lia.
  replace (length a + j - length a) with j by lia. reflexivity.
Qed.

(** The matcher on a text with a string literal: what is between the
    quotes does not count, whatever it is. *)
Lemma findMatchingBracket_literal
      (pre body post : jsstring) (q : ascii) (start : nat) :
  isQuote q = true ->
  literalBody q body = true ->
  start <= length pre ->
  fold_left literalStep (skipn start pre) OutsideLiteral = OutsideLiteral ->
  findMatchingBracket (pre ++ q :: body ++ q :: post) start
  = option_map (shiftIndex (length pre) (length body))
               (findMatchingBracket (pre ++ q :: q :: post) start).
Proof.
  intros Q Hb Hs Ho. rewrite !findMatchingBracket_kinds.
  rewrite !skipn_app_le by exact Hs. rewrite !kinds_app, Ho.
  rewrite (kinds_literal q body post Q Hb).
  pose proof (kinds_literal q [] post Q eq_refl) as He.
  cbn [app] in He. rewrite He. clear He.
  rewrite !(firstReturnToZero_app (kinds OutsideLiteral (skipn start pre))).
  rewrite kinds_length, length_skipn.
  destruct (firstReturnToZero (kinds OutsideLiteral (skipn start pre)) start 0)
    as [k|] eqn:E.
  - apply firstReturnToZero_bounds in E. rewrite kinds_length, length_skipn in E.
    cbn [option_map]. unfold shiftIndex.
    replace (k <=? length pre) with true by (symmetry; apply Nat.leb_le; lia).
    reflexivity.
  - rewrite !firstReturnToZero_plain. cbn [length].
    replace (start + (length pre - start) + (length body + 2))
      with (start + (length pre - start) + (0 + 2) + length body) by lia.
    rewrite firstReturnToZero_shift.
    destruct (firstReturnToZero (kinds OutsideLiteral post) _ _) as [k|] eqn:E';
      [|reflexivity].
    apply firstReturnToZero_bounds in E'. cbn [option_map]. unfold shiftIndex.
    replace (k <=? length pre) with false by (symmetry; apply Nat.leb_gt; lia).
    reflexivity.
Qed.

(** ** The Call Extractor on a call with a string literal *)

Lemma leadingWhitespace_stop (w x : jsstring) (c : ascii) :
  isWhitespace c = false ->
  leadingWhitespace (w ++ c :: x) = leadingWhitespace (w ++ [c])
  /\ leadingWhitespace (w ++ c :: x) <= length w.
Proof.
  intros Hc. induction w as [|d w [IH1 IH2]]; simpl.
  - rewrite Hc. auto.
  - destruct (isWhitespace d); [rewrite IH1; split; [reflexivity | lia] | split; [reflexivity | lia]].
Qed.

Lemma skipWhitespace_suffix (a s : jsstring) (j : nat) :
  skipWhitespace (a ++ s) (length a + j) = length a + skipWhitespace s j.
Proof. unfold skipWhitespace. rewrite skipn_app_ge. lia. Qed.

Lemma charIs_suffix (a s : jsstring) (j : nat) (x : ascii) :
  charIs (a ++ s) (length a + j) x = charIs s j x.
Proof.
  unfold charIs, charAt. rewrite nth_error_app2 by lia.
  replace (length a + j - length a) with j by lia. reflexivity.
Qed.

Section LiteralInCall.
Variables (pre body post : jsstring) (q : ascii).
Hypothesis Q : isQuote q = true.

Local Abbreviation textE := (pre ++ q :: q :: post).
Local Abbreviation textB := (pre ++ q :: body ++ q :: post).
Local Abbreviation p := (length pre).
Local Abbreviation n := (length body).

Lemma literal_length : length textB = length textE + n.
Proof. rewrite !length_app. cbn [length]. rewrite length_app. cbn [length]. lia. Qed.

Lemma literal_length_E : p + 2 <= length textE.
Proof. rewrite !length_app. cbn [length]. lia. Qed.

Lemma skipWhitespace_low (c : nat) :
  c <= p ->
  skipWhitespace textB c = skipWhitespace textE c /\ skipWhitespace textE c <= p.
Proof.
  intros Hc. unfold skipWhitespace. rewrite !skipn_app_le by exact Hc.
  destruct (isQuote_not_special q Q) as (_ & Hw & _).
  destruct (leadingWhitespace_stop (skipn c pre) (body ++ q :: post) q Hw) as [-> _].
  destruct (leadingWhitespace_stop (skipn c pre) (q :: post) q Hw) as [-> Hle].
  rewrite length_skipn in Hle. split; [reflexivity | lia].
Qed.

Lemma textB_split : textB = (pre ++ q :: body ++ [q]) ++ post.
Proof. rewrite <- !app_assoc. cbn [app]. rewrite <- app_assoc. reflexivity. Qed.

Lemma textE_split : textE = (pre ++ [q; q]) ++ post.
Proof. rewrite <- !app_assoc. reflexivity. Qed.

Lemma prefixB_length : length (pre ++ q :: body ++ [q]) = p + 2 + n.
Proof. rewrite length_app. cbn [length]. rewrite length_app. cbn [length]. lia. Qed.

Lemma prefixE_length : length (pre ++ [q; q]) = p + 2.
Proof. rewrite length_app. reflexivity. Qed.

Lemma skipWhitespace_high (c c' : nat) :
  p + 2 <= c -> c' = c + n ->
  skipWhitespace textB c' = skipWhitespace textE c + n.
Proof.
  intros Hc ->. rewrite textB_split, textE_split.
  replace (c + n) with (length (pre ++ q :: body ++ [q]) + (c - (p + 2)))
    by (rewrite prefixB_length; lia).
  replace c with (length (pre ++ [q; q]) + (c - (p + 2))) at 2
    by (rewrite prefixE_length; lia).
  rewrite !skipWhitespace_suffix, prefixB_length, prefixE_length. lia.
Qed.

Lemma charIs_low (c : nat) (x : ascii) :
  c <= p -> charIs textB c x = charIs textE c x.
Proof.
  intros Hc. unfold charIs, charAt.
  destruct (Nat.eq_dec c p) as [->|Hne].
  - rewrite !nth_error_app2 by lia. rewrite Nat.sub_diag. reflexivity.
  - rewrite !nth_error_app1 by lia. reflexivity.
Qed.

Lemma charIs_high (c c' : nat) (x : ascii) :
  p + 2 <= c -> c' = c + n -> charIs textB c' x = charIs textE c x.
Proof.
  intros Hc ->. rewrite textB_split, textE_split.
  replace (c + n) with (length (pre ++ q :: body ++ [q]) + (c - (p + 2)))
    by (rewrite prefixB_length; lia).
  replace c with (length (pre ++ [q; q]) + (c - (p + 2))) at 2
    by (rewrite prefixE_length; lia).
  rewrite !charIs_suffix. reflexivity.
Qed.

Lemma charIs_quote (c : nat) (x : ascii) :
  isQuote x = false -> charIs textE c x = true -> c < p \/ p + 2 <= c.
Proof.
  intros Hx H. destruct (Nat.lt_ge_cases c p) as [|Hge]; [auto|].
  destruct (Nat.lt_ge_cases c (p + 2)) as [Hlt|]; [|auto].
  exfalso. unfold charIs, charAt in H. rewrite nth_error_app2 in H by lia.
  assert (Hq : nth_error (q :: q :: post) (c - p) = Some q).
  { destruct (c - p) as [|[|k]] eqn:Ek; try reflexivity. lia. }
  rewrite Hq in H. apply ch_eqb_eq in H. congruence.
Qed.

(** The attempt at a call whose array holds the literal: its outcome is
    that of the text with an empty literal, moved by the length of what
    is between the quotes. *)
Lemma tryPushCall_literal (start : nat) :
  literalBody q body = true ->
  skipWhitespace textE (start + length pushToken) < p ->
  fold_left literalStep
            (skipn (skipWhitespace textE (start + length pushToken)) pre)
            OutsideLiteral = OutsideLiteral ->
  tryPushCall textB start = mapAttempt (shiftIndex p n) (tryPushCall textE start).
Proof.
  intros Hb Hlt Ho. unfold tryPushCall.
  pose proof (skipWhitespace_ge textE (start + length pushToken)) as Hge.
  destruct (skipWhitespace_low (start + length pushToken) ltac:(lia)) as [-> _].
  set (aS := skipWhitespace textE (start + length pushToken)) in *.
  pose proof literal_length as HB. pose proof literal_length_E as HE.
  assert (Hlow : forall k, k <= p -> shiftIndex p n k = k).
  { intros k Hk. unfold shiftIndex.
    replace (k <=? p) with true by (symmetry; apply Nat.leb_le; lia). reflexivity. }
  assert (Hhigh : forall k, p < k -> shiftIndex p n k = k + n).
  { intros k Hk. unfold shiftIndex.
    replace (k <=? p) with false by (symmetry; apply Nat.leb_gt; lia). reflexivity. }
  replace (length textB <=? aS) with false by (symmetry; apply Nat.leb_gt; lia).
  replace (length textE <=? aS) with false by (symmetry; apply Nat.leb_gt; lia).
  rewrite (charIs_low aS) by lia. cbn [orb].
  destruct (charIs textE aS "["%char) eqn:Hopen; cbn [negb];
    [|cbn [mapAttempt]; rewrite Hlow by lia; reflexivity].
  rewrite (findMatchingBracket_literal pre body post q aS Q Hb ltac:(lia) Ho).
  pose proof (findMatchingBracket_depth textE aS Hopen) as Hd.
  destruct (findMatchingBracket textE aS) as [aE|];
    [|cbn [option_map mapAttempt]; rewrite Hlow by lia; reflexivity].
  destruct Hd as (m & -> & Hclose & _). cbn [option_map].
  set (aE := aS + m) in *.
  destruct (charIs_quote aE "]"%char eq_refl Hclose) as [HaE|HaE].
  - rewrite (Hlow aE) by lia.
    destruct (skipWhitespace_low (aE + 1) ltac:(lia)) as [-> HaA].
    set (aA := skipWhitespace textE (aE + 1)) in *.
    replace (length textB <=? aA) with false by (symmetry; apply Nat.leb_gt; lia).
    replace (length textE <=? aA) with false by (symmetry; apply Nat.leb_gt; lia).
    rewrite (charIs_low aA) by lia. cbn [orb].
    destruct (charIs textE aA ")"%char) eqn:Hparen; cbn [negb];
      [|cbn [mapAttempt]; rewrite Hlow by lia; reflexivity].
    destruct (charIs_quote aA ")"%char eq_refl Hparen) as [H1|H1]; [|lia].
    replace (aA + 1 <? length textB) with true by (symmetry; apply Nat.ltb_lt; lia).
    replace (aA + 1 <? length textE) with true by (symmetry; apply Nat.ltb_lt; lia).
    rewrite (charIs_low (aA + 1)) by lia. cbn [andb].
    destruct (charIs textE (aA + 1) ";"%char) eqn:Hsemi;
      [|cbn [mapAttempt]; rewrite Hlow by lia; reflexivity].
    destruct (charIs_quote (aA + 1) ";"%char eq_refl Hsemi) as [H2|H2]; [|lia].
    cbn [mapAttempt]. rewrite Hlow by lia. reflexivity.
  - rewrite (Hhigh aE) by lia.
    rewrite (skipWhitespace_high (aE + 1) (aE + n + 1)) by lia.
    pose proof (skipWhitespace_ge textE (aE + 1)) as HaA.
    set (aA := skipWhitespace textE (aE + 1)) in *.
    replace (length textB <=? aA + n) with (length textE <=? aA)
      by (rewrite HB; destruct (Nat.leb_spec (length textE) aA);
          symmetry; [apply Nat.leb_le | apply Nat.leb_gt]; lia).
    rewrite (charIs_high aA (aA + n)) by lia.
    destruct ((length textE <=? aA) || negb (charIs textE aA ")"%char));
      [cbn [mapAttempt]; rewrite Hhigh by lia; reflexivity|].
    replace (aA + n + 1 <? length textB) with (aA + 1 <? length textE)
      by (rewrite HB; destruct (Nat.ltb_spec (aA + 1) (length textE));
          symmetry; [apply Nat.ltb_lt | apply Nat.ltb_ge]; lia).
    rewrite (charIs_high (aA + 1) (aA + n + 1)) by lia.
    destruct ((aA + 1 <? length textE) && charIs textE (aA + 1) ";"%char);
      cbn [mapAttempt]; rewrite Hhigh by lia; f_equal; lia.
Qed.
End LiteralInCall.

(** ** The Call Extractor on a document with a string literal in a call *)

Lemma startsWith_within (pat w x y : jsstring) :
  length pat <= length w -> startsWith pat (w ++ x) = startsWith pat (w ++ y).
Proof.
  revert w; induction pat as [|c pat IH]; intros w Hl; [reflexivity|].
  destruct w as [|d w]; [simpl in Hl; lia|]. cbn [app startsWith].
  rewrite (IH w) by (simpl in Hl; lia). reflexivity.
Qed.

(** The first occurrence of a pattern, when it lies in a prefix of the
    text, does not depend on what follows the prefix. *)
Lemma search_within (pat w x y : jsstring) :
  forall k, search pat (w ++ x) = Some k -> k + length pat <= length w ->
            search pat (w ++ y) = Some k.
Proof.
  induction w as [|c w IH]; intros k Hs Hk.
  - assert (pat = []) by (destruct pat; [reflexivity | simpl in Hk; lia]). subst.
    destruct x; simpl in Hs; injection Hs as <-; destruct y; reflexivity.
  - rewrite <- app_comm_cons in *. cbn [search] in *.
    assert (Heq : startsWith pat (c :: w ++ y) = startsWith pat (c :: w ++ x)).
    { apply (startsWith_within pat (c :: w) y x). simpl in *. lia. }
    rewrite Heq. destruct (startsWith pat (c :: w ++ x)); [exact Hs|].
    destruct (search pat (w ++ x)) as [j|] eqn:E; [|discriminate].
    cbn [option_map] in Hs. injection Hs as <-.
    rewrite (IH j eq_refl) by (simpl in Hk; lia). reflexivity.
Qed.

Lemma indexOf_within (pat w x y : jsstring) (from k : nat) :
  from <= length w ->
  indexOf (w ++ x) pat from = Some k -> k + length pat <= length w ->
  indexOf (w ++ y) pat from = Some k.
Proof.
  unfold indexOf. intros Hf. rewrite !skipn_app_le by exact Hf.
  rewrite !length_app.
  replace (Nat.min from (length w + length x)) with from by lia.
  replace (Nat.min from (length w + length y)) with from by lia.
  destruct (search pat (skipn from w ++ x)) as [j|] eqn:E; [|discriminate].
  cbn [option_map]. intros [= <-] Hk.
  rewrite (search_within pat (skipn from w) x y j E)
    by (rewrite length_skipn; lia).
  reflexivity.
Qed.

Lemma indexOf_suffix (pat a s : jsstring) (j : nat) :
  indexOf (a ++ s) pat (length a + j)
  = option_map (Nat.add (length a)) (indexOf s pat j).
Proof.
  unfold indexOf. rewrite skipn_app_ge, length_app.
  replace (Nat.min (length a + j) (length a + length s))
    with (length a + Nat.min j (length s)) by lia.
  destruct (search pat (skipn j s)); [|reflexivity].
  cbn [option_map]. f_equal. lia.
Qed.

Lemma findMatchingBracket_suffix (a s : jsstring) (j : nat) :
  findMatchingBracket (a ++ s) (length a + j)
  = option_map (Nat.add (length a)) (findMatchingBracket s j).
Proof.
  rewrite !findMatchingBracket_kinds, skipn_app_ge.
  rewrite (Nat.add_comm (length a) j), firstReturnToZero_shift.
  destruct (firstReturnToZero _ j 0); [|reflexivity].
  cbn [option_map]. f_equal. lia.
Qed.

Lemma tryPushCall_suffix (a s : jsstring) (h : nat) :
  tryPushCall (a ++ s) (length a + h)
  = mapAttempt (Nat.add (length a)) (tryPushCall s h).
Proof.
  unfold tryPushCall. rewrite <- Nat.add_assoc, skipWhitespace_suffix.
  set (cursor := skipWhitespace s (h + length pushToken)).
  rewrite length_app, charIs_suffix.
  replace (length a + length s <=? length a + cursor) with (length s <=? cursor)
    by (destruct (Nat.leb_spec (length s) cursor);
        symmetry; [apply Nat.leb_le | apply Nat.leb_gt]; lia).
  destruct ((length s <=? cursor) || negb (charIs s cursor "["%char));
    [cbn [mapAttempt]; f_equal; lia|].
  rewrite findMatchingBracket_suffix.
  destruct (findMatchingBracket s cursor) as [arrayEnd|];
    [|cbn [option_map mapAttempt]; f_equal; lia].
  cbn [option_map]. rewrite <- Nat.add_assoc, skipWhitespace_suffix.
  set (afterArray := skipWhitespace s (arrayEnd + 1)).
  rewrite charIs_suffix.
  replace (length a + length s <=? length a + afterArray)
    with (length s <=? afterArray)
    by (destruct (Nat.leb_spec (length s) afterArray);
        symmetry; [apply Nat.leb_le | apply Nat.leb_gt]; lia).
  destruct ((length s <=? afterArray) || negb (charIs s afterArray ")"%char));
    [reflexivity|].
  rewrite <- Nat.add_assoc, charIs_suffix.
  replace (length a + (afterArray + 1) <? length a + length s)
    with (afterArray + 1 <? length s)
    by (destruct (Nat.ltb_spec (afterArray + 1) (length s));
        symmetry; [apply Nat.ltb_lt | apply Nat.ltb_ge]; lia).
  destruct ((afterArray + 1 <? length s) && charIs s (afterArray + 1) ";"%char);
    cbn [mapAttempt]; f_equal; lia.
Qed.

Lemma slice_suffix (a s : jsstring) (x y : nat) :
  slice (a ++ s) (length a + x) (length a + y) = slice s x y.
Proof.
  unfold slice. rewrite skipn_app_ge. f_equal. lia.
Qed.

(** From a search position in a common suffix on, the loop of the
    extractor does the same on two texts, step for step. *)
Lemma extractPushCallsLoop_suffix (a b s : jsstring) (fuel : nat) :
  forall j calls,
    extractPushCallsLoop fuel (a ++ s) (length a + j) calls
    = extractPushCallsLoop fuel (b ++ s) (length b + j) calls.
Proof.
  induction fuel as [|fuel IH]; intros j calls; [reflexivity|].
  cbn [extractPushCallsLoop]. rewrite !length_app.
  replace (length a + j <? length a + length s) with (j <? length s)
    by (destruct (Nat.ltb_spec j (length s));
        symmetry; [apply Nat.ltb_lt | apply Nat.ltb_ge]; lia).
  replace (length b + j <? length b + length s) with (j <? length s)
    by (destruct (Nat.ltb_spec j (length s));
        symmetry; [apply Nat.ltb_lt | apply Nat.ltb_ge]; lia).
  destruct (j <? length s); [|reflexivity].
  rewrite !indexOf_suffix.
  destruct (indexOf s pushToken j) as [start|]; [|reflexivity].
  cbn [option_map]. rewrite !tryPushCall_suffix.
  destruct (tryPushCall s start) as [next|stop]; cbn [mapAttempt].
  - apply IH.
  - rewrite !slice_suffix. apply IH.
Qed.

(** The snippets already found are carried along untouched. *)
Lemma extractPushCallsLoop_calls (text : jsstring) (fuel : nat) :
  forall searchIndex calls,
    extractPushCallsLoop fuel text searchIndex calls
    = option_map (app calls) (extractPushCallsLoop fuel text searchIndex []).
Proof.
  induction fuel as [|fuel IH]; intros si calls; [reflexivity|].
  cbn [extractPushCallsLoop].
  destruct (si <? length text); [|cbn [option_map]; rewrite app_nil_r; reflexivity].
  destruct (indexOf text pushToken si) as [start|];
    [|cbn [option_map]; rewrite app_nil_r; reflexivity].
  destruct (tryPushCall text start) as [next|stop]; [apply IH|].
  rewrite (IH stop (calls ++ _)), (IH stop ([] ++ _)).
  destruct (extractPushCallsLoop fuel text stop []) as [l|]; [|reflexivity].
  cbn [option_map app]. rewrite <- app_assoc. reflexivity.
Qed.

(** With enough of it, the fuel does not matter. *)
Lemma extractPushCallsLoop_fuel (text : jsstring) (fuel fuel' : nat) :
  forall searchIndex calls,
    length text - searchIndex < fuel ->
    length text - searchIndex < fuel' ->
    extractPushCallsLoop fuel text searchIndex calls
    = extractPushCallsLoop fuel' text searchIndex calls.
Proof.
  revert fuel'. induction fuel as [|fuel IH]; intros fuel' si calls Hf Hf'; [lia|].
  destruct fuel' as [|fuel']; [lia|]. cbn [extractPushCallsLoop].
  destruct (si <? length text) eqn:Hlt; [|reflexivity].
  apply Nat.ltb_lt in Hlt.
  destruct (indexOf text pushToken si) as [start|] eqn:Ei; [|reflexivity].
  apply indexOf_ge in Ei; [|lia].
  pose proof (tryPushCall_progress text start) as Hp.
  destruct (tryPushCall text start); apply IH; lia.
Qed.

Section LiteralInDocument.
Variables (pre body post : jsstring) (q : ascii).
Hypothesis Q : isQuote q = true.
Hypothesis Hbody : literalBody q body = true.

Local Abbreviation textE := (pre ++ q :: q :: post).
Local Abbreviation textB := (pre ++ q :: body ++ q :: post).
Local Abbreviation p := (length pre).
Local Abbreviation n := (length body).

(** One pass of the loop from a search position that finds the call:
    the call is accepted on both texts, its snippet differs by the text
    between the quotes only, and the loop goes on from the end of the
    call, over the same text. *)
Lemma extractPushCallsLoop_literal_step (fuel searchIndex hit stop : nat)
      (calls : list jsstring) :
  indexOf textE pushToken searchIndex = Some hit ->
  skipWhitespace textE (hit + length pushToken) < p ->
  fold_left literalStep
            (skipn (skipWhitespace textE (hit + length pushToken)) pre)
            OutsideLiteral = OutsideLiteral ->
  tryPushCall textE hit = Accepted stop ->
  p + 2 <= stop ->
  searchIndex <= hit < stop
  /\ searchIndex < length textE
  /\ extractPushCallsLoop (S fuel) textE searchIndex calls
     = option_map
         (fun l => calls ++ trim (skipn hit pre ++ q :: q :: firstn (stop - (p + 2)) post) :: l)
         (extractPushCallsLoop fuel textE stop [])
  /\ extractPushCallsLoop (S fuel) textB searchIndex calls
     = option_map
         (fun l => calls ++ trim (skipn hit pre ++ q :: body ++ q :: firstn (stop - (p + 2)) post) :: l)
         (extractPushCallsLoop fuel textE stop []).
Proof.
  intros Hi Hlt Ho Ht Hstop.
  pose proof (skipWhitespace_ge textE (hit + length pushToken)) as Hge.
  pose proof pushToken_length as Htok.
  assert (Hsi : searchIndex < length textE).
  { destruct (Nat.lt_ge_cases searchIndex (length textE)) as [|Hge']; [assumption|].
    unfold indexOf in Hi. rewrite skipn_all2 in Hi by exact Hge'. discriminate. }
  pose proof (indexOf_ge _ _ _ _ (Nat.lt_le_incl _ _ Hsi) Hi) as Hle.
  pose proof (literal_length pre body post q) as HB.
  split; [pose proof (tryPushCall_progress textE hit) as Hp; rewrite Ht in Hp; lia|].
  split; [exact Hsi|].
  split.
  - cbn [extractPushCallsLoop].
    replace (searchIndex <? length textE) with true
      by (symmetry; apply Nat.ltb_lt; exact Hsi).
    rewrite Hi, Ht, extractPushCallsLoop_calls.
    assert (Hs : slice textE hit stop
                 = skipn hit pre ++ q :: q :: firstn (stop - (p + 2)) post).
    { unfold slice. rewrite skipn_app_le by lia. rewrite firstn_app, length_skipn.
      rewrite firstn_all2 by (rewrite length_skipn; lia).
      replace (stop - hit - (p - hit)) with (S (S (stop - (p + 2)))) by lia.
      reflexivity. }
    rewrite Hs. destruct (extractPushCallsLoop fuel textE stop []); [|reflexivity].
    cbn [option_map]. rewrite <- app_assoc. reflexivity.
  - cbn [extractPushCallsLoop].
    replace (searchIndex <? length textB) with true
      by (symmetry; apply Nat.ltb_lt; lia).
    rewrite (indexOf_within pushToken pre (q :: q :: post) (q :: body ++ q :: post)
                            searchIndex hit ltac:(lia) Hi ltac:(lia)).
    rewrite (tryPushCall_literal pre body post q Q hit Hbody Hlt Ho), Ht.
    cbn [mapAttempt]. unfold shiftIndex.
    replace (stop <=? p) with false by (symmetry; apply Nat.leb_gt; lia).
    rewrite extractPushCallsLoop_calls.
    assert (Hs : slice textB hit (stop + n)
                 = skipn hit pre ++ q :: body ++ q :: firstn (stop - (p + 2)) post).
    { unfold slice. rewrite skipn_app_le by lia. rewrite firstn_app, length_skipn.
      rewrite firstn_all2 by (rewrite length_skipn; lia).
      replace (stop + n - hit - (p - hit)) with (S (n + S (stop - (p + 2)))) by lia.
      cbn [firstn]. rewrite firstn_app, firstn_all2 by lia.
      replace (n + S (stop - (p + 2)) - n) with (S (stop - (p + 2))) by lia.
      reflexivity. }
    rewrite Hs.
    assert (Hloop : extractPushCallsLoop fuel textB (stop + n) []
                    = extractPushCallsLoop fuel textE stop []).
    { rewrite (textB_split pre body post q), (textE_split pre post q).
      replace (stop + n)
        with (length (pre ++ q :: body ++ [q]) + (stop - (p + 2)))
        by (rewrite prefixB_length; lia).
      replace stop with (length (pre ++ [q; q]) + (stop - (p + 2))) at 2
        by (rewrite prefixE_length; lia).
      apply extractPushCallsLoop_suffix. }
    rewrite Hloop. destruct (extractPushCallsLoop fuel textE stop []); [|reflexivity].
    cbn [option_map]. rewrite <- app_assoc. reflexivity.
Qed.

(** The snippets found from a search position that finds the call, with
    fuel enough on both texts: the same, but for the text between the
    quotes in the snippet of the call. *)
Lemma extractPushCallsLoop_literal (fuelE fuelB searchIndex hit stop : nat)
      (calls : list jsstring) :
  indexOf textE pushToken searchIndex = Some hit ->
  skipWhitespace textE (hit + length pushToken) < p ->
  fold_left literalStep
            (skipn (skipWhitespace textE (hit + length pushToken)) pre)
            OutsideLiteral = OutsideLiteral ->
  tryPushCall textE hit = Accepted stop ->
  p + 2 <= stop ->
  length textE - searchIndex < fuelE ->
  length textB - searchIndex < fuelB ->
  exists later,
    extractPushCallsLoop fuelE textE searchIndex calls
    = Some (calls ++ trim (skipn hit pre ++ q :: q :: firstn (stop - (p + 2)) post)
                  :: later)
    /\ extractPushCallsLoop fuelB textB searchIndex calls
       = Some (calls ++ trim (skipn hit pre ++ q :: body ++ q :: firstn (stop - (p + 2)) post)
                     :: later).
Proof.
  intros Hi Hlt Ho Ht Hstop HfE HfB.
  pose proof (literal_length pre body post q) as HB.
  destruct fuelE as [|fE]; [lia|]. destruct fuelB as [|fB]; [lia|].
  destruct (extractPushCallsLoop_literal_step fE searchIndex hit stop calls
              Hi Hlt Ho Ht Hstop) as (Hord & Hsi & -> & _).
  destruct (extractPushCallsLoop_literal_step fB searchIndex hit stop calls
              Hi Hlt Ho Ht Hstop) as (_ & _ & _ & ->).
  destruct (extractPushCallsLoop_total fE textE stop [] ltac:(lia)) as [later E].
  rewrite (extractPushCallsLoop_fuel textE fB fE stop []) by lia.
  rewrite E. exists later. split; reflexivity.
Qed.
End LiteralInDocument.

Lemma findMatchingBracket_none_iff (text : jsstring) (openIndex : nat) :
  charIs text openIndex "["%char = true ->
  (findMatchingBracket text openIndex = None
   <-> forall m, 1 <= m -> depthAfter text openIndex m <> 0%Z).
Proof.
  intros Hc. pose proof (findMatchingBracket_depth text openIndex Hc) as H.
  destruct (findMatchingBracket text openIndex) as [k|].
  - destruct H as (m & _ & _ & Hz & _). split; [discriminate|].
    intros Hall. exfalso. apply (Hall (S m)); [lia | exact Hz].
  - split; [|reflexivity]. intros _ m Hm. specialize (H m Hm). lia.
Qed.

(** C5.  The Bracket Matcher is the scanner that counts brackets outside
    string literals only, a literal running from a quote to the next
    unescaped quote of the same kind and a backslash in it hiding the
    next code unit.  Started on an opening bracket it returns the first
    index where the depth is zero again, which holds a closing bracket,
    and nothing exactly when the depth never returns to zero.  Hence,
    whatever stands between the quotes of a literal that the scan meets
    outside any other literal, the matcher and the attempt of the Call
    Extractor at a call give the result they give for the empty literal,
    moved by the length of what was put between the quotes; and the loop
    of the Call Extractor, from a search position that finds the call,
    extracts the same snippets but for that text in the snippet of the
    call. *)
Theorem bracket_matcher_ignores_literals (text : jsstring) (openIndex : nat) :
  findMatchingBracket text openIndex
  = firstReturnToZero (kinds OutsideLiteral (skipn openIndex text)) openIndex 0
  /\ (charIs text openIndex "["%char = true ->
      match findMatchingBracket text openIndex with
      | Some k =>
          exists m, k = openIndex + m
                    /\ charIs text k "]"%char = true
                    /\ depthAfter text openIndex (S m) = 0%Z
                    /\ forall m', 1 <= m' <= m ->
                                  (1 <= depthAfter text openIndex m')%Z
      | None => forall m', 1 <= m' -> (1 <= depthAfter text openIndex m')%Z
      end
      /\ (findMatchingBracket text openIndex = None
          <-> forall m, 1 <= m -> depthAfter text openIndex m <> 0%Z))
  /\ (forall (pre body post : jsstring) (q : ascii),
         text = pre ++ q :: q :: post ->
         isQuote q = true ->
         literalBody q body = true ->
         openIndex <= length pre ->
         fold_left literalStep (skipn openIndex pre) OutsideLiteral = OutsideLiteral ->
         findMatchingBracket (pre ++ q :: body ++ q :: post) openIndex
         = option_map (shiftIndex (length pre) (length body))
                      (findMatchingBracket text openIndex))
  /\ (forall (pre body post : jsstring) (q : ascii) (hit : nat),
         text = pre ++ q :: q :: post ->
         isQuote q = true ->
         literalBody q body = true ->
         skipWhitespace text (hit + length pushToken) = openIndex ->
         openIndex < length pre ->
         fold_left literalStep (skipn openIndex pre) OutsideLiteral = OutsideLiteral ->
         tryPushCall (pre ++ q :: body ++ q :: post) hit
         = mapAttempt (shiftIndex (length pre) (length body))
                      (tryPushCall text hit))
  /\ (forall (pre body post : jsstring) (q : ascii)
             (searchIndex hit stop fuel fuel' : nat) (calls : list jsstring),
         text = pre ++ q :: q :: post ->
         isQuote q = true ->
         literalBody q body = true ->
         indexOf text pushToken searchIndex = Some hit ->
         skipWhitespace text (hit + length pushToken) = openIndex ->
         openIndex < length pre ->
         fold_left literalStep (skipn openIndex pre) OutsideLiteral = OutsideLiteral ->
         tryPushCall text hit = Accepted stop ->
         length pre + 2 <= stop ->
         length text - searchIndex < fuel ->
         length (pre ++ q :: body ++ q :: post) - searchIndex < fuel' ->
         exists later,
           extractPushCallsLoop fuel text searchIndex calls
           = Some (calls
                     ++ trim (skipn hit pre ++ q :: q
                                :: firstn (stop - (length pre + 2)) post)
                     :: later)
           /\ extractPushCallsLoop fuel' (pre ++ q :: body ++ q :: post)
                                   searchIndex calls
              = Some (calls
                        ++ trim (skipn hit pre ++ q :: body ++ q
                                   :: firstn (stop - (length pre + 2)) post)
                        :: later)).
Proof.
  split; [apply findMatchingBracket_kinds|].
  split.
  { intros Hc. split; [apply findMatchingBracket_depth, Hc|].
    apply findMatchingBracket_none_iff, Hc. }
  split.
  { intros pre body post q -> Q Hb Hs Ho.
    apply findMatchingBracket_literal; assumption. }
  split.
  - intros pre body post q hit -> Q Hb Ha Hlt Ho.
    apply tryPushCall_literal; try assumption; rewrite Ha; assumption.
  - intros pre body post q si hit stop fuel fuel' calls -> Q Hb Hi Ha Hlt Ho Ht Hs Hf Hf'.
    apply extractPushCallsLoop_literal; try assumption; rewrite Ha; assumption.
Qed.

Lemma bracket_matcher_ignores_literals_witness :
  tryPushCall (qstr "self.__next_f.push([1,'a]b[)'])") 0
  = mapAttempt (shiftIndex 22 5) (tryPushCall (qstr "self.__next_f.push([1,''])") 0).
Proof.
  apply (proj1 (proj2 (proj2 (proj2
           (bracket_matcher_ignores_literals
              (qstr "self.__next_f.push([1,''])") 19))))
           (qstr "self.__next_f.push([1,") (str "a]b[)") (str "])") dquote 0);
    first [reflexivity | vm_compute; lia].
Defined.

(** ** Numbers in JSON text *)

Lemma isDigit_digitChar (d : N) : (d < 10)%N -> isDigit (digitChar d) = true.
Proof.
  intros H. unfold digitChar.
  assert (Hd : In d [0;1;2;3;4;5;6;7;8;9]%N).
  { destruct d as [|p]; [simpl; auto|].
    do 4 (destruct p as [p|p|]; try lia; simpl; auto 12). }
  simpl in Hd. repeat destruct Hd as [<-|Hd]; try reflexivity. destruct Hd.
Qed.

Lemma digitValue_digitChar (d : N) : (d < 10)%N -> digitValue (digitChar d) = Z.of_N d.
Proof.
  intros H. unfold digitChar.
  assert (Hd : In d [0;1;2;3;4;5;6;7;8;9]%N).
  { destruct d as [|p]; [simpl; auto|].
    do 4 (destruct p as [p|p|]; try lia; simpl; auto 12). }
  simpl in Hd. repeat destruct Hd as [<-|Hd]; try reflexivity. destruct Hd.
Qed.

Lemma digitsValue_snoc (ds : jsstring) (c : ascii) :
  digitsValue (ds ++ [c]) = (10 * digitsValue ds + digitValue c)%Z.
Proof. unfold digitsValue. rewrite fold_left_app. reflexivity. Qed.

Lemma digitsFuel_S (fuel : nat) (n : N) (acc : jsstring) :
  digitsFuel (S fuel) n acc
  = if (n <? 10)%N then digitChar (n mod 10) :: acc
    else digitsFuel fuel (n / 10)%N (digitChar (n mod 10) :: acc).
Proof. reflexivity. Qed.

(** The digits [digitsFuel] puts in front of [acc]. *)
Lemma digitsFuel_spec (fuel : nat) :
  forall n acc,
    (n < 2 ^ N.of_nat (S fuel))%N ->
    exists c ds,
      digitsFuel (S fuel) n acc = (c :: ds) ++ acc
      /\ forallb isDigit (c :: ds) = true
      /\ digitsValue (c :: ds) = Z.of_N n
      /\ ((n = 0%N /\ c :: ds = ["0"%char])
          \/ ((0 < n)%N /\ ch_eqb c "0"%char = false)).
Proof.
  assert (Hone : forall n acc, (n < 10)%N ->
             exists c ds,
               digitChar (n mod 10) :: acc = (c :: ds) ++ acc
               /\ forallb isDigit (c :: ds) = true
               /\ digitsValue (c :: ds) = Z.of_N n
               /\ ((n = 0%N /\ c :: ds = ["0"%char])
                   \/ ((0 < n)%N /\ ch_eqb c "0"%char = false))).
  { intros n acc Hn. rewrite N.mod_small by exact Hn.
    exists (digitChar n), []. split; [reflexivity|].
    split; [simpl; rewrite isDigit_digitChar by exact Hn; reflexivity|].
    split; [unfold digitsValue; simpl; rewrite digitValue_digitChar by exact Hn; lia|].
    assert (Hd : In n [0;1;2;3;4;5;6;7;8;9]%N).
    { destruct n as [|p]; [simpl; auto|].
      do 4 (destruct p as [p|p|]; try lia; simpl; auto 12). }
    simpl in Hd.
    destruct Hd as [<-|Hd]; [left; split; reflexivity|].
    right. repeat destruct Hd as [<-|Hd]; try (split; [lia | reflexivity]).
    destruct Hd. }
  induction fuel as [|fuel IH]; intros n acc Hn.
  - rewrite digitsFuel_S. assert (n < 10)%N by (simpl in Hn; lia).
    replace (n <? 10)%N with true by (symmetry; apply N.ltb_lt; assumption).
    apply Hone; assumption.
  - rewrite digitsFuel_S.
    destruct (n <? 10)%N eqn:E.
    + apply N.ltb_lt in E. apply Hone; assumption.
    + apply N.ltb_ge in E.
      assert (Hdiv : (n / 10 < 2 ^ N.of_nat (S fuel))%N).
      { apply N.Div0.div_lt_upper_bound.
        rewrite (Nat2N.inj_succ (S fuel)), N.pow_succ_r' in Hn. lia. }
      destruct (IH (n / 10)%N (digitChar (n mod 10) :: acc) Hdiv)
        as (c & ds & -> & Hd & Hv & Hz).
      exists c, (ds ++ [digitChar (n mod 10)]).
      assert (Hm : (n mod 10 < 10)%N) by (apply N.mod_lt; lia).
      split; [cbn [app]; rewrite <- app_assoc; reflexivity|].
      split.
      { change (c :: ds ++ [digitChar (n mod 10)])
          with ((c :: ds) ++ [digitChar (n mod 10)]).
        rewrite forallb_app, Hd. simpl. rewrite isDigit_digitChar by exact Hm.
        reflexivity. }
      split.
      { change (c :: ds ++ [digitChar (n mod 10)])
          with ((c :: ds) ++ [digitChar (n mod 10)]).
        rewrite digitsValue_snoc, Hv, digitValue_digitChar by exact Hm.
        rewrite (N.div_mod n 10) at 3 by lia. lia. }
      right. split; [lia|].
      destruct Hz as [[H0 _]|[_ Hc]]; [|exact Hc].
      exfalso. assert (1 <= n / 10)%N; [|lia].
      apply N.div_le_lower_bound; lia.
Qed.

Lemma NToString_spec (n : N) :
  exists c ds,
    NToString n = c :: ds
    /\ forallb isDigit (c :: ds) = true
    /\ digitsValue (c :: ds) = Z.of_N n
    /\ ((n = 0%N /\ c :: ds = ["0"%char])
        \/ ((0 < n)%N /\ ch_eqb c "0"%char = false)).
Proof.
  unfold NToString.
  destruct (digitsFuel_spec (N.to_nat (N.log2 n)) n []) as (c & ds & E & H).
  - rewrite Nat2N.inj_succ, N2Nat.id.
    destruct n as [|p]; [reflexivity|]. apply N.log2_spec. lia.
  - exists c, ds. rewrite E, app_nil_r. split; [reflexivity | exact H].
Qed.

Lemma stops_head (c : ascii) (rest : jsstring) :
  stops (c :: rest) = true ->
  isDigit c = false /\ ch_eqb c "."%char = false /\ ch_eqb c "e"%char = false
  /\ ch_eqb c "E"%char = false /\ ch_eqb c "-"%char = false
  /\ ch_eqb c "+"%char = false /\ ch_eqb c "0"%char = false.
Proof.
  cbn [stops]. unfold isJsonWs. rewrite !orb_true_iff, !ch_eqb_eq.
  intros [[[H| ->]| ->]| ->]; try (repeat split; reflexivity).
  destruct c as [[] [] [] [] [] [] [] []]; try discriminate H; repeat split; reflexivity.
Qed.

Lemma spanDigits_frame (s rest : jsstring) :
  stops rest = true ->
  spanDigits (s ++ rest) = (fst (spanDigits s), snd (spanDigits s) ++ rest).
Proof.
  intros Hr. induction s as [|c s IH]; cbn [app spanDigits].
  - destruct rest as [|d rest]; [reflexivity|].
    destruct (stops_head d rest Hr) as (Hd & _).
    cbn [spanDigits]. rewrite Hd. reflexivity.
  - destruct (isDigit c); [|reflexivity].
    rewrite IH. destruct (spanDigits s). reflexivity.
Qed.

Lemma scanInt_frame (s rest : jsstring) :
  stops rest = true ->
  scanInt (s ++ rest)
  = option_map (fun ar => (fst ar, snd ar ++ rest)) (scanInt s).
Proof.
  intros Hr. destruct s as [|c s]; cbn [app].
  - destruct rest as [|d rest]; [reflexivity|].
    destruct (stops_head d rest Hr) as (Hd & _ & _ & _ & _ & _ & H0).
    cbn [scanInt]. rewrite H0, Hd. reflexivity.
  - cbn [scanInt]. destruct (ch_eqb c "0"%char); [reflexivity|].
    destruct (isDigit c) eqn:Hc; [|reflexivity].
    change (c :: s ++ rest) with ((c :: s) ++ rest).
    rewrite spanDigits_frame by exact Hr. reflexivity.
Qed.

Lemma scanFrac_frame (s rest : jsstring) :
  stops rest = true ->
  scanFrac (s ++ rest)
  = option_map (fun ar => (fst ar, snd ar ++ rest)) (scanFrac s).
Proof.
  intros Hr. destruct s as [|c s]; cbn [app].
  - destruct rest as [|d rest]; [reflexivity|].
    destruct (stops_head d rest Hr) as (_ & Hd & _).
    cbn [scanFrac]. rewrite Hd. reflexivity.
  - cbn [scanFrac]. destruct (ch_eqb c "."%char); [|reflexivity].
    rewrite spanDigits_frame by exact Hr.
    destruct (spanDigits s) as [[|d ds] r]; reflexivity.
Qed.

Lemma scanExp_frame (s rest : jsstring) :
  stops rest = true ->
  scanExp (s ++ rest)
  = option_map (fun ar => (fst ar, snd ar ++ rest)) (scanExp s).
Proof.
  intros Hr. destruct s as [|c s]; cbn [app].
  - destruct rest as [|d rest]; [reflexivity|].
    destruct (stops_head d rest Hr) as (_ & _ & He & HE & _).
    cbn [scanExp]. rewrite He, HE. reflexivity.
  - cbn [scanExp]. destruct (ch_eqb c "e"%char || ch_eqb c "E"%char); [|reflexivity].
    destruct s as [|d s]; cbn [app].
    + destruct rest as [|d rest]; [reflexivity|].
      destruct (stops_head d rest Hr) as (Hd & _ & _ & _ & Hm & Hp & _).
      rewrite Hp, Hm. cbn [spanDigits]. rewrite Hd. reflexivity.
    + destruct (ch_eqb d "+"%char); [|destruct (ch_eqb d "-"%char)];
        try change (d :: s ++ rest) with ((d :: s) ++ rest);
        rewrite spanDigits_frame by exact Hr;
        match goal with
        | |- context [spanDigits ?x] => destruct (spanDigits x) as [[|e ds] r]
        end; reflexivity.
Qed.

(** A number literal reads the same whatever follows it, as long as
    that ends it. *)
Lemma parseNumber_frame (s rest : jsstring) :
  stops rest = true ->
  parseNumber (s ++ rest)
  = match parseNumber s with
    | POk n r => POk n (r ++ rest)
    | PErr m => PErr m
    | PFuel => PFuel
    end.
Proof.
  intros Hr.
  assert (Hbody : forall neg s1,
             match scanInt (s1 ++ rest) with
             | None => PErr unexpectedToken
             | Some (int, s2) =>
                 match scanFrac s2 with
                 | None => PErr unexpectedToken
                 | Some (frac, s3) =>
                     match scanExp s3 with
                     | None => PErr unexpectedToken
                     | Some (eneg, eds, s4) =>
                         let m := digitsValue (int ++ frac) in
                         let x := digitsValue eds in
                         let e := ((if eneg then - x else x) - Z.of_nat (length frac))%Z in
                         POk (numberOfLiteral neg m e) s4
                     end
                 end
             end
             = match
                 match scanInt s1 with
                 | None => PErr unexpectedToken
                 | Some (int, s2) =>
                     match scanFrac s2 with
                     | None => PErr unexpectedToken
                     | Some (frac, s3) =>
                         match scanExp s3 with
                         | None => PErr unexpectedToken
                         | Some (eneg, eds, s4) =>
                             let m := digitsValue (int ++ frac) in
                             let x := digitsValue eds in
                             let e := ((if eneg then - x else x) - Z.of_nat (length frac))%Z in
                             POk (numberOfLiteral neg m e) s4
                         end
                     end
                 end
               with
               | POk n r => POk n (r ++ rest)
               | PErr m => PErr m
               | PFuel => PFuel
               end).
  { intros neg s1.
    rewrite scanInt_frame by exact Hr.
    destruct (scanInt s1) as [[int s2]|]; [|reflexivity]. cbn [option_map fst snd].
    rewrite scanFrac_frame by exact Hr.
    destruct (scanFrac s2) as [[frac s3]|]; [|reflexivity]. cbn [option_map fst snd].
    rewrite scanExp_frame by exact Hr.
    destruct (scanExp s3) as [[[eneg eds] s4]|] eqn:E; [|reflexivity].
    cbn [option_map fst snd]. reflexivity. }
  destruct s as [|c s].
  - destruct rest as [|d rest]; [reflexivity|].
    destruct (stops_head d rest Hr) as (Hd & _ & _ & _ & Hm & _ & H0).
    unfold parseNumber. cbn [app]. rewrite Hm. cbn [scanInt]. rewrite H0, Hd.
    reflexivity.
  - unfold parseNumber. cbn [app]. destruct (ch_eqb c "-"%char).
    + apply (Hbody true s).
    + apply (Hbody false (c :: s)).
Qed.

Lemma spanDigits_all (ds : jsstring) :
  forallb isDigit ds = true -> spanDigits ds = (ds, []).
Proof.
  induction ds as [|c ds IH]; [reflexivity|]. cbn [forallb spanDigits].
  rewrite andb_true_iff. intros [-> H]. rewrite (IH H). reflexivity.
Qed.

Lemma isDigit_not_minus (c : ascii) : isDigit c = true -> ch_eqb c "-"%char = false.
Proof. destruct c as [[] [] [] [] [] [] [] []]; try discriminate; reflexivity. Qed.

Section Rounding.
Local Open Scope Z_scope.

(** ** Numbers: the number value of a decimal *)

Lemma number_eqb_eq (a b : number) : number_eqb a b = true -> a = b.
Proof.
  destruct a, b; cbn [number_eqb]; try discriminate; intros H.
  - apply Z.eqb_eq in H. congruence.
  - reflexivity.
  - apply Bool.eqb_prop in H. congruence.
  - apply andb_true_iff in H as [H He]. apply andb_true_iff in H as [Hn Hm].
    apply Bool.eqb_prop in Hn. apply Pos.eqb_eq in Hm. apply Z.eqb_eq in He.
    congruence.
Qed.


Lemma pow2_pos (e : Z) : 0 <= e -> 0 < 2 ^ e.
Proof. intros H. apply Z.pow_pos_nonneg; lia. Qed.

(** [atLeastPow2] with both sides scaled, so that no exponent is below
    zero. *)
Lemma atLeastPow2_scaled (p q l b : Z) :
  0 <= b -> - b <= l ->
  atLeastPow2 p q l = true <-> q * 2 ^ (l + b) <= p * 2 ^ b.
Proof.
  intros Hb Hl. unfold atLeastPow2. destruct (0 <=? l) eqn:E.
  - apply Z.leb_le in E. rewrite Z.leb_le, Z.pow_add_r, Z.mul_assoc by lia.
    pose proof (pow2_pos b Hb). split; intros H'.
    + apply Z.mul_le_mono_nonneg_r; lia.
    + apply Z.mul_le_mono_pos_r in H'; lia.
  - apply Z.leb_gt in E. rewrite Z.leb_le.
    replace (2 ^ b) with (2 ^ (- l) * 2 ^ (l + b))
      by (rewrite <- Z.pow_add_r by lia; f_equal; lia).
    rewrite Z.mul_assoc.
    pose proof (pow2_pos (l + b) ltac:(lia)). split; intros H'.
    + apply Z.mul_le_mono_nonneg_r; lia.
    + apply Z.mul_le_mono_pos_r in H'; lia.
Qed.

Lemma atLeastPow2_mono (p q l l' : Z) :
  0 < q -> l' <= l -> atLeastPow2 p q l = true -> atLeastPow2 p q l' = true.
Proof.
  intros Hq Hl H.
  set (b := Z.abs l + Z.abs l').
  apply (atLeastPow2_scaled p q l b) in H; [|lia|lia].
  apply (atLeastPow2_scaled p q l' b); [lia|lia|].
  apply Z.le_trans with (q * 2 ^ (l + b)); [|exact H].
  apply Z.mul_le_mono_nonneg_l; [lia|]. apply Z.pow_le_mono_r; lia.
Qed.

(** The quotient of the logarithms is off by less than one. *)
Lemma log2_quotient (p q : Z) :
  0 < p -> 0 < q ->
  atLeastPow2 p q (Z.log2 p - Z.log2 q - 1) = true
  /\ atLeastPow2 p q (Z.log2 p - Z.log2 q + 1) = false.
Proof.
  intros Hp Hq.
  pose proof (Z.log2_spec p Hp) as [Hp1 Hp2].
  pose proof (Z.log2_spec q Hq) as [Hq1 Hq2].
  pose proof (Z.log2_nonneg p) as Hlp. pose proof (Z.log2_nonneg q) as Hlq.
  set (a := Z.log2 p) in *. set (c := Z.log2 q) in *.
  set (b := a + c + 1).
  split.
  - apply (atLeastPow2_scaled p q (a - c - 1) b); [lia|lia|].
    apply Z.le_trans with (2 ^ Z.succ c * 2 ^ (a - c - 1 + b)).
    + apply Z.mul_le_mono_nonneg_r; [apply Z.pow_nonneg; lia|lia].
    + rewrite <- Z.pow_add_r by lia.
      replace (Z.succ c + (a - c - 1 + b)) with (a + b) by lia.
      rewrite Z.pow_add_r by lia.
      apply Z.mul_le_mono_nonneg_r; [apply Z.pow_nonneg; lia|lia].
  - destruct (atLeastPow2 p q (a - c + 1)) eqn:E; [|reflexivity]. exfalso.
    apply (atLeastPow2_scaled p q (a - c + 1) b) in E; [|lia|lia].
    assert (H1 : p * 2 ^ b < 2 ^ Z.succ a * 2 ^ b).
    { apply Z.mul_lt_mono_pos_r; [apply pow2_pos; lia|lia]. }
    assert (H2 : 2 ^ c * 2 ^ (a - c + 1 + b) <= q * 2 ^ (a - c + 1 + b)).
    { apply Z.mul_le_mono_nonneg_r; [apply Z.pow_nonneg; lia|lia]. }
    rewrite <- Z.pow_add_r in H1, H2 by lia.
    replace (c + (a - c + 1 + b)) with (Z.succ a + b) in H2 by lia. lia.
Qed.

Lemma floorLog2_unique (p q l : Z) :
  0 < p -> 0 < q ->
  atLeastPow2 p q l = true -> atLeastPow2 p q (l + 1) = false ->
  floorLog2 p q = l.
Proof.
  intros Hp Hq H1 H2. destruct (log2_quotient p q Hp Hq) as [L1 L2].
  unfold floorLog2. set (l0 := Z.log2 p - Z.log2 q) in *.
  assert (Hle : l <= l0).
  { destruct (Z_le_gt_dec l l0) as [|Hgt]; [assumption|]. exfalso.
    rewrite (atLeastPow2_mono p q l (l0 + 1) Hq ltac:(lia) H1) in L2.
    discriminate. }
  assert (Hge : l0 <= l + 1).
  { destruct (Z_le_gt_dec l0 (l + 1)) as [|Hgt]; [assumption|]. exfalso.
    rewrite (atLeastPow2_mono p q (l0 - 1) (l + 1) Hq ltac:(lia) L1) in H2.
    discriminate. }
  destruct (Z.eq_dec l0 l) as [->|Hne].
  - rewrite H1. reflexivity.
  - replace l0 with (l + 1) in * by lia. rewrite H2. lia.
Qed.

Lemma roundHalfEven_exact (a den : Z) : 0 < den -> roundHalfEven (a * den) den = a.
Proof.
  intros H. unfold roundHalfEven.
  rewrite Z.mod_mul, Z.div_mul by lia. cbn [Z.mul].
  destruct den; try lia. reflexivity.
Qed.

(** *** The odd part *)

Lemma oddPart_odd (m : positive) : isOdd m = true -> oddPart m = (m, 0).
Proof. destruct m; [reflexivity|discriminate|reflexivity]. Qed.

Lemma oddPart_shift (m : positive) (t : nat) :
  isOdd m = true -> oddPart (Nat.iter t xO m) = (m, Z.of_nat t).
Proof.
  intros Hm. induction t as [|t IH].
  - apply oddPart_odd, Hm.
  - change (oddPart (Nat.iter (S t) xO m))
      with (let (o, t0) := oddPart (Nat.iter t xO m) in (o, t0 + 1)).
    rewrite IH. f_equal. lia.
Qed.

Lemma Zpos_shift (m : positive) (t : nat) :
  Zpos (Nat.iter t xO m) = Zpos m * 2 ^ Z.of_nat t.
Proof.
  induction t as [|t IH].
  - change (Nat.iter 0 xO m) with m. cbn [Z.of_nat].
    rewrite Z.pow_0_r, Z.mul_1_r. reflexivity.
  - change (Nat.iter (S t) xO m) with (xO (Nat.iter t xO m)).
    rewrite Pos2Z.inj_xO, IH, Nat2Z.inj_succ, Z.pow_succ_r by lia.
    ring.
Qed.

(** The number of an odd significand that was shifted. *)
Lemma numberOfBinary_shift (neg : bool) (m : positive) (t e : Z) :
  isOdd m = true -> 0 <= t ->
  numberOfBinary neg (Zpos m * 2 ^ t) e
  = if (0 <=? e + t) && (Zpos m * 2 ^ (e + t) <=? maxSafeInteger)
    then Int (if neg then - (Zpos m * 2 ^ (e + t)) else Zpos m * 2 ^ (e + t))
    else Dbl neg m (e + t).
Proof.
  intros Hm Ht. rewrite <- (Z2Nat.id t Ht), <- Zpos_shift.
  cbn [numberOfBinary]. rewrite oddPart_shift by exact Hm. reflexivity.
Qed.

(** *** A double is the number value of its own decimal *)

Lemma numberOk_Dbl (neg : bool) (m : positive) (e : Z) :
  numberOk (Dbl neg m e) = true ->
  isOdd m = true /\ Z.log2 (Zpos m) <= 52 /\ - 1074 <= e
  /\ Z.log2 (Zpos m) + e <= 1023
  /\ (0 <=? e) && (Zpos m * 2 ^ e <=? maxSafeInteger) = false.
Proof.
  cbn [numberOk]. rewrite !andb_true_iff, negb_true_iff, !Z.leb_le.
  tauto.
Qed.

(** The double [m * 2^e], with [m] of at most 53 bits, is the double
    next to any fraction of that value. *)
Lemma binary64_exact (m : positive) (e p q : Z) :
  Z.log2 (Zpos m) <= 52 -> - 1074 <= e -> 0 < q ->
  (0 <= e -> 52 <= Z.log2 (Zpos m) + e /\ p = Zpos m * 2 ^ e * q) ->
  (e < 0 -> p * 2 ^ (- e) = Zpos m * q) ->
  let e0 := Z.max (Z.log2 (Zpos m) + e - 52) (- 1074) in
  binary64 p q = (Zpos m * 2 ^ (e - e0), e0) /\ 0 <= e - e0.
Proof.
  intros HL He Hq Hint Hfrac e0.
  pose proof (Z.log2_spec (Zpos m) ltac:(lia)) as [Hm1 Hm2].
  pose proof (Z.log2_nonneg (Zpos m)) as HL0.
  set (L := Z.log2 (Zpos m)) in *.
  assert (Hp : 0 < p).
  { destruct (Z_le_gt_dec 0 e) as [H|H].
    - destruct (Hint H) as [_ ->]. pose proof (pow2_pos e H). nia.
    - specialize (Hfrac ltac:(lia)). pose proof (pow2_pos (- e) ltac:(lia)). nia. }
  assert (Hfl : floorLog2 p q = L + e).
  { apply floorLog2_unique; try assumption.
    - destruct (Z_le_gt_dec 0 e) as [H|H].
      + destruct (Hint H) as [_ ->].
        apply (atLeastPow2_scaled _ q (L + e) 0); [lia|lia|].
        rewrite Z.add_0_r, Z.pow_0_r, Z.mul_1_r, Z.pow_add_r by lia.
        pose proof (pow2_pos e H). nia.
      + specialize (Hfrac ltac:(lia)).
        apply (atLeastPow2_scaled p q (L + e) (- e)); [lia|lia|].
        replace (L + e + - e) with L by lia. rewrite Hfrac. nia.
    - destruct (atLeastPow2 p q (L + e + 1)) eqn:E; [|reflexivity]. exfalso.
      destruct (Z_le_gt_dec 0 e) as [H|H].
      + destruct (Hint H) as [_ ->].
        apply (atLeastPow2_scaled _ q (L + e + 1) 0) in E; [|lia|lia].
        rewrite Z.add_0_r, Z.pow_0_r, Z.mul_1_r in E.
        replace (L + e + 1) with (Z.succ L + e) in E by lia.
        rewrite Z.pow_add_r in E by lia.
        pose proof (pow2_pos e H). nia.
      + specialize (Hfrac ltac:(lia)).
        apply (atLeastPow2_scaled p q (L + e + 1) (- e)) in E; [|lia|lia].
        replace (L + e + 1 + - e) with (Z.succ L) in E by lia.
        rewrite Hfrac in E. nia. }
  assert (Hd : 0 <= e - e0).
  { subst e0. destruct (Z_le_gt_dec 0 e) as [H|H]; [destruct (Hint H)|]; lia. }
  split; [|exact Hd].
  unfold binary64. rewrite Hfl. fold e0. f_equal.
  destruct (0 <=? e0) eqn:E0.
  - apply Z.leb_le in E0.
    assert (H : 0 <= e) by lia. destruct (Hint H) as [_ ->].
    replace (Zpos m * 2 ^ e * q) with (Zpos m * 2 ^ (e - e0) * (q * 2 ^ e0)).
    + apply roundHalfEven_exact. pose proof (pow2_pos e0 E0). nia.
    + replace e with (e - e0 + e0) at 2 by lia.
      rewrite Z.pow_add_r by lia. ring.
  - apply Z.leb_gt in E0.
    replace (p * 2 ^ (- e0)) with (Zpos m * 2 ^ (e - e0) * q).
    + apply roundHalfEven_exact, Hq.
    + destruct (Z_le_gt_dec 0 e) as [H|H].
      * destruct (Hint H) as [_ ->].
        replace (e - e0) with (e + - e0) by lia.
        rewrite Z.pow_add_r by lia. ring.
      * specialize (Hfrac ltac:(lia)).
        replace (- e0) with (- e + (e - e0)) by lia.
        rewrite Z.pow_add_r, Z.mul_assoc, Hfrac by lia. ring.
Qed.

Lemma pow10_split (k : Z) : 10 ^ k = 2 ^ k * 5 ^ k.
Proof. change 10 with (2 * 5). apply Z.pow_mul_l. Qed.

Lemma numberOfLiteral_exact (neg : bool) (m : positive) (e : Z) :
  numberOk (Dbl neg m e) = true ->
  numberOfLiteral neg (fst (exactDecimal m e)) (snd (exactDecimal m e))
  = Dbl neg m e.
Proof.
  intros Hok. destruct (numberOk_Dbl neg m e Hok) as (Hodd & HL & He & Hhi & Hsafe).
  pose proof (Z.log2_spec (Zpos m) ltac:(lia)) as [Hm1 Hm2].
  pose proof (Z.log2_nonneg (Zpos m)) as HL0.
  set (L := Z.log2 (Zpos m)) in *.
  assert (Hm53 : Zpos m < 2 ^ 53).
  { apply Z.lt_le_trans with (2 ^ Z.succ L); [exact Hm2|].
    apply Z.pow_le_mono_r; lia. }
  unfold exactDecimal. destruct (0 <=? e) eqn:E.
  - (* an integer beyond the safe ones *)
    apply Z.leb_le in E. cbn [fst snd andb] in *. apply Z.leb_gt in Hsafe.
    pose proof (pow2_pos e E) as He2.
    unfold numberOfLiteral.
    replace (Zpos m * 2 ^ e =? 0) with false by (symmetry; apply Z.eqb_neq; nia).
    assert (Ho : overflows (Zpos m * 2 ^ e) 0 = false).
    { unfold overflows. cbn [Z.leb Z.compare]. apply Z.leb_gt.
      rewrite Z.pow_0_r, Z.mul_1_r.
      assert (Hb : (Zpos m + 1) * 2 ^ e <= 2 ^ 1024).
      { apply Z.le_trans with (2 ^ Z.succ L * 2 ^ e).
        - apply Z.mul_le_mono_nonneg_r; lia.
        - rewrite <- Z.pow_add_r by lia. apply Z.pow_le_mono_r; lia. }
      destruct (Z_le_gt_dec 971 e) as [Hbig|Hsmall].
      - assert (2 ^ 971 <= 2 ^ e) by (apply Z.pow_le_mono_r; lia).
        assert (2 ^ 970 < 2 ^ 971) by (apply Z.pow_lt_mono_r; lia).
        lia.
      - assert (H1 : 2 ^ e <= 2 ^ 970) by (apply Z.pow_le_mono_r; lia).
        assert (H2 : 2 ^ 53 * 2 ^ 970 = 2 ^ 1023) by (rewrite <- Z.pow_add_r by lia; reflexivity).
        assert (H3 : 2 ^ 1024 = 2 * 2 ^ 1023) by (rewrite <- Z.pow_succ_r by lia; reflexivity).
        assert (H4 : 2 ^ 970 <= 2 ^ 1023) by (apply Z.pow_le_mono_r; lia).
        assert (Zpos m * 2 ^ e < 2 ^ 53 * 2 ^ 970) by nia.
        lia. }
    rewrite Ho. cbn [underflows Z.ltb Z.compare andb integerValue Z.leb].
    rewrite Z.pow_0_r, Z.mul_1_r.
    replace (Zpos m * 2 ^ e <=? maxSafeInteger) with false
      by (symmetry; apply Z.leb_gt; exact Hsafe).
    assert (H52 : 52 <= L + e).
    { destruct (Z_le_gt_dec 52 (L + e)) as [|Hlt]; [assumption|]. exfalso.
      assert ((Zpos m) * 2 ^ e < 2 ^ 52); [|unfold maxSafeInteger in Hsafe;
        assert (2 ^ 52 < 2 ^ 53) by (apply Z.pow_lt_mono_r; lia); lia].
      apply Z.lt_le_trans with (2 ^ Z.succ L * 2 ^ e).
      - apply Z.mul_lt_mono_pos_r; lia.
      - rewrite <- Z.pow_add_r by lia. apply Z.pow_le_mono_r; lia. }
    destruct (binary64_exact m e (Zpos m * 2 ^ e) 1 HL He ltac:(lia)) as [Hb Hd].
    + intros _. split; [exact H52 | ring].
    + intros; lia.
    + fold L in Hb, Hd. rewrite Hb.
      rewrite numberOfBinary_shift by assumption.
      replace (Z.max (L + e - 52) (- 1074) + (e - Z.max (L + e - 52) (- 1074)))
        with e by lia.
      replace (0 <=? e) with true by (symmetry; apply Z.leb_le; exact E).
      replace (Zpos m * 2 ^ e <=? maxSafeInteger) with false
        by (symmetry; apply Z.leb_gt; exact Hsafe).
      reflexivity.
  - (* a fraction *)
    apply Z.leb_gt in E. cbn [fst snd] in *.
    set (k := - e) in *. assert (Hk : 0 < k <= 1074) by lia.
    pose proof (pow2_pos k ltac:(lia)) as Hk2.
    assert (Hk5 : 0 < 5 ^ k) by (apply Z.pow_pos_nonneg; lia).
    pose proof (pow10_split k) as H10.
    unfold numberOfLiteral.
    replace (Zpos m * 5 ^ k =? 0) with false by (symmetry; apply Z.eqb_neq; nia).
    assert (Ho : overflows (Zpos m * 5 ^ k) e = false).
    { unfold overflows. replace (0 <=? e) with false by (symmetry; apply Z.leb_gt; lia).
      apply Z.leb_gt. fold k. rewrite H10.
      assert (2 ^ 53 <= 2 ^ 1024 - 2 ^ 970) by (vm_compute; discriminate).
      assert (1 <= 2 ^ k) by lia. nia. }
    rewrite Ho.
    assert (Hu : underflows (Zpos m * 5 ^ k) e = false).
    { unfold underflows. replace (e <? 0) with true by (symmetry; apply Z.ltb_lt; lia).
      cbn [andb]. apply Z.leb_gt. fold k. rewrite H10.
      assert (2 ^ k < 2 ^ 1075) by (apply Z.pow_lt_mono_r; lia).
      pose proof (pow2_pos 1075 ltac:(lia)). nia. }
    rewrite Hu.
    assert (Hi : integerValue (Zpos m * 5 ^ k) e = None).
    { unfold integerValue. replace (0 <=? e) with false by (symmetry; apply Z.leb_gt; lia).
      fold k. destruct (Zpos m * 5 ^ k mod 10 ^ k =? 0) eqn:Ez; [|reflexivity].
      exfalso. apply Z.eqb_eq in Ez.
      apply Z.mod_divide in Ez; [|lia]. destruct Ez as [c Hc].
      assert (Hodd' : Z.odd (Zpos m * 5 ^ k) = true).
      { rewrite Z.odd_mul, Z.odd_pow by lia.
        destruct m; [reflexivity|discriminate Hodd|reflexivity]. }
      rewrite Hc, Z.odd_mul, Z.odd_pow, andb_false_r in Hodd' by lia.
      discriminate. }
    rewrite Hi.
    destruct (binary64_exact m e (Zpos m * 5 ^ k) (10 ^ k) HL He ltac:(lia)) as [Hb Hd].
    + intros; lia.
    + intros _. fold k. rewrite H10. ring.
    + fold L in Hb, Hd. fold k. rewrite Hb.
      rewrite numberOfBinary_shift by assumption.
      replace (Z.max (L + e - 52) (- 1074) + (e - Z.max (L + e - 52) (- 1074)))
        with e by lia.
      replace (0 <=? e) with false by (symmetry; apply Z.leb_gt; lia).
      reflexivity.
Qed.
End Rounding.

(** *** The decimal that is printed *)

Lemma shortestDecimal_rounds (fuel : nat) :
  forall k neg p q n x d,
    shortestDecimal fuel k neg p q n x = Some d -> roundsTo neg d x = true.
Proof.
  induction fuel as [|fuel IH]; intros k neg p q n x d; [discriminate|].
  cbn [shortestDecimal]. destruct (candidates p q n k) as [near far].
  destruct (roundsTo neg near x) eqn:E1; [intros [= <-]; exact E1|].
  destruct (roundsTo neg far x) eqn:E2; [intros [= <-]; exact E2|].
  apply IH.
Qed.

(** Only a decimal above zero has a [Dbl] as its number value. *)
Lemma numberOfLiteral_Dbl (neg neg' : bool) (s q : Z) (m : positive) (e : Z) :
  numberOfLiteral neg s q = Dbl neg' m e -> (0 < s)%Z.
Proof.
  unfold numberOfLiteral.
  destruct (s =? 0)%Z eqn:E0; [destruct neg; discriminate|].
  apply Z.eqb_neq in E0.
  destruct (Z_lt_le_dec 0 s) as [|Hneg]; [intros _; assumption|].
  assert (Hs : (s < 0)%Z) by lia. intros H. exfalso. revert H.
  destruct (overflows s q); [discriminate|].
  unfold underflows, integerValue.
  destruct (Z_lt_le_dec q 0) as [Hq|Hq].
  - replace (q <? 0)%Z with true by (symmetry; apply Z.ltb_lt; lia).
    cbn [andb].
    assert (0 < 10 ^ (- q))%Z by (apply Z.pow_pos_nonneg; lia).
    assert (0 < 2 ^ 1075)%Z by (apply Z.pow_pos_nonneg; lia).
    replace (s * 2 ^ 1075 <=? 10 ^ (- q))%Z with true
      by (symmetry; apply Z.leb_le; nia).
    destruct neg; discriminate.
  - replace (q <? 0)%Z with false by (symmetry; apply Z.ltb_ge; lia).
    cbn [andb].
    replace (0 <=? q)%Z with true by (symmetry; apply Z.leb_le; lia).
    assert (0 < 10 ^ q)%Z by (apply Z.pow_pos_nonneg; lia).
    replace (s * 10 ^ q <=? maxSafeInteger)%Z with true
      by (symmetry; apply Z.leb_le; unfold maxSafeInteger;
          assert (0 < 2 ^ 53)%Z by (apply Z.pow_pos_nonneg; lia); nia).
    discriminate.
Qed.

Lemma decimalOf_rounds (neg : bool) (m : positive) (e : Z) :
  numberOk (Dbl neg m e) = true ->
  numberOfLiteral neg (fst (decimalOf neg m e)) (snd (decimalOf neg m e))
  = Dbl neg m e.
Proof.
  intros Hok. unfold decimalOf.
  match goal with
  | |- context [shortestDecimal ?f ?k ?b ?p ?q ?n ?x] =>
      destruct (shortestDecimal f k b p q n x) as [d|] eqn:E
  end.
  - apply shortestDecimal_rounds in E. apply number_eqb_eq, E.
  - apply numberOfLiteral_exact, Hok.
Qed.

(** *** Reading a literal *)

Lemma digitsValue_app (a b : jsstring) :
  digitsValue (a ++ b)
  = (digitsValue a * 10 ^ Z.of_nat (length b) + digitsValue b)%Z.
Proof.
  induction b as [|c b IH] using rev_ind.
  - rewrite app_nil_r. cbn [length Z.of_nat]. change (digitsValue []) with 0%Z.
    rewrite Z.pow_0_r. lia.
  - rewrite app_assoc, !digitsValue_snoc, IH, length_app. cbn [length].
    rewrite Nat.add_1_r, Nat2Z.inj_succ, Z.pow_succ_r by lia. ring.
Qed.

Lemma digitsValue_zeros (j : nat) : digitsValue (repeat "0"%char j) = 0%Z.
Proof.
  induction j as [|j IH]; [reflexivity|].
  change (repeat "0"%char (S j)) with (["0"%char] ++ repeat "0"%char j).
  rewrite digitsValue_app, IH. reflexivity.
Qed.

Lemma forallb_zeros (j : nat) : forallb isDigit (repeat "0"%char j) = true.
Proof. induction j as [|j IH]; [reflexivity|]. cbn [repeat forallb]. rewrite IH. reflexivity. Qed.

Lemma spanDigits_stop (ds rest : jsstring) :
  forallb isDigit ds = true -> stopsDigits rest = true ->
  spanDigits (ds ++ rest) = (ds, rest).
Proof.
  intros Hd Hr. induction ds as [|c ds IH]; cbn [app].
  - destruct rest as [|c rest]; [reflexivity|]. cbn [stopsDigits] in Hr.
    apply negb_true_iff in Hr. cbn [spanDigits]. rewrite Hr. reflexivity.
  - cbn [forallb] in Hd. apply andb_true_iff in Hd as [Hc Hd].
    cbn [spanDigits]. rewrite Hc, (IH Hd). reflexivity.
Qed.

Lemma scanInt_int (int rest : jsstring) :
  intDigits int = true -> stopsDigits rest = true ->
  scanInt (int ++ rest) = Some (int, rest).
Proof.
  destruct int as [|c ds]; [discriminate|]. intros H Hr.
  cbn [intDigits] in H. apply andb_true_iff in H as [Hd Hz].
  cbn [app scanInt]. destruct (ch_eqb c "0"%char) eqn:E.
  - cbn [negb orb] in Hz. destruct ds; [reflexivity|discriminate].
  - pose proof Hd as Hd'. cbn [forallb] in Hd'. apply andb_true_iff in Hd' as [Hc _].
    rewrite Hc. change (c :: ds ++ rest) with ((c :: ds) ++ rest).
    rewrite spanDigits_stop by assumption. reflexivity.
Qed.

Lemma isDigit_not (c : ascii) :
  isDigit c = true ->
  ch_eqb c "."%char = false /\ ch_eqb c "e"%char = false
  /\ ch_eqb c "E"%char = false /\ ch_eqb c "-"%char = false.
Proof.
  destruct c as [[] [] [] [] [] [] [] []]; try discriminate; repeat split; reflexivity.
Qed.

(** A literal of the JSON grammar, read on its own. *)
Lemma parseNumber_literal (neg : bool) (int frac : jsstring)
      (expo : option (bool * jsstring)) :
  intDigits int = true -> forallb isDigit frac = true -> exponentOk expo = true ->
  parseNumber ((if neg then ["-"%char] else []) ++ decimalText int frac expo)
  = POk (numberOfLiteral neg (digitsValue (int ++ frac))
                         (exponentValue expo - Z.of_nat (length frac))) [].
Proof.
  intros Hint Hfrac Hexp.
  set (fracText := match frac with [] => [] | _ => "."%char :: frac end).
  set (expText := match expo with
                  | None => []
                  | Some (eneg, ds) =>
                      "e"%char :: (if eneg then "-"%char else "+"%char) :: ds
                  end).
  assert (Hse : stopsDigits expText = true)
    by (subst expText; destruct expo as [[? ?]|]; reflexivity).
  assert (Hsf : stopsDigits (fracText ++ expText) = true).
  { subst fracText. destruct frac; [exact Hse | reflexivity]. }
  assert (H1 : scanInt (decimalText int frac expo) = Some (int, fracText ++ expText))
    by (apply scanInt_int; assumption).
  assert (H2 : scanFrac (fracText ++ expText) = Some (frac, expText)).
  { subst fracText. destruct frac as [|d frac].
    - cbn [app]. subst expText. destruct expo as [[eneg ds]|]; reflexivity.
    - change (("."%char :: d :: frac) ++ expText)
        with ("."%char :: ((d :: frac) ++ expText)).
      cbn [scanFrac]. rewrite ch_eqb_refl.
      rewrite spanDigits_stop by assumption. reflexivity. }
  assert (H3 : scanExp expText
               = Some (match expo with Some (eneg, _) => eneg | None => false end,
                       match expo with Some (_, ds) => ds | None => [] end, [])).
  { subst expText. destruct expo as [[eneg ds]|]; [|reflexivity].
    cbn [exponentOk] in Hexp. apply andb_true_iff in Hexp as [Hds Hne].
    cbn [scanExp]. rewrite ch_eqb_refl. cbn [orb].
    destruct ds as [|d ds]; [discriminate|].
    pose proof (spanDigits_all (d :: ds) Hds) as Hsp.
    destruct eneg; cbn [ch_eqb]; rewrite ?ch_eqb_refl.
    - replace (ch_eqb "-"%char "+"%char) with false by reflexivity.
      rewrite Hsp. reflexivity.
    - rewrite Hsp. reflexivity. }
  assert (Hbody : match scanInt (decimalText int frac expo) with
                  | None => PErr unexpectedToken
                  | Some (int, s2) =>
                      match scanFrac s2 with
                      | None => PErr unexpectedToken
                      | Some (frac, s3) =>
                          match scanExp s3 with
                          | None => PErr unexpectedToken
                          | Some (eneg, eds, s4) =>
                              let m := digitsValue (int ++ frac) in
                              let x := digitsValue eds in
                              let e := ((if eneg then - x else x)
                                        - Z.of_nat (length frac))%Z in
                              POk (numberOfLiteral neg m e) s4
                          end
                      end
                  end
                  = POk (numberOfLiteral neg (digitsValue (int ++ frac))
                           (exponentValue expo - Z.of_nat (length frac))) []).
  { rewrite H1, H2, H3. cbv zeta. do 2 f_equal.
    destruct expo as [[[] ds]|]; reflexivity. }
  unfold parseNumber. destruct neg; cbn [app].
  - rewrite ch_eqb_refl. exact Hbody.
  - destruct int as [|c ds]; [discriminate|].
    cbn [intDigits forallb] in Hint.
    apply andb_true_iff in Hint as [Hd _]. apply andb_true_iff in Hd as [Hc _].
    destruct (isDigit_not c Hc) as (_ & _ & _ & Hm).
    unfold decimalText in *. cbn [app] in *. rewrite Hm. exact Hbody.
Qed.

Lemma numberOfLiteral_scaled (neg : bool) (s j : Z) :
  (0 <= j)%Z -> numberOfLiteral neg (s * 10 ^ j) 0 = numberOfLiteral neg s j.
Proof.
  intros Hj. assert (H10 : (0 < 10 ^ j)%Z) by (apply Z.pow_pos_nonneg; lia).
  unfold numberOfLiteral, overflows, underflows, integerValue.
  replace (0 <=? j)%Z with true by (symmetry; apply Z.leb_le; lia).
  replace (j <? 0)%Z with false by (symmetry; apply Z.ltb_ge; lia).
  cbn [Z.leb Z.ltb Z.compare andb]. rewrite Z.pow_0_r, Z.mul_1_r.
  replace (s * 10 ^ j =? 0)%Z with (s =? 0)%Z; [reflexivity|].
  destruct (s =? 0)%Z eqn:E; symmetry.
  - apply Z.eqb_eq in E. subst s. reflexivity.
  - apply Z.eqb_neq in E. apply Z.eqb_neq. nia.
Qed.

Lemma digitsValue_leading (j : nat) (ds : jsstring) :
  digitsValue ("0"%char :: repeat "0"%char j ++ ds) = digitsValue ds.
Proof.
  change ("0"%char :: repeat "0"%char j ++ ds) with (repeat "0"%char (S j) ++ ds).
  rewrite digitsValue_app, digitsValue_zeros. reflexivity.
Qed.

(** What [Number::toString] writes for a decimal reads as its number
    value. *)
Lemma parseNumber_formatDecimal (neg : bool) (s q : Z) :
  (0 < s)%Z ->
  parseNumber ((if neg then ["-"%char] else []) ++ formatDecimal (s, q))
  = POk (numberOfLiteral neg s q) [].
Proof.
  intros Hs. unfold formatDecimal. cbn [fst snd].
  destruct (NToString_spec (Z.to_N s)) as (c & ds & -> & Hd & Hv & Hz).
  rewrite Z2N.id in Hv by lia.
  destruct Hz as [[Hz _]|[_ Hc]]; [lia|].
  set (digits := c :: ds) in *.
  set (k := Z.of_nat (length digits)).
  assert (Hk : (1 <= k)%Z) by (subst k digits; cbn [length]; lia).
  set (n := (q + k)%Z).
  destruct ((k <=? n)%Z && (n <=? 21)%Z) eqn:E1.
  { apply andb_true_iff in E1 as [E1 _]. apply Z.leb_le in E1.
    rewrite parseNumber_literal.
    - rewrite app_nil_r, digitsValue_app, digitsValue_zeros, repeat_length, Hv.
      cbn [exponentValue length Z.of_nat]. rewrite Z.add_0_r, Z2Nat.id by lia.
      change (0 - 0)%Z with 0%Z. rewrite numberOfLiteral_scaled by lia.
      replace (n - k)%Z with q by (subst n; lia). reflexivity.
    - subst digits. cbn [app intDigits]. rewrite Hc. cbn [negb orb].
      change (c :: ds ++ repeat "0"%char (Z.to_nat (n - k)))
        with ((c :: ds) ++ repeat "0"%char (Z.to_nat (n - k))).
      rewrite forallb_app, Hd, forallb_zeros. reflexivity.
    - reflexivity.
    - reflexivity. }
  destruct ((0 <? n)%Z && (n <=? 21)%Z) eqn:E2.
  { apply andb_true_iff in E2 as [E2 E2']. apply Z.ltb_lt in E2. apply Z.leb_le in E2'.
    assert (Hnk : (n < k)%Z).
    { destruct (k <=? n)%Z eqn:Ek; [|apply Z.leb_gt in Ek; exact Ek].
      cbn [andb] in E1. apply Z.leb_gt in E1. lia. }
    rewrite parseNumber_literal.
    - rewrite firstn_skipn, Hv, length_skipn. cbn [exponentValue].
      replace (0 - Z.of_nat (length digits - Z.to_nat n))%Z with q
        by (subst n k; lia).
      reflexivity.
    - subst digits. replace (Z.to_nat n) with (S (Z.to_nat (n - 1))) by lia.
      cbn [firstn intDigits]. rewrite Hc. cbn [negb orb].
      change (c :: firstn (Z.to_nat (n - 1)) ds)
        with (firstn (S (Z.to_nat (n - 1))) (c :: ds)).
      rewrite andb_true_r.
      rewrite <- (firstn_skipn (S (Z.to_nat (n - 1))) (c :: ds)), forallb_app in Hd.
      apply andb_true_iff in Hd as [Hd _]. exact Hd.
    - rewrite <- (firstn_skipn (Z.to_nat n) digits), forallb_app in Hd.
      apply andb_true_iff in Hd as [_ Hd]. exact Hd.
    - reflexivity. }
  destruct ((-6 <? n)%Z && (n <=? 0)%Z) eqn:E3.
  { apply andb_true_iff in E3 as [_ E3]. apply Z.leb_le in E3.
    rewrite parseNumber_literal.
    - cbn [app]. rewrite digitsValue_leading, Hv, length_app, repeat_length.
      cbn [exponentValue].
      replace (0 - Z.of_nat (Z.to_nat (- n) + length digits))%Z with q
        by (subst n k; lia).
      reflexivity.
    - reflexivity.
    - rewrite forallb_app, forallb_zeros, Hd. reflexivity.
    - reflexivity. }
  rewrite parseNumber_literal.
  - rewrite firstn_skipn, Hv, length_skipn. cbn [exponentValue].
    destruct (NToString_spec (Z.to_N (Z.abs (n - 1)))) as (c' & ds' & -> & _ & Hv' & _).
    rewrite Hv', Z2N.id by lia.
    replace ((if (n - 1 <? 0)%Z then (- Z.abs (n - 1))%Z else Z.abs (n - 1))
             - Z.of_nat (length digits - 1))%Z with q; [reflexivity|].
    destruct (n - 1 <? 0)%Z eqn:En; [apply Z.ltb_lt in En | apply Z.ltb_ge in En];
      subst n k; lia.
  - subst digits. cbn [firstn intDigits forallb]. rewrite Hc.
    cbn [forallb] in Hd. apply andb_true_iff in Hd as [-> _]. reflexivity.
  - subst digits. cbn [skipn]. cbn [forallb] in Hd.
    apply andb_true_iff in Hd as [_ Hd]. exact Hd.
  - cbn [exponentOk].
    destruct (NToString_spec (Z.to_N (Z.abs (n - 1)))) as (c' & ds' & -> & Hd' & _).
    rewrite Hd'. reflexivity.
Qed.

Lemma numberOfLiteral_safe (neg : bool) (m : Z) :
  (0 <= m <= maxSafeInteger)%Z -> (m = 0%Z -> neg = false) ->
  numberOfLiteral neg m 0 = Int (if neg then - m else m).
Proof.
  intros Hm Hz. unfold numberOfLiteral.
  destruct (m =? 0)%Z eqn:E0.
  - apply Z.eqb_eq in E0. rewrite (Hz E0), E0. reflexivity.
  - assert (Ho : overflows m 0 = false).
    { unfold overflows. cbn [Z.leb Z.compare]. apply Z.leb_gt.
      unfold maxSafeInteger in Hm.
      assert (2 ^ 53 < 2 ^ 1024 - 2 ^ 970)%Z by (vm_compute; reflexivity).
      change (10 ^ 0)%Z with 1%Z. lia. }
    rewrite Ho. cbn [underflows Z.ltb Z.compare andb integerValue Z.leb].
    change (10 ^ 0)%Z with 1%Z. rewrite Z.mul_1_r.
    replace (m <=? maxSafeInteger)%Z with true
      by (symmetry; apply Z.leb_le; lia).
    reflexivity.
Qed.

Lemma parseNumber_digits (n : N) (neg : bool) :
  (Z.of_N n <= maxSafeInteger)%Z -> (n = 0%N -> neg = false) ->
  parseNumber ((if neg then ["-"%char] else []) ++ NToString n)
  = POk (Int (if neg then - Z.of_N n else Z.of_N n)) [].
Proof.
  intros Hn Hz. destruct (NToString_spec n) as (c & ds & E & Hd & Hv & Hc).
  pose proof (parseNumber_literal neg (NToString n) [] None) as H.
  unfold decimalText in H. rewrite !app_nil_r in H. rewrite H; clear H.
  - rewrite E, Hv. cbn [exponentValue length Z.of_nat]. change (0 - 0)%Z with 0%Z.
    rewrite numberOfLiteral_safe; [reflexivity|lia|intros H0; apply Hz; lia].
  - rewrite E. cbn [intDigits]. rewrite Hd. cbn [andb].
    destruct Hc as [[_ Hc]|[_ Hc]].
    + injection Hc as -> ->. reflexivity.
    + rewrite Hc. reflexivity.
  - reflexivity.
  - reflexivity.
Qed.

(** A number that is carried through prints as a literal that reads as
    the number. *)
Lemma parseNumber_numberToString (n : number) :
  numberOk n = true -> parseNumber (numberToString n) = POk n [].
Proof.
  intros Hn. destruct n as [z| |neg|neg m e]; cbn [numberOk] in Hn;
    try discriminate Hn.
  - cbn [numberToString]. apply Z.leb_le in Hn. destruct (z <? 0)%Z eqn:Ez.
    + apply Z.ltb_lt in Ez.
      pose proof (parseNumber_digits (Z.to_N (- z)) true) as H.
      cbn [app] in H. rewrite H; [|rewrite Z2N.id; lia|intros; exfalso; lia].
      rewrite Z2N.id by lia. rewrite Z.opp_involutive. reflexivity.
    + apply Z.ltb_ge in Ez.
      pose proof (parseNumber_digits (Z.to_N z) false) as H.
      cbn [app] in H. rewrite H; [|rewrite Z2N.id; lia|reflexivity].
      rewrite Z2N.id by lia. reflexivity.
  - cbn [numberToString].
    pose proof (decimalOf_rounds neg m e Hn) as Hr.
    destruct (decimalOf neg m e) as [s q] eqn:Ed. cbn [fst snd] in Hr.
    rewrite parseNumber_formatDecimal by (eapply numberOfLiteral_Dbl; exact Hr).
    rewrite Hr. reflexivity.
Qed.

Lemma parseNumber_numberToJSON (n : number) (rest : jsstring) :
  numberOk n = true -> stops rest = true ->
  parseNumber (numberToJSON n ++ rest) = POk n rest.
Proof.
  intros Hn Hr. rewrite parseNumber_frame by exact Hr.
  replace (numberToJSON n) with (numberToString n)
    by (destruct n; try reflexivity; discriminate Hn).
  rewrite parseNumber_numberToString by exact Hn. reflexivity.
Qed.

(** ** Strings in JSON text *)

Lemma parseStringBody_quoteChar (c : ascii) (rest acc : jsstring) :
  parseStringBody (quoteChar c ++ rest) acc = parseStringBody rest (acc ++ [c]).
Proof.
  destruct c as [[] [] [] [] [] [] [] []]; reflexivity.
Qed.

Lemma parseStringBody_quoted (s rest : jsstring) :
  forall acc,
    parseStringBody (flat_map quoteChar s ++ dquote :: rest) acc
    = POk (acc ++ s) rest.
Proof.
  induction s as [|c s IH]; intros acc.
  - cbn [flat_map app parseStringBody]. rewrite ch_eqb_refl, app_nil_r. reflexivity.
  - cbn [flat_map]. rewrite <- app_assoc, parseStringBody_quoteChar, IH.
    rewrite <- app_assoc. reflexivity.
Qed.

Lemma quoteJSONString_eq (s rest : jsstring) :
  quoteJSONString s ++ rest = dquote :: flat_map quoteChar s ++ dquote :: rest.
Proof. unfold quoteJSONString. cbn [app]. rewrite <- app_assoc. reflexivity. Qed.

(** ** Objects: reading the members back in order *)

Lemma distinct_not_in (a b : list jsstring) (k : jsstring) :
  distinctKeys (a ++ k :: b) = true -> forall k', In k' a -> k' <> k.
Proof.
  induction a as [|k0 a IH]; cbn [app distinctKeys]; [intros _ k' []|].
  rewrite andb_true_iff, negb_true_iff. intros [Hk0 Ha] k' [<-|Hin].
  - intros ->. rewrite existsb_app in Hk0. cbn [existsb] in Hk0.
    rewrite str_eqb_refl, orb_true_r in Hk0. discriminate.
  - apply IH; assumption.
Qed.

Lemma obj_get_fresh (k : jsstring) (o : object) :
  (forall k', In k' (map fst o) -> k' <> k) -> obj_get k o = None.
Proof.
  induction o as [|[k0 v0] o IH]; cbn [map fst obj_get]; [reflexivity|].
  intros H. destruct (str_eqb k k0) eqn:E.
  - apply str_eqb_eq in E. exfalso. apply (H k0); [left; reflexivity | congruence].
  - apply IH. intros k' Hk'. apply H. right; exact Hk'.
Qed.

Lemma ordered_before (a b : list jsstring) (k : jsstring) :
  keysOrdered (a ++ k :: b) = true -> forall k', In k' a -> precedes k' k.
Proof.
  induction a as [|k0 a IH]; cbn [app keysOrdered]; [intros _ k' []|].
  rewrite andb_true_iff. intros [Hk0 Ha] k' [<-|Hin]; [|apply IH; assumption].
  unfold precedes.
  destruct (arrayIndex k0) as [j|]; rewrite forallb_app in Hk0;
    apply andb_true_iff in Hk0 as [_ Hk0]; cbn [forallb] in Hk0;
    apply andb_true_iff in Hk0 as [Hk0 _];
    destruct (arrayIndex k) as [i|]; try exact I; try discriminate.
  apply Z.ltb_lt. exact Hk0.
Qed.

Lemma obj_insert_index_last (i : Z) (k : jsstring) (v : json) (o : object) :
  (forall k', In k' (map fst o) ->
              exists j, arrayIndex k' = Some j /\ (j < i)%Z) ->
  obj_insert_index i k v o = o ++ [(k, v)].
Proof.
  induction o as [|[k0 v0] o IH]; cbn [map fst obj_insert_index app]; [reflexivity|].
  intros H. destruct (H k0 (or_introl eq_refl)) as (j & -> & Hj).
  replace (j <? i)%Z with true by (symmetry; apply Z.ltb_lt; exact Hj).
  rewrite IH; [reflexivity|]. intros k' Hk'. apply H. right; exact Hk'.
Qed.

Lemma obj_set_fresh (acc : object) (k : jsstring) (v : json) (later : list jsstring) :
  distinctKeys (map fst acc ++ k :: later) = true ->
  keysOrdered (map fst acc ++ k :: later) = true ->
  obj_set k v acc = acc ++ [(k, v)].
Proof.
  intros Hd Ho. unfold obj_set, obj_has.
  rewrite obj_get_fresh by (apply (distinct_not_in _ _ _ Hd)).
  destruct (arrayIndex k) as [i|] eqn:Ei; [|reflexivity].
  apply obj_insert_index_last. intros k' Hk'.
  pose proof (ordered_before _ _ _ Ho k' Hk') as Hp. unfold precedes in Hp.
  rewrite Ei in Hp. destruct (arrayIndex k') as [j|]; [eauto | destruct Hp].
Qed.

Lemma fold_setMember (l : object) :
  forall acc,
    objectOk (acc ++ l) = true -> fold_left setMember l acc = acc ++ l.
Proof.
  induction l as [|[k v] l IH]; intros acc Hok; cbn [fold_left].
  - rewrite app_nil_r. reflexivity.
  - unfold objectOk in Hok. rewrite map_app in Hok. cbn [map fst] in Hok.
    apply andb_true_iff in Hok as [Hd Ho].
    unfold setMember at 2. cbn [fst snd].
    rewrite (obj_set_fresh acc k v (map fst l) Hd Ho).
    rewrite IH; [rewrite <- app_assoc; reflexivity|].
    unfold objectOk. rewrite <- app_assoc. cbn [app].
    rewrite map_app. cbn [map fst]. rewrite Hd, Ho. reflexivity.
Qed.

(** ** Values in JSON text *)

Lemma skipWs_ws (ws s : jsstring) : wsOnly ws = true -> skipWs (ws ++ s) = skipWs s.
Proof.
  induction ws as [|c ws IH]; [reflexivity|]. cbn [wsOnly forallb app skipWs].
  rewrite andb_true_iff. intros [-> H]. apply IH, H.
Qed.

Lemma skipWs_head (c : ascii) (s : jsstring) :
  isJsonWs c = false -> skipWs (c :: s) = c :: s.
Proof. intros H. cbn [skipWs]. rewrite H. reflexivity. Qed.

Lemma parseValue_ws (fuel : nat) (ws s : jsstring) :
  wsOnly ws = true -> parseValue fuel (ws ++ s) = parseValue fuel s.
Proof.
  intros H. destruct fuel as [|fuel]; [reflexivity|].
  cbn [parseValue]. rewrite skipWs_ws by exact H. reflexivity.
Qed.

Lemma parseElements_ws (fuel : nat) (ws s : jsstring) (acc : list json) :
  wsOnly ws = true -> parseElements fuel (ws ++ s) acc = parseElements fuel s acc.
Proof.
  intros H. destruct fuel as [|fuel]; [reflexivity|].
  cbn [parseElements]. rewrite parseValue_ws by exact H. reflexivity.
Qed.

Lemma parseMembers_ws (fuel : nat) (ws s : jsstring) (acc : object) :
  wsOnly ws = true -> parseMembers fuel (ws ++ s) acc = parseMembers fuel s acc.
Proof.
  intros H. destruct fuel as [|fuel]; [reflexivity|].
  cbn [parseMembers]. rewrite skipWs_ws by exact H. reflexivity.
Qed.

(** The first character decides what [parseValue] reads. *)
Lemma parseValue_string (fuel : nat) (s : jsstring) :
  parseValue (S fuel) (dquote :: s) = pmap JStr (parseStringBody s []).
Proof. reflexivity. Qed.

Lemma parseValue_array (fuel : nat) (s : jsstring) :
  parseValue (S fuel) ("["%char :: s)
  = match skipWs s with
    | d :: r => if ch_eqb d "]"%char then POk (JArr []) r
                else parseElements fuel s []
    | [] => PErr unexpectedEnd
    end.
Proof. reflexivity. Qed.

Lemma parseValue_object (fuel : nat) (s : jsstring) :
  parseValue (S fuel) ("{"%char :: s)
  = match skipWs s with
    | d :: r => if ch_eqb d "}"%char then POk (JObj []) r
                else parseMembers fuel s []
    | [] => PErr unexpectedEnd
    end.
Proof. reflexivity. Qed.

Lemma parseValue_number (fuel : nat) (c : ascii) (s : jsstring) :
  ch_eqb c "-"%char || isDigit c = true ->
  parseValue (S fuel) (c :: s) = pmap JNum (parseNumber (c :: s)).
Proof.
  intros H.
  destruct c as [[] [] [] [] [] [] [] []]; try discriminate H; reflexivity.
Qed.

(** The first character of a number literal. *)
Lemma parseNumber_head (s r : jsstring) (n : number) :
  parseNumber s = POk n r ->
  exists c t, s = c :: t /\ ch_eqb c "-"%char || isDigit c = true.
Proof.
  unfold parseNumber. destruct s as [|c s]; [discriminate|].
  intros H. exists c, s. split; [reflexivity|].
  destruct (ch_eqb c "-"%char) eqn:E; [reflexivity|].
  cbn [scanInt] in H. destruct (ch_eqb c "0"%char) eqn:E0.
  - apply ch_eqb_eq in E0. subst. reflexivity.
  - destruct (isDigit c); [reflexivity | discriminate].
Qed.

Lemma numberToJSON_head (n : number) :
  numberOk n = true ->
  exists c t, numberToJSON n = c :: t /\ ch_eqb c "-"%char || isDigit c = true.
Proof.
  intros H. pose proof (parseNumber_numberToJSON n [] H eq_refl) as Hp.
  rewrite app_nil_r in Hp. eapply parseNumber_head. exact Hp.
Qed.

Lemma wsOnly_app (a b : jsstring) : wsOnly (a ++ b) = wsOnly a && wsOnly b.
Proof. apply forallb_app. Qed.

Lemma wsOnly_opening (gap indent : jsstring) :
  wsOnly indent = true -> wsOnly (opening gap indent) = true.
Proof.
  intros H. unfold opening. destruct gap; [reflexivity|].
  rewrite wsOnly_app, H. reflexivity.
Qed.

Lemma wsOnly_colonSpace (gap : jsstring) : wsOnly (colonSpace gap) = true.
Proof. destruct gap; reflexivity. Qed.

Lemma serialize_array (gap indent : jsstring) (x : json) (items : list json) :
  serialize gap indent (JArr (x :: items))
  = "["%char :: opening gap (indent ++ gap)
      ++ join (","%char :: opening gap (indent ++ gap))
              (map (serialize gap (indent ++ gap)) (x :: items))
      ++ opening gap indent ++ ["]"%char].
Proof.
  cbn [serialize map]. unfold opening. destruct gap; cbn [app]; [reflexivity|].
  rewrite <- !app_assoc. reflexivity.
Qed.

Lemma serialize_object (gap indent : jsstring) (kv : jsstring * json) (props : object) :
  serialize gap indent (JObj (kv :: props))
  = "{"%char :: opening gap (indent ++ gap)
      ++ join (","%char :: opening gap (indent ++ gap))
              (map (member gap (indent ++ gap)) (kv :: props))
      ++ opening gap indent ++ ["}"%char].
Proof.
  cbn [serialize map]. unfold opening, member, colonSpace.
  destruct gap; cbn [app]; [reflexivity|].
  rewrite <- !app_assoc. reflexivity.
Qed.

(** A serialized value starts with a character that is neither white
    space nor a closing bracket or brace. *)
Lemma serialize_head (gap indent : jsstring) (v : json) :
  jsonOk v = true ->
  exists c t, serialize gap indent v = c :: t
              /\ isJsonWs c = false
              /\ ch_eqb c "]"%char = false
              /\ ch_eqb c "}"%char = false.
Proof.
  intros Hok. destruct v as [|[]|n|s|[|x items]|[|kv props]];
    try (eexists; eexists; split; [reflexivity | repeat split; reflexivity]).
  - cbn [jsonOk] in Hok. destruct (numberToJSON_head n Hok) as (c & t & E & Hc).
    exists c, t. split; [exact E|].
    destruct c as [[] [] [] [] [] [] [] []]; try discriminate Hc;
      repeat split; reflexivity.
  - rewrite serialize_array. eexists; eexists; split; [reflexivity|].
    repeat split; reflexivity.
  - rewrite serialize_object. eexists; eexists; split; [reflexivity|].
    repeat split; reflexivity.
Qed.

Lemma stops_ws (ws s : jsstring) (c : ascii) :
  wsOnly ws = true ->
  ch_eqb c ","%char || ch_eqb c "]"%char || ch_eqb c "}"%char = true ->
  stops (ws ++ c :: s) = true.
Proof.
  intros Hws Hc. destruct ws as [|w ws]; cbn [app stops].
  - rewrite <- !orb_assoc in *. rewrite Hc. apply orb_true_r.
  - cbn [wsOnly forallb] in Hws. apply andb_true_iff in Hws as [-> _]. reflexivity.
Qed.

Lemma join_one (sep p : jsstring) : join sep [p] = p.
Proof. reflexivity. Qed.

Lemma join_cons (sep p q : jsstring) (ps : list jsstring) :
  join sep (p :: q :: ps) = p ++ sep ++ join sep (q :: ps).
Proof. reflexivity. Qed.

Section RoundTrip.
Variables (gap : jsstring).
Hypothesis Hgap : wsOnly gap = true.

Lemma parseElements_join (indent stepback rest : jsstring) (items : list json) :
  wsOnly indent = true -> wsOnly stepback = true ->
  Forall (readsBack gap) items ->
  forallb jsonOk items = true ->
  forall x fuel acc,
    readsBack gap x -> jsonOk x = true ->
    list_sum (map (fun y => S (json_size y)) (x :: items)) <= fuel ->
    parseElements fuel
      (join (","%char :: opening gap indent)
            (map (serialize gap indent) (x :: items))
         ++ opening gap stepback ++ "]"%char :: rest) acc
    = POk (JArr (acc ++ x :: items)) rest.
Proof.
  intros Hi Hs Hall. induction Hall as [|y items Hy _ IH];
    intros Hok x fuel acc Hx Hxok Hf;
    cbn [map list_sum fold_right] in Hf;
    (destruct fuel as [|fuel]; [lia|]); cbn [map].
  - rewrite join_one. cbn [parseElements].
    rewrite (Hx Hxok indent _ fuel Hi); [| |lia].
    + rewrite skipWs_ws by (apply wsOnly_opening, Hs).
      rewrite skipWs_head by reflexivity. reflexivity.
    + apply stops_ws; [apply wsOnly_opening, Hs | reflexivity].
  - cbn [forallb] in Hok. apply andb_true_iff in Hok as [Hyok Hok].
    rewrite join_cons. cbn [parseElements]. rewrite <- !app_assoc.
    rewrite (Hx Hxok indent _ fuel Hi); [| reflexivity |lia].
    cbn [app]. rewrite skipWs_head by reflexivity.
    change (ch_eqb ","%char ","%char) with true. cbv iota.
    rewrite parseElements_ws by (apply wsOnly_opening, Hi).
    change (serialize gap indent y :: map (serialize gap indent) items)
      with (map (serialize gap indent) (y :: items)).
    rewrite (IH Hok y fuel (acc ++ [x]) Hy Hyok) by (cbn [map list_sum fold_right]; lia).
    rewrite <- app_assoc. reflexivity.
Qed.

Lemma parseMembers_join (indent stepback rest : jsstring) (props : object) :
  wsOnly indent = true -> wsOnly stepback = true ->
  Forall (fun kv => readsBack gap (snd kv)) props ->
  forallb (fun kv => jsonOk (snd kv)) props = true ->
  forall kv fuel acc,
    readsBack gap (snd kv) -> jsonOk (snd kv) = true ->
    list_sum (map (fun y => S (json_size (snd y))) (kv :: props)) <= fuel ->
    parseMembers fuel
      (join (","%char :: opening gap indent)
            (map (member gap indent) (kv :: props))
         ++ opening gap stepback ++ "}"%char :: rest) acc
    = POk (JObj (fold_left setMember (kv :: props) acc)) rest.
Proof.
  intros Hi Hs Hall.
  assert (Hone : forall kv fuel acc tail,
             readsBack gap (snd kv) -> jsonOk (snd kv) = true ->
             json_size (snd kv) <= fuel -> stops tail = true ->
             parseMembers (S fuel) (member gap indent kv ++ tail) acc
             = match skipWs tail with
               | d :: r' =>
                   if ch_eqb d ","%char
                   then parseMembers fuel r' (setMember acc kv)
                   else if ch_eqb d "}"%char
                        then POk (JObj (setMember acc kv)) r'
                        else PErr unexpectedToken
               | [] => PErr unexpectedEnd
               end).
  { intros [k v] fuel acc tail Hv Hvok Hf Ht. cbn [snd] in *.
    unfold member. cbn [fst snd]. cbn [parseMembers].
    rewrite <- app_assoc. cbn [app]. rewrite <- app_assoc.
    rewrite quoteJSONString_eq. rewrite skipWs_head by reflexivity.
    rewrite ch_eqb_refl. rewrite parseStringBody_quoted.
    rewrite skipWs_head by reflexivity. rewrite ch_eqb_refl.
    rewrite parseValue_ws by apply wsOnly_colonSpace.
    rewrite (Hv Hvok indent tail fuel Hi Ht Hf). reflexivity. }
  induction Hall as [|y props Hy _ IH]; intros Hok kv fuel acc Hkv Hkvok Hf;
    cbn [map list_sum fold_right] in Hf;
    (destruct fuel as [|fuel]; [lia|]); cbn [map].
  - rewrite join_one. cbn [fold_left].
    rewrite Hone; [|assumption|assumption|lia|].
    + rewrite skipWs_ws by (apply wsOnly_opening, Hs).
      rewrite skipWs_head by reflexivity. reflexivity.
    + apply stops_ws; [apply wsOnly_opening, Hs | reflexivity].
  - cbn [forallb] in Hok. apply andb_true_iff in Hok as [Hyok Hok].
    rewrite join_cons. rewrite <- (app_assoc (member gap indent kv)).
    rewrite Hone; [|assumption|assumption|lia|reflexivity].
    rewrite <- app_assoc.
    cbn [app]. rewrite skipWs_head by reflexivity.
    change (ch_eqb ","%char ","%char) with true. cbv iota.
    rewrite parseMembers_ws by (apply wsOnly_opening, Hi).
    change (member gap indent y :: map (member gap indent) props)
      with (map (member gap indent) (y :: props)).
    rewrite (IH Hok y fuel (setMember acc kv) Hy Hyok)
      by (cbn [map list_sum fold_right]; lia).
    reflexivity.
Qed.

Lemma join_head (sep p : jsstring) (ps : list jsstring) (c : ascii) (t : jsstring) :
  p = c :: t -> exists t', join sep (p :: ps) = c :: t'.
Proof.
  intros ->. destruct ps; cbn [join app]; eauto.
Qed.

(** Reading the text of a value gives the value back. *)
Lemma parseValue_serialize (v : json) : readsBack gap v.
Proof.
  induction v as [|b|n|s|items IH|props IH] using json_ind; unfold readsBack;
    intros Hok indent rest fuel Hi Hr Hf;
    (destruct fuel as [|fuel]; [cbn [json_size] in Hf; lia|]).
  - reflexivity.
  - destruct b; reflexivity.
  - cbn [jsonOk] in Hok. cbn [serialize].
    destruct (numberToJSON_head n Hok) as (c & t & E & Hc).
    rewrite E. cbn [app]. rewrite parseValue_number by exact Hc.
    change (c :: t ++ rest) with ((c :: t) ++ rest). rewrite <- E.
    rewrite parseNumber_numberToJSON by assumption. reflexivity.
  - cbn [serialize]. rewrite quoteJSONString_eq, parseValue_string.
    rewrite parseStringBody_quoted. reflexivity.
  - destruct items as [|x items]; [reflexivity|].
    rewrite serialize_array. cbn [app]. rewrite parseValue_array.
    cbn [jsonOk forallb] in Hok. apply andb_true_iff in Hok as [Hxok Hok].
    inversion IH as [|? ? Hx Hall]; subst.
    assert (Hi' : wsOnly (indent ++ gap) = true)
      by (rewrite wsOnly_app, Hi, Hgap; reflexivity).
    destruct (serialize_head gap (indent ++ gap) x Hxok) as (c & t & E & Hc1 & Hc2 & _).
    destruct (join_head (","%char :: opening gap (indent ++ gap))
                        _ (map (serialize gap (indent ++ gap)) items) c t E)
      as [t' Ej].
    rewrite <- !app_assoc.
    match goal with
    | |- context [skipWs ?X] =>
        assert (Hsk : exists r, skipWs X = c :: r)
    end.
    { rewrite skipWs_ws by (apply wsOnly_opening, Hi').
      cbn [map] in Ej |- *. rewrite Ej. cbn [app].
      rewrite skipWs_head by exact Hc1. eauto. }
    destruct Hsk as [r ->]. rewrite Hc2.
    rewrite parseElements_ws by (apply wsOnly_opening, Hi').
    cbn [app].
    rewrite (parseElements_join (indent ++ gap) indent rest items Hi' Hi Hall Hok
                                x fuel [] Hx Hxok)
      by (cbn [json_size map list_sum fold_right] in *; lia).
    reflexivity.
  - destruct props as [|kv props]; [reflexivity|].
    rewrite serialize_object. cbn [app]. rewrite parseValue_object.
    cbn [jsonOk forallb] in Hok. apply andb_true_iff in Hok as [Hobj Hok].
    apply andb_true_iff in Hok as [Hkvok Hok].
    inversion IH as [|? ? Hkv Hall]; subst.
    assert (Hi' : wsOnly (indent ++ gap) = true)
      by (rewrite wsOnly_app, Hi, Hgap; reflexivity).
    rewrite <- !app_assoc.
    assert (Ej : exists t',
               join (","%char :: opening gap (indent ++ gap))
                    (map (member gap (indent ++ gap)) (kv :: props))
               = dquote :: t').
    { cbn [map]. eapply join_head. unfold member, quoteJSONString.
      cbn [app]. reflexivity. }
    destruct Ej as [t' Ej].
    match goal with
    | |- context [skipWs ?X] =>
        assert (Hsk : exists r, skipWs X = dquote :: r)
    end.
    { rewrite skipWs_ws by (apply wsOnly_opening, Hi').
      rewrite Ej. cbn [app]. rewrite skipWs_head by reflexivity. eauto. }
    destruct Hsk as [r ->].
    change (ch_eqb dquote "}"%char) with false. cbv iota.
    rewrite parseMembers_ws by (apply wsOnly_opening, Hi').
    cbn [app].
    rewrite (parseMembers_join (indent ++ gap) indent rest props Hi' Hi Hall Hok
                               kv fuel [] Hkv Hkvok)
      by (cbn [json_size map list_sum fold_right] in *; lia).
    rewrite (fold_setMember (kv :: props) []) by exact Hobj. reflexivity.
Qed.
End RoundTrip.

(** ** Enough fuel for the text of a value *)

Lemma join_size {A : Type} (sz : A -> nat) (pr : A -> jsstring)
      (sep : jsstring) (l : list A) :
  1 <= length sep ->
  Forall (fun a => sz a <= length (pr a)) l ->
  list_sum (map (fun a => S (sz a)) l) <= length (join sep (map pr l)) + 1.
Proof.
  intros Hsep H. induction H as [|a l Ha Hl IH]; [simpl; lia|].
  destruct l as [|b l].
  - cbn [map list_sum fold_right join]. lia.
  - change (map pr (a :: b :: l)) with (pr a :: pr b :: map pr l).
    rewrite join_cons, !length_app.
    change (pr b :: map pr l) with (map pr (b :: l)).
    change (list_sum (map (fun a => S (sz a)) (a :: b :: l)))
      with (S (sz a) + list_sum (map (fun a => S (sz a)) (b :: l))).
    lia.
Qed.

Lemma serialize_length (gap : jsstring) (v : json) :
  jsonOk v = true ->
  forall indent, json_size v <= length (serialize gap indent v).
Proof.
  induction v as [|b|n|s|items IH|props IH] using json_ind; intros Hok indent.
  - simpl; lia.
  - destruct b; simpl; lia.
  - cbn [jsonOk] in Hok. destruct (numberToJSON_head n Hok) as (c & t & E & _).
    cbn [serialize json_size]. rewrite E. simpl. lia.
  - cbn [serialize json_size]. unfold quoteJSONString. simpl. lia.
  - destruct items as [|x items]; [simpl; lia|].
    rewrite serialize_array. cbn [json_size length]. rewrite !length_app.
    cbn [jsonOk] in Hok.
    assert (H : Forall (fun a => json_size a <= length (serialize gap (indent ++ gap) a))
                       (x :: items)).
    { apply Forall_forall. intros a Ha. rewrite Forall_forall in IH.
      apply IH; [exact Ha|]. rewrite forallb_forall in Hok. apply Hok, Ha. }
    pose proof (join_size json_size (serialize gap (indent ++ gap))
                          (","%char :: opening gap (indent ++ gap)) (x :: items)
                          ltac:(simpl; lia) H) as Hj.
    cbn [length]. lia.
  - destruct props as [|kv props]; [simpl; lia|].
    rewrite serialize_object. cbn [json_size length]. rewrite !length_app.
    cbn [jsonOk] in Hok. apply andb_true_iff in Hok as [_ Hok].
    assert (H : Forall (fun a => json_size (snd a) <= length (member gap (indent ++ gap) a))
                       (kv :: props)).
    { apply Forall_forall. intros a Ha. rewrite Forall_forall in IH.
      unfold member. rewrite length_app. cbn [length]. rewrite length_app.
      specialize (IH a Ha). rewrite forallb_forall in Hok.
      specialize (IH (Hok a Ha) (indent ++ gap)). lia. }
    pose proof (join_size (fun a => json_size (snd a)) (member gap (indent ++ gap))
                          (","%char :: opening gap (indent ++ gap)) (kv :: props)
                          ltac:(simpl; lia) H) as Hj.
    cbn [length]. lia.
Qed.

Lemma wsOnly_spaces (k : nat) : wsOnly (repeat " "%char k) = true.
Proof. induction k as [|k IH]; [reflexivity | exact IH]. Qed.

(** [JSON.parse(JSON.stringify(v, null, space))] is [v]. *)
Lemma JSON_parse_stringify (v : json) (space : nat) :
  jsonOk v = true -> JSON_parse (JSON_stringify v space) = Ok v.
Proof.
  intros Hok. unfold JSON_parse, JSON_stringify.
  set (gap := repeat " "%char (Nat.min space 10)).
  pose proof (parseValue_serialize gap (wsOnly_spaces _) v Hok [] []
                (2 * length (serialize gap [] v) + 2) eq_refl eq_refl) as H.
  rewrite app_nil_r in H. rewrite H; [reflexivity|].
  pose proof (serialize_length gap v Hok []). lia.
Qed.

(** ** The JSON formatter *)

Lemma jsonOfComponent_eq (c : ParsedComponent) :
  jsonOfComponent c
  = JObj ([(str "type", JStr (pc_type c));
           (str "component", pc_component c);
           (str "props", JObj (pc_props c))]
          ++ match pc_children c with
             | Some l => [(str "children", JArr (map jsonOfChild l))]
             | None => []
             end).
Proof. destruct c as [t n p [l|]]; reflexivity. Qed.

Lemma jsonOk_component (c : ParsedComponent) :
  componentOk c = true -> jsonOk (jsonOfComponent c) = true.
Proof.
  induction c as [type component props|type component props children IH]
    using ParsedComponent_ind; rewrite jsonOfComponent_eq;
    cbn [componentOk pc_type pc_component pc_props pc_children app];
    rewrite !andb_true_iff; intros [[Hc Hp] Hch].
  - cbn [jsonOk forallb snd]. rewrite Hc. cbn [jsonOk] in Hp. rewrite Hp.
    reflexivity.
  - cbn [jsonOk forallb snd]. rewrite Hc. cbn [jsonOk] in Hp. rewrite Hp.
    assert (Hl : forallb jsonOk (map jsonOfChild children) = true).
    { clear Hc Hp. induction IH as [|ch l Hx _ IHl]; [reflexivity|].
      cbn [forallb map] in *. apply andb_true_iff in Hch as [H1 H2].
      rewrite (IHl H2), andb_true_r.
      destruct ch as [c'|s]; [apply Hx, H1 | reflexivity]. }
    rewrite Hl. reflexivity.
Qed.

Lemma jsonOk_components (components : list ParsedComponent) :
  forallb componentOk components = true ->
  jsonOk (jsonOfComponents components) = true.
Proof.
  intros H. cbn [jsonOfComponents jsonOk]. rewrite forallb_forall in *.
  intros v Hv. apply in_map_iff in Hv as (c & <- & Hc).
  apply jsonOk_component, H, Hc.
Qed.

Lemma componentOfJson_jsonOfComponent (c : ParsedComponent) :
  componentOfJson (jsonOfComponent c) = Some c.
Proof.
  induction c as [type component props|type component props children IH]
    using ParsedComponent_ind; [reflexivity|].
  cbn [jsonOfComponent app componentOfJson].
  change (str_eqb (str "type") (str "type")) with true.
  change (str_eqb (str "component") (str "component")) with true.
  change (str_eqb (str "props") (str "props")) with true.
  change (str_eqb (str "children") (str "children")) with true.
  cbn [andb].
  match goal with
  | |- option_map _ ?X = _ => assert (Hl : X = Some children)
  end.
  { induction IH as [|ch l Hx _ IHl]; [reflexivity|].
    cbn [map]. destruct ch as [c'|s].
    - rewrite IHl. 
      assert (Hc : componentOfJson (jsonOfComponent c') = Some c') by exact Hx.
      destruct (jsonOfComponent c') eqn:E; try discriminate Hc.
      rewrite Hc. reflexivity.
    - rewrite IHl. reflexivity. }
  rewrite Hl. reflexivity.
Qed.

Lemma componentsOfJson_jsonOfComponents (components : list ParsedComponent) :
  componentsOfJson (jsonOfComponents components) = Some components.
Proof.
  cbn [jsonOfComponents componentsOfJson].
  induction components as [|c l IH]; [reflexivity|].
  cbn [map componentsOfJsonList].
  rewrite componentOfJson_jsonOfComponent, IH. reflexivity.
Qed.

(** C8, as the code has it.  For a node sequence whose numbers are all
    finite and none of them negative zero, decoding the text of
    [formatAsReadableJson] gives the structure of the sequence itself,
    which reads back, field for field, as the sequence. *)
Theorem formatAsReadableJson_round_trip (components : list ParsedComponent) :
  forallb componentOk components = true ->
  JSON_parse (formatAsReadableJson components) = Ok (jsonOfComponents components)
  /\ componentsOfJson (jsonOfComponents components) = Some components.
Proof.
  intros H. split.
  - apply JSON_parse_stringify, jsonOk_components, H.
  - apply componentsOfJson_jsonOfComponents.
Qed.

Lemma formatAsReadableJson_round_trip_witness :
  JSON_parse
    (formatAsReadableJson
       [mkParsedComponent (str "component") (JStr (str "div"))
                          [(str "className", JStr (str "a"));
                           (str "tabIndex", JNum (Int (-1)));
                           (str "ratio", JNum (Dbl false 1 (-1)))]
                          (Some [inr (str "hi"); inl (textNode (str "x"))])])
  = Ok (jsonOfComponents
          [mkParsedComponent (str "component") (JStr (str "div"))
                             [(str "className", JStr (str "a"));
                              (str "tabIndex", JNum (Int (-1)));
                              (str "ratio", JNum (Dbl false 1 (-1)))]
                             (Some [inr (str "hi"); inl (textNode (str "x"))])]).
Proof.
  apply (proj1 (formatAsReadableJson_round_trip
                  [mkParsedComponent (str "component") (JStr (str "div"))
                                     [(str "className", JStr (str "a"));
                                      (str "tabIndex", JNum (Int (-1)));
                                      (str "ratio", JNum (Dbl false 1 (-1)))]
                                     (Some [inr (str "hi"); inl (textNode (str "x"))])]
                  eq_refl)).
Defined.

(** C8 as stated fails.  A number that is not finite is written as
    [null], and negative zero is written as [0], so the text of a node
    sequence holding one of them reads back as another sequence.  The
    parser produces such nodes: from a literal beyond the range of
    doubles, and from the literal [-0]. *)
Lemma formatAsReadableJson_loses_numbers :
  (option_map combinedComponents
              (parseDocumentContent
                 (qstr "self.__next_f.push([1,'a:[\'$\',\'div\',null,{\'x\':1e999}]'])"))
   = Some [infiniteNode]
   /\ JSON_parse (formatAsReadableJson [infiniteNode])
      = Ok (jsonOfComponents [nullNode])
   /\ componentsOfJson (jsonOfComponents [nullNode]) = Some [nullNode]
   /\ [nullNode] <> [infiniteNode])
  /\ (option_map combinedComponents
                 (parseDocumentContent
                    (qstr "self.__next_f.push([1,'a:[\'$\',\'div\',null,{\'x\':-0}]'])"))
      = Some [negativeZeroNode]
      /\ JSON_parse (formatAsReadableJson [negativeZeroNode])
         = Ok (jsonOfComponents [zeroNode])
      /\ componentsOfJson (jsonOfComponents [zeroNode]) = Some [zeroNode]
      /\ [zeroNode] <> [negativeZeroNode]).
Proof.
  split.
  - split; [vm_compute; reflexivity|].
    split; [vm_compute; reflexivity|].
    split; [vm_compute; reflexivity|].
    intros H. discriminate H.
  - split; [vm_compute; reflexivity|].
    split; [vm_compute; reflexivity|].
    split; [vm_compute; reflexivity|].
    intros H. discriminate H.
Qed.

(* ================================================================= *)
(** * Further properties of the code *)

(** ** The Tree Builder: the two traversals and the shape of the nodes *)

Lemma structure_single_other (v : json) :
  isStructural v = false -> parseComponentStructure (JArr [v]) = [].
Proof.
  intros H. rewrite parseComponentStructure_eq.
  destruct v; try discriminate; reflexivity.
Qed.

Lemma structureItem_childItem (item : json) :
  (forall a, item = JArr a ->
             parseComponentStructure item = map nodeOfChild (parseChildren item)) ->
  structureItem item = map nodeOfChild (childItem item).
Proof.
  intros IH. destruct item; cbn [structureItem childItem];
    try (rewrite structure_single_other by reflexivity; reflexivity).
  - reflexivity.
  - destruct (parseComponent items); [reflexivity|]. apply (IH items eq_refl).
Qed.

Lemma map_flat_map {A B C : Type} (f : B -> C) (g : A -> list B) (l : list A) :
  map f (flat_map g l) = flat_map (fun x => map f (g x)) l.
Proof.
  induction l as [|x l IH]; simpl; [reflexivity|].
  rewrite map_app, IH. reflexivity.
Qed.

(** X1.  The two traversals of the Tree Builder agree: for every value,
    the nodes that [parseComponentStructure] returns are the children
    that [parseChildren] returns for it, each string child turned into
    the Text node of that string. *)
Theorem parseComponentStructure_of_children (data : json) :
  parseComponentStructure data = map nodeOfChild (parseChildren data).
Proof.
  induction data as [| | | |items IH|] using json_ind;
    rewrite parseComponentStructure_eq, parseChildren_eq; try reflexivity.
  destruct (headIsDollar items).
  - destruct (parseComponent items); reflexivity.
  - rewrite map_flat_map. apply flat_map_ext_In. intros x Hx.
    apply structureItem_childItem. intros a ->.
    rewrite Forall_forall in IH. apply (IH _ Hx).
Qed.

Lemma structureItem_other (v : json) :
  isStructural v = false -> structureItem v = [].
Proof. destruct v; try discriminate; reflexivity. Qed.

Lemma childItem_other (v : json) :
  isStructural v = false -> childItem v = [].
Proof.
  intros H. destruct v; try discriminate; cbn [childItem];
    rewrite structure_single_other by reflexivity; reflexivity.
Qed.

Lemma headIsDollar_app (xs ys : list json) :
  xs <> [] -> headIsDollar (xs ++ ys) = headIsDollar xs.
Proof. destruct xs; [congruence|reflexivity]. Qed.

(** X2.  In a sequence whose first element is not the marker, an
    element behind the first that is a number, a boolean, [null] or an
    object adds nothing: with it and without it [parseComponentStructure]
    returns the same nodes and [parseChildren] the same children. *)
Theorem non_structural_item_ignored (xs ys : list json) (v : json) :
  xs <> [] ->
  headIsDollar xs = false ->
  isStructural v = false ->
  parseComponentStructure (JArr (xs ++ v :: ys))
  = parseComponentStructure (JArr (xs ++ ys))
  /\ parseChildren (JArr (xs ++ v :: ys)) = parseChildren (JArr (xs ++ ys)).
Proof.
  intros Hxs Hhead Hv.
  rewrite !parseComponentStructure_eq, !parseChildren_eq.
  rewrite !headIsDollar_app, Hhead by exact Hxs.
  rewrite !flat_map_app. cbn [flat_map].
  rewrite structureItem_other, childItem_other by exact Hv.
  split; reflexivity.
Qed.

Lemma non_structural_item_ignored_witness :
  parseComponentStructure
    (JArr ([JStr (str "a")] ++ JNum (Int 7) :: [JArr [JStr (str "b")]]))
  = parseComponentStructure (JArr ([JStr (str "a")] ++ [JArr [JStr (str "b")]]))
  /\ parseChildren
       (JArr ([JStr (str "a")] ++ JNum (Int 7) :: [JArr [JStr (str "b")]]))
     = parseChildren (JArr ([JStr (str "a")] ++ [JArr [JStr (str "b")]])).
Proof.
  apply (non_structural_item_ignored [JStr (str "a")] [JArr [JStr (str "b")]]
                                     (JNum (Int 7)));
    [discriminate | reflexivity | reflexivity].
Defined.

(** X3.  [parseComponent] returns [null] exactly for an array of fewer
    than three elements or one that does not start with the marker.  An
    array that starts with the marker and has fewer than three elements
    gives no node and no child at all, as the whole value and as an
    element of a sequence: its strings are not read as text. *)

Lemma parseComponent_none_iff (componentArray : list json) :
  parseComponent componentArray = None
  <-> length componentArray < 3 \/ headIsDollar componentArray = false.
Proof.
  rewrite parseComponent_eq.
  destruct (length componentArray <? 3) eqn:E; cbn [orb].
  - apply Nat.ltb_lt in E. tauto.
  - apply Nat.ltb_ge in E.
    destruct (headIsDollar componentArray); cbn [negb].
    + split.
      * destruct (getChildren _) as [ch|]; [destruct (truthy ch)|]; discriminate.
      * intros [H|H]; [lia|discriminate].
    + tauto.
Qed.

Theorem short_descriptor_dropped (componentArray : list json) :
  (parseComponent componentArray = None
   <-> length componentArray < 3 \/ headIsDollar componentArray = false)
  /\ (headIsDollar componentArray = true ->
      length componentArray < 3 ->
      parseComponentStructure (JArr componentArray) = []
      /\ parseChildren (JArr componentArray) = []
      /\ structureItem (JArr componentArray) = []
      /\ childItem (JArr componentArray) = []).
Proof.
  split; [apply parseComponent_none_iff|].
  intros Hd Hl.
  assert (Hn : parseComponent componentArray = None)
    by (apply parseComponent_none_iff; left; exact Hl).
  assert (Hs : parseComponentStructure (JArr componentArray) = [])
    by (rewrite parseComponentStructure_eq, Hd, Hn; reflexivity).
  assert (Hc : parseChildren (JArr componentArray) = [])
    by (rewrite parseChildren_eq, Hd, Hn; reflexivity).
  cbn [structureItem childItem]. rewrite Hn. auto.
Qed.

(** X4.  Every node the Tree Builder returns, at any depth, has the
    shape [nodeShape]: a Text node has the type and the component [text],
    the single property [content] with a string, and no children; an
    Element has the type [component], no [children] property when it has
    a child sequence, and an absent or falsy one when it has none. *)
Lemma natToString_head (i : nat) :
  exists c ds, natToString i = c :: ds /\ isDigit c = true.
Proof.
  unfold natToString.
  destruct (NToString_spec (N.of_nat i)) as (c & ds & -> & Hd & _).
  exists c, ds. split; [reflexivity|].
  cbn [forallb] in Hd. apply andb_true_iff in Hd. tauto.
Qed.

Lemma obj_get_indexedFrom {A : Type} (f : A -> json) (l : list A) :
  forall i, obj_get (str "children") (indexedFrom f i l) = None.
Proof.
  induction l as [|x l IH]; intros i; cbn [indexedFrom obj_get]; [reflexivity|].
  destruct (natToString_head i) as (c & ds & -> & Hc).
  replace (str_eqb (str "children") (c :: ds)) with false; [apply IH|].
  symmetry. change (str "children") with ("c"%char :: str "hildren").
  cbn [str_eqb]. destruct (ch_eqb "c" c) eqn:E; [|reflexivity].
  apply ch_eqb_eq in E. subst c. discriminate Hc.
Qed.

Lemma obj_get_spread (props : json) :
  obj_get (str "children") (spread props) = getChildren props.
Proof.
  destruct props; try reflexivity; apply obj_get_indexedFrom.
Qed.

Lemma nodeShape_textNode (s : jsstring) : nodeShape (textNode s) = true.
Proof. reflexivity. Qed.

Lemma forallb_flat_map {A B : Type} (p : B -> bool) (g : A -> list B) (l : list A) :
  (forall x, In x l -> forallb p (g x) = true) ->
  forallb p (flat_map g l) = true.
Proof.
  induction l as [|x l IH]; intros H; simpl; [reflexivity|].
  rewrite forallb_app, (H x) by (simpl; auto).
  apply IH. intros y Hy. apply H. simpl; auto.
Qed.

Lemma forallb_map_inl (l : list ParsedComponent) :
  forallb childShape (map inl l) = forallb nodeShape l.
Proof. induction l as [|x l IH]; simpl; [|rewrite IH]; reflexivity. Qed.

Lemma built_shaped (fuel : nat) : shapedAt fuel.
Proof.
  induction fuel as [|n (IHS & IHC & IHH)].
  - repeat split; try reflexivity. intros ? ? [=].
  - repeat split.
    + intros data. cbn [parseComponentStructureFuel].
      destruct data; try reflexivity.
      destruct (headIsDollar items).
      * destruct (parseComponentFuel n items) as [c|] eqn:E; [|reflexivity].
        cbn [forallb]. rewrite (IHC _ _ E). reflexivity.
      * apply forallb_flat_map. intros x _.
        destruct x; try reflexivity.
        destruct (parseComponentFuel n items0) as [c|] eqn:E; [|apply IHS].
        cbn [forallb]. rewrite (IHC _ _ E). reflexivity.
    + intros componentArray c. cbn [parseComponentFuel].
      destruct ((length componentArray <? 3) || negb (headIsDollar componentArray));
        [discriminate|].
      cbv zeta.
      destruct (getChildren (propsOf componentArray)) as [ch|] eqn:E.
      * destruct (truthy ch) eqn:T; intros [= <-].
        -- cbn [nodeShape]. 
           change (str_eqb (str "component") (str "text")) with false. cbv iota.
           change (str_eqb (str "component") (str "component")) with true.
           unfold obj_has. rewrite obj_get_delete. cbn [negb andb].
           apply (IHH ch).
        -- cbn [nodeShape].
           change (str_eqb (str "component") (str "text")) with false. cbv iota.
           change (str_eqb (str "component") (str "component")) with true.
           rewrite obj_get_spread, E, T. reflexivity.
      * intros [= <-]. cbn [nodeShape].
        change (str_eqb (str "component") (str "text")) with false. cbv iota.
        change (str_eqb (str "component") (str "component")) with true.
        rewrite obj_get_spread, E. reflexivity.
    + intros children. cbn [parseChildrenFuel].
      destruct children; try reflexivity.
      destruct (headIsDollar items).
      * destruct (parseComponentFuel n items) as [c|] eqn:E; [|reflexivity].
        cbn [forallb childShape]. rewrite (IHC _ _ E). reflexivity.
      * apply forallb_flat_map. intros x _.
        destruct x; try reflexivity; try (rewrite forallb_map_inl; apply IHS).
        destruct (parseComponentFuel n items0) as [c|] eqn:E; [|apply IHH].
        cbn [forallb childShape]. rewrite (IHC _ _ E). reflexivity.
Qed.

Theorem built_nodes_shape (data : json) :
  forallb nodeShape (parseComponentStructure data) = true
  /\ forallb childShape (parseChildren data) = true
  /\ (forall componentArray c,
         parseComponent componentArray = Some c -> nodeShape c = true).
Proof.
  split; [apply (proj1 (built_shaped _))|].
  split; [apply (proj2 (proj2 (built_shaped _)))|].
  intros componentArray c. apply (proj1 (proj2 (built_shaped _))).
Qed.

(** ** The Bracket Matcher on the text of JSON values *)

Lemma passedOver_nil : passedOver [].
Proof. intros rest i depth _. cbn [app length]. rewrite Nat.add_0_r. reflexivity. Qed.

Lemma passedOver_app (s t : jsstring) :
  passedOver s -> passedOver t -> passedOver (s ++ t).
Proof.
  intros Hs Ht rest i depth Hd. rewrite <- app_assoc, Hs, Ht by exact Hd.
  rewrite length_app. f_equal. lia.
Qed.

Lemma passedOver_unit (c : ascii) : plainUnit c = true -> passedOver [c].
Proof.
  unfold plainUnit. intros H rest i depth _.
  apply andb_true_iff in H as [H H3]. apply andb_true_iff in H as [H1 H2].
  apply negb_true_iff in H1, H2, H3.
  cbn [app kinds kindOf literalStep length]. rewrite H1, H2, H3.
  cbn [firstReturnToZero]. f_equal. lia.
Qed.

Lemma passedOver_plain (s : jsstring) : forallb plainUnit s = true -> passedOver s.
Proof.
  induction s as [|c s IH]; intros H; [apply passedOver_nil|].
  cbn [forallb] in H. apply andb_true_iff in H as [Hc Hs].
  change (c :: s) with ([c] ++ s).
  apply passedOver_app; [apply passedOver_unit, Hc | apply IH, Hs].
Qed.

Lemma passedOver_bracketed (body : jsstring) :
  passedOver body -> passedOver ("["%char :: body ++ ["]"%char]).
Proof.
  intros Hb rest i depth Hd.
  cbn [app kinds kindOf literalStep]. 
  change (isQuote "[") with false. change (ch_eqb "[" "[") with true. cbv iota.
  cbn [firstReturnToZero]. rewrite <- app_assoc. cbn [app].
  rewrite Hb by lia.
  cbn [kinds kindOf literalStep].
  change (isQuote "]") with false. change (ch_eqb "]" "[") with false.
  change (ch_eqb "]" "]") with true. cbv iota. cbn [firstReturnToZero].
  replace (depth + 1 - 1 =? 0)%Z with false by (symmetry; apply Z.eqb_neq; lia).
  replace (depth + 1 - 1)%Z with depth by lia.
  f_equal. cbn [length]. rewrite length_app. cbn [length]. lia.
Qed.

Lemma quoteChar_stays (c : ascii) (rest : jsstring) :
  staysInLiteral (InLiteral dquote) (quoteChar c ++ rest)
  = staysInLiteral (InLiteral dquote) rest.
Proof.
  destruct c as [[] [] [] [] [] [] [] []]; reflexivity.
Qed.

Lemma quoted_literalBody (s : jsstring) :
  literalBody dquote (flat_map quoteChar s) = true.
Proof.
  unfold literalBody. induction s as [|c s IH]; [reflexivity|].
  cbn [flat_map]. rewrite quoteChar_stays. exact IH.
Qed.

Lemma passedOver_quoted (s : jsstring) : passedOver (quoteJSONString s).
Proof.
  intros rest i depth _. rewrite quoteJSONString_eq.
  rewrite kinds_literal by (reflexivity || apply quoted_literalBody).
  rewrite firstReturnToZero_plain. f_equal.
  unfold quoteJSONString. cbn [length]. rewrite length_app. cbn [length]. lia.
Qed.

Lemma numberChar_plain (c : ascii) : numberChar c = true -> plainUnit c = true.
Proof.
  destruct c as [[] [] [] [] [] [] [] []]; intros H; try reflexivity; discriminate H.
Qed.

Lemma isDigit_numberChar (c : ascii) : isDigit c = true -> numberChar c = true.
Proof. unfold numberChar. intros ->. reflexivity. Qed.

Lemma forallb_impl {A : Type} (p q : A -> bool) (l : list A) :
  (forall x, p x = true -> q x = true) ->
  forallb p l = true -> forallb q l = true.
Proof.
  intros H. induction l as [|x l IH]; [reflexivity|]. cbn [forallb].
  intros E. apply andb_true_iff in E as [E1 E2].
  rewrite (H _ E1), (IH E2). reflexivity.
Qed.

Lemma spanDigits_split (s : jsstring) :
  s = fst (spanDigits s) ++ snd (spanDigits s)
  /\ forallb isDigit (fst (spanDigits s)) = true.
Proof.
  induction s as [|c s [IH1 IH2]]; [split; reflexivity|].
  cbn [spanDigits]. destruct (isDigit c) eqn:E; [|split; reflexivity].
  destruct (spanDigits s) as [ds r]. cbn [fst snd] in *.
  split; [cbn [app]; f_equal; exact IH1|].
  cbn [forallb]. rewrite E, IH2. reflexivity.
Qed.

Lemma scanInt_split (s int r : jsstring) :
  scanInt s = Some (int, r) -> s = int ++ r /\ forallb numberChar int = true.
Proof.
  destruct s as [|c s]; [discriminate|]. cbn [scanInt].
  destruct (ch_eqb c "0"%char) eqn:E0.
  - intros [= <- <-]. apply ch_eqb_eq in E0. subst c. split; reflexivity.
  - destruct (isDigit c) eqn:E; [|discriminate].
    destruct (spanDigits_split (c :: s)) as [H1 H2].
    destruct (spanDigits (c :: s)) as [ds r']. cbn [fst snd] in *.
    intros [= <- <-]. split; [exact H1|].
    revert H2. apply forallb_impl, isDigit_numberChar.
Qed.

Lemma scanFrac_split (s frac r : jsstring) :
  scanFrac s = Some (frac, r) ->
  exists p, s = p ++ r /\ forallb numberChar p = true.
Proof.
  destruct s as [|c s]; [intros [= _ <-]; exists []; split; reflexivity|].
  cbn [scanFrac]. destruct (ch_eqb c "."%char) eqn:E.
  - apply ch_eqb_eq in E. subst c.
    destruct (spanDigits_split s) as [H1 H2].
    destruct (spanDigits s) as [[|d ds] r']; [discriminate|].
    cbn [fst snd] in *. intros [= _ <-]. exists ("."%char :: d :: ds).
    split; [cbn [app]; f_equal; exact H1|].
    cbn [forallb] in *. apply andb_true_iff in H2 as [Hd Hds].
    rewrite (isDigit_numberChar _ Hd).
    rewrite (forallb_impl _ _ _ isDigit_numberChar Hds). reflexivity.
  - intros [= _ <-]. exists []. split; reflexivity.
Qed.

Lemma scanExp_split (s eds r : jsstring) (eneg : bool) :
  scanExp s = Some (eneg, eds, r) ->
  exists p, s = p ++ r /\ forallb numberChar p = true.
Proof.
  destruct s as [|c s]; [intros [= _ _ <-]; exists []; split; reflexivity|].
  cbn [scanExp].
  destruct (ch_eqb c "e"%char || ch_eqb c "E"%char) eqn:E;
    [|intros [= _ _ <-]; exists []; split; reflexivity].
  assert (Hc : numberChar c = true).
  { unfold numberChar. apply orb_true_iff in E as [-> | ->];
      rewrite ?orb_true_r; reflexivity. }
  assert (Hgo : forall t neg pre,
             s = pre ++ t -> forallb numberChar pre = true ->
             match spanDigits t with
             | ([], _) => None
             | (ds, r0) => Some (neg, ds, r0)
             end = Some (eneg, eds, r) ->
             exists p, c :: s = p ++ r /\ forallb numberChar p = true).
  { intros t neg pre -> Hpre.
    destruct (spanDigits_split t) as [H1 H2].
    destruct (spanDigits t) as [[|d ds] r']; [discriminate|].
    cbn [fst snd] in *. intros [= _ _ <-].
    exists (c :: pre ++ d :: ds). split.
    - cbn [app]. f_equal. rewrite <- app_assoc. f_equal. exact H1.
    - cbn [forallb]. rewrite Hc, forallb_app, Hpre.
      apply (forallb_impl _ _ _ isDigit_numberChar H2). }
  destruct s as [|d s]; [apply (Hgo [] false []); reflexivity|].
  destruct (ch_eqb d "+"%char) eqn:Ep.
  { apply ch_eqb_eq in Ep. subst d. apply (Hgo s false ["+"%char]); reflexivity. }
  destruct (ch_eqb d "-"%char) eqn:Em.
  { apply ch_eqb_eq in Em. subst d. apply (Hgo s true ["-"%char]); reflexivity. }
  apply (Hgo (d :: s) false []); reflexivity.
Qed.

Lemma parseNumber_split (s r : jsstring) (n : number) :
  parseNumber s = POk n r ->
  exists p, s = p ++ r /\ forallb numberChar p = true.
Proof.
  unfold parseNumber.
  assert (Hbody : forall neg s1 pre,
             s = pre ++ s1 -> forallb numberChar pre = true ->
             match scanInt s1 with
             | None => PErr unexpectedToken
             | Some (int, s2) =>
                 match scanFrac s2 with
                 | None => PErr unexpectedToken
                 | Some (frac, s3) =>
                     match scanExp s3 with
                     | None => PErr unexpectedToken
                     | Some (eneg, eds, s4) =>
                         let m := digitsValue (int ++ frac) in
                         let x := digitsValue eds in
                         let e := ((if eneg then - x else x) - Z.of_nat (length frac))%Z in
                         POk (numberOfLiteral neg m e) s4
                     end
                 end
             end = POk n r ->
             exists p, s = p ++ r /\ forallb numberChar p = true).
  { intros neg s1 pre -> Hpre.
    destruct (scanInt s1) as [[int s2]|] eqn:E1; [|discriminate].
    apply scanInt_split in E1 as [-> H1].
    destruct (scanFrac s2) as [[frac s3]|] eqn:E2; [|discriminate].
    apply scanFrac_split in E2 as (p2 & -> & H2).
    destruct (scanExp s3) as [[[eneg eds] s4]|] eqn:E3; [|discriminate].
    apply scanExp_split in E3 as (p3 & -> & H3).
    cbv zeta. intros HH. injection HH as _ Hr. subst r.
    exists (pre ++ int ++ p2 ++ p3). split.
    - rewrite <- !app_assoc. reflexivity.
    - rewrite !forallb_app, Hpre, H1, H2, H3. reflexivity. }
  destruct s as [|c s]; [apply (Hbody false [] []); reflexivity|].
  destruct (ch_eqb c "-"%char) eqn:E.
  - apply ch_eqb_eq in E. subst c. apply (Hbody true s ["-"%char]); reflexivity.
  - apply (Hbody false (c :: s) []); reflexivity.
Qed.

Lemma numberToJSON_plain (n : number) :
  numberOk n = true -> forallb plainUnit (numberToJSON n) = true.
Proof.
  intros H. pose proof (parseNumber_numberToJSON n [] H eq_refl) as Hp.
  rewrite app_nil_r in Hp. apply parseNumber_split in Hp as (p & Hp & Hc).
  rewrite app_nil_r in Hp. rewrite Hp.
  revert Hc. apply forallb_impl, numberChar_plain.
Qed.

Lemma isJsonWs_plain (c : ascii) : isJsonWs c = true -> plainUnit c = true.
Proof.
  destruct c as [[] [] [] [] [] [] [] []]; intros H; try reflexivity; discriminate H.
Qed.

Lemma passedOver_ws (s : jsstring) : wsOnly s = true -> passedOver s.
Proof.
  intros H. apply passedOver_plain. revert H. apply forallb_impl, isJsonWs_plain.
Qed.

Lemma passedOver_join {A : Type} (pr : A -> jsstring) (sep : jsstring) (l : list A) :
  passedOver sep -> Forall (fun a => passedOver (pr a)) l ->
  passedOver (join sep (map pr l)).
Proof.
  intros Hsep H. induction H as [|x l Hx Hl IH]; [apply passedOver_nil|].
  destruct l as [|y l]; [exact Hx|].
  cbn [map]. rewrite join_cons.
  apply passedOver_app; [exact Hx|]. apply passedOver_app; [exact Hsep|exact IH].
Qed.

Section ScanJson.
Variable gap : jsstring.
Hypothesis Hgap : wsOnly gap = true.

Lemma passedOver_opening (indent : jsstring) :
  wsOnly indent = true -> passedOver (opening gap indent).
Proof. intros H. apply passedOver_ws, wsOnly_opening, H. Qed.

Lemma passedOver_separator (indent : jsstring) :
  wsOnly indent = true -> passedOver (","%char :: opening gap indent).
Proof.
  intros H. change (","%char :: opening gap indent) with ([","%char] ++ opening gap indent).
  apply passedOver_app; [apply passedOver_unit; reflexivity|].
  apply passedOver_opening, H.
Qed.

(** The inside of the text of an array, between its brackets. *)
Lemma array_inside (indent : jsstring) (items : list json) :
  wsOnly indent = true ->
  Forall (fun v => jsonOk v = true ->
                   forall indent, wsOnly indent = true ->
                                  passedOver (serialize gap indent v)) items ->
  forallb jsonOk items = true ->
  exists body,
    serialize gap indent (JArr items) = "["%char :: body ++ ["]"%char]
    /\ passedOver body.
Proof.
  intros Hi IH Hok. destruct items as [|x items].
  - exists []. split; [reflexivity|apply passedOver_nil].
  - assert (Hi' : wsOnly (indent ++ gap) = true)
      by (rewrite wsOnly_app, Hi, Hgap; reflexivity).
    rewrite serialize_array.
    exists (opening gap (indent ++ gap)
              ++ join (","%char :: opening gap (indent ++ gap))
                      (map (serialize gap (indent ++ gap)) (x :: items))
              ++ opening gap indent).
    split; [rewrite <- !app_assoc; reflexivity|].
    apply passedOver_app; [apply passedOver_opening, Hi'|].
    apply passedOver_app; [|apply passedOver_opening, Hi].
    apply passedOver_join; [apply passedOver_separator, Hi'|].
    rewrite Forall_forall in IH |- *. intros v Hv.
    apply IH; [exact Hv| |exact Hi'].
    rewrite forallb_forall in Hok. apply Hok, Hv.
Qed.

Lemma passedOver_serialize (v : json) :
  jsonOk v = true ->
  forall indent, wsOnly indent = true -> passedOver (serialize gap indent v).
Proof.
  induction v as [|b|n|s|items IH|props IH] using json_ind; intros Hok indent Hi.
  - apply passedOver_plain. reflexivity.
  - destruct b; apply passedOver_plain; reflexivity.
  - apply passedOver_plain, numberToJSON_plain, Hok.
  - apply passedOver_quoted.
  - destruct (array_inside indent items Hi IH Hok) as (body & -> & Hb).
    apply passedOver_bracketed, Hb.
  - cbn [jsonOk] in Hok. apply andb_true_iff in Hok as [_ Hok].
    destruct props as [|kv props].
    + apply passedOver_plain. reflexivity.
    + assert (Hi' : wsOnly (indent ++ gap) = true)
        by (rewrite wsOnly_app, Hi, Hgap; reflexivity).
      rewrite serialize_object.
      change ("{"%char :: ?x) with (["{"%char] ++ x).
      apply passedOver_app; [apply passedOver_unit; reflexivity|].
      apply passedOver_app; [apply passedOver_opening, Hi'|].
      apply passedOver_app;
        [|apply passedOver_app;
          [apply passedOver_opening, Hi | apply passedOver_unit; reflexivity]].
      apply passedOver_join; [apply passedOver_separator, Hi'|].
      rewrite Forall_forall in IH |- *. intros [k v] Hv.
      unfold member. cbn [fst snd].
      apply passedOver_app; [apply passedOver_quoted|].
      change (":"%char :: ?x) with ([":"%char] ++ x).
      apply passedOver_app; [apply passedOver_unit; reflexivity|].
      apply passedOver_app; [apply passedOver_ws, wsOnly_colonSpace|].
      apply (IH (k, v) Hv); [|exact Hi'].
      rewrite forallb_forall in Hok. apply (Hok (k, v) Hv).
Qed.

End ScanJson.

(** The text of an array: its brackets and what is between them. *)
Lemma stringify_array (items : list json) (space : nat) :
  jsonOk (JArr items) = true ->
  exists body,
    JSON_stringify (JArr items) space = "["%char :: body ++ ["]"%char]
    /\ passedOver body.
Proof.
  intros Hok. unfold JSON_stringify.
  apply array_inside; [apply wsOnly_spaces|reflexivity| |exact Hok].
  rewrite Forall_forall. intros v _ Hv indent Hi.
  apply passedOver_serialize; [apply wsOnly_spaces|exact Hv|exact Hi].
Qed.

Lemma findMatchingBracket_bracketed (pre body post : jsstring) :
  passedOver body ->
  findMatchingBracket (pre ++ "["%char :: body ++ "]"%char :: post) (length pre)
  = Some (length pre + length body + 1).
Proof.
  intros Hb. rewrite findMatchingBracket_kinds.
  rewrite <- (Nat.add_0_r (length pre)) at 1. rewrite skipn_app_ge. cbn [skipn].
  cbn [kinds kindOf literalStep].
  change (isQuote "[") with false. change (ch_eqb "[" "[") with true. cbv iota.
  cbn [firstReturnToZero]. rewrite Hb by lia.
  cbn [kinds kindOf literalStep].
  change (isQuote "]") with false. change (ch_eqb "]" "[") with false.
  change (ch_eqb "]" "]") with true. cbv iota. cbn [firstReturnToZero Z.add Z.sub Z.eqb Z.opp Z.pos_sub].
  f_equal. lia.
Qed.

(** X6.  On the text that [JSON.stringify] writes for an array, with any
    indentation and wherever the text stands, the Bracket Matcher started
    at the opening bracket returns the index of the last code unit of
    the text: the brackets inside the strings of the array, and those of
    the arrays nested in it, do not end the scan early. *)
Theorem findMatchingBracket_json_array
        (pre post : jsstring) (items : list json) (space : nat) :
  jsonOk (JArr items) = true ->
  findMatchingBracket (pre ++ JSON_stringify (JArr items) space ++ post) (length pre)
  = Some (length pre + length (JSON_stringify (JArr items) space) - 1).
Proof.
  intros Hok. destruct (stringify_array items space Hok) as (body & -> & Hb).
  cbn [app]. rewrite <- app_assoc. cbn [app].
  rewrite findMatchingBracket_bracketed by exact Hb.
  f_equal. cbn [length]. rewrite length_app. cbn [length]. lia.
Qed.

Lemma findMatchingBracket_json_array_witness :
  findMatchingBracket
    (pushToken
       ++ JSON_stringify (JArr [JNum (Int 1); JStr (str "a]b"); JArr [JNull]]) 0
       ++ str ")")
    (length pushToken)
  = Some (length pushToken
          + length (JSON_stringify (JArr [JNum (Int 1); JStr (str "a]b"); JArr [JNull]]) 0)
          - 1).
Proof.
  apply (findMatchingBracket_json_array
           pushToken (str ")") [JNum (Int 1); JStr (str "a]b"); JArr [JNull]] 0).
  reflexivity.
Defined.

(** ** The Call Extractor on a call written by [JSON.stringify] *)

Lemma leadingWhitespace_all (ws x : jsstring) (c : ascii) :
  forallb isWhitespace ws = true -> isWhitespace c = false ->
  leadingWhitespace (ws ++ c :: x) = length ws.
Proof.
  intros Hws Hc. induction ws as [|d ws IH]; cbn [app leadingWhitespace length].
  - rewrite Hc. reflexivity.
  - cbn [forallb] in Hws. apply andb_true_iff in Hws as [-> Hws].
    rewrite IH by exact Hws. reflexivity.
Qed.

Lemma skipWhitespace_all (a ws x : jsstring) (c : ascii) :
  forallb isWhitespace ws = true -> isWhitespace c = false ->
  skipWhitespace (a ++ ws ++ c :: x) (length a) = length a + length ws.
Proof.
  intros Hws Hc. unfold skipWhitespace.
  pose proof (skipn_app_ge 0 a (ws ++ c :: x)) as E.
  rewrite Nat.add_0_r in E. cbn [skipn] in E. rewrite E.
  rewrite leadingWhitespace_all by assumption. reflexivity.
Qed.

Lemma charIs_at (a x : jsstring) (c d : ascii) :
  charIs (a ++ c :: x) (length a) d = ch_eqb c d.
Proof.
  unfold charIs, charAt. rewrite nth_error_app2 by lia.
  rewrite Nat.sub_diag. reflexivity.
Qed.

(** One pass of the loop body over a call that starts the text. *)
Lemma tryPushCall_call (ws1 body ws2 post : jsstring) :
  forallb isWhitespace ws1 = true ->
  forallb isWhitespace ws2 = true ->
  passedOver body ->
  let call := callText ws1 ("["%char :: body ++ ["]"%char]) ws2 in
  tryPushCall (call ++ post) 0
  = Accepted (length call + if startsWith [";"%char] post then 1 else 0).
Proof.
  intros H1 H2 Hb call.
  set (a1 := pushToken ++ ws1).
  set (a2 := a1 ++ "["%char :: body ++ ["]"%char]).
  set (a3 := a2 ++ ws2).
  assert (E1 : call ++ post
               = pushToken ++ ws1 ++ "["%char :: (body ++ "]"%char :: ws2 ++ ")"%char :: post)).
  { unfold call, callText. rewrite <- !app_assoc. cbn [app].
    rewrite <- !app_assoc. reflexivity. }
  assert (E2 : call ++ post = a1 ++ "["%char :: body ++ "]"%char :: (ws2 ++ ")"%char :: post)).
  { rewrite E1. unfold a1. rewrite <- !app_assoc. reflexivity. }
  assert (E3 : call ++ post = a2 ++ ws2 ++ ")"%char :: post).
  { rewrite E2. unfold a2. rewrite <- !app_assoc. cbn [app].
    rewrite <- !app_assoc. reflexivity. }
  assert (E4 : call ++ post = a3 ++ ")"%char :: post).
  { rewrite E3. unfold a3. rewrite <- !app_assoc. reflexivity. }
  assert (L1 : length a1 = 19 + length ws1)
    by (unfold a1; rewrite length_app, pushToken_length; reflexivity).
  assert (L2 : length a2 = length a1 + length body + 2)
    by (unfold a2; rewrite length_app; cbn [length]; rewrite length_app;
        cbn [length]; lia).
  assert (L3 : length a3 = length a2 + length ws2)
    by (unfold a3; rewrite length_app; reflexivity).
  assert (Lc : length call = length a3 + 1).
  { assert (Hc : call = a3 ++ [")"%char]).
    { apply (app_inv_tail post). rewrite E4, <- app_assoc. reflexivity. }
    rewrite Hc, length_app. reflexivity. }
  assert (Ll : length (call ++ post) = length call + length post)
    by apply length_app.
  unfold tryPushCall. cbn [Nat.add]. rewrite pushToken_length.
  assert (C1 : skipWhitespace (call ++ post) 19 = length a1).
  { rewrite E1, <- pushToken_length, skipWhitespace_all by (assumption || reflexivity).
    unfold a1. rewrite length_app. reflexivity. }
  rewrite C1.
  replace (length (call ++ post) <=? length a1) with false
    by (symmetry; apply Nat.leb_gt; lia).
  assert (C2 : charIs (call ++ post) (length a1) "["%char = true)
    by (rewrite E2, charIs_at; reflexivity).
  rewrite C2. cbn [negb orb].
  assert (C3 : findMatchingBracket (call ++ post) (length a1)
               = Some (length a1 + length body + 1))
    by (rewrite E2; apply findMatchingBracket_bracketed, Hb).
  rewrite C3.
  assert (C4 : skipWhitespace (call ++ post) (length a1 + length body + 1 + 1)
               = length a3).
  { replace (length a1 + length body + 1 + 1) with (length a2) by lia.
    rewrite E3, skipWhitespace_all by (assumption || reflexivity). lia. }
  rewrite C4.
  replace (length (call ++ post) <=? length a3) with false
    by (symmetry; apply Nat.leb_gt; lia).
  assert (C5 : charIs (call ++ post) (length a3) ")"%char = true)
    by (rewrite E4, charIs_at; reflexivity).
  rewrite C5. cbn [negb orb].
  replace (length a3 + 1) with (length call) by lia.
  destruct post as [|c post].
  - replace (length call <? length (call ++ [])) with false
      by (symmetry; apply Nat.ltb_ge; rewrite Ll; cbn [length]; lia).
    cbn [andb startsWith]. f_equal. lia.
  - replace (length call <? length (call ++ c :: post)) with true
      by (symmetry; apply Nat.ltb_lt; rewrite Ll; cbn [length]; lia).
    rewrite charIs_at. cbn [andb startsWith].
    assert (Es : ch_eqb ";"%char c = ch_eqb c ";"%char) by apply Ascii.eqb_sym.
    rewrite Es, andb_true_r.
    destruct (ch_eqb c ";"%char); f_equal; lia.
Qed.

Lemma trimStart_head (c : ascii) (s : jsstring) :
  isWhitespace c = false -> trimStart (c :: s) = c :: s.
Proof. intros H. cbn [trimStart]. rewrite H. reflexivity. Qed.

Lemma trim_id (c d : ascii) (m : jsstring) :
  isWhitespace c = false -> isWhitespace d = false ->
  trim (c :: m ++ [d]) = c :: m ++ [d].
Proof.
  intros Hc Hd. unfold trim, trimEnd. rewrite trimStart_head by exact Hc.
  change (c :: m ++ [d]) with ((c :: m) ++ [d]).
  rewrite rev_app_distr. cbn [rev app]. rewrite trimStart_head by exact Hd.
  change (d :: rev m ++ [c]) with ([d] ++ rev (c :: m)).
  rewrite rev_app_distr, rev_involutive. reflexivity.
Qed.

Lemma callText_ends (ws1 array ws2 : jsstring) :
  exists m, callText ws1 array ws2 = "s"%char :: m ++ [")"%char].
Proof.
  unfold callText.
  exists (skipn 1 pushToken ++ ws1 ++ array ++ ws2).
  change pushToken with ("s"%char :: skipn 1 pushToken) at 1.
  cbn [app]. rewrite <- !app_assoc. reflexivity.
Qed.

Lemma slice_middle (pre s post : jsstring) :
  slice (pre ++ s ++ post) (length pre) (length pre + length s) = s.
Proof.
  rewrite <- (Nat.add_0_r (length pre)) at 1. rewrite slice_suffix.
  unfold slice. cbn [skipn]. rewrite Nat.sub_0_r, firstn_app, Nat.sub_diag.
  cbn [firstn]. rewrite firstn_all, app_nil_r. reflexivity.
Qed.

(** The first pass of the loop takes the hit at [length pre] and leaves
    the rest of the text to the passes after it. *)
Lemma extractPushCalls_first (pre snippet post : jsstring) :
  indexOf (pre ++ snippet ++ post) pushToken 0 = Some (length pre) ->
  tryPushCall (pre ++ snippet ++ post) (length pre)
  = Accepted (length pre + length snippet) ->
  trim snippet = snippet ->
  snippet <> [] ->
  extractPushCalls (pre ++ snippet ++ post)
  = option_map (cons snippet) (extractPushCalls post).
Proof.
  intros Hi Ht Htrim Hne. unfold extractPushCalls.
  set (later := extractPushCallsLoop (S (length post)) post 0 []).
  set (content := pre ++ snippet ++ post).
  assert (Hl : length content = length pre + length snippet + length post)
    by (unfold content; rewrite !length_app; lia).
  assert (Hs : 0 < length snippet) by (destruct snippet; [congruence|simpl; lia]).
  cbn [extractPushCallsLoop].
  replace (0 <? length content) with true by (symmetry; apply Nat.ltb_lt; lia).
  fold content in Hi, Ht. rewrite Hi, Ht.
  assert (Hsl : slice content (length pre) (length pre + length snippet) = snippet)
    by apply slice_middle.
  rewrite Hsl, Htrim. cbn [app].
  unfold content. rewrite app_assoc.
  replace (length pre + length snippet) with (length (pre ++ snippet) + 0)
    by (rewrite length_app; lia).
  rewrite (extractPushCallsLoop_suffix (pre ++ snippet) [] post).
  cbn [app length Nat.add].
  rewrite extractPushCallsLoop_calls.
  rewrite (extractPushCallsLoop_fuel post _ (S (length post)))
    by (rewrite ?length_app; lia).
  fold later. destruct later; reflexivity.
Qed.

Lemma indexOf_zero (s pat : jsstring) : indexOf s pat 0 = search pat s.
Proof.
  unfold indexOf. cbn [skipn Nat.min]. destruct (search pat s); reflexivity.
Qed.

Lemma indexOf_token (pre rest : jsstring) :
  indexOf (pre ++ pushToken) pushToken 0 = Some (length pre) ->
  indexOf (pre ++ pushToken ++ rest) pushToken 0 = Some (length pre).
Proof.
  intros H. rewrite app_assoc.
  apply (indexOf_within pushToken (pre ++ pushToken) [] rest 0 (length pre)).
  - lia.
  - rewrite app_nil_r. exact H.
  - rewrite length_app. lia.
Qed.

(** A call in a text: the pass that finds it takes it whole, with the
    semicolon that may follow, and the search goes on behind it. *)
Lemma extractPushCalls_bracketed (pre ws1 body ws2 post : jsstring) :
  indexOf (pre ++ pushToken) pushToken 0 = Some (length pre) ->
  forallb isWhitespace ws1 = true ->
  forallb isWhitespace ws2 = true ->
  passedOver body ->
  let call := callText ws1 ("["%char :: body ++ ["]"%char]) ws2 in
  (startsWith [";"%char] post = false ->
   extractPushCalls (pre ++ call ++ post)
   = option_map (cons call) (extractPushCalls post))
  /\ extractPushCalls (pre ++ (call ++ [";"%char]) ++ post)
     = option_map (cons (call ++ [";"%char])) (extractPushCalls post).
Proof.
  intros Hi H1 H2 Hb call.
  destruct (callText_ends ws1 ("["%char :: body ++ ["]"%char]) ws2) as [m Hm].
  fold call in Hm.
  assert (Hidx : forall rest, indexOf (pre ++ call ++ rest) pushToken 0 = Some (length pre)).
  { intros rest. unfold call, callText. rewrite <- !app_assoc.
    apply indexOf_token, Hi. }
  assert (Htry : forall rest,
             tryPushCall (pre ++ call ++ rest) (length pre)
             = Accepted (length pre
                         + (length call + if startsWith [";"%char] rest then 1 else 0))).
  { intros rest.
    rewrite <- (Nat.add_0_r (length pre)) at 1.
    rewrite tryPushCall_suffix.
    unfold call. rewrite tryPushCall_call by assumption. reflexivity. }
  split.
  - intros Hsemi. apply extractPushCalls_first.
    + apply Hidx.
    + rewrite Htry, Hsemi. f_equal. lia.
    + rewrite Hm. apply trim_id; reflexivity.
    + rewrite Hm. discriminate.
  - apply extractPushCalls_first.
    + rewrite <- app_assoc. apply Hidx.
    + rewrite <- app_assoc, Htry. cbn [app startsWith ch_eqb].
      change (ch_eqb ";" ";" && true) with true. cbv iota.
      rewrite length_app. cbn [length]. f_equal; lia.
    + rewrite Hm. change (("s"%char :: m ++ [")"%char]) ++ [";"%char])
        with ("s"%char :: (m ++ [")"%char]) ++ [";"%char]).
      apply trim_id; reflexivity.
    + rewrite Hm. discriminate.
Qed.

(** X7.  A call whose argument is the text [JSON.stringify] writes for
    an array, with white space or none around the argument, is extracted
    whole, with the semicolon when one follows at once, provided the text
    before it has no earlier occurrence of the token; the extraction then
    goes on with the text behind the call as it would from its start. *)
Theorem extractPushCalls_json_call
        (pre ws1 ws2 semi post : jsstring) (items : list json) (space : nat) :
  jsonOk (JArr items) = true ->
  forallb isWhitespace ws1 = true ->
  forallb isWhitespace ws2 = true ->
  indexOf (pre ++ pushToken) pushToken 0 = Some (length pre) ->
  (semi = [] /\ startsWith [";"%char] post = false) \/ semi = [";"%char] ->
  extractPushCalls
    (pre ++ (callText ws1 (JSON_stringify (JArr items) space) ws2 ++ semi) ++ post)
  = option_map (cons (callText ws1 (JSON_stringify (JArr items) space) ws2 ++ semi))
               (extractPushCalls post).
Proof.
  intros Hok H1 H2 Hi Hsemi.
  destruct (stringify_array items space Hok) as (body & -> & Hb).
  destruct (extractPushCalls_bracketed pre ws1 body ws2 post Hi H1 H2 Hb) as [Ha Hb'].
  destruct Hsemi as [[-> Hs] | ->].
  - rewrite app_nil_r. apply Ha, Hs.
  - exact Hb'.
Qed.

Lemma extractPushCalls_json_call_witness :
  extractPushCalls
    (str "<script>"
       ++ (callText (str " ") (JSON_stringify (JArr [JNum (Int 1); JStr (str "a]b")]) 0)
                    newline ++ str ";")
       ++ str "</script>")
  = option_map
      (cons (callText (str " ") (JSON_stringify (JArr [JNum (Int 1); JStr (str "a]b")]) 0)
                      newline ++ str ";"))
      (extractPushCalls (str "</script>")).
Proof.
  apply (extractPushCalls_json_call
           (str "<script>") (str " ") newline (str ";") (str "</script>")
           [JNum (Int 1); JStr (str "a]b")] 0);
    try reflexivity.
  right. reflexivity.
Defined.

(** ** The Payload Decoder on a call written by [JSON.stringify] *)

Lemma search_prefix (pat rest : jsstring) : search pat (pat ++ rest) = Some 0.
Proof.
  destruct (pat ++ rest) as [|c s] eqn:E.
  - destruct pat; [reflexivity|discriminate].
  - cbn [search]. rewrite <- E, startsWith_app. reflexivity.
Qed.

Lemma searchLast_close (s semi : jsstring) :
  semi = [] \/ semi = [";"%char] ->
  searchLast (str "])") (s ++ str "])" ++ semi) = Some (length s).
Proof.
  intros H. induction s as [|c s IH].
  - destruct H as [-> | ->]; reflexivity.
  - cbn [app searchLast length]. rewrite IH. reflexivity.
Qed.

Lemma prefix_token : str "self.__next_f.push([" = pushToken ++ ["["%char].
Proof. reflexivity. Qed.

Lemma endsWith_app (s suffix : jsstring) : endsWith (s ++ suffix) suffix = true.
Proof. unfold endsWith. rewrite rev_app_distr. apply startsWith_app. Qed.

Lemma stripNewlineAtEnd_bracket (s : jsstring) :
  stripNewlineAtEnd (s ++ ["]"%char]) = s ++ ["]"%char].
Proof.
  unfold stripNewlineAtEnd, endsWith. rewrite rev_app_distr. reflexivity.
Qed.

Lemma dropLast_app (n : nat) (s t : jsstring) :
  length t = n -> dropLast n (s ++ t) = s.
Proof.
  intros <-. unfold dropLast. rewrite length_app, Nat.add_sub.
  rewrite firstn_app, Nat.sub_diag, firstn_all. cbn [firstn].
  apply app_nil_r.
Qed.

(** The text between the prefix and the suffix of a call whose argument
    has [body] between its brackets. *)
Lemma extractDataFromScript_bracketed (body semi : jsstring) :
  semi = [] \/ semi = [";"%char] ->
  body <> [] ->
  extractDataFromScript (callText [] ("["%char :: body ++ ["]"%char]) [] ++ semi)
  = match JSON_parse
            (stripNewlineAtEnd
               (stripNewlineBeforeClose ("["%char :: body ++ ["]"%char]))) with
    | Ok result => Ok (JSON_stringify result 0)
    | Throw message =>
        Throw (str "Unable to parse script content as JSON: " ++ message)
    end.
Proof.
  intros Hsemi Hne. unfold extractDataFromScript.
  set (prefix := str "self.__next_f.push([").
  assert (E : callText [] ("["%char :: body ++ ["]"%char]) [] ++ semi
              = prefix ++ body ++ str "])" ++ semi).
  { unfold callText, prefix. rewrite prefix_token. cbn [app].
    rewrite <- !app_assoc. cbn [app]. rewrite <- !app_assoc. reflexivity. }
  rewrite E. rewrite indexOf_zero, search_prefix.
  unfold lastIndexOf. rewrite app_assoc, searchLast_close by exact Hsemi.
  rewrite length_app.
  assert (Hb : 0 < length body) by (destruct body; [congruence|simpl; lia]).
  replace (length prefix + length body <=? 0 + length prefix) with false
    by (symmetry; apply Nat.leb_gt; lia).
  assert (Hsub : substring ((prefix ++ body) ++ str "])" ++ semi)
                           (0 + length prefix) (length prefix + length body)
                 = body).
  { unfold substring. cbv zeta.
    assert (Hlen : length ((prefix ++ body) ++ str "])" ++ semi)
                   = length prefix + length body + length (str "])" ++ semi))
      by (rewrite !length_app; lia).
    rewrite Hlen.
    replace (Nat.min (0 + length prefix) (length prefix + length body + length (str "])" ++ semi)))
      with (length prefix) by lia.
    replace (Nat.min (length prefix + length body) (length prefix + length body + length (str "])" ++ semi)))
      with (length prefix + length body) by lia.
    rewrite Nat.min_l, Nat.max_r by lia.
    rewrite <- app_assoc. apply slice_middle. }
  rewrite Hsub. reflexivity.
Qed.

Lemma extractDataFromScript_json_call (items : list json) (space : nat) (semi : jsstring) :
  semi = [] \/ semi = [";"%char] ->
  jsonOk (JArr items) = true ->
  items <> [] ->
  endsWith (JSON_stringify (JArr items) space) escapedNewlineClose = false ->
  extractDataFromScript (callOf items space ++ semi)
  = Ok (JSON_stringify (JArr items) 0).
Proof.
  intros Hsemi Hok Hne Hend. unfold callOf.
  destruct (stringify_array items space Hok) as (body & E & _).
  assert (Hbody : body <> []).
  { intros ->. destruct items as [|x items]; [congruence|].
    pose proof (serialize_length (repeat " "%char (Nat.min space 10))
                                 (JArr (x :: items)) Hok []) as Hl.
    unfold JSON_stringify in E. rewrite E in Hl. cbn [app length] in Hl.
    assert (1 <= json_size x) by (destruct x; simpl; lia).
    cbn [json_size map list_sum fold_right] in Hl. lia. }
  rewrite E, extractDataFromScript_bracketed by assumption.
  rewrite <- E. unfold stripNewlineBeforeClose.
  fold escapedNewlineClose. rewrite Hend.
  rewrite E. change ("["%char :: body ++ ["]"%char]) with (("["%char :: body) ++ ["]"%char]).
  rewrite stripNewlineAtEnd_bracket. cbn [app]. rewrite <- E.
  rewrite JSON_parse_stringify by exact Hok. reflexivity.
Qed.

Lemma parseScriptContentDetailed_decoded (snippet : jsstring) (id v : json) (more : list json) :
  jsonOk (JArr (id :: v :: more)) = true ->
  extractDataFromScript snippet = Ok (JSON_stringify (JArr (id :: v :: more)) 0) ->
  parseScriptContentDetailed snippet = resultOfPayload v.
Proof.
  intros Hok He. unfold parseScriptContentDetailed, parseScriptContentTry.
  rewrite He, JSON_parse_stringify by exact Hok.
  unfold resultOfPayload.
  destruct (match v with JStr s => stringPayload s | _ => Continue v end);
    reflexivity.
Qed.

(** X9.  Decoding undoes [JSON.stringify]: for a call whose argument is
    the text of an array [[id, payload, ...]], written with any
    indentation and not ending in an escaped newline, a double quote and
    the bracket, the Payload Decoder returns the compact text of the same
    array, and the result of the call is what Step 3 and Step 4 make of
    [payload]; a semicolon behind the call changes nothing. *)
Theorem parseScriptContentDetailed_json_call
        (id v : json) (more : list json) (space : nat) :
  jsonOk (JArr (id :: v :: more)) = true ->
  endsWith (JSON_stringify (JArr (id :: v :: more)) space) escapedNewlineClose = false ->
  extractDataFromScript (callOf (id :: v :: more) space)
  = Ok (JSON_stringify (JArr (id :: v :: more)) 0)
  /\ parseScriptContentDetailed (callOf (id :: v :: more) space) = resultOfPayload v
  /\ parseScriptContentDetailed (callOf (id :: v :: more) space ++ [";"%char])
     = resultOfPayload v.
Proof.
  intros Hok Hend.
  assert (H1 : extractDataFromScript (callOf (id :: v :: more) space ++ [])
               = Ok (JSON_stringify (JArr (id :: v :: more)) 0))
    by (apply extractDataFromScript_json_call; auto; discriminate).
  rewrite app_nil_r in H1.
  split; [exact H1|]. split.
  - apply (parseScriptContentDetailed_decoded _ id v more Hok H1).
  - apply (parseScriptContentDetailed_decoded _ id v more Hok).
    apply extractDataFromScript_json_call; auto; discriminate.
Qed.

Lemma parseScriptContentDetailed_json_call_witness :
  extractDataFromScript (callOf [JNum (Int 1); JStr (str "hello"); JBool true] 2)
  = Ok (JSON_stringify (JArr [JNum (Int 1); JStr (str "hello"); JBool true]) 0)
  /\ parseScriptContentDetailed (callOf [JNum (Int 1); JStr (str "hello"); JBool true] 2)
     = resultOfPayload (JStr (str "hello"))
  /\ parseScriptContentDetailed
       (callOf [JNum (Int 1); JStr (str "hello"); JBool true] 2 ++ [";"%char])
     = resultOfPayload (JStr (str "hello")).
Proof.
  apply (parseScriptContentDetailed_json_call
           (JNum (Int 1)) (JStr (str "hello")) [JBool true] 2);
    vm_compute; reflexivity.
Defined.

(** ** The payload: the branches of Step 3 *)

Lemma alnum_not_colon (c : ascii) : alnumAnyCase c = true -> ch_eqb c ":"%char = false.
Proof.
  destruct c as [[] [] [] [] [] [] [] []]; intros H; try reflexivity; discriminate H.
Qed.

Lemma search_colon (key rest : jsstring) :
  forallb alnumAnyCase key = true ->
  search (str ":") (key ++ ":"%char :: rest) = Some (length key).
Proof.
  induction key as [|c key IH]; intros H.
  - reflexivity.
  - cbn [forallb] in H. apply andb_true_iff in H as [Hc Hk].
    cbn [app search startsWith str list_ascii_of_string].
    assert (E : ch_eqb ":"%char c = false).
    { destruct (ch_eqb ":"%char c) eqn:E'; [|reflexivity].
      apply ch_eqb_eq in E'. subst c. discriminate Hc. }
    rewrite E. cbn [andb]. 
    change (search [":"%char] (key ++ ":"%char :: rest))
      with (search (str ":") (key ++ ":"%char :: rest)).
    rewrite IH by exact Hk. reflexivity.
Qed.

Lemma skipn_app_exact {A : Type} (a b : list A) : skipn (length a) (a ++ b) = b.
Proof.
  pose proof (skipn_app_ge 0 a b) as E. rewrite Nat.add_0_r in E. exact E.
Qed.

(** The branch a component-data string takes, and what is parsed. *)
Lemma stringPayload_componentData (s : jsstring) :
  detectDataType s = ComponentData ->
  exists key rest,
    s = key ++ str ":[" ++ rest
    /\ key <> []
    /\ forallb alnumAnyCase key = true
    /\ stringPayload s
       = match JSON_parse ("["%char :: rest) with
         | Ok v => Continue v
         | Throw message =>
             Return {| success := false;
                       components := [];
                       error := Some (str "Failed to parse component data structure");
                       dataType := None;
                       debugInfo := Some (str "Parse error: " ++ message) |}
         end.
Proof.
  intros Hd.
  assert (Hrule : componentDataRule s).
  { apply componentDataRule_dec. unfold detectDataType in Hd.
    destruct (testAnchored moduleLoadingPattern s || includes s (str "static/chunks/"));
      [discriminate|].
    destruct (testAnchored componentDataPattern s); [reflexivity|discriminate]. }
  destruct Hrule as (key & rest & Hne & Hk & ->).
  exists key, rest. repeat split; try assumption.
  unfold stringPayload, payloadBranch. rewrite Hd. cbn [DataType_eqb andb].
  assert (Hs : search (str ":") (key ++ str ":[" ++ rest) = Some (length key))
    by (apply (search_colon key ("["%char :: rest)), Hk).
  unfold includes. rewrite Hs. rewrite indexOf_zero, Hs.
  unfold substringFrom.
  replace (key ++ str ":[" ++ rest) with ((key ++ [":"%char]) ++ "["%char :: rest)
    by (rewrite <- app_assoc; reflexivity).
  replace (length key + 1) with (length (key ++ [":"%char]))
    by (rewrite length_app; reflexivity).
  rewrite skipn_app_exact. reflexivity.
Qed.

(** X12.  The main path: when the payload string is classified
    component-data, it is a key of letters and digits, a colon, and a
    rest that starts with a bracket; the result is a success with the
    nodes of what [JSON.parse] reads from that bracket on, or, when that
    does not parse, the failure [Failed to parse component data
    structure] with the parser's message as debug information. *)
Theorem component_data_payload
        (snippet cleanContent s : jsstring) (id : json) (more : list json) :
  extractDataFromScript snippet = Ok cleanContent ->
  JSON_parse cleanContent = Ok (JArr (id :: JStr s :: more)) ->
  detectDataType s = ComponentData ->
  exists key rest,
    s = key ++ str ":[" ++ rest
    /\ key <> []
    /\ forallb alnumAnyCase key = true
    /\ parseScriptContentDetailed snippet
       = match JSON_parse ("["%char :: rest) with
         | Ok data => componentDataResult data
         | Throw message =>
             {| success := false;
                components := [];
                error := Some (str "Failed to parse component data structure");
                dataType := None;
                debugInfo := Some (str "Parse error: " ++ message) |}
         end.
Proof.
  intros He Hp Hd.
  destruct (stringPayload_componentData s Hd) as (key & rest & Hs & Hne & Hk & Hsp).
  exists key, rest. repeat split; try assumption.
  unfold parseScriptContentDetailed, parseScriptContentTry.
  rewrite He, Hp, Hsp. destruct (JSON_parse ("["%char :: rest)); reflexivity.
Qed.

Lemma component_data_payload_witness :
  exists key rest,
    qstr "4c:['a']" = key ++ str ":[" ++ rest
    /\ key <> []
    /\ forallb alnumAnyCase key = true
    /\ parseScriptContentDetailed (qstr "self.__next_f.push([1,'4c:[\'a\']'])")
       = match JSON_parse ("["%char :: rest) with
         | Ok data => componentDataResult data
         | Throw message =>
             {| success := false;
                components := [];
                error := Some (str "Failed to parse component data structure");
                dataType := None;
                debugInfo := Some (str "Parse error: " ++ message) |}
         end.
Proof.
  apply (component_data_payload
           (qstr "self.__next_f.push([1,'4c:[\'a\']'])")
           (qstr "[1,'4c:[\'a\']']") (qstr "4c:['a']") (JNum (Int 1)) []);
    vm_compute; reflexivity.
Defined.

(** X13.  A payload that is not a string is never classified: the
    call is a success tagged component-data with the nodes of the payload
    itself, and so with no node at all when the payload is a number, a
    boolean, [null] or an object. *)
Theorem non_string_payload
        (snippet cleanContent : jsstring) (id componentData : json) (more : list json) :
  extractDataFromScript snippet = Ok cleanContent ->
  JSON_parse cleanContent = Ok (JArr (id :: componentData :: more)) ->
  isString componentData = false ->
  parseScriptContentDetailed snippet = componentDataResult componentData
  /\ (isStructural componentData = false ->
      parseScriptContentDetailed snippet
      = {| success := true; components := []; error := None;
           dataType := Some ComponentData; debugInfo := None |}).
Proof.
  intros He Hp Hs.
  assert (H : parseScriptContentDetailed snippet = componentDataResult componentData).
  { unfold parseScriptContentDetailed, parseScriptContentTry. rewrite He, Hp.
    destruct componentData; try discriminate; reflexivity. }
  split; [exact H|]. intros Hn. rewrite H. unfold componentDataResult.
  rewrite parseComponentStructure_eq.
  destruct componentData; try discriminate; reflexivity.
Qed.

Lemma non_string_payload_witness :
  parseScriptContentDetailed (qstr "self.__next_f.push([1,{'a':[2]}])")
  = componentDataResult (JObj [(str "a", JArr [JNum (Int 2)])])
  /\ (isStructural (JObj [(str "a", JArr [JNum (Int 2)])]) = false ->
      parseScriptContentDetailed (qstr "self.__next_f.push([1,{'a':[2]}])")
      = {| success := true; components := []; error := None;
           dataType := Some ComponentData; debugInfo := None |}).
Proof.
  apply (non_string_payload
           (qstr "self.__next_f.push([1,{'a':[2]}])")
           (qstr "[1,{'a':[2]}]") (JNum (Int 1))
           (JObj [(str "a", JArr [JNum (Int 2)])]) []);
    vm_compute; reflexivity.
Defined.

(** ** One trailing escaped newline *)

Lemma join_snoc (sep p : jsstring) (l : list jsstring) :
  l <> [] -> join sep (l ++ [p]) = join sep l ++ sep ++ p.
Proof.
  induction l as [|q l IH]; [congruence|]. intros _.
  destruct l as [|r l].
  - reflexivity.
  - change ((q :: r :: l) ++ [p]) with (q :: (r :: l) ++ [p]).
    change ((r :: l) ++ [p]) with (r :: l ++ [p]) at 1.
    rewrite !join_cons. change (r :: l ++ [p]) with ((r :: l) ++ [p]).
    rewrite IH by discriminate. rewrite <- !app_assoc. reflexivity.
Qed.

Lemma JSON_stringify_compact (v : json) : JSON_stringify v 0 = serialize [] [] v.
Proof. reflexivity. Qed.

(** The compact text of an array, up to its last element. *)
Lemma stringify_snoc (items : list json) :
  exists before,
    forall x, JSON_stringify (JArr (items ++ [x])) 0
              = "["%char :: before ++ serialize [] [] x ++ ["]"%char].
Proof.
  destruct items as [|y items].
  - exists []. intros x. rewrite JSON_stringify_compact. cbn [app].
    rewrite serialize_array. cbn [opening app map]. rewrite join_one. reflexivity.
  - exists (join [","%char] (map (serialize [] []) (y :: items)) ++ [","%char]).
    intros x. rewrite JSON_stringify_compact.
    change ((y :: items) ++ [x]) with (y :: items ++ [x]).
    rewrite serialize_array. cbn [opening app].
    change (y :: items ++ [x]) with ((y :: items) ++ [x]).
    rewrite map_app. cbn [map]. rewrite join_snoc by discriminate.
    rewrite <- !app_assoc. reflexivity.
Qed.

Lemma quote_lineFeed (s : jsstring) :
  quoteJSONString (s ++ [lineFeed])
  = dquote :: flat_map quoteChar s ++ str "\n" ++ [dquote].
Proof.
  unfold quoteJSONString. rewrite flat_map_app. cbn [flat_map].
  rewrite <- !app_assoc. reflexivity.
Qed.

Lemma extractDataFromScript_lineFeed (items : list json) (s semi : jsstring) :
  semi = [] \/ semi = [";"%char] ->
  jsonOk (JArr items) = true ->
  extractDataFromScript (callOf (items ++ [JStr (s ++ [lineFeed])]) 0 ++ semi)
  = Ok (JSON_stringify (JArr (items ++ [JStr s])) 0).
Proof.
  intros Hsemi Hok. unfold callOf.
  destruct (stringify_snoc items) as [before Hb].
  assert (Hok' : jsonOk (JArr (items ++ [JStr s])) = true).
  { cbn [jsonOk] in *. rewrite forallb_app, Hok. reflexivity. }
  rewrite (Hb (JStr (s ++ [lineFeed]))).
  cbn [serialize]. rewrite quote_lineFeed.
  set (head := before ++ dquote :: flat_map quoteChar s).
  assert (E1 : before ++ (dquote :: flat_map quoteChar s ++ str "\n" ++ [dquote]) ++ ["]"%char]
               = (head ++ str "\n" ++ [dquote]) ++ ["]"%char]).
  { unfold head. rewrite <- !app_assoc. cbn [app]. rewrite <- !app_assoc. reflexivity. }
  rewrite E1.
  rewrite extractDataFromScript_bracketed;
    [|exact Hsemi|destruct head; discriminate].
  assert (E2 : "["%char :: (head ++ str "\n" ++ [dquote]) ++ ["]"%char]
               = ("["%char :: head) ++ escapedNewlineClose).
  { unfold escapedNewlineClose. cbn [app]. rewrite <- ?app_assoc. reflexivity. }
  rewrite E2. unfold stripNewlineBeforeClose.
  rewrite endsWith_app, dropLast_app by reflexivity.
  assert (E3 : ("["%char :: head) ++ [dquote; "]"%char]
               = JSON_stringify (JArr (items ++ [JStr s])) 0).
  { rewrite (Hb (JStr s)). cbn [serialize]. unfold quoteJSONString, head.
    cbn [app]. rewrite <- ?app_assoc. cbn [app]. rewrite <- ?app_assoc. reflexivity. }
  rewrite E3.
  destruct (stringify_array _ 0 Hok') as (body & E4 & _).
  rewrite E4.
  change ("["%char :: body ++ ["]"%char]) with (("["%char :: body) ++ ["]"%char]).
  rewrite stripNewlineAtEnd_bracket. cbn [app]. rewrite <- E4.
  rewrite JSON_parse_stringify by exact Hok'. reflexivity.
Qed.

(** X10.  One escaped newline at the end of the last string of the
    argument does not reach the data: for an array that ends in a string
    [s] followed by a line feed, the Payload Decoder returns the text of
    the array that ends in [s], whatever [s] ends in itself; so the result
    of the call [[id, s + line feed]] is what Step 3 and Step 4 make of
    [s]. *)
Theorem trailing_newline_stripped (items : list json) (id : json) (s : jsstring) :
  jsonOk (JArr items) = true ->
  jsonOk id = true ->
  extractDataFromScript (callOf (items ++ [JStr (s ++ [lineFeed])]) 0)
  = Ok (JSON_stringify (JArr (items ++ [JStr s])) 0)
  /\ parseScriptContentDetailed (callOf [id; JStr (s ++ [lineFeed])] 0)
     = resultOfPayload (JStr s).
Proof.
  intros Hok Hid.
  pose proof (extractDataFromScript_lineFeed items s [] (or_introl eq_refl) Hok) as H1.
  rewrite app_nil_r in H1. split; [exact H1|].
  assert (Hok1 : jsonOk (JArr [id]) = true)
    by (cbn [jsonOk forallb]; rewrite Hid; reflexivity).
  pose proof (extractDataFromScript_lineFeed [id] s [] (or_introl eq_refl) Hok1) as H2.
  rewrite app_nil_r in H2. cbn [app] in H2.
  apply (parseScriptContentDetailed_decoded _ id (JStr s) []); [|exact H2].
  cbn [jsonOk forallb]. rewrite Hid. reflexivity.
Qed.

Lemma trailing_newline_stripped_witness :
  extractDataFromScript
    (callOf ([JNum (Int 1)] ++ [JStr (str "hi" ++ [lineFeed])]) 0)
  = Ok (JSON_stringify (JArr ([JNum (Int 1)] ++ [JStr (str "hi")])) 0)
  /\ parseScriptContentDetailed
       (callOf [JNum (Int 7); JStr (str "hi" ++ [lineFeed])] 0)
     = resultOfPayload (JStr (str "hi")).
Proof.
  apply (trailing_newline_stripped [JNum (Int 1)] (JNum (Int 7)) (str "hi"));
    reflexivity.
Defined.

(** ** A flight row, and a document call by call *)

Lemma hexLower_alnum (c : ascii) : hexLower c = true -> alnumAnyCase c = true.
Proof.
  destruct c as [[] [] [] [] [] [] [] []]; intros H; try reflexivity; discriminate H.
Qed.

Lemma app_inv_length {A : Type} (a b c d : list A) :
  a ++ b = c ++ d -> length a = length c -> a = c /\ b = d.
Proof.
  revert c. induction a as [|x a IH]; intros [|y c] H Hl; try discriminate.
  - auto.
  - cbn [app] in H. injection H as -> H. cbn [length] in Hl.
    destruct (IH c H) as [-> ->]; [lia|]. auto.
Qed.

(** A key of letters and digits ends at the first colon. *)
Lemma key_unique (key key' rest rest' : jsstring) :
  forallb alnumAnyCase key = true ->
  forallb alnumAnyCase key' = true ->
  key ++ ":"%char :: rest = key' ++ ":"%char :: rest' ->
  key = key' /\ rest = rest'.
Proof.
  intros Hk Hk' E.
  pose proof (search_colon key rest Hk) as S1.
  pose proof (search_colon key' rest' Hk') as S2.
  rewrite E, S2 in S1. injection S1 as Hl.
  destruct (app_inv_length _ _ _ _ E (eq_sym Hl)) as [-> H]. injection H as ->. auto.
Qed.

Lemma stringPayload_key (key rest : jsstring) :
  forallb alnumAnyCase key = true ->
  detectDataType (key ++ ":"%char :: rest) = ComponentData ->
  stringPayload (key ++ ":"%char :: rest)
  = match JSON_parse rest with
    | Ok v => Continue v
    | Throw message =>
        Return {| success := false;
                  components := [];
                  error := Some (str "Failed to parse component data structure");
                  dataType := None;
                  debugInfo := Some (str "Parse error: " ++ message) |}
    end.
Proof.
  intros Hk Hd. unfold stringPayload, payloadBranch. rewrite Hd.
  cbn [DataType_eqb andb].
  pose proof (search_colon key rest Hk) as Hs.
  unfold includes. rewrite Hs, indexOf_zero, Hs. unfold substringFrom.
  replace (key ++ ":"%char :: rest) with ((key ++ [":"%char]) ++ rest)
    by (rewrite <- app_assoc; reflexivity).
  replace (length key + 1) with (length (key ++ [":"%char]))
    by (rewrite length_app; reflexivity).
  rewrite skipn_app_exact. reflexivity.
Qed.

Lemma detectDataType_row (key rest : jsstring) :
  key <> [] ->
  forallb alnumAnyCase key = true ->
  includes (key ++ str ":[" ++ rest) (str "static/chunks/") = false ->
  detectDataType (key ++ str ":[" ++ rest) = ComponentData.
Proof.
  intros Hne Hk Hinc. unfold detectDataType. rewrite Hinc.
  destruct (testAnchored moduleLoadingPattern (key ++ str ":[" ++ rest)) eqn:Em.
  - exfalso. apply test_key_marker in Em as (key' & rest' & _ & Hk' & E).
    apply (key_unique key key' ("["%char :: rest) (str "I[" ++ rest')) in E
      as [_ E]; [discriminate E|exact Hk|].
    revert Hk'. apply forallb_impl, hexLower_alnum.
  - cbn [orb].
    replace (testAnchored componentDataPattern (key ++ str ":[" ++ rest)) with true;
      [reflexivity|].
    symmetry. apply componentDataRule_dec. exists key, rest. auto.
Qed.

Lemma resultOfPayload_row (key : jsstring) (tree : list json) :
  jsonOk (JArr tree) = true ->
  key <> [] ->
  forallb alnumAnyCase key = true ->
  includes (flightRow key tree) (str "static/chunks/") = false ->
  resultOfPayload (JStr (flightRow key tree)) = componentDataResult (JArr tree).
Proof.
  intros Hok Hne Hk Hinc. unfold flightRow in *.
  destruct (stringify_array tree 0 Hok) as (body & E & _).
  assert (Hd : detectDataType (key ++ ":"%char :: JSON_stringify (JArr tree) 0)
               = ComponentData).
  { rewrite E in *. apply (detectDataType_row key (body ++ ["]"%char])); assumption. }
  unfold resultOfPayload. rewrite stringPayload_key by assumption.
  rewrite JSON_parse_stringify by exact Hok. reflexivity.
Qed.

Lemma endsWith_bracket_quote (x : jsstring) :
  endsWith (x ++ ["]"%char; dquote; "]"%char]) escapedNewlineClose = false.
Proof. unfold endsWith. rewrite rev_app_distr. reflexivity. Qed.

Lemma quoteChar_closing (x : jsstring) :
  flat_map quoteChar (x ++ ["]"%char]) = flat_map quoteChar x ++ ["]"%char].
Proof. rewrite flat_map_app. reflexivity. Qed.

Lemma endsWith_row (id : json) (key : jsstring) (tree : list json) :
  jsonOk (JArr tree) = true ->
  endsWith (JSON_stringify (JArr [id; JStr (flightRow key tree)]) 0)
           escapedNewlineClose = false.
Proof.
  intros Hok. destruct (stringify_snoc [id]) as [before Hb].
  cbn [app] in Hb. rewrite Hb. cbn [serialize]. unfold quoteJSONString, flightRow.
  destruct (stringify_array tree 0 Hok) as (body & -> & _).
  replace (key ++ ":"%char :: "["%char :: body ++ ["]"%char])
    with ((key ++ ":"%char :: "["%char :: body) ++ ["]"%char])
    by (rewrite <- app_assoc; reflexivity).
  rewrite quoteChar_closing.
  set (inner := flat_map quoteChar (key ++ ":"%char :: "["%char :: body)).
  replace ("["%char :: before ++ (dquote :: (inner ++ ["]"%char]) ++ [dquote]) ++ ["]"%char])
    with (("["%char :: before ++ dquote :: inner) ++ ["]"%char; dquote; "]"%char]);
    [apply endsWith_bracket_quote|].
  cbn [app]. rewrite <- ?app_assoc. cbn [app]. rewrite <- ?app_assoc. reflexivity.
Qed.

(** X14.  A flight row read back: for a row key of letters and digits
    and an array [tree], the call whose payload is the key, a colon and
    the compact JSON text of [tree], with or without the line feed that
    ends a row, is a success tagged component-data whose nodes are those
    of [tree], and [parseScriptContent] returns them, as long as the
    payload does not contain [static/chunks/]. *)
Theorem flight_row_decoded (id : json) (key : jsstring) (tree : list json) :
  jsonOk id = true ->
  jsonOk (JArr tree) = true ->
  key <> [] ->
  forallb alnumAnyCase key = true ->
  includes (flightRow key tree) (str "static/chunks/") = false ->
  parseScriptContentDetailed (callOf [id; JStr (flightRow key tree)] 0)
  = componentDataResult (JArr tree)
  /\ parseScriptContentDetailed
       (callOf [id; JStr (flightRow key tree ++ [lineFeed])] 0)
     = componentDataResult (JArr tree)
  /\ parseScriptContent (callOf [id; JStr (flightRow key tree ++ [lineFeed])] 0)
     = parseComponentStructure (JArr tree).
Proof.
  intros Hid Hok Hne Hk Hinc.
  pose proof (resultOfPayload_row key tree Hok Hne Hk Hinc) as Hr.
  assert (Hall : jsonOk (JArr [id; JStr (flightRow key tree)]) = true)
    by (cbn [jsonOk forallb]; rewrite Hid; reflexivity).
  assert (H2 : parseScriptContentDetailed
                 (callOf [id; JStr (flightRow key tree ++ [lineFeed])] 0)
               = componentDataResult (JArr tree)).
  { rewrite <- Hr.
    assert (Hok1 : jsonOk (JArr [id]) = true)
      by (cbn [jsonOk forallb]; rewrite Hid; reflexivity).
    pose proof (extractDataFromScript_lineFeed [id] (flightRow key tree) []
                                               (or_introl eq_refl) Hok1) as H2.
    rewrite app_nil_r in H2. cbn [app] in H2.
    apply (parseScriptContentDetailed_decoded _ id (JStr (flightRow key tree)) []);
      [exact Hall|exact H2]. }
  split; [|split; [exact H2|unfold parseScriptContent; rewrite H2; reflexivity]].
  rewrite <- Hr.
  apply (parseScriptContentDetailed_decoded _ id (JStr (flightRow key tree)) []);
    [exact Hall|].
  pose proof (extractDataFromScript_json_call
                [id; JStr (flightRow key tree)] 0 [] (or_introl eq_refl) Hall) as H.
  rewrite app_nil_r in H. apply H; [discriminate|].
  apply endsWith_row, Hok.
Qed.

Lemma flight_row_decoded_witness :
  parseScriptContentDetailed
    (callOf [JNum (Int 1);
             JStr (flightRow (str "4c")
                             [JStr (str "$"); JStr (str "div"); JNull;
                              JObj [(str "className", JStr (str "a"));
                                    (str "children", JStr (str "hi"))]])] 0)
  = componentDataResult
      (JArr [JStr (str "$"); JStr (str "div"); JNull;
             JObj [(str "className", JStr (str "a"));
                   (str "children", JStr (str "hi"))]])
  /\ parseScriptContentDetailed
       (callOf [JNum (Int 1);
                JStr (flightRow (str "4c")
                                [JStr (str "$"); JStr (str "div"); JNull;
                                 JObj [(str "className", JStr (str "a"));
                                       (str "children", JStr (str "hi"))]]
                        ++ [lineFeed])] 0)
     = componentDataResult
         (JArr [JStr (str "$"); JStr (str "div"); JNull;
                JObj [(str "className", JStr (str "a"));
                      (str "children", JStr (str "hi"))]])
  /\ parseScriptContent
       (callOf [JNum (Int 1);
                JStr (flightRow (str "4c")
                                [JStr (str "$"); JStr (str "div"); JNull;
                                 JObj [(str "className", JStr (str "a"));
                                       (str "children", JStr (str "hi"))]]
                        ++ [lineFeed])] 0)
     = parseComponentStructure
         (JArr [JStr (str "$"); JStr (str "div"); JNull;
                JObj [(str "className", JStr (str "a"));
                      (str "children", JStr (str "hi"))]]).
Proof.
  apply (flight_row_decoded
           (JNum (Int 1)) (str "4c")
           [JStr (str "$"); JStr (str "div"); JNull;
            JObj [(str "className", JStr (str "a"));
                  (str "children", JStr (str "hi"))]]);
    first [discriminate | vm_compute; reflexivity].
Defined.

(** ** A document, call by call *)

Lemma flat_map_pushedNodes (calls : list jsstring) :
  forall k,
    flat_map pushedNodes (map indexedResult (combine (seq k (length calls)) calls))
    = flat_map nodesOfCall calls.
Proof.
  induction calls as [|s calls IH]; intros k; [reflexivity|].
  cbn [length seq combine map flat_map]. rewrite IH. reflexivity.
Qed.

Lemma map_base_indexedFrom (calls : list jsstring) :
  forall k,
    map base (map indexedResult (combine (seq k (length calls)) calls))
    = map parseScriptContentDetailed calls.
Proof.
  induction calls as [|s calls IH]; intros k; [reflexivity|].
  cbn [length seq combine map]. rewrite IH. reflexivity.
Qed.

(** What the aggregate holds, from the snippets of the document. *)
Lemma parseDocumentContent_of_calls (content : jsstring) (calls : list jsstring) :
  extractPushCalls content = Some calls ->
  exists agg,
    parseDocumentContent content = Some agg
    /\ totalScripts agg = length calls
    /\ map base (results agg) = map parseScriptContentDetailed calls
    /\ map index (results agg) = seq 0 (length calls)
    /\ combinedComponents agg = flat_map nodesOfCall calls.
Proof.
  intros He. destruct (parseDocumentContent_eq content) as (calls' & He' & Hp).
  rewrite He in He'. injection He' as <-. cbv zeta in Hp.
  eexists. split; [exact Hp|]. cbn [totalScripts results combinedComponents].
  split; [rewrite length_map, length_combine, length_seq; lia|].
  split; [apply map_base_indexedFrom|].
  split; [|apply flat_map_pushedNodes].
  rewrite map_map. 
  change (fun x : nat * jsstring => index (indexedResult x)) with (@fst nat jsstring).
  clear. generalize 0. induction calls as [|s calls IH]; intros k; [reflexivity|].
  cbn [length seq combine map fst]. rewrite IH. reflexivity.
Qed.


Lemma nodesOfCall_components (snippet : jsstring) :
  nodesOfCall snippet = components (parseScriptContentDetailed snippet).
Proof.
  unfold nodesOfCall. pose proof (parseScriptContentDetailed_shape snippet) as H.
  unfold resultShape in H.
  destruct (success (parseScriptContentDetailed snippet)); [reflexivity|].
  destruct H as [-> _]. reflexivity.
Qed.

(** ** The snippets of the Call Extractor *)

Lemma occurInOrder_prefix (calls : list jsstring) (pre content : jsstring) :
  occurInOrder calls content -> occurInOrder calls (pre ++ content).
Proof.
  destruct calls as [|s later]; [trivial|].
  intros (before & after & -> & H). exists (pre ++ before), after.
  rewrite <- app_assoc. auto.
Qed.

Lemma skipn_split {A : Type} (l : list A) (i j : nat) :
  i <= j -> skipn i l = firstn (j - i) (skipn i l) ++ skipn j l.
Proof.
  intros H. rewrite <- (firstn_skipn (j - i) (skipn i l)) at 1.
  rewrite skipn_skipn. replace (j - i + i) with j by lia. reflexivity.
Qed.

Lemma indexOf_spec (s pat : jsstring) (from k : nat) :
  from <= length s -> indexOf s pat from = Some k ->
  from <= k /\ exists post, skipn k s = pat ++ post.
Proof.
  unfold indexOf. intros Hf.
  destruct (search pat (skipn from s)) as [j|] eqn:E; [|discriminate].
  cbn [option_map]. intros [= <-]. rewrite Nat.min_l by exact Hf.
  split; [lia|].
  apply search_some in E as (pre & post & E & <-). exists post.
  rewrite Nat.add_comm, <- skipn_skipn, E. apply skipn_app_exact.
Qed.

Lemma charIs_nth (s : jsstring) (i : nat) (c : ascii) :
  charIs s i c = true -> nth_error s i = Some c.
Proof.
  unfold charIs, charAt. destruct (nth_error s i) as [d|]; [|discriminate].
  intros H. apply ch_eqb_eq in H. congruence.
Qed.

Lemma firstn_S_nth {A : Type} (l : list A) (n : nat) (x : A) :
  nth_error l n = Some x -> firstn (S n) l = firstn n l ++ [x].
Proof.
  revert l. induction n as [|n IH]; intros [|y l] H; try discriminate.
  - injection H as ->. reflexivity.
  - cbn [nth_error] in H.
    change (firstn (S (S n)) (y :: l)) with (y :: firstn (S n) l).
    change (firstn (S n) (y :: l)) with (y :: firstn n l).
    rewrite (IH l H). reflexivity.
Qed.

Lemma slice_snoc (s : jsstring) (x y : nat) (c : ascii) :
  x <= y -> nth_error s y = Some c -> slice s x (y + 1) = slice s x y ++ [c].
Proof.
  intros Hxy Hn. unfold slice.
  replace (y + 1 - x) with (S (y - x)) by lia.
  apply firstn_S_nth. rewrite nth_error_skipn.
  replace (x + (y - x)) with y by lia. exact Hn.
Qed.

Lemma firstn_plus {A : Type} (n m : nat) (l : list A) :
  firstn (n + m) l = firstn n l ++ firstn m (skipn n l).
Proof.
  revert l. induction n as [|n IH]; intros l; [reflexivity|].
  destruct l as [|x l]; [cbn; rewrite firstn_nil; reflexivity|].
  cbn [Nat.add firstn skipn app]. rewrite IH. reflexivity.
Qed.

Lemma slice_app (s : jsstring) (a b c : nat) :
  a <= b -> b <= c -> slice s a c = slice s a b ++ slice s b c.
Proof.
  intros H1 H2. unfold slice.
  replace (c - a) with ((b - a) + (c - b)) by lia.
  rewrite firstn_plus. f_equal. rewrite skipn_skipn.
  replace (b - a + a) with b by lia. reflexivity.
Qed.

Lemma slice_one (s : jsstring) (x : nat) (c : ascii) :
  nth_error s x = Some c -> slice s x (x + 1) = [c].
Proof.
  intros H. rewrite (slice_snoc s x x c) by (lia || exact H).
  unfold slice. rewrite Nat.sub_diag. reflexivity.
Qed.

Lemma leadingWhitespace_firstn (l : jsstring) :
  forallb isWhitespace (firstn (leadingWhitespace l) l) = true.
Proof.
  induction l as [|c l IH]; [reflexivity|]. cbn [leadingWhitespace].
  destruct (isWhitespace c) eqn:E; [|reflexivity].
  cbn [firstn forallb]. rewrite E, IH. reflexivity.
Qed.

Lemma slice_whitespace (s : jsstring) (cursor : nat) :
  forallb isWhitespace (slice s cursor (skipWhitespace s cursor)) = true.
Proof.
  unfold slice, skipWhitespace.
  replace (cursor + leadingWhitespace (skipn cursor s) - cursor)
    with (leadingWhitespace (skipn cursor s)) by lia.
  apply leadingWhitespace_firstn.
Qed.

Lemma slice_token (content post : jsstring) (start : nat) :
  skipn start content = pushToken ++ post ->
  slice content start (start + 19) = pushToken.
Proof.
  intros H. unfold slice. rewrite H.
  replace (start + 19 - start) with (length pushToken + 0)
    by (rewrite pushToken_length; lia).
  rewrite firstn_app_2. cbn [firstn]. apply app_nil_r.
Qed.

Lemma tryPushCall_accepted (content : jsstring) (start stop : nat) :
  tryPushCall content start = Accepted stop ->
  exists arrayStart arrayEnd afterArray,
    arrayStart = skipWhitespace content (start + 19)
    /\ charIs content arrayStart "["%char = true
    /\ findMatchingBracket content arrayStart = Some arrayEnd
    /\ afterArray = skipWhitespace content (arrayEnd + 1)
    /\ afterArray < length content
    /\ charIs content afterArray ")"%char = true
    /\ (stop = afterArray + 1
        \/ (stop = afterArray + 2
            /\ afterArray + 1 < length content
            /\ charIs content (afterArray + 1) ";"%char = true)).
Proof.
  unfold tryPushCall. rewrite pushToken_length.
  set (arrayStart := skipWhitespace content (start + 19)).
  destruct ((length content <=? arrayStart) || negb (charIs content arrayStart "["%char))
    eqn:Ec; [discriminate|].
  apply orb_false_iff in Ec as [_ Ec]. apply negb_false_iff in Ec.
  destruct (findMatchingBracket content arrayStart) as [arrayEnd|] eqn:E; [|discriminate].
  set (afterArray := skipWhitespace content (arrayEnd + 1)).
  destruct ((length content <=? afterArray) || negb (charIs content afterArray ")"%char))
    eqn:Eo; [discriminate|].
  apply orb_false_iff in Eo as [El Eb].
  apply Nat.leb_gt in El. apply negb_false_iff in Eb.
  intros H. exists arrayStart, arrayEnd, afterArray.
  repeat (split; [reflexivity || assumption|]).
  destruct ((afterArray + 1 <? length content) && charIs content (afterArray + 1) ";"%char)
    eqn:Es; injection H as <-.
  - apply andb_true_iff in Es as [Es1 Es2]. apply Nat.ltb_lt in Es1.
    right. split; [lia|]. auto.
  - left. reflexivity.
Qed.

Lemma snippetShape_trim (snippet : jsstring) :
  snippetShape snippet -> trim snippet = snippet.
Proof.
  intros (ws1 & inner & ws2 & semi & -> & _ & _ & Hsemi).
  change pushToken with ("s"%char :: skipn 1 pushToken).
  set (m := skipn 1 pushToken ++ ws1 ++ "["%char :: inner ++ "]"%char :: ws2).
  destruct Hsemi as [-> | ->].
  - replace (("s"%char :: skipn 1 pushToken)
               ++ ws1 ++ "["%char :: inner ++ "]"%char :: ws2 ++ [")"%char])
      with ("s"%char :: m ++ [")"%char]).
    + apply trim_id; reflexivity.
    + unfold m. cbn [app]. rewrite <- !app_assoc. cbn [app].
      rewrite <- !app_assoc. reflexivity.
  - replace (("s"%char :: skipn 1 pushToken)
               ++ ws1 ++ "["%char :: inner ++ "]"%char :: ws2 ++ [")"%char; ";"%char])
      with ("s"%char :: (m ++ [")"%char]) ++ [";"%char]).
    + apply trim_id; reflexivity.
    + unfold m. cbn [app]. rewrite <- !app_assoc. cbn [app].
      rewrite <- !app_assoc. reflexivity.
Qed.

(** The slice an accepted hit stands for. *)
Lemma accepted_slice (content post : jsstring) (start stop : nat) :
  skipn start content = pushToken ++ post ->
  tryPushCall content start = Accepted stop ->
  start < stop <= length content
  /\ snippetShape (slice content start stop).
Proof.
  intros Hs Ht.
  apply tryPushCall_accepted
    in Ht as (c & e & a & Hc & Hopen & Hfind & Ha & Hlen & Hclose & Hstop).
  pose proof (skipWhitespace_ge content (start + 19)) as G1. rewrite <- Hc in G1.
  pose proof (skipWhitespace_ge content (e + 1)) as G2. rewrite <- Ha in G2.
  pose proof (findMatchingBracket_depth content c Hopen) as Hd.
  rewrite Hfind in Hd. destruct Hd as (m & Hem & Hend & _).
  assert (Hce : c < e).
  { destruct (Nat.eq_dec c e) as [<-|]; [|lia].
    unfold charIs in Hopen, Hend. destruct (charAt content c); [|discriminate].
    apply ch_eqb_eq in Hopen, Hend. congruence. }
  apply charIs_nth in Hopen, Hend, Hclose.
  assert (Hbase : slice content start (a + 1)
                  = pushToken ++ slice content (start + 19) c
                      ++ "["%char :: slice content (c + 1) e
                      ++ "]"%char :: slice content (e + 1) a ++ [")"%char]).
  { rewrite (slice_app content start (start + 19) (a + 1)) by lia.
    rewrite (slice_token content post start Hs). f_equal.
    rewrite (slice_app content (start + 19) c (a + 1)) by lia. f_equal.
    rewrite (slice_app content c (c + 1) (a + 1)) by lia.
    rewrite (slice_one content c _ Hopen). cbn [app]. f_equal.
    rewrite (slice_app content (c + 1) e (a + 1)) by lia. f_equal.
    rewrite (slice_app content e (e + 1) (a + 1)) by lia.
    rewrite (slice_one content e _ Hend). cbn [app]. f_equal.
    rewrite (slice_app content (e + 1) a (a + 1)) by lia. f_equal.
    apply slice_one, Hclose. }
  assert (W1 : forallb isWhitespace (slice content (start + 19) c) = true)
    by (rewrite Hc; apply slice_whitespace).
  assert (W2 : forallb isWhitespace (slice content (e + 1) a) = true)
    by (rewrite Ha; apply slice_whitespace).
  destruct Hstop as [-> | (-> & Hl & Hsemi)].
  - split; [lia|].
    exists (slice content (start + 19) c), (slice content (c + 1) e),
           (slice content (e + 1) a), [].
    auto.
  - split; [lia|]. apply charIs_nth in Hsemi.
    exists (slice content (start + 19) c), (slice content (c + 1) e),
           (slice content (e + 1) a), [";"%char].
    repeat split; auto.
    replace (a + 2) with (a + 1 + 1) by lia.
    rewrite (slice_snoc content start (a + 1) ";"%char) by (lia || exact Hsemi).
    rewrite Hbase, <- !app_assoc. cbn [app]. rewrite <- !app_assoc. cbn [app].
    rewrite <- !app_assoc. reflexivity.
Qed.

Lemma slice_mid (content : jsstring) (si start stop : nat) :
  si <= start -> start <= stop -> stop <= length content ->
  skipn si content
  = firstn (start - si) (skipn si content) ++ slice content start stop
      ++ skipn stop content.
Proof.
  intros H1 H2 H3. rewrite (skipn_split content si start H1) at 1. f_equal.
  unfold slice. apply skipn_split. exact H2.
Qed.

Lemma extractPushCallsLoop_snippets (content : jsstring) (fuel : nat) :
  forall searchIndex calls r,
    extractPushCallsLoop fuel content searchIndex calls = Some r ->
    exists found,
      r = calls ++ found
      /\ occurInOrder found (skipn searchIndex content)
      /\ Forall snippetShape found.
Proof.
  induction fuel as [|fuel IH]; intros si calls r; [discriminate|].
  cbn [extractPushCallsLoop].
  assert (Hnone : Some calls = Some r ->
                  exists found, r = calls ++ found
                                /\ occurInOrder found (skipn si content)
                                /\ Forall snippetShape found).
  { intros [= <-]. exists []. rewrite app_nil_r. cbn. auto. }
  destruct (si <? length content) eqn:Hlt; [|exact Hnone].
  apply Nat.ltb_lt in Hlt.
  destruct (indexOf content pushToken si) as [start|] eqn:Ei; [|exact Hnone].
  apply indexOf_spec in Ei as (Hge & post & Hpost); [|lia].
  destruct (tryPushCall content start) as [next|stop] eqn:Et.
  - pose proof (tryPushCall_progress content start) as Hp. rewrite Et in Hp.
    intros H. apply IH in H as (found & -> & Ho & Hf).
    exists found. split; [reflexivity|]. split; [|exact Hf].
    rewrite (skipn_split content si next) by lia.
    apply occurInOrder_prefix, Ho.
  - destruct (accepted_slice content post start stop Hpost Et) as (Hb & Hshape).
    rewrite (snippetShape_trim _ Hshape). intros H. apply IH in H as (found & -> & Ho & Hf).
    exists (slice content start stop :: found).
    split; [rewrite <- app_assoc; reflexivity|]. split; [|constructor; assumption].
    cbn [occurInOrder].
    exists (firstn (start - si) (skipn si content)), (skipn stop content).
    split; [apply slice_mid; lia|exact Ho].
Qed.

(** X8.  What the Call Extractor returns, for every text: each snippet
    is the token, the argument array from its opening to a closing
    bracket with white space or none around it, the closing parenthesis
    and at most one semicolon; trimming it changes nothing; and the
    snippets lie in the text in the order they are returned, one behind
    the other, without overlap. *)
Theorem extractPushCalls_snippets (content : jsstring) :
  exists calls,
    extractPushCalls content = Some calls
    /\ occurInOrder calls content
    /\ Forall snippetShape calls
    /\ Forall (fun snippet => trim snippet = snippet) calls.
Proof.
  destruct (extractPushCalls_total content) as [calls Hc].
  exists calls. split; [exact Hc|].
  destruct (extractPushCallsLoop_snippets content _ 0 [] calls Hc)
    as (found & E & Ho & Hf).
  cbn [app skipn] in *. subst found.
  repeat split; try assumption.
  rewrite Forall_forall in Hf |- *. intros s Hs.
  apply snippetShape_trim, Hf, Hs.
Qed.

(** ** Snippet previews and debug information *)

Lemma collapseWhitespace_spaced (s : jsstring) :
  forall inRun,
    singleSpaced (collapseWhitespace inRun s) = true
    /\ (inRun = true -> headNotWhitespace (collapseWhitespace inRun s) = true).
Proof.
  induction s as [|c s IH]; intros inRun; [split; reflexivity|].
  cbn [collapseWhitespace]. destruct (isWhitespace c) eqn:E.
  - destruct inRun.
    + apply IH.
    + destruct (IH true) as [H1 H2]. split; [|discriminate].
      cbn [singleSpaced]. rewrite H1, (H2 eq_refl). reflexivity.
  - destruct (IH false) as [H1 _]. split.
    + cbn [singleSpaced]. rewrite E, H1. reflexivity.
    + intros _. cbn [headNotWhitespace]. rewrite E. reflexivity.
Qed.

Lemma headNotWhitespace_firstn (n : nat) (s : jsstring) :
  headNotWhitespace s = true -> headNotWhitespace (firstn n s) = true.
Proof. destruct n, s; auto. Qed.

Lemma singleSpaced_firstn (n : nat) (s : jsstring) :
  singleSpaced s = true -> singleSpaced (firstn n s) = true.
Proof.
  revert s. induction n as [|n IH]; intros [|c s] H; try reflexivity.
  cbn [singleSpaced] in H. apply andb_true_iff in H as [H1 H2].
  cbn [firstn singleSpaced]. rewrite (IH s H2), andb_true_r.
  destruct (isWhitespace c); [|reflexivity]. cbn [negb orb] in *.
  apply andb_true_iff in H1 as [-> H1].
  rewrite (headNotWhitespace_firstn n s H1). reflexivity.
Qed.

Lemma substring_zero (s : jsstring) (n : nat) : substring s 0 n = firstn n s.
Proof.
  unfold substring, slice. cbn [Nat.min skipn].
  rewrite Nat.max_0_l, Nat.sub_0_r.
  destruct (Nat.le_ge_cases n (length s)) as [H|H].
  - rewrite Nat.min_l by exact H. reflexivity.
  - rewrite Nat.min_r by exact H. rewrite !firstn_all2 by lia. reflexivity.
Qed.

Lemma preview_of_snippet (snippet : jsstring) :
  snippetShape snippet ->
  let preview := substring (collapseWhitespace false snippet) 0 120 in
  length preview <= 120
  /\ startsWith pushToken preview = true
  /\ singleSpaced preview = true.
Proof.
  intros (ws1 & inner & ws2 & semi & -> & _). cbv zeta.
  rewrite substring_zero. split; [|split].
  - rewrite length_firstn. lia.
  - set (rest := ws1 ++ _).
    change (firstn 120 (collapseWhitespace false (pushToken ++ rest)))
      with (pushToken ++ firstn 101 (collapseWhitespace false rest)).
    apply startsWith_app.
  - apply singleSpaced_firstn, collapseWhitespace_spaced.
Qed.

(** X17.  The preview of every result has at most 120 code units,
    starts with the token, and is single-spaced: its only white space is
    the space, and no two stand side by side. *)
Theorem snippetPreview_summary (content : jsstring) :
  exists agg,
    parseDocumentContent content = Some agg
    /\ Forall (fun r =>
                 length (snippetPreview r) <= 120
                 /\ startsWith pushToken (snippetPreview r) = true
                 /\ singleSpaced (snippetPreview r) = true)
              (results agg).
Proof.
  destruct (parseDocumentContent_eq content) as (calls & Hc & Hp).
  cbv zeta in Hp. eexists. split; [exact Hp|]. cbn [results].
  destruct (extractPushCallsLoop_snippets content _ 0 [] calls Hc)
    as (found & E & _ & Hf).
  cbn [app] in E. subst found.
  rewrite Forall_forall in Hf |- *. intros r Hr.
  apply in_map_iff in Hr as ([i s] & <- & Hin).
  cbn [indexedResult snippetPreview snd].
  apply preview_of_snippet, Hf. apply in_combine_r in Hin. exact Hin.
Qed.

(** X15.  A result carries no debug information exactly when it is a
    success tagged component-data: every failure and every module-loading
    result has some. *)
Theorem debugInfo_presence (snippet : jsstring) :
  debugInfo (parseScriptContentDetailed snippet) = None
  <-> success (parseScriptContentDetailed snippet) = true
      /\ dataType (parseScriptContentDetailed snippet) = Some ComponentData.
Proof.
  unfold parseScriptContentDetailed, parseScriptContentTry.
  destruct (extractDataFromScript snippet) as [clean|m];
    [|cbn; split; [discriminate|intros [? _]; discriminate]].
  destruct (JSON_parse clean) as [parsed|m];
    [|cbn; split; [discriminate|intros [? _]; discriminate]].
  assert (Hbad : forall r : ParseResult,
             success r = false -> debugInfo r <> None ->
             debugInfo r = None <-> success r = true /\ dataType r = Some ComponentData).
  { intros r Hs Hd. split; [contradiction|]. intros [H _]. congruence. }
  assert (Hgo : forall v,
             debugInfo (componentDataResult v) = None
             <-> success (componentDataResult v) = true
                 /\ dataType (componentDataResult v) = Some ComponentData)
    by (intros v; cbn; tauto).
  destruct parsed as [| | | |items|]; try (apply Hbad; [reflexivity|discriminate]).
  destruct items as [|x [|componentData items]];
    try (apply Hbad; [reflexivity|discriminate]).
  destruct componentData; try apply Hgo.
  unfold stringPayload. destruct (payloadBranch s).
  - cbn. split; [discriminate|intros [_ ?]; discriminate].
  - destruct (JSON_parse _); [apply Hgo|apply Hbad; [reflexivity|discriminate]].
  - destruct (JSON_parse _); apply Hgo.
  - apply Hgo.
Qed.

(** ** The React formatter *)

Lemma wsOnly_spacesOf (indent : nat) : wsOnly (spacesOf indent) = true.
Proof. induction indent as [|n IH]; [reflexivity|]. cbn [spacesOf]. exact IH. Qed.

Lemma JSON_parse_indented (indent : nat) (s : jsstring) :
  JSON_parse (spacesOf indent ++ quoteJSONString s) = Ok (JStr s).
Proof.
  unfold JSON_parse. rewrite parseValue_ws by apply wsOnly_spacesOf.
  pose proof (parseValue_serialize [] eq_refl (JStr s) eq_refl [] []
                (2 * length (spacesOf indent ++ quoteJSONString s) + 2)
                eq_refl eq_refl) as H.
  cbn [serialize] in H. rewrite app_nil_r in H. rewrite H by (cbn [json_size]; lia).
  reflexivity.
Qed.

(** X18.  The React formatter writes a Text node as the JSON string
    literal of its text behind two spaces for each level of indentation,
    and [JSON.parse] reads the text back from that line; for a payload
    that is a string, formatting the nodes of the payload gives the
    literal of the string. *)
Theorem text_rendered_as_json (s : jsstring) (indent : nat) :
  componentToReactString (textNode s) indent
  = Ok (spacesOf indent ++ quoteJSONString s)
  /\ JSON_parse (spacesOf indent ++ quoteJSONString s) = Ok (JStr s)
  /\ formatAsReactComponents (parseComponentStructure (JStr s))
     = Ok (quoteJSONString s).
Proof.
  split; [reflexivity|]. split; [apply JSON_parse_indented|reflexivity].
Qed.

Lemma toStringJS_string (name : json) :
  isString name = true -> exists tag, toStringJS name = Ok tag.
Proof. intros H. destruct name; try discriminate H. eexists. reflexivity. Qed.

Lemma mapResult_ok {A B : Type} (f : A -> result B) (l : list A) :
  Forall (fun x => exists y, f x = Ok y) l -> exists ys, mapResult f l = Ok ys.
Proof.
  induction 1 as [|x l [y Hy] _ [ys IH]]; [exists []; reflexivity|].
  cbn [mapResult]. rewrite Hy, IH. cbn [bind]. eauto.
Qed.

Lemma componentToReactString_named (c : ParsedComponent) :
  namedByStrings c = true ->
  forall indent, exists out, componentToReactString c indent = Ok out.
Proof.
  induction c as [type name props|type name props children IH]
    using ParsedComponent_ind; intros Hn indent.
  - cbn [namedByStrings] in Hn. rewrite andb_true_r in Hn.
    cbn [componentToReactString]. destruct (str_eqb type (str "text")); [eauto|].
    destruct (toStringJS_string name Hn) as [tag ->]. cbn [bind]. eauto.
  - cbn [namedByStrings] in Hn. apply andb_true_iff in Hn as [Hn Hc].
    cbn [componentToReactString]. destruct (str_eqb type (str "text")); [eauto|].
    destruct (toStringJS_string name Hn) as [tag Ht].
    destruct children as [|ch children]; [rewrite Ht; cbn [bind]; eauto|].
    set (f := fun child : ParsedComponent + jsstring =>
                match child with
                | inr s => Ok (spacesOf (indent + 1) ++ JSON_stringify (JStr s) 0)
                | inl node => componentToReactString node (indent + 1)
                end).
    assert (He : exists cs, mapResult f (ch :: children) = Ok cs).
    { apply mapResult_ok. rewrite Forall_forall. rewrite Forall_forall in IH.
      rewrite forallb_forall in Hc. intros x Hx. specialize (IH x Hx).
      specialize (Hc x Hx). destruct x as [node|s]; [apply IH, Hc|].
      eexists. reflexivity. }
    destruct He as [cs ->]. rewrite Ht. cbn [bind]. eauto.
Qed.

(** X19.  The React formatter returns a text for every node sequence
    in which each node is named by a string; it can throw only through
    the name of an Element, and does for a name that is an object with a
    property [toString] of its own. *)
Theorem react_format_total (components : list ParsedComponent) :
  (forallb namedByStrings components = true ->
   exists out, formatAsReactComponents components = Ok out)
  /\ (forall type props o indent,
         str_eqb type (str "text") = false ->
         obj_has (str "toString") o = true ->
         componentToReactString (mkParsedComponent type (JObj o) props None) indent
         = Throw cannotConvert).
Proof.
  split.
  - intros H. unfold formatAsReactComponents.
    destruct (mapResult_ok (fun comp => componentToReactString comp 0) components)
      as [ys ->]; [|cbn [bind]; eauto].
    rewrite Forall_forall. rewrite forallb_forall in H.
    intros c Hc. apply componentToReactString_named, H, Hc.
  - intros type props o indent Ht Ho. cbn [componentToReactString toStringJS].
    rewrite Ht, Ho. reflexivity.
Qed.

Lemma filter_null_insert (props1 props2 : object) (k : jsstring) :
  filter (fun entry => negb (isNull (snd entry))) (props1 ++ (k, JNull) :: props2)
  = filter (fun entry => negb (isNull (snd entry))) (props1 ++ props2).
Proof. rewrite !filter_app. reflexivity. Qed.

(** X20.  The React formatter leaves out the properties whose value is
    [null]: an Element is written the same with such a property and
    without it. *)
Theorem null_props_omitted
        (type : jsstring) (name : json) (props1 props2 : object) (k : jsstring)
        (children : option (list (ParsedComponent + jsstring))) (indent : nat) :
  str_eqb type (str "text") = false ->
  componentToReactString
    (mkParsedComponent type name (props1 ++ (k, JNull) :: props2) children) indent
  = componentToReactString
      (mkParsedComponent type name (props1 ++ props2) children) indent.
Proof.
  intros Ht. cbn [componentToReactString]. rewrite Ht.
  unfold propsStringOf. rewrite filter_null_insert. reflexivity.
Qed.

Lemma null_props_omitted_witness :
  componentToReactString
    (mkParsedComponent (str "component") (JStr (str "div"))
                       ([(str "a", JNum (Int 1))] ++ (str "z", JNull) :: [])
                       None) 0
  = componentToReactString
      (mkParsedComponent (str "component") (JStr (str "div"))
                         ([(str "a", JNum (Int 1))] ++ []) None) 0.
Proof.
  apply (null_props_omitted (str "component") (JStr (str "div"))
                            [(str "a", JNum (Int 1))] [] (str "z") None 0).
  reflexivity.
Defined.

(** ** The handlers of [App] *)

Lemma aggregate_invariants (content : jsstring) (agg : AggregatedParseResult) :
  parseDocumentContent content = Some agg ->
  Forall (fun r => resultShape (base r)) (results agg)
  /\ (exists calls,
         results agg = map indexedResult (combine (seq 0 (length calls)) calls))
  /\ totalScripts agg = length (results agg)
  /\ successCount agg
     = length (filter (fun r => success (base r) && dataTypeIs r ComponentData)
                      (results agg))
  /\ failureCount agg
     = length (filter (fun r => negb (success (base r))) (results agg))
  /\ totalScripts agg = successCount agg + moduleLoadingCount agg + failureCount agg.
Proof.
  intros Hp. destruct (parseDocumentContent_eq content) as (pushCalls & E & H).
  cbv zeta in H. rewrite Hp in H. injection H as ->.
  cbn [totalScripts successCount moduleLoadingCount failureCount results].
  pose proof (results_shape (combine (seq 0 (length pushCalls)) pushCalls)) as Hs.
  set (rs := map indexedResult (combine (seq 0 (length pushCalls)) pushCalls)) in *.
  assert (Hm : filter (fun r => dataTypeIs r ModuleLoading) rs
               = filter (fun r => success (base r) && dataTypeIs r ModuleLoading) rs).
  { apply (filter_ext_Forall _ _ _ _ Hs). intros r Hr.
    unfold resultShape in Hr. unfold dataTypeIs.
    destruct (success (base r)); [reflexivity|].
    destruct Hr as (_ & -> & _). reflexivity. }
  rewrite Hm. split; [exact Hs|]. split; [exists pushCalls; reflexivity|].
  repeat split; try reflexivity. apply three_way_count, Hs.
Qed.

(** A failure has a message that is not empty, and no tag. *)
Lemma failure_message (snippet : jsstring) :
  success (parseScriptContentDetailed snippet) = false ->
  dataType (parseScriptContentDetailed snippet) = None
  /\ exists c e, error (parseScriptContentDetailed snippet) = Some (c :: e).
Proof.
  unfold parseScriptContentDetailed, parseScriptContentTry.
  destruct (extractDataFromScript snippet) as [clean|m];
    [|intros _; split; [reflexivity|cbn; eauto]].
  destruct (JSON_parse clean) as [parsed|m];
    [|intros _; split; [reflexivity|cbn; eauto]].
  assert (Hbad : forall d : option jsstring,
             let r := {| success := false; components := [];
                         error := Some (str "Invalid data structure: Expected array with at least 2 elements");
                         dataType := None; debugInfo := d |} in
             success r = false ->
             dataType r = None /\ exists c e, error r = Some (c :: e)).
  { intros d r _. split; [reflexivity|cbn; eauto]. }
  destruct parsed as [| | | |items|]; try apply Hbad.
  destruct items as [|x [|componentData items]]; try apply Hbad.
  destruct componentData; try discriminate.
  unfold stringPayload. destruct (payloadBranch s).
  - discriminate.
  - destruct (JSON_parse _); [discriminate|].
    intros _. split; [reflexivity|cbn; eauto].
  - destruct (JSON_parse _); discriminate.
  - discriminate.
Qed.

Lemma failureDetail_exact (entry : nat * jsstring) :
  success (base (indexedResult entry)) = false ->
  exists c e,
    error (base (indexedResult entry)) = Some (c :: e)
    /\ failureDetail (indexedResult entry)
       = str "#" ++ natToString (fst entry + 1) ++ str ": " ++ (c :: e)
           ++ newline ++ str "   Snippet: " ++ snippetPreview (indexedResult entry).
Proof.
  intros Hs. cbn [indexedResult base] in Hs.
  destruct (failure_message (snd entry) Hs) as (Hd & c & e & He).
  exists c, e. unfold failureDetail, dataTypeIs.
  cbn [indexedResult base index]. rewrite He, Hd. split; reflexivity.
Qed.

Lemma join_head_nonempty (sep p : jsstring) (ps : list jsstring) (c : ascii) (t : jsstring) :
  p = c :: t -> startsWith [c] (join sep (p :: ps)) = true.
Proof.
  intros ->. destruct ps as [|q ps].
  - cbn [join startsWith]. rewrite ch_eqb_refl. reflexivity.
  - rewrite join_cons. cbn [app startsWith]. rewrite ch_eqb_refl. reflexivity.
Qed.

Lemma failureDetail_head (result : IndexedParseResult) :
  exists t, failureDetail result = "#"%char :: t.
Proof. unfold failureDetail. eexists. reflexivity. Qed.

Lemma failureDetailsOf_head (agg : AggregatedParseResult) :
  0 < length (filter (fun result => negb (success (base result))) (results agg)) ->
  exists t, failureDetailsOf agg = "#"%char :: t.
Proof.
  unfold failureDetailsOf. intros H.
  destruct (filter _ (results agg)) as [|r rs]; [simpl in H; lia|].
  cbn [map]. destruct (failureDetail_head r) as [t Ht].
  pose proof (join_head_nonempty (newline ++ newline) _ (map failureDetail rs) _ _ Ht) as Hj.
  destruct (join (newline ++ newline) (failureDetail r :: map failureDetail rs))
    as [|c u]; [discriminate|].
  cbn [startsWith] in Hj. apply andb_true_iff in Hj as [Hj _].
  apply ch_eqb_eq in Hj. subst c. eauto.
Qed.

Lemma components_shaped (snippet : jsstring) :
  forallb nodeShape (components (parseScriptContentDetailed snippet)) = true.
Proof.
  unfold parseScriptContentDetailed, parseScriptContentTry.
  destruct (extractDataFromScript snippet) as [clean|m]; [|reflexivity].
  destruct (JSON_parse clean) as [parsed|m]; [|reflexivity].
  assert (Hgo : forall v, forallb nodeShape (components (componentDataResult v)) = true)
    by (intros v; apply (proj1 (built_shaped _))).
  destruct parsed as [| | | |items|]; try reflexivity.
  destruct items as [|x [|componentData items]]; try reflexivity.
  destruct componentData; try apply Hgo.
  unfold stringPayload. destruct (payloadBranch s).
  - reflexivity.
  - destruct (JSON_parse _); [apply Hgo|reflexivity].
  - destruct (JSON_parse _); apply Hgo.
  - apply Hgo.
Qed.

Lemma combined_shaped (content : jsstring) (agg : AggregatedParseResult) :
  parseDocumentContent content = Some agg ->
  forallb nodeShape (combinedComponents agg) = true.
Proof.
  intros Hp. destruct (extractPushCalls_total content) as [calls Hc].
  destruct (parseDocumentContent_of_calls content calls Hc) as (agg' & Hp' & _ & _ & _ & Hn).
  rewrite Hp in Hp'. injection Hp' as <-. rewrite Hn.
  apply forallb_flat_map. intros s _. unfold nodesOfCall.
  destruct (success _); [apply components_shaped|reflexivity].
Qed.

Lemma react_head (c : ParsedComponent) (indent : nat) (out : jsstring) :
  nodeShape c = true ->
  componentToReactString c indent = Ok out ->
  exists t, out = spacesOf indent ++ dquote :: t
            \/ out = spacesOf indent ++ "<"%char :: t.
Proof.
  destruct c as [type name props children]. cbn [nodeShape componentToReactString].
  destruct (str_eqb type (str "text")).
  - intros H.
    destruct name; try discriminate H.
    destruct props as [|[k v] props']; try discriminate H.
    destruct v; try (destruct props'; discriminate H).
    destruct props'; try discriminate H.
    destruct children; try discriminate H.
    apply andb_true_iff in H as [_ H]. apply str_eqb_eq in H. subst k.
    intros [= <-]. eexists. left. reflexivity.
  - intros _. destruct children as [[|ch l]|].
    + destruct (toStringJS name); [|discriminate]. cbn [bind]. intros [= <-].
      eexists. right. reflexivity.
    + destruct (mapResult _ _); [|discriminate]. cbn [bind].
      destruct (toStringJS name); [|discriminate]. cbn [bind]. intros [= <-].
      eexists. right. reflexivity.
    + destruct (toStringJS name); [|discriminate]. cbn [bind]. intros [= <-].
      eexists. right. reflexivity.
Qed.

Lemma formatAsReactComponents_head (components : list ParsedComponent) (out : jsstring) :
  forallb nodeShape components = true ->
  formatAsReactComponents components = Ok out ->
  components = [] /\ out = []
  \/ exists t, out = dquote :: t \/ out = "<"%char :: t.
Proof.
  intros Hs. unfold formatAsReactComponents.
  destruct components as [|c l]; [intros [= <-]; auto|].
  cbn [forallb] in Hs. apply andb_true_iff in Hs as [Hc _].
  cbn [mapResult]. destruct (componentToReactString c 0) as [o|] eqn:Ec; [|discriminate].
  cbn [bind]. destruct (mapResult _ l) as [os|]; [|discriminate]. cbn [bind].
  intros [= <-]. right.
  destruct (react_head c 0 o Hc Ec) as [t [-> | ->]]; cbn [spacesOf app];
    destruct os as [|o' os]; eauto.
Qed.

Lemma formatAsReadableJson_head (components : list ParsedComponent) :
  exists t, formatAsReadableJson components = "["%char :: t.
Proof.
  unfold formatAsReadableJson, jsonOfComponents, JSON_stringify.
  destruct components as [|c l]; [eexists; reflexivity|].
  cbn [map]. rewrite serialize_array. eexists. reflexivity.
Qed.

(** X22.  [handleParse] never shows the text [All detected script
    payloads were non-component data.]: in the branch that has it as a
    default, the one that reports [Unable to parse any ... call], no call
    was a component-data success and at least one failed, so the output
    is the failure list and starts with [#]. *)
Theorem non_component_default_unused (st st' : AppState) :
  handleParse st = Some st' ->
  output st' <> nonComponentOutput
  /\ (parseInfo st' = unableInfo ->
      exists agg,
        parseDocumentContent (input st) = Some agg
        /\ successCount agg = 0
        /\ 0 < failureCount agg
        /\ startsWith (str "#") (output st') = true).
Proof.
  unfold handleParse. cbn [input setParseInfo setParseStatus].
  destruct (parseDocumentContent (input st)) as [agg|] eqn:Hp; [|discriminate].
  destruct (aggregate_invariants (input st) agg Hp) as (_ & _ & _ & _ & Hf & Hsum).
  pose proof (combined_shaped _ _ Hp) as Hshape.
  unfold handleAggregate.
  destruct (totalScripts agg =? 0) eqn:Et.
  { intros [= <-]. split; discriminate. }
  apply Nat.eqb_neq in Et.
  destruct (0 <? successCount agg) eqn:Es.
  { cbn [outputFormat setParseInfo setParseStatus].
    assert (Hjson : forall rest,
               formatAsReadableJson (combinedComponents agg) ++ rest <> nonComponentOutput).
    { intros rest. destruct (formatAsReadableJson_head (combinedComponents agg)) as [t ->].
      discriminate. }
    assert (Hreact : forall out rest,
               formatAsReactComponents (combinedComponents agg) = Ok out ->
               (out = [] -> rest <> nonComponentOutput) ->
               out ++ rest <> nonComponentOutput).
    { intros out rest Ho Hrest.
      destruct (formatAsReactComponents_head _ _ Hshape Ho) as [[_ ->]|[t [-> | ->]]];
        [apply Hrest; reflexivity | discriminate | discriminate]. }
    destruct (outputFormat st).
    - cbn [bind]. destruct (0 <? failureCount agg); intros [= <-]; cbn [output setOutput parseInfo].
      + split; [apply Hjson|discriminate].
      + split; [rewrite <- (app_nil_r (formatAsReadableJson _)); apply Hjson|discriminate].
    - destruct (formatAsReactComponents (combinedComponents agg)) as [out|m] eqn:Er;
        cbn [bind].
      + destruct (0 <? failureCount agg); intros [= <-]; cbn [output setOutput parseInfo].
        * split; [apply (Hreact out _ eq_refl); discriminate|discriminate].
        * split; [|discriminate]. rewrite <- (app_nil_r out).
          apply (Hreact out [] eq_refl). discriminate.
      + intros [= <-]. cbn [output setOutput parseInfo]. split; discriminate. }
  apply Nat.ltb_ge in Es.
  destruct ((0 <? moduleLoadingCount agg) && (failureCount agg =? 0)) eqn:Em.
  { intros [= <-]. cbn [output setOutput parseInfo]. split; discriminate. }
  assert (Hfail : 0 < failureCount agg).
  { apply andb_false_iff in Em as [Em|Em];
      [apply Nat.ltb_ge in Em | apply Nat.eqb_neq in Em]; lia. }
  assert (Hhead : exists t, failureDetailsOf agg = "#"%char :: t)
    by (apply failureDetailsOf_head; rewrite <- Hf; exact Hfail).
  destruct Hhead as [t Ht].
  intros [= <-]. cbn [output setOutput parseInfo filter].
  rewrite Ht. cbn [length Nat.eqb negb].
  destruct (negb (length (trim (moduleSummaryOf agg)) =? 0));
    [rewrite join_cons | rewrite join_one]; cbn [app orElse];
    (split; [discriminate|]); intros _; exists agg;
    repeat split; try assumption; lia.
Qed.

(** X23.  In the failure list of [handleParse], a failed call is
    written as [#], its index plus one, a colon, its own error message,
    and its snippet preview on the next line: a failure always has a
    message that is not empty and is never tagged module-loading, so
    neither [Unknown error] nor the module-loading hint is written. *)
Theorem failure_details_exact (content : jsstring) :
  exists agg,
    parseDocumentContent content = Some agg
    /\ Forall (fun r =>
                 success (base r) = false ->
                 dataTypeIs r ModuleLoading = false
                 /\ exists c e,
                      error (base r) = Some (c :: e)
                      /\ failureDetail r
                         = str "#" ++ natToString (index r + 1) ++ str ": " ++ (c :: e)
                             ++ newline ++ str "   Snippet: " ++ snippetPreview r)
              (results agg).
Proof.
  destruct (parseDocumentContent_eq content) as (calls & _ & Hp).
  cbv zeta in Hp. eexists. split; [exact Hp|]. cbn [results].
  rewrite Forall_forall. intros r Hr.
  apply in_map_iff in Hr as (entry & <- & _). intros Hs.
  split.
  - cbn [indexedResult base] in Hs. unfold dataTypeIs. cbn [indexedResult base].
    destruct (failure_message (snd entry) Hs) as [-> _]. reflexivity.
  - destruct (failureDetail_exact entry Hs) as (c & e & He & Hd).
    exists c, e. split; [exact He|]. rewrite Hd. reflexivity.
Qed.

Lemma non_component_default_unused_witness :
  exists st',
    handleParse {| input := qstr "self.__next_f.push([1,'7:[1,'])";
                   output := [];
                   outputFormat := JsonFormat;
                   parseStatus := Idle;
                   parseInfo := [] |} = Some st'
    /\ output st' <> nonComponentOutput
    /\ (parseInfo st' = unableInfo ->
        exists agg,
          parseDocumentContent (qstr "self.__next_f.push([1,'7:[1,'])") = Some agg
          /\ successCount agg = 0
          /\ 0 < failureCount agg
          /\ startsWith (str "#") (output st') = true).
Proof.
  eexists. split; [vm_compute; reflexivity|].
  apply (non_component_default_unused
           {| input := qstr "self.__next_f.push([1,'7:[1,'])";
              output := [];
              outputFormat := JsonFormat;
              parseStatus := Idle;
              parseInfo := [] |}).
  vm_compute. reflexivity.
Defined.

(** ** A payload that ends in a backslash and an [n] *)

Lemma parseStringBody_prefix (s rest : jsstring) :
  forall acc,
    parseStringBody (flat_map quoteChar s ++ rest) acc
    = parseStringBody rest (acc ++ s).
Proof.
  induction s as [|c s IH]; intros acc.
  - cbn [flat_map app]. rewrite app_nil_r. reflexivity.
  - cbn [flat_map]. rewrite <- app_assoc, parseStringBody_quoteChar, IH.
    rewrite <- app_assoc. reflexivity.
Qed.

(** The text of a two-element array whose string lost the [n] of its
    last escape does not parse: the closing quote is escaped. *)
Lemma JSON_parse_open_string (id : json) (s : jsstring) :
  jsonOk id = true ->
  JSON_parse ("["%char :: serialize [] [] id ++ ","%char :: dquote
                :: flat_map quoteChar s ++ ["\"%char; dquote; "]"%char])
  = Throw unexpectedEnd.
Proof.
  intros Hid. unfold JSON_parse.
  set (bad := dquote :: flat_map quoteChar s ++ ["\"%char; dquote; "]"%char]).
  set (text := "["%char :: serialize [] [] id ++ ","%char :: bad).
  pose proof (serialize_length [] id Hid []) as Hsize.
  assert (Hlen : length (serialize [] [] id) + 4 <= length text).
  { unfold text, bad. cbn [length]. rewrite length_app. cbn [length].
    rewrite length_app. cbn [length]. lia. }
  assert (Hsz : 1 <= json_size id) by (destruct id; simpl; lia).
  remember (2 * length text + 2) as fuel eqn:Ef.
  destruct fuel as [|[|[|[|fuel]]]]; try lia.
  unfold text. rewrite parseValue_array.
  destruct (serialize_head [] [] id Hid) as (c & t & E & Hc1 & Hc2 & _).
  rewrite E. cbn [app]. rewrite skipWs_head by exact Hc1. rewrite Hc2.
  change (c :: t ++ ","%char :: bad) with ((c :: t) ++ ","%char :: bad).
  rewrite <- E. cbn [parseElements].
  rewrite (parseValue_serialize [] eq_refl id Hid [] (","%char :: bad) (S (S fuel))
                                eq_refl eq_refl) by lia.
  rewrite skipWs_head by reflexivity.
  change (ch_eqb ","%char ","%char) with true. cbv iota.
  cbn [parseElements]. unfold bad. rewrite parseValue_string.
  rewrite parseStringBody_prefix. reflexivity.
Qed.

Lemma quote_backslash_n (s : jsstring) :
  quoteJSONString (s ++ str "\n")
  = dquote :: flat_map quoteChar s ++ "\"%char :: str "\n" ++ [dquote].
Proof.
  unfold quoteJSONString. rewrite flat_map_app. cbn [flat_map].
  rewrite <- !app_assoc. reflexivity.
Qed.

(** X11.  The cleanup of the Payload Decoder takes the escape of a
    backslash for an escaped newline: a call [[id, s]] written by
    [JSON.stringify] whose string [s] ends in a backslash and an [n]
    fails, with the message [Parse failed: Unable to parse script content
    as JSON: ...], because removing the two code units leaves the closing
    quote of the string escaped. *)
Theorem literal_backslash_n_lost (id : json) (s : jsstring) :
  jsonOk id = true ->
  exists message,
    extractDataFromScript (callOf [id; JStr (s ++ str "\n")] 0)
    = Throw (str "Unable to parse script content as JSON: " ++ message)
    /\ success (parseScriptContentDetailed (callOf [id; JStr (s ++ str "\n")] 0))
       = false
    /\ error (parseScriptContentDetailed (callOf [id; JStr (s ++ str "\n")] 0))
       = Some (str "Parse failed: Unable to parse script content as JSON: " ++ message).
Proof.
  intros Hid. exists unexpectedEnd.
  assert (He : extractDataFromScript (callOf [id; JStr (s ++ str "\n")] 0)
               = Throw (str "Unable to parse script content as JSON: " ++ unexpectedEnd)).
  { unfold callOf. rewrite JSON_stringify_compact, serialize_array.
    cbn [opening app map]. rewrite join_cons, join_one. cbn [serialize].
    rewrite quote_backslash_n.
    set (head := serialize [] [] id ++ ","%char :: dquote :: flat_map quoteChar s
                   ++ ["\"%char]).
    assert (E1 : "["%char :: (serialize [] [] id ++ [","%char]
                     ++ dquote :: flat_map quoteChar s ++ "\"%char :: str "\n" ++ [dquote])
                   ++ ["]"%char]
                 = "["%char :: (head ++ str "\n" ++ [dquote]) ++ ["]"%char]).
    { unfold head. f_equal. rewrite <- !app_assoc. cbn [app].
      rewrite <- !app_assoc. reflexivity. }
    rewrite E1.
    pose proof (extractDataFromScript_bracketed (head ++ str "\n" ++ [dquote]) []
                                                (or_introl eq_refl)) as Hx.
    rewrite app_nil_r in Hx. rewrite Hx by (destruct head; discriminate).
    assert (E2 : "["%char :: (head ++ str "\n" ++ [dquote]) ++ ["]"%char]
                 = ("["%char :: head) ++ escapedNewlineClose).
    { unfold escapedNewlineClose. cbn [app]. rewrite <- ?app_assoc. reflexivity. }
    rewrite E2. unfold stripNewlineBeforeClose.
    rewrite endsWith_app, dropLast_app by reflexivity.
    assert (E3 : ("["%char :: head) ++ [dquote; "]"%char]
                 = ("["%char :: serialize [] [] id ++ ","%char :: dquote
                      :: flat_map quoteChar s ++ ["\"%char; dquote]) ++ ["]"%char]).
    { unfold head. cbn [app]. rewrite <- ?app_assoc. cbn [app].
      rewrite <- ?app_assoc. reflexivity. }
    rewrite E3, stripNewlineAtEnd_bracket.
    cbn [app]. rewrite <- ?app_assoc. cbn [app].
    replace ((flat_map quoteChar s ++ ["\"%char; dquote]) ++ ["]"%char])
      with (flat_map quoteChar s ++ ["\"%char; dquote; "]"%char])
      by (rewrite <- app_assoc; reflexivity).
    rewrite (JSON_parse_open_string id s Hid). reflexivity. }
  split; [exact He|].
  unfold parseScriptContentDetailed, parseScriptContentTry. rewrite He.
  split; reflexivity.
Qed.

Lemma literal_backslash_n_lost_witness :
  exists message,
    extractDataFromScript (callOf [JNum (Int 1); JStr (str "a" ++ str "\n")] 0)
    = Throw (str "Unable to parse script content as JSON: " ++ message)
    /\ success (parseScriptContentDetailed
                  (callOf [JNum (Int 1); JStr (str "a" ++ str "\n")] 0))
       = false
    /\ error (parseScriptContentDetailed
                (callOf [JNum (Int 1); JStr (str "a" ++ str "\n")] 0))
       = Some (str "Parse failed: Unable to parse script content as JSON: " ++ message).
Proof.
  apply (literal_backslash_n_lost (JNum (Int 1)) (str "a")). reflexivity.
Defined.

(** ** Descriptors read back *)

Lemma descriptorOf_eq (c : ParsedComponent) :
  descriptorOf c
  = [JStr (str "$"); pc_component c; JNull;
     JObj (pc_props c
             ++ match pc_children c with
                | Some l => [(str "children", JArr (map childValue l))]
                | None => []
                end)].
Proof. destruct c as [type name props [l|]]; reflexivity. Qed.

Lemma obj_get_snoc (k : jsstring) (v : json) (o : object) :
  obj_has k o = false -> obj_get k (o ++ [(k, v)]) = Some v.
Proof.
  unfold obj_has. induction o as [|[k' v'] o IH]; cbn [app obj_get].
  - rewrite str_eqb_refl. reflexivity.
  - destruct (str_eqb k k'); [discriminate|]. exact IH.
Qed.

Lemma obj_delete_snoc (k : jsstring) (v : json) (o : object) :
  obj_has k o = false -> obj_delete k (o ++ [(k, v)]) = o.
Proof.
  unfold obj_has, obj_delete. induction o as [|[k' v'] o IH]; cbn [app filter fst obj_get].
  - rewrite str_eqb_refl. reflexivity.
  - destruct (str_eqb k k'); [discriminate|]. cbn [negb]. intros H.
    rewrite (IH H). reflexivity.
Qed.

Lemma headIsDollar_children (l : list (ParsedComponent + jsstring)) :
  firstNotMarker l = true -> headIsDollar (map childValue l) = false.
Proof.
  destruct l as [|[c|s] l]; try reflexivity.
  cbn [firstNotMarker map childValue headIsDollar isDollar].
  intros H. apply negb_true_iff in H. exact H.
Qed.

Lemma parseComponent_descriptor (c : ParsedComponent) :
  describable c = true -> parseComponent (descriptorOf c) = Some c.
Proof.
  induction c as [type name props|type name props children IH]
    using ParsedComponent_ind; cbn [describable]; intros H;
    apply andb_true_iff in H as [Ht H]; apply str_eqb_eq in Ht; subst type;
    rewrite parseComponent_eq, descriptorOf_eq;
    cbn [pc_component pc_props pc_children length Nat.ltb Nat.leb headIsDollar isDollar];
    change (str_eqb (str "$") (str "$")) with true; cbn [negb orb]; cbv zeta;
    unfold propsOf, componentTypeOf; cbn [nth_error nth truthy getChildren spread].
  - rewrite app_nil_r.
    destruct (obj_get (str "children") props) as [v|]; [|reflexivity].
    apply negb_true_iff in H. rewrite H. reflexivity.
  - apply andb_true_iff in H as [H Hall]. apply andb_true_iff in H as [Hno Hfirst].
    apply negb_true_iff in Hno.
    rewrite obj_get_snoc by exact Hno. cbn [truthy].
    rewrite obj_delete_snoc by exact Hno.
    do 3 f_equal. rewrite parseChildren_eq, headIsDollar_children by exact Hfirst.
    clear Hfirst Hno. induction IH as [|ch l Hch _ IHl]; [reflexivity|].
    cbn [forallb] in Hall. apply andb_true_iff in Hall as [Hc Hl].
    cbn [map flat_map]. rewrite (IHl Hl).
    destruct ch as [c'|s]; cbn [childValue childItem]; [|reflexivity].
    rewrite (Hch Hc). reflexivity.
Qed.

(** X5.  The Tree Builder reads every describable Element back from its
    descriptor: [parseComponent] returns the Element itself, and both
    traversals return it alone, children and their children included. *)
Theorem descriptor_round_trip (c : ParsedComponent) :
  describable c = true ->
  parseComponent (descriptorOf c) = Some c
  /\ parseComponentStructure (JArr (descriptorOf c)) = [c]
  /\ parseChildren (JArr (descriptorOf c)) = [inl c].
Proof.
  intros H. pose proof (parseComponent_descriptor c H) as Hp.
  split; [exact Hp|].
  rewrite parseComponentStructure_eq, parseChildren_eq, Hp, descriptorOf_eq.
  cbn [headIsDollar isDollar]. change (str_eqb (str "$") (str "$")) with true.
  split; reflexivity.
Qed.

Lemma descriptor_round_trip_witness :
  parseComponent
    (descriptorOf
       (mkParsedComponent (str "component") (JStr (str "div"))
                          [(str "className", JStr (str "a"))]
                          (Some [inr (str "hi");
                                 inl (mkParsedComponent (str "component") (JStr (str "b"))
                                                        [] None)])))
  = Some (mkParsedComponent (str "component") (JStr (str "div"))
                            [(str "className", JStr (str "a"))]
                            (Some [inr (str "hi");
                                   inl (mkParsedComponent (str "component") (JStr (str "b"))
                                                          [] None)]))
  /\ parseComponentStructure
       (JArr (descriptorOf
                (mkParsedComponent (str "component") (JStr (str "div"))
                                   [(str "className", JStr (str "a"))]
                                   (Some [inr (str "hi");
                                          inl (mkParsedComponent (str "component")
                                                                 (JStr (str "b")) [] None)]))))
     = [mkParsedComponent (str "component") (JStr (str "div"))
                          [(str "className", JStr (str "a"))]
                          (Some [inr (str "hi");
                                 inl (mkParsedComponent (str "component") (JStr (str "b"))
                                                        [] None)])]
  /\ parseChildren
       (JArr (descriptorOf
                (mkParsedComponent (str "component") (JStr (str "div"))
                                   [(str "className", JStr (str "a"))]
                                   (Some [inr (str "hi");
                                          inl (mkParsedComponent (str "component")
                                                                 (JStr (str "b")) [] None)]))))
     = [inl (mkParsedComponent (str "component") (JStr (str "div"))
                               [(str "className", JStr (str "a"))]
                               (Some [inr (str "hi");
                                      inl (mkParsedComponent (str "component")
                                                             (JStr (str "b")) [] None)]))].
Proof.
  apply (descriptor_round_trip
           (mkParsedComponent (str "component") (JStr (str "div"))
                              [(str "className", JStr (str "a"))]
                              (Some [inr (str "hi");
                                     inl (mkParsedComponent (str "component")
                                                            (JStr (str "b")) [] None)]))).
  reflexivity.
Defined.

(* ================================================================= *)
(** ** Module-loading rows and documents of rows *)

Lemma stringPayload_moduleLoading (s : jsstring) :
  detectDataType s = ModuleLoading -> stringPayload s = Return (moduleLoadingResult s).
Proof.
  intros H. unfold stringPayload, payloadBranch. rewrite H. reflexivity.
Qed.

Lemma detectDataType_moduleLoading (s : jsstring) :
  moduleLoadingRule s -> detectDataType s = ModuleLoading.
Proof.
  intros H. apply moduleLoadingRule_dec in H. unfold detectDataType.
  rewrite H. reflexivity.
Qed.

(** X24.  A flight row whose text has [static/chunks/] anywhere in it is
    classified module-loading whatever tree it carries: the call
    succeeds with no nodes, and the debug information is the first 50
    code units of the row. *)
Theorem module_loading_payload (id : json) (key : jsstring) (tree : list json) :
  jsonOk id = true ->
  jsonOk (JArr tree) = true ->
  includes (flightRow key tree) (str "static/chunks/") = true ->
  parseScriptContentDetailed (callOf [id; JStr (flightRow key tree)] 0)
  = moduleLoadingResult (flightRow key tree)
  /\ nodesOfCall (callOf [id; JStr (flightRow key tree)] 0) = [].
Proof.
  intros Hid Hok Hinc.
  assert (Hall : jsonOk (JArr [id; JStr (flightRow key tree)]) = true)
    by (cbn [jsonOk forallb]; rewrite Hid; reflexivity).
  assert (He : extractDataFromScript (callOf [id; JStr (flightRow key tree)] 0)
               = Ok (JSON_stringify (JArr [id; JStr (flightRow key tree)]) 0)).
  { pose proof (extractDataFromScript_json_call
                  [id; JStr (flightRow key tree)] 0 [] (or_introl eq_refl) Hall) as H.
    rewrite app_nil_r in H. apply H; [discriminate|]. apply endsWith_row, Hok. }
  assert (Hr : parseScriptContentDetailed (callOf [id; JStr (flightRow key tree)] 0)
               = moduleLoadingResult (flightRow key tree)).
  { rewrite (parseScriptContentDetailed_decoded _ id (JStr (flightRow key tree)) [] Hall He).
    unfold resultOfPayload. rewrite stringPayload_moduleLoading; [reflexivity|].
    apply detectDataType_moduleLoading. right. apply includes_spec, Hinc. }
  split; [exact Hr|]. unfold nodesOfCall. rewrite Hr. reflexivity.
Qed.

Lemma module_loading_payload_witness :
  parseScriptContentDetailed
    (callOf [JNum (Int 1);
             JStr (flightRow (str "4c")
                             [JStr (str "$"); JStr (str "script"); JNull;
                              JObj [(str "src", JStr (str "/_next/static/chunks/a.js"))]])] 0)
  = moduleLoadingResult
      (flightRow (str "4c")
                 [JStr (str "$"); JStr (str "script"); JNull;
                  JObj [(str "src", JStr (str "/_next/static/chunks/a.js"))]])
  /\ nodesOfCall
       (callOf [JNum (Int 1);
                JStr (flightRow (str "4c")
                                [JStr (str "$"); JStr (str "script"); JNull;
                                 JObj [(str "src", JStr (str "/_next/static/chunks/a.js"))]])] 0)
     = [].
Proof.
  apply (module_loading_payload
           (JNum (Int 1)) (str "4c")
           [JStr (str "$"); JStr (str "script"); JNull;
            JObj [(str "src", JStr (str "/_next/static/chunks/a.js"))]]);
    vm_compute; reflexivity.
Defined.

(** ** A document that begins with a call *)

Lemma semicolonOf_cases (post : jsstring) :
  (semicolonOf post = [] /\ startsWith [";"%char] post = false)
  \/ (semicolonOf post = [";"%char]
      /\ post = ";"%char :: skipn (length (semicolonOf post)) post).
Proof.
  unfold semicolonOf. destruct post as [|c post]; [left; split; reflexivity|].
  cbn [startsWith]. destruct (ch_eqb ";"%char c) eqn:E.
  - apply ch_eqb_eq in E. subst c. right. split; reflexivity.
  - left. split; reflexivity.
Qed.

(** The Call Extractor on a text that begins, behind [pre], with a call
    written by [JSON.stringify]. *)
Lemma extractPushCalls_leading (pre post : jsstring) (items : list json) (space : nat) :
  jsonOk (JArr items) = true ->
  indexOf (pre ++ pushToken) pushToken 0 = Some (length pre) ->
  extractPushCalls (pre ++ callOf items space ++ post)
  = option_map (cons (callOf items space ++ semicolonOf post))
               (extractPushCalls (skipn (length (semicolonOf post)) post)).
Proof.
  intros Hok Hpre. unfold callOf.
  destruct (stringify_array items space Hok) as (body & -> & Hb).
  destruct (semicolonOf_cases post) as [[-> Hs]|[Hs Hp]].
  - destruct (extractPushCalls_bracketed pre [] body [] post Hpre eq_refl eq_refl Hb)
      as [Hx _].
    rewrite app_nil_r. cbn [length skipn]. exact (Hx Hs).
  - destruct (extractPushCalls_bracketed
                pre [] body [] (skipn (length (semicolonOf post)) post)
                Hpre eq_refl eq_refl Hb) as [_ Hx].
    rewrite Hp at 1. rewrite Hs in *. cbn [length] in *.
    rewrite <- Hx. rewrite <- !app_assoc. reflexivity.
Qed.

(** X16.  A document is parsed call by call.  When it starts, behind a
    text that brings in no occurrence of the token, with a call written
    by [JSON.stringify], the snippet is the call with the semicolon that
    follows it at once, if one does; the aggregate has one script more
    than that of the text behind the snippet, the result of the snippet
    before the results of that text, and its nodes before the nodes of
    that text.  The result of the snippet is what Step 3 and Step 4 make
    of the payload when the text of the array does not end in an escaped
    newline, a double quote and the bracket, and of the payload without
    its last line feed when the payload of a compact call of two
    elements is a string that ends in a line feed. *)
Theorem document_leading_call
        (pre post : jsstring) (items : list json) (space : nat) :
  jsonOk (JArr items) = true ->
  indexOf (pre ++ pushToken) pushToken 0 = Some (length pre) ->
  let snippet := callOf items space ++ semicolonOf post in
  let after := skipn (length (semicolonOf post)) post in
  exists agg rest,
    parseDocumentContent (pre ++ callOf items space ++ post) = Some agg
    /\ parseDocumentContent after = Some rest
    /\ totalScripts agg = S (totalScripts rest)
    /\ map base (results agg)
       = parseScriptContentDetailed snippet :: map base (results rest)
    /\ combinedComponents agg
       = components (parseScriptContentDetailed snippet) ++ combinedComponents rest
    /\ (forall id v more,
           items = id :: v :: more ->
           endsWith (JSON_stringify (JArr items) space) escapedNewlineClose = false ->
           parseScriptContentDetailed snippet = resultOfPayload v)
    /\ (forall id s,
           items = [id; JStr (s ++ [lineFeed])] -> space = 0 ->
           parseScriptContentDetailed snippet = resultOfPayload (JStr s)).
Proof.
  intros Hok Hpre snippet after.
  assert (Hsemi : semicolonOf post = [] \/ semicolonOf post = [";"%char])
    by (destruct (semicolonOf_cases post) as [[-> _]|[-> _]]; auto).
  destruct (extractPushCalls_total after) as [calls Hc].
  pose proof (extractPushCalls_leading pre post items space Hok Hpre) as Hx.
  fold snippet after in Hx. rewrite Hc in Hx. cbn [option_map] in Hx.
  destruct (parseDocumentContent_of_calls _ _ Hx) as (agg & Ha & Ht & Hb & _ & Hn).
  destruct (parseDocumentContent_of_calls _ _ Hc) as (rest & Hr & Ht' & Hb' & _ & Hn').
  exists agg, rest.
  split; [exact Ha|]. split; [exact Hr|].
  split; [rewrite Ht, Ht'; reflexivity|].
  split; [rewrite Hb, Hb'; reflexivity|].
  split; [rewrite Hn, Hn'; cbn [flat_map]; rewrite nodesOfCall_components; reflexivity|].
  split.
  - intros id v more -> Hend.
    apply (parseScriptContentDetailed_decoded _ id v more Hok).
    apply (extractDataFromScript_json_call _ space _ Hsemi Hok); [discriminate|exact Hend].
  - intros id s -> ->.
    assert (Hid : jsonOk (JArr [id]) = true).
    { cbn [jsonOk forallb] in *. apply andb_true_iff in Hok as [-> _]. reflexivity. }
    apply (parseScriptContentDetailed_decoded _ id (JStr s) []).
    + cbn [jsonOk forallb] in *. apply andb_true_iff in Hok as [-> _]. reflexivity.
    + exact (extractDataFromScript_lineFeed [id] s _ Hsemi Hid).
Qed.

Lemma document_leading_call_witness :
  exists agg rest,
    parseDocumentContent
      (str "<script>" ++ callOf [JNum (Int 1); JStr (str "hello" ++ [lineFeed])] 0
           ++ str ";</script>")
    = Some agg
    /\ parseDocumentContent (str "</script>") = Some rest
    /\ totalScripts agg = S (totalScripts rest)
    /\ map base (results agg)
       = parseScriptContentDetailed
           (callOf [JNum (Int 1); JStr (str "hello" ++ [lineFeed])] 0 ++ [";"%char])
         :: map base (results rest)
    /\ combinedComponents agg
       = components
           (parseScriptContentDetailed
              (callOf [JNum (Int 1); JStr (str "hello" ++ [lineFeed])] 0 ++ [";"%char]))
         ++ combinedComponents rest
    /\ (forall id v more,
           [JNum (Int 1); JStr (str "hello" ++ [lineFeed])] = id :: v :: more ->
           endsWith (JSON_stringify
                       (JArr [JNum (Int 1); JStr (str "hello" ++ [lineFeed])]) 0)
                    escapedNewlineClose = false ->
           parseScriptContentDetailed
             (callOf [JNum (Int 1); JStr (str "hello" ++ [lineFeed])] 0 ++ [";"%char])
           = resultOfPayload v)
    /\ (forall id s,
           [JNum (Int 1); JStr (str "hello" ++ [lineFeed])]
           = [id; JStr (s ++ [lineFeed])] ->
           0 = 0 ->
           parseScriptContentDetailed
             (callOf [JNum (Int 1); JStr (str "hello" ++ [lineFeed])] 0 ++ [";"%char])
           = resultOfPayload (JStr s)).
Proof.
  apply (document_leading_call
           (str "<script>") (str ";</script>")
           [JNum (Int 1); JStr (str "hello" ++ [lineFeed])] 0);
    reflexivity.
Defined.

(** ** A document of rows *)

Lemma endsWith_last (s : jsstring) (c : ascii) :
  endsWith s [c] = true -> s = removelast s ++ [c].
Proof.
  unfold endsWith. cbn [rev app]. intros H.
  destruct s as [|d s] using rev_ind; [discriminate|].
  rewrite rev_app_distr in H. cbn [rev app startsWith] in H.
  apply andb_true_iff in H as [H _]. apply ch_eqb_eq in H. subst d.
  rewrite removelast_last. reflexivity.
Qed.

Lemma rowOk_spec (row : Row) :
  rowOk row = true ->
  jsonOk (fst row) = true /\ jsonOk (snd row) = true
  /\ (endsInLineFeed (snd row) = true
      \/ endsWith (JSON_stringify (JArr [fst row; snd row]) 0) escapedNewlineClose
         = false).
Proof.
  unfold rowOk. intros H. apply andb_true_iff in H as [H H3].
  apply andb_true_iff in H as [H1 H2]. apply orb_true_iff in H3.
  rewrite negb_true_iff in H3. auto.
Qed.

(** The result of the call of a row, with or without a semicolon. *)
Lemma resultOfCall_row (row : Row) (semi : jsstring) :
  rowOk row = true -> semi = [] \/ semi = [";"%char] ->
  parseScriptContentDetailed (rowCall row ++ semi)
  = resultOfPayload (decodedPayload (snd row)).
Proof.
  intros H Hsemi. destruct (rowOk_spec row H) as (Hid & Hv & Hend).
  destruct row as [id v]. cbn [fst snd] in *. unfold rowCall. cbn [fst snd].
  assert (Hid1 : jsonOk (JArr [id]) = true)
    by (cbn [jsonOk forallb]; rewrite Hid; reflexivity).
  assert (Hplain : endsInLineFeed v = false ->
                   parseScriptContentDetailed (callOf [id; v] 0 ++ semi)
                   = resultOfPayload v).
  { intros Hn. destruct Hend as [Hend|Hend]; [congruence|].
    assert (Hok : jsonOk (JArr [id; v]) = true)
      by (cbn [jsonOk forallb]; rewrite Hid, Hv; reflexivity).
    apply (parseScriptContentDetailed_decoded _ id v [] Hok).
    apply (extractDataFromScript_json_call _ 0 _ Hsemi Hok); [discriminate|exact Hend]. }
  destruct v as [| | |s| |]; try (apply Hplain; reflexivity).
  cbn [decodedPayload]. destruct (endsWith s [lineFeed]) eqn:E;
    [|apply Hplain; exact E].
  apply endsWith_last in E.
  apply (parseScriptContentDetailed_decoded _ id (JStr (removelast s)) []).
  - cbn [jsonOk forallb]. rewrite Hid. reflexivity.
  - rewrite E at 1.
    exact (extractDataFromScript_lineFeed [id] (removelast s) semi Hsemi Hid1).
Qed.

Lemma documentOf_cons (separator semi tail : jsstring) (row : Row) (rows : list Row) :
  documentOf separator semi tail (row :: rows)
  = separator ++ rowCall row ++ semi ++ documentOf separator semi tail rows.
Proof. unfold documentOf. cbn [flat_map]. rewrite <- !app_assoc. reflexivity. Qed.

Lemma startsWith_semicolon_document (separator semi tail : jsstring) (rows : list Row) :
  startsWith [";"%char] separator = false ->
  startsWith [";"%char] tail = false ->
  startsWith [";"%char] (documentOf separator semi tail rows) = false.
Proof.
  intros Hs Ht. destruct rows as [|row rows]; [exact Ht|].
  rewrite documentOf_cons.
  destruct separator as [|c sep]; [reflexivity|].
  cbn [app startsWith] in *. exact Hs.
Qed.

Lemma extractPushCalls_document (separator semi tail : jsstring) (rows : list Row) :
  indexOf (separator ++ pushToken) pushToken 0 = Some (length separator) ->
  startsWith [";"%char] separator = false ->
  startsWith [";"%char] tail = false ->
  semi = [] \/ semi = [";"%char] ->
  extractPushCalls tail = Some [] ->
  forallb rowOk rows = true ->
  extractPushCalls (documentOf separator semi tail rows)
  = Some (map (fun row => rowCall row ++ semi) rows).
Proof.
  intros Hi Hs Ht Hsemi Htail. induction rows as [|row rows IH]; intros Hok.
  - exact Htail.
  - cbn [forallb] in Hok. apply andb_true_iff in Hok as [Hrow Hrows].
    destruct (rowOk_spec row Hrow) as (Hid & Hv & _).
    assert (Hj : jsonOk (JArr [fst row; snd row]) = true)
      by (cbn [jsonOk forallb]; rewrite Hid, Hv; reflexivity).
    rewrite documentOf_cons. unfold rowCall at 1.
    rewrite (extractPushCalls_leading separator _ _ 0 Hj Hi).
    pose proof (startsWith_semicolon_document separator semi tail rows Hs Ht) as Hd.
    assert (E : semicolonOf (semi ++ documentOf separator semi tail rows) = semi).
    { unfold semicolonOf. destruct Hsemi as [-> | ->]; cbn [app].
      - rewrite Hd. reflexivity.
      - reflexivity. }
    rewrite E, skipn_app_exact, (IH Hrows). reflexivity.
Qed.

(** X25.  A document of rows read back.  Let each call be written by
    [JSON.stringify] for a row [[id, payload]] whose text ends in an
    escaped newline, a double quote and the bracket only if the payload
    is a string that ends in a line feed; let each call stand behind the
    same separator, which brings in no occurrence of the token, and
    before the same semicolon or none; let the tail hold no call.  Then
    the aggregate has one result for each row, numbered from zero in the
    order of the rows, each what Step 3 and Step 4 make of the payload of
    its row without the line feed at its end, if it has one; and the
    combined nodes are those of the rows one after the other. *)
Theorem document_of_rows (separator semi tail : jsstring) (rows : list Row) :
  indexOf (separator ++ pushToken) pushToken 0 = Some (length separator) ->
  startsWith [";"%char] separator = false ->
  startsWith [";"%char] tail = false ->
  semi = [] \/ semi = [";"%char] ->
  extractPushCalls tail = Some [] ->
  forallb rowOk rows = true ->
  exists agg,
    parseDocumentContent (documentOf separator semi tail rows) = Some agg
    /\ totalScripts agg = length rows
    /\ map index (results agg) = seq 0 (length rows)
    /\ map base (results agg)
       = map (fun row => resultOfPayload (decodedPayload (snd row))) rows
    /\ combinedComponents agg
       = flat_map (fun row => components (resultOfPayload (decodedPayload (snd row))))
                  rows.
Proof.
  intros Hi Hs Ht Hsemi Htail Hok.
  pose proof (extractPushCalls_document separator semi tail rows
                                        Hi Hs Ht Hsemi Htail Hok) as Hc.
  destruct (parseDocumentContent_of_calls _ _ Hc) as (agg & Ha & Hn & Hb & Hx & Hcomb).
  exists agg. rewrite length_map in Hn, Hx.
  split; [exact Ha|]. split; [exact Hn|]. split; [exact Hx|].
  rewrite Hb, Hcomb. clear Ha Hn Hb Hx Hcomb Hc agg.
  induction rows as [|row rows IH]; [split; reflexivity|].
  cbn [forallb] in Hok. apply andb_true_iff in Hok as [Hrow Hrows].
  destruct (IH Hrows) as [IH1 IH2].
  cbn [map flat_map]. rewrite IH1, IH2, nodesOfCall_components.
  rewrite (resultOfCall_row row semi Hrow Hsemi). split; reflexivity.
Qed.

Lemma document_of_rows_witness :
  exists agg,
    parseDocumentContent
      (documentOf (str "<script>") [";"%char] (str "</script>")
                  [(JNum (Int 1), JStr (str "hello" ++ [lineFeed]));
                   (JNum (Int 2), JArr [JStr (str "$"); JStr (str "p"); JNull])])
    = Some agg
    /\ totalScripts agg = 2
    /\ map index (results agg) = seq 0 2
    /\ map base (results agg)
       = map (fun row : Row => resultOfPayload (decodedPayload (snd row)))
             [(JNum (Int 1), JStr (str "hello" ++ [lineFeed]));
              (JNum (Int 2), JArr [JStr (str "$"); JStr (str "p"); JNull])]
    /\ combinedComponents agg
       = flat_map (fun row : Row =>
                     components (resultOfPayload (decodedPayload (snd row))))
                  [(JNum (Int 1), JStr (str "hello" ++ [lineFeed]));
                   (JNum (Int 2), JArr [JStr (str "$"); JStr (str "p"); JNull])].
Proof.
  apply (document_of_rows
           (str "<script>") [";"%char] (str "</script>")
           [(JNum (Int 1), JStr (str "hello" ++ [lineFeed]));
            (JNum (Int 2), JArr [JStr (str "$"); JStr (str "p"); JNull])]);
    try (vm_compute; reflexivity).
  right. reflexivity.
Defined.

(* ================================================================= *)
(** ** An engine with a bound on argument lists: what a run returns or throws *)

Lemma pushSpread_within {A : Type} (limit : nat) (target items : list A) :
  length items <= limit -> pushSpread limit target items = Ok (target ++ items).
Proof.
  intros H. unfold pushSpread.
  replace (length items <=? limit) with true by (symmetry; apply Nat.leb_le; exact H).
  reflexivity.
Qed.

Lemma pushSpread_beyond {A : Type} (limit : nat) (target items : list A) :
  limit < length items -> pushSpread limit target items = Throw rangeError.
Proof.
  intros H. unfold pushSpread.
  replace (length items <=? limit) with false by (symmetry; apply Nat.leb_gt; exact H).
  reflexivity.
Qed.

(** A loop whose body appends: it returns what [flat_map] collects. *)
Lemma forOf_append {A B : Type} (body : list B -> A -> result (list B))
      (g : A -> list B) (items : list A) :
  (forall acc item, In item items -> body acc item = Ok (acc ++ g item)) ->
  forall acc, forOf body items acc = Ok (acc ++ flat_map g items).
Proof.
  induction items as [|x items IH]; intros H acc.
  - cbn [forOf flat_map]. rewrite app_nil_r. reflexivity.
  - cbn [forOf flat_map]. rewrite (H acc x (or_introl eq_refl)). cbn [bind].
    rewrite IH by (intros; apply H; right; assumption).
    rewrite app_assoc. reflexivity.
Qed.

(** For every list there is a bound from which on a loop body that
    depends on the bound appends what the unbounded one does. *)
Lemma bodies_append {A B : Type} (body : nat -> list B -> A -> result (list B))
      (g : A -> list B) (items : list A) :
  (forall item, In item items ->
     exists L, forall limit, L <= limit ->
       forall acc, body limit acc item = Ok (acc ++ g item)) ->
  exists L, forall limit, L <= limit ->
    forall acc, forOf (body limit) items acc = Ok (acc ++ flat_map g items).
Proof.
  intros H.
  assert (Hall : exists L, forall limit, L <= limit ->
             forall acc item, In item items -> body limit acc item = Ok (acc ++ g item)).
  { induction items as [|x items IH].
    - exists 0. intros limit _ acc item [].
    - destruct (H x (or_introl eq_refl)) as [L1 H1].
      destruct IH as [L2 H2]; [intros; apply H; right; assumption|].
      exists (Nat.max L1 L2). intros limit Hl acc item [<-|Hin].
      + apply H1. lia.
      + apply H2; [lia|exact Hin]. }
  destruct Hall as [L HL]. exists L. intros limit Hl acc.
  apply forOf_append. intros. apply HL; assumption.
Qed.

(** With a bound that is large enough for the value, the three methods
    return what they return without a bound. *)
Lemma bounded_large (fuel : nat) :
  (forall data, exists L, forall limit, L <= limit ->
     parseComponentStructureBounded limit fuel data
     = Ok (parseComponentStructureFuel fuel data))
  /\ (forall componentArray, exists L, forall limit, L <= limit ->
        parseComponentBounded limit fuel componentArray
        = Ok (parseComponentFuel fuel componentArray))
  /\ (forall children, exists L, forall limit, L <= limit ->
        parseChildrenBounded limit fuel children
        = Ok (parseChildrenFuel fuel children)).
Proof.
  induction fuel as [|fuel (IHS & IHC & IHH)].
  - repeat split; intros; exists 0; reflexivity.
  - repeat split.
    + intros data. cbn [parseComponentStructureBounded parseComponentStructureFuel].
      destruct data as [| | |s|items|]; try (exists 0; reflexivity).
      destruct (headIsDollar items).
      * destruct (IHC items) as [L HL]. exists L. intros limit Hl.
        rewrite (HL limit Hl). reflexivity.
      * destruct (bodies_append
                    (fun limit results item =>
                       match item with
                       | JStr s => Ok (results ++ [textNode s])
                       | JArr a =>
                           parsed <- parseComponentBounded limit fuel a ;;
                           match parsed with
                           | Some parsed => Ok (results ++ [parsed])
                           | None =>
                               nestedResults <-
                                 parseComponentStructureBounded limit fuel item ;;
                               pushSpread limit results nestedResults
                           end
                       | _ => Ok results
                       end)
                    (fun item =>
                       match item with
                       | JStr s => [textNode s]
                       | JArr a =>
                           match parseComponentFuel fuel a with
                           | Some parsed => [parsed]
                           | None => parseComponentStructureFuel fuel item
                           end
                       | _ => []
                       end) items) as [L HL];
          [|exists L; intros limit Hl; rewrite (HL limit Hl []); reflexivity].
        intros item _.
        destruct item as [| | |s|a|]; try (exists 0; intros; rewrite ?app_nil_r; reflexivity).
        destruct (IHC a) as [L1 H1]. destruct (IHS (JArr a)) as [L2 H2].
        exists (Nat.max L1 (Nat.max L2 (length (parseComponentStructureFuel fuel (JArr a))))).
        intros limit Hl acc. rewrite H1 by lia. cbn [bind].
        destruct (parseComponentFuel fuel a); [reflexivity|].
        rewrite H2 by lia. cbn [bind]. apply pushSpread_within. lia.
    + intros componentArray. cbn [parseComponentBounded parseComponentFuel].
      destruct ((length componentArray <? 3) || negb (headIsDollar componentArray));
        [exists 0; reflexivity|]. cbv zeta.
      destruct (getChildren (propsOf componentArray)) as [children|];
        [|exists 0; reflexivity].
      destruct (truthy children); [|exists 0; reflexivity].
      destruct (IHH children) as [L HL]. exists L. intros limit Hl.
      rewrite (HL limit Hl). reflexivity.
    + intros children. cbn [parseChildrenBounded parseChildrenFuel].
      destruct children as [| | |s|items|]; try (exists 0; reflexivity).
      destruct (headIsDollar items).
      * destruct (IHC items) as [L HL]. exists L. intros limit Hl.
        rewrite (HL limit Hl). reflexivity.
      * destruct (bodies_append
                    (fun limit results child =>
                       match child with
                       | JStr s => Ok (results ++ [inr s])
                       | JArr a =>
                           parsed <- parseComponentBounded limit fuel a ;;
                           match parsed with
                           | Some parsed => Ok (results ++ [inl parsed])
                           | None =>
                               nestedChildren <-
                                 parseChildrenBounded limit fuel child ;;
                               pushSpread limit results nestedChildren
                           end
                       | _ =>
                           childResults <-
                             parseComponentStructureBounded limit fuel (JArr [child]) ;;
                           pushSpread limit results (map inl childResults)
                       end)
                    (fun child =>
                       match child with
                       | JStr s => [inr s]
                       | JArr a =>
                           match parseComponentFuel fuel a with
                           | Some parsed => [inl parsed]
                           | None => parseChildrenFuel fuel child
                           end
                       | _ => map inl (parseComponentStructureFuel fuel (JArr [child]))
                       end) items) as [L HL];
          [|exists L; intros limit Hl; rewrite (HL limit Hl []); reflexivity].
        intros child _.
        assert (Hother : forall c : json,
                   exists L, forall limit, L <= limit ->
                   forall acc : list (ParsedComponent + jsstring),
                     (childResults <-
                        parseComponentStructureBounded limit fuel (JArr [c]) ;;
                      pushSpread limit acc (map inl childResults))
                     = Ok (acc ++ map inl (parseComponentStructureFuel fuel (JArr [c])))).
        { intros c. destruct (IHS (JArr [c])) as [L2 H2].
          exists (Nat.max L2 (length (parseComponentStructureFuel fuel (JArr [c])))).
          intros limit Hl acc. rewrite H2 by lia. cbn [bind].
          apply pushSpread_within. rewrite length_map. lia. }
        destruct child as [|b|n|s|a|o];
          try (exists 0; intros; reflexivity);
          try (apply Hother).
        destruct (IHC a) as [L1 H1]. destruct (IHH (JArr a)) as [L2 H2].
        exists (Nat.max L1 (Nat.max L2 (length (parseChildrenFuel fuel (JArr a))))).
        intros limit Hl acc. rewrite H1 by lia. cbn [bind].
        destruct (parseComponentFuel fuel a); [reflexivity|].
        rewrite H2 by lia. cbn [bind]. apply pushSpread_within. lia.
Qed.

(** A loop whose body appends or throws a [RangeError]. *)
Lemma forOf_cases {A B : Type} (body : list B -> A -> result (list B))
      (g : A -> list B) (items : list A) :
  (forall acc item, In item items ->
     body acc item = Ok (acc ++ g item) \/ body acc item = Throw rangeError) ->
  forall acc, forOf body items acc = Ok (acc ++ flat_map g items)
              \/ forOf body items acc = Throw rangeError.
Proof.
  induction items as [|x items IH]; intros H acc.
  - left. cbn [forOf flat_map]. rewrite app_nil_r. reflexivity.
  - cbn [forOf flat_map]. destruct (H acc x (or_introl eq_refl)) as [-> | ->];
      [|right; reflexivity].
    cbn [bind]. rewrite app_assoc. apply IH. intros; apply H; right; assumption.
Qed.

Lemma pushSpread_cases {A : Type} (limit : nat) (target items : list A) :
  pushSpread limit target items = Ok (target ++ items)
  \/ pushSpread limit target items = Throw rangeError.
Proof. unfold pushSpread. destruct (length items <=? limit); auto. Qed.

(** Whatever the bound, each of the three methods returns what it
    returns without a bound, or throws a [RangeError]. *)
Lemma bounded_cases (limit fuel : nat) :
  (forall data,
     parseComponentStructureBounded limit fuel data
     = Ok (parseComponentStructureFuel fuel data)
     \/ parseComponentStructureBounded limit fuel data = Throw rangeError)
  /\ (forall componentArray,
        parseComponentBounded limit fuel componentArray
        = Ok (parseComponentFuel fuel componentArray)
        \/ parseComponentBounded limit fuel componentArray = Throw rangeError)
  /\ (forall children,
        parseChildrenBounded limit fuel children
        = Ok (parseChildrenFuel fuel children)
        \/ parseChildrenBounded limit fuel children = Throw rangeError).
Proof.
  induction fuel as [|fuel (IHS & IHC & IHH)].
  - repeat split; intros; left; reflexivity.
  - repeat split.
    + intros data. cbn [parseComponentStructureBounded parseComponentStructureFuel].
      destruct data as [| | |s|items|]; try (left; reflexivity).
      destruct (headIsDollar items).
      * destruct (IHC items) as [-> | ->]; [left|right]; reflexivity.
      * apply (forOf_cases _
                 (fun item =>
                    match item with
                    | JStr s => [textNode s]
                    | JArr a =>
                        match parseComponentFuel fuel a with
                        | Some parsed => [parsed]
                        | None => parseComponentStructureFuel fuel item
                        end
                    | _ => []
                    end) items).
        intros acc item _.
        destruct item as [| | |s|a|]; try (left; rewrite ?app_nil_r; reflexivity).
        destruct (IHC a) as [-> | ->]; [|right; reflexivity]. cbn [bind].
        destruct (parseComponentFuel fuel a); [left; reflexivity|].
        destruct (IHS (JArr a)) as [-> | ->]; [|right; reflexivity]. cbn [bind].
        apply pushSpread_cases.
    + intros componentArray. cbn [parseComponentBounded parseComponentFuel].
      destruct ((length componentArray <? 3) || negb (headIsDollar componentArray));
        [left; reflexivity|]. cbv zeta.
      destruct (getChildren (propsOf componentArray)) as [children|];
        [|left; reflexivity].
      destruct (truthy children); [|left; reflexivity].
      destruct (IHH children) as [-> | ->]; [left|right]; reflexivity.
    + intros children. cbn [parseChildrenBounded parseChildrenFuel].
      destruct children as [| | |s|items|]; try (left; reflexivity).
      destruct (headIsDollar items).
      * destruct (IHC items) as [-> | ->]; [left|right]; reflexivity.
      * apply (forOf_cases _
                 (fun child =>
                    match child with
                    | JStr s => [inr s]
                    | JArr a =>
                        match parseComponentFuel fuel a with
                        | Some parsed => [inl parsed]
                        | None => parseChildrenFuel fuel child
                        end
                    | _ => map inl (parseComponentStructureFuel fuel (JArr [child]))
                    end) items).
        intros acc child _.
        assert (Hother : forall c : json,
                   (childResults <-
                      parseComponentStructureBounded limit fuel (JArr [c]) ;;
                    pushSpread limit acc (map inl childResults))
                   = Ok (acc ++ map inl (parseComponentStructureFuel fuel (JArr [c])))
                   \/ (childResults <-
                         parseComponentStructureBounded limit fuel (JArr [c]) ;;
                       pushSpread limit acc (map inl childResults))
                      = Throw rangeError).
        { intros c. destruct (IHS (JArr [c])) as [-> | ->]; [|right; reflexivity].
          cbn [bind]. apply pushSpread_cases. }
        destruct child as [|b|n|s|a|o];
          try (left; reflexivity); try (apply Hother).
        destruct (IHC a) as [-> | ->]; [|right; reflexivity]. cbn [bind].
        destruct (parseComponentFuel fuel a); [left; reflexivity|].
        destruct (IHH (JArr a)) as [-> | ->]; [|right; reflexivity]. cbn [bind].
        apply pushSpread_cases.
Qed.

(** The result of a call on an engine with a bound: that on an engine
    without, or the failure of a [RangeError]. *)
Lemma parseScriptContentDetailedBounded_cases (limit : nat) (snippet : jsstring) :
  parseScriptContentDetailedBounded limit snippet = parseScriptContentDetailed snippet
  \/ parseScriptContentDetailedBounded limit snippet = rangeFailure snippet.
Proof.
  unfold parseScriptContentDetailedBounded, parseScriptContentDetailed,
    parseScriptContentTryBounded, parseScriptContentTry.
  destruct (extractDataFromScript snippet) as [clean|m]; [|left; reflexivity].
  destruct (JSON_parse clean) as [parsed|m]; [|left; reflexivity].
  destruct parsed as [| | | |items|]; try (left; reflexivity).
  destruct items as [|x [|componentData items]]; try (left; reflexivity).
  cbv zeta.
  destruct (match componentData with
            | JStr s => stringPayload s
            | _ => Continue componentData
            end) as [r|v]; [left; reflexivity|].
  destruct (proj1 (bounded_cases limit (json_depth v + 2)) v) as [-> | ->];
    [left|right]; reflexivity.
Qed.

Lemma parseScriptContentDetailedBounded_large (snippet : jsstring) :
  exists L, forall limit, L <= limit ->
    parseScriptContentDetailedBounded limit snippet = parseScriptContentDetailed snippet.
Proof.
  unfold parseScriptContentDetailedBounded, parseScriptContentDetailed,
    parseScriptContentTryBounded, parseScriptContentTry.
  destruct (extractDataFromScript snippet) as [clean|m]; [|exists 0; reflexivity].
  destruct (JSON_parse clean) as [parsed|m]; [|exists 0; reflexivity].
  destruct parsed as [| | | |items|]; try (exists 0; reflexivity).
  destruct items as [|x [|componentData items]]; try (exists 0; reflexivity).
  cbv zeta.
  destruct (match componentData with
            | JStr s => stringPayload s
            | _ => Continue componentData
            end) as [r|v]; [exists 0; reflexivity|].
  destruct (proj1 (bounded_large (json_depth v + 2)) v) as [L HL].
  exists L. intros limit Hl. rewrite (HL limit Hl). reflexivity.
Qed.

Lemma rangeFailure_shape (snippet : jsstring) : resultShape (rangeFailure snippet).
Proof. unfold resultShape. cbn [rangeFailure success components dataType error]. eauto. Qed.

Lemma parseScriptContentDetailedBounded_shape (limit : nat) (snippet : jsstring) :
  resultShape (parseScriptContentDetailedBounded limit snippet).
Proof.
  destruct (parseScriptContentDetailedBounded_cases limit snippet) as [-> | ->].
  - apply parseScriptContentDetailed_shape.
  - apply rangeFailure_shape.
Qed.

Lemma resultsBounded_shape (limit : nat) (entries : list (nat * jsstring)) :
  Forall (fun r => resultShape (base r)) (map (indexedResultBounded limit) entries).
Proof.
  apply Forall_forall. intros r H. apply in_map_iff in H as (e & <- & _).
  apply parseScriptContentDetailedBounded_shape.
Qed.

(** *** The loop of [parseDocumentContent] *)

Lemma visitSnippetBounded_eq (limit : nat) (acc : Accumulators) (entry : nat * jsstring) :
  let r := indexedResultBounded limit entry in
  (spreadFits limit r ->
   visitSnippetBounded limit acc entry
   = Ok (fst acc ++ pushedNodes r, snd acc ++ [r]))
  /\ (spreadFails limit r -> visitSnippetBounded limit acc entry = Throw rangeError).
Proof.
  destruct acc as [combined results]. destruct entry as [i snippet].
  cbv zeta. unfold spreadFits, spreadFails, pushedNodes, visitSnippetBounded.
  cbn [indexedResultBounded base fst snd].
  destruct (success (parseScriptContentDetailedBounded limit snippet)); split.
  - intros H. rewrite pushSpread_within by (apply H; reflexivity). reflexivity.
  - intros [_ H]. rewrite pushSpread_beyond by exact H. reflexivity.
  - intros _. cbn [bind]. rewrite app_nil_r. reflexivity.
  - intros [H _]. discriminate H.
Qed.

Lemma forOf_visit (limit : nat) (entries : list (nat * jsstring)) :
  forall acc,
    let rs := map (indexedResultBounded limit) entries in
    (Forall (spreadFits limit) rs ->
     forOf (visitSnippetBounded limit) entries acc
     = Ok (fst acc ++ flat_map pushedNodes rs, snd acc ++ rs))
    /\ (Exists (spreadFails limit) rs ->
        forOf (visitSnippetBounded limit) entries acc = Throw rangeError).
Proof.
  induction entries as [|entry entries IH]; intros acc; cbv zeta.
  - split.
    + intros _. cbn [forOf map flat_map]. rewrite !app_nil_r. destruct acc; reflexivity.
    + intros H. inversion H.
  - cbn [map forOf flat_map].
    destruct (visitSnippetBounded_eq limit acc entry) as [Hfit Hfail]. cbv zeta in *.
    split.
    + intros H. inversion H as [|r rs Hr Hrs]; subst.
      rewrite (Hfit Hr). cbn [bind].
      rewrite (proj1 (IH _) Hrs). cbn [fst snd]. rewrite <- !app_assoc. reflexivity.
    + intros H.
      destruct (Nat.le_gt_cases
                  (length (components (base (indexedResultBounded limit entry)))) limit)
        as [Hle|Hgt].
      * rewrite Hfit by (intros _; exact Hle). cbn [bind].
        apply (proj2 (IH _)).
        inversion H as [r rs [_ Hr]|r rs Hrs]; subst; [lia|exact Hrs].
      * destruct (success (base (indexedResultBounded limit entry))) eqn:Es.
        -- rewrite Hfail by (split; assumption). reflexivity.
        -- rewrite Hfit by (unfold spreadFits; rewrite Es; discriminate). cbn [bind].
           apply (proj2 (IH _)).
           inversion H as [r rs [Hr _]|r rs Hrs]; subst; [congruence|exact Hrs].
Qed.

Lemma parseDocumentContentBounded_eq (limit : nat) (content : jsstring) :
  exists pushCalls,
    extractPushCalls content = Some pushCalls
    /\ parseDocumentContentBounded limit content
       = Some (acc <- forOf (visitSnippetBounded limit)
                            (combine (seq 0 (length pushCalls)) pushCalls) ([], []) ;;
               Ok (aggregateOf acc)).
Proof.
  destruct (extractPushCalls_total content) as [pushCalls E].
  exists pushCalls. split; [exact E|].
  unfold parseDocumentContentBounded. rewrite E.
  destruct pushCalls as [|c l]; [reflexivity|].
  cbn [length Nat.eqb]. f_equal.
  destruct (forOf _ _ _) as [[combined results]|m]; reflexivity.
Qed.

Lemma spread_decided (limit : nat) (rs : list IndexedParseResult) :
  Forall (spreadFits limit) rs \/ Exists (spreadFails limit) rs.
Proof.
  induction rs as [|r rs [IH|IH]]; [left; constructor| |right; constructor 2; exact IH].
  destruct (success (base r)) eqn:Es.
  - destruct (Nat.le_gt_cases (length (components (base r))) limit) as [H|H].
    + left. constructor; [intros _; exact H|exact IH].
    + right. constructor. split; assumption.
  - left. constructor; [|exact IH]. unfold spreadFits. rewrite Es. discriminate.
Qed.

Lemma failure_as_data_bounded (limit : nat) (snippet : jsstring) :
  (forall m,
      extractDataFromScript snippet = Throw m ->
      success (parseScriptContentDetailedBounded limit snippet) = false
      /\ error (parseScriptContentDetailedBounded limit snippet)
         = Some (str "Parse failed: " ++ m))
  /\ (forall cleanContent v,
         extractDataFromScript snippet = Ok cleanContent ->
         JSON_parse cleanContent = Ok v ->
         (forall a b t, v <> JArr (a :: b :: t)) ->
         success (parseScriptContentDetailedBounded limit snippet) = false
         /\ error (parseScriptContentDetailedBounded limit snippet)
            = Some (str "Invalid data structure: Expected array with at least 2 elements")).
Proof.
  unfold parseScriptContentDetailedBounded, parseScriptContentTryBounded. split.
  - intros m ->. split; reflexivity.
  - intros clean v -> -> Hv.
    destruct v as [| | | |items|]; try (split; reflexivity).
    destruct items as [|a [|b t]]; try (split; reflexivity).
    exfalso. exact (Hv a b t eq_refl).
Qed.

(** X26.  What [parseDocumentContent] does on an engine that accepts
    [limit] arguments in a call.  It ends for every text.  It throws
    nothing but the [RangeError] of line 66, and it throws that exactly
    when a successful result has more nodes than the bound; otherwise it
    returns the aggregate of the results of the calls, in order.  The
    result of a call is that on an engine without a bound or the failure
    that the [catch] makes of a [RangeError] of the Tree Builder; in
    either case a failure is a result with a message and no nodes.  What
    [extractDataFromScript] throws (no prefix, brackets that do not
    match, a text that is not JSON) and a payload of the wrong shape
    become such a failure, with the message of the source.  A text
    without the invocation token gives the aggregate of zeros. *)
Theorem parseDocumentContentBounded_outcome (limit : nat) (content : jsstring) :
  exists pushCalls,
    extractPushCalls content = Some pushCalls
    /\ let rs := map (indexedResultBounded limit)
                     (combine (seq 0 (length pushCalls)) pushCalls) in
       (Forall (spreadFits limit) rs ->
        parseDocumentContentBounded limit content
        = Some (Ok (aggregateOf (flat_map pushedNodes rs, rs))))
       /\ (Exists (spreadFails limit) rs ->
           parseDocumentContentBounded limit content = Some (Throw rangeError))
       /\ (Forall (spreadFits limit) rs \/ Exists (spreadFails limit) rs)
       /\ Forall (fun r => resultShape (base r)) rs
       /\ (forall snippet,
              parseScriptContentDetailedBounded limit snippet
              = parseScriptContentDetailed snippet
              \/ parseScriptContentDetailedBounded limit snippet = rangeFailure snippet)
       /\ (forall snippet m,
              extractDataFromScript snippet = Throw m ->
              success (parseScriptContentDetailedBounded limit snippet) = false
              /\ error (parseScriptContentDetailedBounded limit snippet)
                 = Some (str "Parse failed: " ++ m))
       /\ (forall snippet,
              indexOf snippet (str "self.__next_f.push([") 0 = None ->
              extractDataFromScript snippet
              = Throw (str "Invalid Next.js script format"))
       /\ (forall snippet startIndex,
              indexOf snippet (str "self.__next_f.push([") 0 = Some startIndex ->
              match lastIndexOf snippet (str "])") with
              | None => True
              | Some contentEnd => contentEnd <= startIndex + 20
              end ->
              extractDataFromScript snippet
              = Throw (str "Invalid Next.js script format - mismatched brackets"))
       /\ (forall snippet cleanContent v,
              extractDataFromScript snippet = Ok cleanContent ->
              JSON_parse cleanContent = Ok v ->
              (forall a b t, v <> JArr (a :: b :: t)) ->
              success (parseScriptContentDetailedBounded limit snippet) = false
              /\ error (parseScriptContentDetailedBounded limit snippet)
                 = Some (str "Invalid data structure: Expected array with at least 2 elements"))
       /\ (~ contains content pushToken ->
           parseDocumentContentBounded limit content = Some (Ok emptyAggregate)).
Proof.
  destruct (parseDocumentContentBounded_eq limit content) as (pushCalls & E & H).
  exists pushCalls. split; [exact E|]. cbv zeta.
  pose proof (forOf_visit limit (combine (seq 0 (length pushCalls)) pushCalls) ([], []))
    as [Hfit Hfail]. cbv zeta in Hfit, Hfail.
  split; [intros Hf; rewrite H, (Hfit Hf); reflexivity|].
  split; [intros Hf; rewrite H, (Hfail Hf); reflexivity|].
  split; [apply spread_decided|].
  split; [apply resultsBounded_shape|].
  split; [intros snippet; apply parseScriptContentDetailedBounded_cases|].
  split; [intros snippet; apply (failure_as_data_bounded limit snippet)|].
  split; [intros snippet; apply (proj1 (extractDataFromScript_throws snippet))|].
  split; [intros snippet; apply (proj2 (extractDataFromScript_throws snippet))|].
  split; [intros snippet; apply (failure_as_data_bounded limit snippet)|].
  intros Hno. rewrite (extractPushCalls_no_token _ Hno) in E.
  injection E as <-. rewrite H. reflexivity.
Qed.

(** *** A bound that is large enough *)

Lemma entries_large (entries : list (nat * jsstring)) :
  exists L, forall limit, L <= limit ->
    map (indexedResultBounded limit) entries = map indexedResult entries
    /\ Forall (spreadFits limit) (map indexedResult entries).
Proof.
  induction entries as [|[i snippet] entries [L2 H2]].
  - exists 0. intros limit _. split; [reflexivity|constructor].
  - destruct (parseScriptContentDetailedBounded_large snippet) as [L1 H1].
    exists (Nat.max L1 (Nat.max L2 (length (components (parseScriptContentDetailed snippet))))).
    intros limit Hl. destruct (H2 limit ltac:(lia)) as [Hm Hf].
    cbn [map]. rewrite Hm. split.
    + f_equal. unfold indexedResultBounded, indexedResult. cbn [snd fst].
      rewrite H1 by lia. reflexivity.
    + constructor; [|exact Hf]. intros _. cbn [indexedResult base snd]. lia.
Qed.

(** X27.  The methods without a bound are the program on every engine
    whose bound is large enough for the text: from some bound on,
    [parseDocumentContent] returns the aggregate and [handleParse]
    leaves the state that the definitions without a bound give. *)
Theorem unbounded_for_large_limit (st : AppState) :
  exists L, forall limit, L <= limit ->
    parseDocumentContentBounded limit (input st)
    = option_map Ok (parseDocumentContent (input st))
    /\ handleParseBounded limit st = handleParse st.
Proof.
  destruct (parseDocumentContentBounded_eq 0 (input st)) as (pushCalls & E & _).
  destruct (entries_large (combine (seq 0 (length pushCalls)) pushCalls)) as [L HL].
  exists L. intros limit Hl. destruct (HL limit Hl) as [Hm Hf].
  assert (Hp : parseDocumentContentBounded limit (input st)
               = option_map Ok (parseDocumentContent (input st))).
  { destruct (parseDocumentContentBounded_eq limit (input st)) as (calls & E' & H).
    rewrite E in E'. injection E' as <-.
    destruct (parseDocumentContent_eq (input st)) as (calls & E' & Hpure).
    rewrite E in E'. injection E' as <-. cbv zeta in Hpure.
    rewrite H, Hpure.
    rewrite (proj1 (forOf_visit limit _ ([], []))) by (rewrite Hm; exact Hf).
    rewrite Hm. reflexivity. }
  split; [exact Hp|].
  unfold handleParseBounded, handleParse.
  cbn [input setParseInfo setParseStatus]. rewrite Hp.
  destruct (parseDocumentContent (input st)); reflexivity.
Qed.

(** *** A call with more nodes than the bound *)

Lemma jsonOk_strings (s : jsstring) (n : nat) :
  forallb jsonOk (repeat (JStr s) n) = true.
Proof. induction n as [|n IH]; [reflexivity|exact IH]. Qed.

Lemma headIsDollar_strings (n : nat) :
  headIsDollar (repeat (JStr (str "a")) n) = false.
Proof. destruct n; reflexivity. Qed.

Lemma parseComponentStructure_strings (n : nat) :
  parseComponentStructure (JArr (repeat (JStr (str "a")) n))
  = repeat (textNode (str "a")) n.
Proof.
  rewrite parseComponentStructure_eq, headIsDollar_strings.
  induction n as [|n IH]; [reflexivity|].
  cbn [repeat flat_map structureItem app]. rewrite IH. reflexivity.
Qed.

Lemma parseComponentStructureBounded_strings (limit fuel n : nat) :
  parseComponentStructureBounded limit (S fuel) (JArr (repeat (JStr (str "a")) n))
  = Ok (repeat (textNode (str "a")) n).
Proof.
  cbn [parseComponentStructureBounded]. rewrite headIsDollar_strings.
  rewrite (forOf_append _ (fun _ => [textNode (str "a")])).
  - cbn [app]. f_equal. induction n as [|n IH]; [reflexivity|].
    cbn [repeat flat_map app]. rewrite IH. reflexivity.
  - intros acc item Hin. apply repeat_spec in Hin. subst item. reflexivity.
Qed.

Lemma endsWith_brackets (x : jsstring) :
  endsWith (x ++ ["]"%char; "]"%char]) escapedNewlineClose = false.
Proof. unfold endsWith. rewrite rev_app_distr. reflexivity. Qed.

Lemma manyStrings_decoded (n : nat) :
  extractDataFromScript (manyStrings n)
  = Ok (JSON_stringify (JArr [JNum (Int 1); JArr (repeat (JStr (str "a")) n)]) 0).
Proof.
  assert (Hok : jsonOk (JArr [JNum (Int 1); JArr (repeat (JStr (str "a")) n)]) = true).
  { cbn [jsonOk forallb numberOk]. rewrite jsonOk_strings. reflexivity. }
  pose proof (extractDataFromScript_json_call
                [JNum (Int 1); JArr (repeat (JStr (str "a")) n)] 0 []
                (or_introl eq_refl) Hok) as H.
  rewrite app_nil_r in H. apply H; [discriminate|].
  destruct (stringify_snoc [JNum (Int 1)]) as [before Hb]. cbn [app] in Hb.
  rewrite Hb, <- JSON_stringify_compact.
  destruct (stringify_array (repeat (JStr (str "a")) n) 0) as (body & -> & _);
    [cbn [jsonOk]; apply jsonOk_strings|].
  replace ("["%char :: before ++ ("["%char :: body ++ ["]"%char]) ++ ["]"%char])
    with (("["%char :: before ++ "["%char :: body) ++ ["]"%char; "]"%char])
    by (cbn [app]; rewrite <- !app_assoc; reflexivity).
  apply endsWith_brackets.
Qed.

Lemma manyStrings_calls (n : nat) :
  extractPushCalls (manyStrings n) = Some [manyStrings n].
Proof.
  unfold manyStrings, callOf.
  destruct (stringify_array [JNum (Int 1); JArr (repeat (JStr (str "a")) n)] 0)
    as (body & -> & Hb).
  { cbn [jsonOk forallb numberOk]. rewrite jsonOk_strings. reflexivity. }
  destruct (extractPushCalls_bracketed [] [] body [] [] eq_refl eq_refl eq_refl Hb)
    as [H _].
  specialize (H eq_refl). cbn [app] in H. rewrite app_nil_r in H. exact H.
Qed.

Lemma manyStrings_result (n : nat) :
  parseScriptContentDetailed (manyStrings n)
  = componentDataResult (JArr (repeat (JStr (str "a")) n)).
Proof.
  unfold parseScriptContentDetailed, parseScriptContentTry.
  rewrite manyStrings_decoded, JSON_parse_stringify; [reflexivity|].
  cbn [jsonOk forallb numberOk]. rewrite jsonOk_strings. reflexivity.
Qed.

Lemma manyStrings_resultBounded (limit n : nat) :
  parseScriptContentDetailedBounded limit (manyStrings n)
  = componentDataResult (JArr (repeat (JStr (str "a")) n)).
Proof.
  unfold parseScriptContentDetailedBounded, parseScriptContentTryBounded.
  rewrite manyStrings_decoded, JSON_parse_stringify.
  - cbv zeta. replace (json_depth (JArr (repeat (JStr (str "a")) n)) + 2)
      with (S (json_depth (JArr (repeat (JStr (str "a")) n)) + 1)) by lia.
    rewrite parseComponentStructureBounded_strings. cbn [bind].
    unfold componentDataResult. rewrite parseComponentStructure_strings. reflexivity.
  - cbn [jsonOk forallb numberOk]. rewrite jsonOk_strings. reflexivity.
Qed.

(** C7 fails on the code.  The nodes of a successful call are passed to
    [combinedComponents.push(...parseResult.components)] outside any
    [try]: for a call with more nodes than the engine accepts as
    arguments of one call, here an array of strings, the [RangeError]
    leaves [parseDocumentContent].  Without a bound the same text gives
    one result, a success, and its text nodes. *)
Theorem parseDocumentContent_raises (limit : nat) :
  parseDocumentContentBounded limit (manyStrings (S limit))
  = Some (Throw rangeError)
  /\ exists agg,
       parseDocumentContent (manyStrings (S limit)) = Some agg
       /\ map base (results agg)
          = [componentDataResult (JArr (repeat (JStr (str "a")) (S limit)))]
       /\ combinedComponents agg = repeat (textNode (str "a")) (S limit).
Proof.
  split.
  - destruct (parseDocumentContentBounded_eq limit (manyStrings (S limit)))
      as (calls & E & H).
    rewrite manyStrings_calls in E. injection E as <-. rewrite H.
    rewrite (proj2 (forOf_visit limit _ ([], []))); [reflexivity|].
    constructor. unfold spreadFails. cbn [indexedResultBounded base snd].
    rewrite manyStrings_resultBounded.
    cbn [componentDataResult success components].
    rewrite parseComponentStructure_strings, repeat_length. split; [reflexivity|lia].
  - destruct (parseDocumentContent_of_calls _ _ (manyStrings_calls (S limit)))
      as (agg & Ha & _ & Hb & _ & Hc).
    exists agg. split; [exact Ha|]. split.
    + rewrite Hb. cbn [map]. rewrite manyStrings_result. reflexivity.
    + rewrite Hc. cbn [flat_map]. rewrite app_nil_r, nodesOfCall_components.
      rewrite manyStrings_result. cbn [componentDataResult components].
      apply parseComponentStructure_strings.
Qed.

(** *** The handler *)

Lemma aggregateOf_sum (combined : list ParsedComponent) (rs : list IndexedParseResult) :
  Forall (fun r => resultShape (base r)) rs ->
  let agg := aggregateOf (combined, rs) in
  totalScripts agg = successCount agg + moduleLoadingCount agg + failureCount agg.
Proof.
  intros Hs. cbn [aggregateOf totalScripts successCount moduleLoadingCount failureCount].
  assert (Hm : filter (fun r => dataTypeIs r ModuleLoading) rs
               = filter (fun r => success (base r) && dataTypeIs r ModuleLoading) rs).
  { apply (filter_ext_Forall _ _ _ _ Hs). intros r Hr.
    unfold resultShape in Hr. unfold dataTypeIs.
    destruct (success (base r)); [reflexivity|].
    destruct Hr as (_ & -> & _). reflexivity. }
  rewrite Hm. apply three_way_count, Hs.
Qed.

(** The state that [handleParse] leaves when [parseDocumentContent] has
    returned [agg]. *)
Lemma handleAggregate_status (agg : AggregatedParseResult) (st : AppState) :
  totalScripts agg = successCount agg + moduleLoadingCount agg + failureCount agg ->
  exists st',
    match handleAggregate agg st with
    | Ok st' => st'
    | Throw errorMessage =>
        setOutput (str "Unexpected Error: " ++ errorMessage)
                  (setParseInfo (str "Unexpected error: " ++ errorMessage)
                                (setParseStatus Error st))
    end = st'
    /\ input st' = input st
    /\ outputFormat st' = outputFormat st
    /\ (parseStatus st' = Success
        <-> (0 < successCount agg
             /\ (outputFormat st = JsonFormat
                 \/ exists out, formatAsReactComponents (combinedComponents agg) = Ok out))
            \/ (successCount agg = 0
                /\ 0 < moduleLoadingCount agg /\ failureCount agg = 0))
    /\ (parseStatus st' <> Success -> parseStatus st' = Error).
Proof.
  intros Hsum. unfold handleAggregate.
  destruct (totalScripts agg =? 0) eqn:Et.
  { apply Nat.eqb_eq in Et. eexists. split; [reflexivity|].
    cbn. repeat split; try discriminate; try tauto.
    intros [[H _]|(_ & H & _)]; lia. }
  destruct (0 <? successCount agg) eqn:Es.
  { apply Nat.ltb_lt in Es. cbn [outputFormat setParseInfo setParseStatus].
    destruct (outputFormat st) eqn:Ef.
    - cbn [bind]. destruct (0 <? failureCount agg); eexists;
        (split; [reflexivity|]); cbn;
        rewrite ?Ef; repeat split; auto; try tauto; try congruence.
    - destruct (formatAsReactComponents (combinedComponents agg)) as [out|m] eqn:Er.
      + cbn [bind]. destruct (0 <? failureCount agg); eexists;
          (split; [reflexivity|]); cbn;
          rewrite ?Ef; repeat split; eauto; try tauto; try congruence.
      + cbn [bind]. eexists. split; [reflexivity|]. cbn.
        rewrite ?Ef. repeat split; try discriminate; try tauto.
        intros [(_ & [H|[out H]])|(H & _)]; [discriminate|discriminate|lia]. }
  apply Nat.ltb_ge in Es.
  destruct ((0 <? moduleLoadingCount agg) && (failureCount agg =? 0)) eqn:Em.
  { apply andb_true_iff in Em as [Em1 Em2].
    apply Nat.ltb_lt in Em1. apply Nat.eqb_eq in Em2.
    eexists. split; [reflexivity|]. cbn.
    repeat split; try tauto; try congruence.
    intros _. right. lia. }
  eexists. split; [reflexivity|]. cbn.
  repeat split; try discriminate; try tauto.
  intros [[H _]|(_ & H1 & H2)]; [lia|].
  apply andb_false_iff in Em as [Em|Em];
    [apply Nat.ltb_ge in Em | apply Nat.eqb_neq in Em]; lia.
Qed.

(** X21.  [handleParse] always ends, leaves the input and the format as
    they were, and sets the status to success or to error.  It sets it
    to success exactly when [parseDocumentContent] has returned, without
    the [RangeError] of its line 66, an aggregate in which some call was
    a component-data success and the chosen formatter returned (the JSON
    formatter always does), or in which no call was one, some call was
    module-loading and none failed. *)
Theorem handleParse_status (limit : nat) (st : AppState) :
  exists outcome st',
    parseDocumentContentBounded limit (input st) = Some outcome
    /\ handleParseBounded limit st = Some st'
    /\ input st' = input st
    /\ outputFormat st' = outputFormat st
    /\ (parseStatus st' = Success
        <-> exists agg,
            outcome = Ok agg
            /\ ((0 < successCount agg
                 /\ (outputFormat st = JsonFormat
                     \/ exists out,
                         formatAsReactComponents (combinedComponents agg) = Ok out))
                \/ (successCount agg = 0
                    /\ 0 < moduleLoadingCount agg /\ failureCount agg = 0)))
    /\ (parseStatus st' <> Success -> parseStatus st' = Error).
Proof.
  destruct (parseDocumentContentBounded_eq limit (input st)) as (calls & _ & Hp).
  set (entries := combine (seq 0 (length calls)) calls) in *.
  pose proof (forOf_visit limit entries ([], [])) as [Hfit Hfail].
  cbv zeta in Hfit, Hfail.
  pose proof (resultsBounded_shape limit entries) as Hshape.
  unfold handleParseBounded. cbn [input setParseInfo setParseStatus]. rewrite Hp.
  destruct (spread_decided limit (map (indexedResultBounded limit) entries)) as [Hd|Hd].
  - rewrite (Hfit Hd). cbn [bind fst snd app]. eexists. cbn [bind].
    match goal with
    | |- context [handleAggregate ?a ?s] =>
        destruct (handleAggregate_status a s (aggregateOf_sum _ _ Hshape))
          as (st' & E & Hi & Ho & Hs & He)
    end.
    exists st'. split; [reflexivity|].
    split; [rewrite <- E; destruct (handleAggregate _ _); reflexivity|].
    split; [exact Hi|]. split; [exact Ho|]. split; [|exact He].
    rewrite Hs. cbn [outputFormat]. split.
    + intros H. eexists. split; [reflexivity|exact H].
    + intros (agg & [= <-] & H). exact H.
  - rewrite (Hfail Hd). eexists. cbn [bind]. eexists.
    split; [reflexivity|]. split; [reflexivity|]. cbn.
    repeat split; try discriminate; try tauto.
    intros (agg & H & _). discriminate H.
Qed.

(** * The examples of the specification, run *)

(** Number literals as [JSON.parse] reads them and [JSON.stringify]
    writes them again. *)
Example number_literals :
  map (fun text =>
         match JSON_parse (str text) with
         | Ok v => string_of_list_ascii (JSON_stringify v 0)
         | Throw _ => "SyntaxError"%string
         end)
      ["1.50"; "0.1"; "-0"; "1e21"; "1e-7"; "123456789012345680000";
       "9007199254740993"; "5e-324"; "0.30000000000000004"; "1e999";
       "100e-2"; "01"]%string
  = ["1.5"; "0.1"; "0"; "1e+21"; "1e-7"; "123456789012345680000";
     "9007199254740992"; "5e-324"; "0.30000000000000004"; "null";
     "1"; "SyntaxError"]%string.
Proof. vm_compute. reflexivity. Qed.

(** One call whose payload is an element with a class and a text child:
    one script, one success, and the element with the child consumed out
    of its properties. *)
Example one_call_document :
  option_map
    (fun a => (totalScripts a, successCount a, failureCount a,
               moduleLoadingCount a, combinedComponents a))
    (parseDocumentContent
       (qstr "self.__next_f.push([1,'4c:[\'$\',\'div\',null,{\'className\':\'a\',\'children\':\'hi\'}]\n'])"))
  = Some (1, 1, 0, 0,
          [mkParsedComponent (str "component") (JStr (str "div"))
                             [(str "className", JStr (str "a"))]
                             (Some [inr (str "hi")])]).
Proof. vm_compute. reflexivity. Qed.

(** Two calls of which the second has an unbalanced payload: two
    scripts, one success, one failure with a message, and the nodes of
    the first call only. *)
Example two_calls_one_malformed :
  option_map
    (fun a => (totalScripts a, successCount a, failureCount a,
               moduleLoadingCount a, combinedComponents a,
               map (fun r => error (base r)) (results a)))
    (parseDocumentContent
       (qstr "self.__next_f.push([1,'hello']) self.__next_f.push([2,'7:[1,'])"))
  = Some (2, 1, 1, 0, [textNode (str "hello")],
          [None; Some (str "Failed to parse component data structure")]).
Proof. vm_compute. reflexivity. Qed.

(** The two payloads of the classification example. *)
Example classification_examples :
  detectDataType (qstr "1f:I['static/chunks/123.js',[],'x']") = ModuleLoading
  /\ detectDataType (qstr "4c:['$','div',null,{'className':'a','children':'hi'}]")
     = ComponentData.
Proof. split; reflexivity. Qed.

(** A module-loading call is a success without nodes, counted apart. *)
Example module_loading_document :
  option_map
    (fun a => (totalScripts a, successCount a, failureCount a,
               moduleLoadingCount a, combinedComponents a))
    (parseDocumentContent
       (qstr "self.__next_f.push([1,'1f:I[\'static/chunks/123.js\',[],\'x\']'])"))
  = Some (1, 0, 0, 1, []).
Proof. vm_compute. reflexivity. Qed.

(** The text of the formatter for the element of the first example. *)
Example readable_json_text :
  formatAsReadableJson
    [mkParsedComponent (str "component") (JStr (str "div"))
                       [(str "className", JStr (str "a"))]
                       (Some [inr (str "hi")])]
  = qstr "["
      ++ newline ++ qstr "  {"
      ++ newline ++ qstr "    'type': 'component',"
      ++ newline ++ qstr "    'component': 'div',"
      ++ newline ++ qstr "    'props': {"
      ++ newline ++ qstr "      'className': 'a'"
      ++ newline ++ qstr "    },"
      ++ newline ++ qstr "    'children': ["
      ++ newline ++ qstr "      'hi'"
      ++ newline ++ qstr "    ]"
      ++ newline ++ qstr "  }"
      ++ newline ++ qstr "]".
Proof. vm_compute. reflexivity. Qed.
